(** * Dual bound propagation of [convex_adversarial/dual.py]

    A shallow embedding of the dual operators of [dual.py] (the uncertainty-set
    representatives, the per-layer dual operators, the ReLU relaxations and the
    orchestrator [DualNetBounds]) together with the properties stated about
    them.

    Conventions of the embedding.
    - Scalars are exact rationals ([Q]); rounding is not modelled.
    - A tensor keeps its leading dimensions as nested lists and its feature
      dimensions flattened in row-major order, so [view] on feature dimensions
      is the identity: [T1] is a bare feature block, [T2] is (batch, features)
      and [T3] is (batch, rows, features).
    - A Python exception is the [Raise] branch of [result].
    - History lists are Python lists of values; a value is a tensor or the
      Python integer [0] that [sum] and the [fval] methods return.
    - A method that changes its object ([apply]) returns the object after
      the call; the other methods return their value.
    - What lives outside [dual.py] (the forward pass of a module, the
      convolution primitives, [Aff.full_bias], [Aff.transpose_all], the
      square root, the batch statistics and the Cauchy samples) is gathered
      in the record [torch] and passed as a parameter.
    - [RobustBounds.forward] is embedded with the number of classes, which it
      reads off the last module of the network, as a parameter.  Of
      [robust_loss] the error flags are embedded, before they are averaged;
      the cross-entropy loss is not.  [select_L] and [ForwardPass] are not
      part of the embedding. *)

From Stdlib Require Import String QArith Qabs Lqa ZArith List Bool Arith Lia.
Import ListNotations.

Set Warnings "-register-all".

Open Scope Q_scope.

(** ** Exceptions *)

Inductive error : Type :=
| ValueError (msg : string)
| RuntimeError (msg : string)
| TypeError (msg : string)
| AttributeError (msg : string)
| IndexError (msg : string)
| AssertionError
| OutOfFuel.

Inductive result (A : Type) : Type :=
| Ok (a : A)
| Raise (e : error).

Arguments Ok {A} a.
Arguments Raise {A} e.

Definition bind {A B : Type} (m : result A) (k : A -> result B) : result B :=
  match m with
  | Ok a => k a
  | Raise e => Raise e
  end.

Notation "x <- m ;; k" := (bind m (fun x => k))
  (at level 61, m at next level, right associativity).
Notation "' pat <- m ;; k" := (bind m (fun x => match x with pat => k end))
  (at level 61, pat pattern, m at next level, right associativity).

Definition is_ok {A : Type} (m : result A) : bool :=
  match m with Ok _ => true | Raise _ => false end.

Fixpoint mapM {A B : Type} (f : A -> result B) (l : list A) : result (list B) :=
  match l with
  | [] => Ok []
  | x :: l' => y <- f x ;; ys <- mapM f l' ;; Ok (y :: ys)
  end.

Fixpoint zipM {A B C : Type} (f : A -> B -> result C)
  (xs : list A) (ys : list B) : result (list C) :=
  match xs, ys with
  | x :: xs', y :: ys' => z <- f x y ;; zs <- zipM f xs' ys' ;; Ok (z :: zs)
  | _, _ => Ok []
  end.

(** ** Tensors *)

Definition vec := list Q.

Inductive tensor : Type :=
| T1 (v : vec)
| T2 (m : list vec)
| T3 (t : list (list vec)).

(** A Python value held in a history list or returned by [fval]. *)
Inductive pyval : Type :=
| PyZero
| PyT (t : tensor).

Definition rank (t : tensor) : nat :=
  match t with T1 _ => 1%nat | T2 _ => 2%nat | T3 _ => 3%nat end.

(** Broadcasting of one dimension: equal sizes are paired, a size of one is
    repeated, anything else is a size mismatch. *)
Definition bzip {A B C : Type} (f : A -> B -> result C)
  (xs : list A) (ys : list B) : result (list C) :=
  if (length xs =? length ys)%nat then zipM f xs ys
  else match xs, ys with
       | [x], _ => mapM (f x) ys
       | _, [y] => mapM (fun x => f x y) xs
       | _, _ => Raise (RuntimeError "The size of tensor a must match the size of tensor b")
       end.

Definition bop1 (f : Q -> Q -> Q) (u v : vec) : result vec :=
  bzip (fun a b => Ok (f a b)) u v.
Definition bop2 (f : Q -> Q -> Q) (a b : list vec) : result (list vec) :=
  bzip (bop1 f) a b.
Definition bop3 (f : Q -> Q -> Q) (a b : list (list vec)) : result (list (list vec)) :=
  bzip (bop2 f) a b.

(** Elementwise binary operation with broadcasting; the operand of lower rank
    is aligned on the trailing dimensions. *)
Definition tbop (f : Q -> Q -> Q) (a b : tensor) : result tensor :=
  match a, b with
  | T1 u, T1 v => r <- bop1 f u v ;; Ok (T1 r)
  | T1 u, T2 m => r <- bop2 f [u] m ;; Ok (T2 r)
  | T2 m, T1 v => r <- bop2 f m [v] ;; Ok (T2 r)
  | T2 m, T2 m' => r <- bop2 f m m' ;; Ok (T2 r)
  | T1 u, T3 t => r <- bop3 f [[u]] t ;; Ok (T3 r)
  | T3 t, T1 v => r <- bop3 f t [[v]] ;; Ok (T3 r)
  | T2 m, T3 t => r <- bop3 f [m] t ;; Ok (T3 r)
  | T3 t, T2 m => r <- bop3 f t [m] ;; Ok (T3 r)
  | T3 t, T3 t' => r <- bop3 f t t' ;; Ok (T3 r)
  end.

Definition tmap (f : Q -> Q) (a : tensor) : tensor :=
  match a with
  | T1 v => T1 (map f v)
  | T2 m => T2 (map (map f) m)
  | T3 t => T3 (map (map (map f)) t)
  end.

Definition tadd := tbop Qplus.
Definition tsub := tbop Qminus.
Definition tmul := tbop Qmult.
Definition tdiv := tbop Qdiv.
Definition tneg := tmap Qopp.
Definition tabs := tmap Qabs.
Definition tscale (s : Q) := tmap (Qmult s).
(** [x.clamp(min=0)] *)
Definition clamp_min0 (q : Q) : Q := if Qle_bool 0 q then q else 0.

(** [x.unsqueeze(1)] on a (batch, features) tensor. *)
Definition unsqueeze1 (m : list vec) : list (list vec) := map (fun v => [v]) m.

(** Python [a + b] where either side may be the integer 0. *)
Definition pyadd (a b : pyval) : result pyval :=
  match a, b with
  | PyZero, _ => Ok b
  | _, PyZero => Ok a
  | PyT x, PyT y => r <- tadd x y ;; Ok (PyT r)
  end.

(** Python [sum(values)]: starts from the integer 0 and adds from the left. *)
Definition pysum (l : list pyval) : result pyval :=
  fold_left (fun acc v => a <- acc ;; pyadd a v) l (Ok PyZero).

(** The last element [xs[-1]] of a Python list. *)
Definition py_last {A : Type} (xs : list A) : result A :=
  match rev xs with
  | x :: _ => Ok x
  | [] => Raise (IndexError "list index out of range")
  end.

Definition sumQ (v : vec) : Q := fold_right Qplus 0 v.

Fixpoint dot (u v : vec) : Q :=
  match u, v with
  | a :: u', b :: v' => a * b + dot u' v'
  | _, _ => 0
  end.

(** ** Minibatched convolution helpers *)

Section Minibatch.

(** The convolution primitive of the tensor library on one sample; the
    library convolves every sample of the leading dimension on its own. *)
Variable prim : vec -> result vec.

Definition F_batched (x : list vec) : result (list vec) := mapM prim x.

(** [x[i:j]] *)
Definition slice {A : Type} (x : list A) (i j : nat) : list A :=
  firstn (j - i) (skipn i x).

(** [torch.cat(out, 0)]; an empty list of tensors is refused. *)
Definition torch_cat (out : list (list vec)) : result (list vec) :=
  match out with
  | [] => Raise (RuntimeError "expected a non-empty list of Tensors")
  | _ => Ok (concat out)
  end.

(** The [while i < x.size(0)] loop; [fuel] bounds the number of turns. *)
Fixpoint minibatch_loop (batch_size fuel i : nat) (x : list vec)
  (out : list (list vec)) : result (list (list vec)) :=
  if (i <? length x)%nat then
    match fuel with
    | O => Raise OutOfFuel
    | S fuel' =>
        y <- F_batched (slice x i (Nat.min (i + batch_size) (length x))) ;;
        minibatch_loop batch_size fuel' (i + batch_size) x (out ++ [y])
    end
  else Ok out.

Definition minibatched (batch_size : nat) (x : list vec) : result (list vec) :=
  out <- minibatch_loop batch_size (length x) 0 x [] ;;
  torch_cat out.

End Minibatch.

Definition batch_size : nat := 100 * 100.

(** [conv2d(x, *args, **kwargs)]: [prim] is [F.conv2d] with the arguments
    already supplied, on one sample. *)
Definition conv2d (prim : vec -> result vec) (x : list vec) : result (list vec) :=
  minibatched prim batch_size x.

(** [conv_transpose2d(x, *args, **kwargs)] *)
Definition conv_transpose2d (prim : vec -> result vec) (x : list vec)
  : result (list vec) :=
  minibatched prim batch_size x.

(** ** Shape helpers on flattened tensors *)

(** [n] consecutive groups of [k] elements. *)
Fixpoint chunks {A : Type} (k n : nat) (l : list A) : list (list A) :=
  match n with
  | O => []
  | S n' => firstn k l :: chunks k n' (skipn k l)
  end.

(** [A.view(n, -1, ...)] on the leading dimension. *)
Definition batch {A : Type} (l : list A) (n : nat) : result (list (list A)) :=
  if (n =? 0)%nat then Raise (RuntimeError "view: cannot infer the -1 dimension")
  else if (length l mod n =? 0)%nat then Ok (chunks (length l / n) n l)
  else Raise (RuntimeError "view: shape is invalid for input size").

(** [A.view(-1, ...)] merging the two leading dimensions. *)
Definition unbatch {A : Type} (l : list (list A)) : list A := concat l.

(** [m.view(n, -1)]: a (batch, features) block seen with [n] rows. *)
Definition view_rows {A : Type} (n : nat) (m : list (list A))
  : result (list (list A)) :=
  if (length m =? n)%nat then Ok m else batch (concat m) n.

(** [m.view(-1, n)]: a (batch, features) block seen with [n] columns; a
    block whose rows have [n] entries is left as it is. *)
Definition view_cols {A : Type} (n : nat) (m : list (list A))
  : result (list (list A)) :=
  if forallb (fun row => (length row =? n)%nat) m then Ok m
  else if (n =? 0)%nat then Raise (RuntimeError "view: shape is invalid for input size")
  else if (length (concat m) mod n =? 0)%nat
       then Ok (chunks n (length (concat m) / n) (concat m))
       else Raise (RuntimeError "view: shape is invalid for input size").

(** [t.view(t.size(0), -1)] *)
Definition flatten_rows (t : tensor) : list vec :=
  match t with
  | T1 v => map (fun q => [q]) v
  | T2 m => m
  | T3 t => map (@concat Q) t
  end.

(** The number of features of a (batch, features) block, standing for the
    trailing part [size()[1:]] of its size. *)
Definition features (m : list vec) : nat := length (hd [] m).

Definition transpose (m : list vec) : list vec :=
  map (fun i => map (fun row => nth i row 0) m) (seq 0 (features m)).

(** [a.mm(b)] *)
Definition mm (a b : list vec) : result (list vec) :=
  mapM (fun row =>
          if (length row =? length b)%nat
          then Ok (map (dot row) (transpose b))
          else Raise (RuntimeError "size mismatch")) a.

(** [m.sum(1)] on (batch, rows, features): the rows of every batch element
    are added up. *)
Definition sum_dim1 (t : tensor) : result tensor :=
  match t with
  | T1 _ => Raise (IndexError "Dimension out of range")
  | T2 m => Ok (T1 (map sumQ m))
  | T3 t => Ok (T2 (map (fun rows => map sumQ (transpose rows)) t))
  end.

(** Insertion sort, for the median. *)
Fixpoint insert_sorted (q : Q) (l : list Q) : list Q :=
  match l with
  | [] => [q]
  | x :: l' => if Qle_bool q x then q :: l else x :: insert_sorted q l'
  end.

Definition sort (l : list Q) : list Q := fold_right insert_sorted [] l.

(** The median the tensor library returns: the lower of the two middle
    elements when the count is even. *)
Definition median (l : list Q) : result Q :=
  match l with
  | [] => Raise (RuntimeError "median of an empty dimension")
  | _ => Ok (nth ((length l - 1) / 2) (sort l) 0)
  end.

(** [torch.median(t, 1)[0]] *)
Definition median_dim1 (v : pyval) : result tensor :=
  match v with
  | PyZero => Raise (TypeError "median(): argument 'input' must be Tensor, not int")
  | PyT (T1 _) => Raise (IndexError "Dimension out of range")
  | PyT (T2 m) => r <- mapM median m ;; Ok (T1 r)
  | PyT (T3 t) =>
      r <- mapM (fun rows =>
                   match rows with
                   | [] => Raise (RuntimeError "median of an empty dimension")
                   | _ => mapM median (transpose rows)
                   end) t ;;
      Ok (T2 r)
  end.

Definition as_tensor (v : pyval) : result tensor :=
  match v with
  | PyZero => Raise (AttributeError "'int' object has no attribute")
  | PyT t => Ok t
  end.

(** A tensor handed over as (batch, *features). *)
Definition as_batch (t : tensor) : list vec :=
  match t with
  | T1 v => map (fun q => [q]) v
  | T2 m => m
  | T3 t => map (@concat Q) t
  end.

(** A direction [nu.view(nu.size(0), nu.size(1), -1)].  Directions are
    (batch, objectives, features) tensors; with flattened features a tensor of
    lower rank has no such view and is refused. *)
Definition view_direction (v : pyval) : result (list (list vec)) :=
  match v with
  | PyZero => Raise (AttributeError "'int' object has no attribute 'view'")
  | PyT (T3 t) => Ok t
  | PyT _ => Raise (RuntimeError "view: direction without an objective dimension")
  end.

(** ** Masks *)

Definition mask := list (list bool).

(** [I.data.sum()] *)
Definition mask_sum (I : mask) : nat :=
  length (filter (fun b => b) (concat I)).

Fixpoint select_row (v : vec) (m : list bool) : result vec :=
  match v, m with
  | [], [] => Ok []
  | q :: v', b :: m' => r <- select_row v' m' ;; Ok (if b then q :: r else r)
  | _, _ => Raise (IndexError "The shape of the mask does not match the indexed tensor")
  end.

(** [t[I]]: the entries selected by the mask, in row-major order. *)
Fixpoint masked_select (t : list vec) (I : mask) : result vec :=
  match t, I with
  | [], [] => Ok []
  | v :: t', m :: I' =>
      r <- select_row v m ;; rs <- masked_select t' I' ;; Ok (r ++ rs)
  | _, _ => Raise (IndexError "The shape of the mask does not match the indexed tensor")
  end.

Fixpoint add_row (v : vec) (m : list bool) (w : vec) : result (vec * vec) :=
  match v, m with
  | [], [] => Ok ([], w)
  | q :: v', true :: m' =>
      match w with
      | [] => Raise (RuntimeError "shape mismatch: value tensor cannot be broadcast to indexing result")
      | x :: w' => '(r, rest) <- add_row v' m' w' ;; Ok ((q + x) :: r, rest)
      end
  | q :: v', false :: m' => '(r, rest) <- add_row v' m' w ;; Ok (q :: r, rest)
  | _, _ => Raise (IndexError "The shape of the mask does not match the indexed tensor")
  end.

Fixpoint masked_add_rows (t : list vec) (I : mask) (w : vec)
  : result (list vec * vec) :=
  match t, I with
  | [], [] => Ok ([], w)
  | v :: t', m :: I' =>
      '(r, rest) <- add_row v m w ;;
      '(rs, rest') <- masked_add_rows t' I' rest ;;
      Ok (r :: rs, rest')
  | _, _ => Raise (IndexError "The shape of the mask does not match the indexed tensor")
  end.

(** [t[I] += w] *)
Definition masked_add (t : list vec) (I : mask) (w : vec) : result (list vec) :=
  '(r, rest) <- masked_add_rows t I w ;;
  match rest with
  | [] => Ok r
  | _ => Raise (RuntimeError "shape mismatch: value tensor cannot be broadcast to indexing result")
  end.

Fixpoint true_positions (i : nat) (m : list bool) : list nat :=
  match m with
  | [] => []
  | b :: m' => if b then i :: true_positions (S i) m' else true_positions (S i) m'
  end.

Fixpoint nonzero_from (b : nat) (I : mask) : list (nat * nat) :=
  match I with
  | [] => []
  | m :: I' => map (fun f => (b, f)) (true_positions 0 m) ++ nonzero_from (S b) I'
  end.

(** [I.nonzero()] on a (batch, features) mask: the (row, column) pairs of the
    set entries in row-major order. *)
Definition nonzero (I : mask) : list (nat * nat) := nonzero_from 0 I.

(** A row of [n] zeros with [q] written at column [j]. *)
Definition one_hot (n j : nat) (q : Q) : vec :=
  map (fun i => if (i =? j)%nat then q else 0) (seq 0 n).

(** [I.type_as(nu)] *)
Definition mask_to_float (I : mask) : list vec :=
  map (map (fun b : bool => if b then 1 else 0)) I.

(** [x - t] and [x + t] where [x] may be the Python integer 0. *)
Definition pysub_t (x : pyval) (t : tensor) : result tensor :=
  match x with
  | PyZero => Ok (tmap (Qminus 0) t)
  | PyT a => tsub a t
  end.

Definition pyadd_t (x : pyval) (t : tensor) : result tensor :=
  match x with
  | PyZero => Ok (tmap (Qplus 0) t)
  | PyT a => tadd a t
  end.

Definition dot_strict (u v : vec) : result Q :=
  if (length u =? length v)%nat then Ok (dot u v)
  else Raise (RuntimeError "size mismatch").

(** [nu.matmul(v)] for a direction (batch, objectives, features) and a
    feature vector. *)
Definition matmul_vec (nu : list (list vec)) (v : vec) : result (list vec) :=
  mapM (mapM (fun row => dot_strict row v)) nu.

(** [nu.matmul(m.unsqueeze(2)).squeeze(2)] for a direction and a
    (batch, features) block; the batch dimensions broadcast. *)
Definition matmul_batch (nu : list (list vec)) (m : list vec) : result (list vec) :=
  bzip (fun nb xb => mapM (fun row => dot_strict row xb) nb) nu m.

(** [t.view(-1)] *)
Definition flat_all (t : tensor) : vec :=
  match t with
  | T1 v => v
  | T2 m => concat m
  | T3 t => concat (concat t)
  end.

(** ** Network layers *)

Inductive layer : Type :=
| Linear (in_features out_features : nat) (weight : list vec) (bias : option vec)
| Conv2d (weight : list (list (list vec))) (stride padding : nat * nat)
         (bias : option vec)
| ReLU
| Sequential (mods : list layer)
| Dense (Ws : list (option layer))
| BatchNorm2d (training : bool) (running_mean running_var : vec) (eps : Q)
              (weight bias : vec)
| CustomModule (class_name : string).

(** What the code takes from outside [dual.py]: the tensor library and the
    modules [affine.py] and [dense.py]. *)
Record torch : Type := {
  (** the forward pass of a module on its argument list *)
  module_forward : layer -> list (list vec) -> result (list vec);
  (** [F.conv2d(x, weight, stride=, padding=)] on one sample *)
  F_conv2d : list (list (list vec)) -> nat * nat -> nat * nat -> vec -> result vec;
  (** [F.conv_transpose2d(x, weight, stride=, padding=)] on one sample *)
  F_conv_transpose2d :
    list (list (list vec)) -> nat * nat -> nat * nat -> vec -> result vec;
  (** [Aff.full_bias(layer, out_features[1:])] *)
  full_bias : layer -> nat -> result tensor;
  (** [Aff.transpose_all(net)] *)
  transpose_all : list layer -> result (list layer);
  (** [torch.sqrt] on a scalar *)
  torch_sqrt : Q -> Q;
  (** per-channel mean and variance of a minibatch: the minibatch is
      transposed to put the channels first, viewed with one row per channel,
      and [mean(1)] and [var(1)] are taken *)
  channel_mean_var : list vec -> vec * vec;
  (** the stream the Cauchy samples are drawn from *)
  cauchy_ : nat -> Q
}.

(** The process state threaded through construction: the position in the
    sample stream and the warnings emitted so far. *)
Record world : Type := { rng_pos : nat; warnings : list string }.

Definition draw (E : torch) (n : nat) (w : world) : vec * world :=
  (map (cauchy_ E) (seq (rng_pos w) n),
   {| rng_pos := rng_pos w + n; warnings := warnings w |}).

Definition warn (msg : string) (w : world) : world :=
  {| rng_pos := rng_pos w; warnings := warnings w ++ [msg] |}.

(** What an [fval] method returns: the pair of bounds when no direction is
    given, one contribution otherwise. *)
Inductive fret : Type :=
| Bounds (l u : pyval)
| Contrib (v : pyval).

(** The operator [dual_layer] handed to an [apply] method, as the method sees
    it: its [affine] and whether it is an instance of [DualReLU]. *)
Record pushed : Type := {
  pushed_affine : list pyval -> option (list (nat * nat)) -> result pyval;
  pushed_is_DualReLU : bool
}.

(** ** Uncertainty-set representatives *)

Definition eye (n : nat) : list vec :=
  map (fun i => one_hot n i 1) (seq 0 n).

Module InfBall.

Record t : Type := mk { epsilon : Q; nu_x : list pyval; nu_1 : list pyval }.

Definition init (X : list vec) (epsilon : Q) : result t :=
  match X with
  | [] => Raise (IndexError "index 0 is out of bounds for dimension 0 with size 0")
  | x0 :: _ =>
      let n := length x0 in
      Ok {| epsilon := epsilon;
            nu_x := [PyT (T2 X)];
            nu_1 := [PyT (T3 [eye n])] |}
  end.

Definition apply (self : t) (dual_layer : pushed) : result t :=
  x <- pushed_affine dual_layer (nu_x self) None ;;
  y <- pushed_affine dual_layer (nu_1 self) None ;;
  Ok {| epsilon := epsilon self;
        nu_x := nu_x self ++ [x];
        nu_1 := nu_1 self ++ [y] |}.

(** The branch of [fval] taken with a direction; it reads [epsilon] and
    [nu_x[0]] alone, and [InfBallProj.fval] calls it on its own fields. *)
Definition fval_direction (epsilon : Q) (nu_x : list pyval) (nu : pyval)
  : result fret :=
  nu3 <- view_direction nu ;;
  match nu_x with
  | [] => Raise (IndexError "list index out of range")
  | x0 :: _ =>
      x0t <- as_tensor x0 ;;
      nux <- matmul_batch nu3 (flatten_rows x0t) ;;
      let l1 := map (map (fun row => epsilon * sumQ (map Qabs row))) nu3 in
      r <- tsub (tneg (T2 nux)) (T2 l1) ;;
      Ok (Contrib (PyT r))
  end.

Definition fval (self : t) (nu nu_prev : option pyval) : result fret :=
  match nu with
  | None =>
      last1 <- py_last (nu_1 self) ;;
      t1 <- as_tensor last1 ;;
      l1 <- sum_dim1 (tabs t1) ;;
      x <- py_last (nu_x self) ;;
      lo <- pysub_t x (tscale (epsilon self) l1) ;;
      hi <- pyadd_t x (tscale (epsilon self) l1) ;;
      Ok (Bounds (PyT lo) (PyT hi))
  | Some nu => fval_direction (epsilon self) (nu_x self) nu
  end.

End InfBall.

Module InfBallProj.

Record t : Type := mk { epsilon : Q; nu_x : list pyval; nu : list pyval }.

Definition init (E : torch) (X : list vec) (epsilon : Q) (k : nat) (w : world)
  : result (t * world) :=
  match X with
  | [] => Raise (IndexError "index 0 is out of bounds for dimension 0 with size 0")
  | x0 :: _ =>
      let '(s, w') := draw E (k * length x0) w in
      Ok ({| epsilon := epsilon;
             nu_x := [PyT (T2 X)];
             nu := [PyT (T3 [chunks (length x0) k s])] |}, w')
  end.

Definition apply (self : t) (dual_layer : pushed) : result t :=
  x <- pushed_affine dual_layer (nu_x self) None ;;
  y <- pushed_affine dual_layer (nu self) None ;;
  Ok {| epsilon := epsilon self;
        nu_x := nu_x self ++ [x];
        nu := nu self ++ [y] |}.

Definition fval (self : t) (nu' nu_prev : option pyval) : result fret :=
  match nu' with
  | None =>
      last1 <- py_last (nu self) ;;
      t1 <- as_tensor last1 ;;
      l1 <- median_dim1 (PyT (tabs t1)) ;;
      x <- py_last (nu_x self) ;;
      lo <- pysub_t x (tscale (epsilon self) l1) ;;
      hi <- pyadd_t x (tscale (epsilon self) l1) ;;
      Ok (Bounds (PyT lo) (PyT hi))
  | Some d => InfBall.fval_direction (epsilon self) (nu_x self) d
  end.

End InfBallProj.

(** ** Affine, convolution and reshape operators *)

(** [F.linear(x, weight)] for a weight with [in_features] columns: every
    feature vector [v] becomes [weight v]. *)
Definition linear_row (in_features : nat) (weight : list vec) (v : vec)
  : result vec :=
  if (length v =? in_features)%nat then Ok (map (dot v) weight)
  else Raise (RuntimeError "size mismatch").

Definition F_linear (x : pyval) (in_features : nat) (weight : list vec)
  : result pyval :=
  match x with
  | PyZero => Raise (TypeError "linear(): argument 'input' must be Tensor, not int")
  | PyT (T1 v) => r <- linear_row in_features weight v ;; Ok (PyT (T1 r))
  | PyT (T2 m) => r <- mapM (linear_row in_features weight) m ;; Ok (PyT (T2 r))
  | PyT (T3 t) =>
      r <- mapM (mapM (linear_row in_features weight)) t ;; Ok (PyT (T3 r))
  end.

(** [weight.t()] for a weight with [in_features] columns. *)
Definition weight_t (in_features : nat) (weight : list vec) : list vec :=
  map (fun i => map (fun row => nth i row 0) weight) (seq 0 in_features).

Module DualLinear.

(** [bias] is [None] or the history list of the bias. *)
Record t : Type := mk { layer_ : layer; bias : option (list pyval) }.

Definition init (E : torch) (l : layer) (out_features : nat) : result t :=
  match l with
  | Linear _ _ _ b =>
      match b with
      | None => Ok {| layer_ := l; bias := None |}
      | Some _ =>
          fb <- full_bias E l out_features ;;
          Ok {| layer_ := l; bias := Some [PyT fb] |}
      end
  | _ => Raise (ValueError "Expected nn.Linear input.")
  end.

Definition apply (self : t) (dual_layer : pushed) : result t :=
  match bias self with
  | None => Ok self
  | Some bs =>
      b <- pushed_affine dual_layer bs None ;;
      Ok {| layer_ := layer_ self; bias := Some (bs ++ [b]) |}
  end.

Definition fval (self : t) (nu nu_prev : option pyval) : result fret :=
  match nu with
  | None =>
      match bias self with
      | None => Ok (Bounds PyZero PyZero)
      | Some bs => b <- py_last bs ;; Ok (Bounds b b)
      end
  | Some nu =>
      match bias self with
      | None => Ok (Contrib PyZero)
      | Some bs =>
          nu3 <- view_direction nu ;;
          match bs with
          | [] => Raise (IndexError "list index out of range")
          | b0 :: _ =>
              b0t <- as_tensor b0 ;;
              r <- matmul_vec nu3 (flat_all b0t) ;;
              Ok (Contrib (PyT (tneg (T2 r))))
          end
      end
  end.

Definition affine (self : t) (xs : list pyval) : result pyval :=
  x <- py_last xs ;;
  match layer_ self with
  | Linear in_features _ weight _ => F_linear x in_features weight
  | _ => Raise (AttributeError "layer has no attribute 'weight'")
  end.

Definition affine_transpose (self : t) (xs : list pyval) : result pyval :=
  x <- py_last xs ;;
  match layer_ self with
  | Linear in_features out_features weight _ =>
      F_linear x out_features (weight_t in_features weight)
  | _ => Raise (AttributeError "layer has no attribute 'weight'")
  end.

End DualLinear.

Module DualConv2d.

(** [class DualConv2d(DualLinear)]: the same fields; [apply] and [fval] are
    inherited. *)
Definition t : Type := DualLinear.t.

Definition init (E : torch) (l : layer) (out_features : nat) : result t :=
  match l with
  | Conv2d _ _ _ b =>
      match b with
      | None => Ok {| DualLinear.layer_ := l; DualLinear.bias := None |}
      | Some _ =>
          fb <- full_bias E l out_features ;;
          Ok {| DualLinear.layer_ := l; DualLinear.bias := Some [PyT fb] |}
      end
  | _ => Raise (ValueError "Expected nn.Conv2d input.")
  end.

(** The body shared by [affine] and [affine_transpose]: a tensor with a
    row dimension is unbatched before the minibatched helper and batched
    again after it. *)
Definition through (helper : list vec -> result (list vec)) (x : pyval)
  : result pyval :=
  match x with
  | PyZero => Raise (AttributeError "'int' object has no attribute 'dim'")
  | PyT (T3 t) =>
      let n := length t in
      out <- helper (unbatch t) ;;
      r <- batch out n ;;
      Ok (PyT (T3 r))
  | PyT (T2 m) => out <- helper m ;; Ok (PyT (T2 out))
  | PyT (T1 _) => Raise (RuntimeError "Expected 4-dimensional input")
  end.

Definition affine (E : torch) (self : t) (xs : list pyval) : result pyval :=
  x <- py_last xs ;;
  match DualLinear.layer_ self with
  | Conv2d weight stride padding _ =>
      through (conv2d (F_conv2d E weight stride padding)) x
  | _ => Raise (AttributeError "layer has no attribute 'weight'")
  end.

Definition affine_transpose (E : torch) (self : t) (xs : list pyval)
  : result pyval :=
  x <- py_last xs ;;
  match DualLinear.layer_ self with
  | Conv2d weight stride padding _ =>
      through (conv_transpose2d (F_conv_transpose2d E weight stride padding)) x
  | _ => Raise (AttributeError "layer has no attribute 'weight'")
  end.

End DualConv2d.

(** [x.view(leading + f)]: with flattened features the view keeps the data
    and is possible when every feature block has [f] elements. *)
Definition view_features (f : nat) (x : pyval) : result pyval :=
  let ok (v : vec) := (length v =? f)%nat in
  match x with
  | PyZero => Raise (AttributeError "'int' object has no attribute 'size'")
  | PyT (T1 v) =>
      if ok v then Ok x else Raise (RuntimeError "view: shape is invalid for input size")
  | PyT (T2 m) =>
      if forallb ok m then Ok x
      else Raise (RuntimeError "view: shape is invalid for input size")
  | PyT (T3 t) =>
      if forallb (forallb ok) t then Ok x
      else Raise (RuntimeError "view: shape is invalid for input size")
  end.

Module DualReshape.

(** [in_f] and [out_f] hold the feature counts of [in_f[1:]] and
    [out_f[1:]]. *)
Record t : Type := mk { in_f : nat; out_f : nat }.

Definition init (in_f out_f : nat) : t := {| in_f := in_f; out_f := out_f |}.

Definition affine (self : t) (xs : list pyval) : result pyval :=
  x <- py_last xs ;; view_features (out_f self) x.

Definition affine_transpose (self : t) (xs : list pyval) : result pyval :=
  x <- py_last xs ;; view_features (in_f self) x.

Definition apply (self : t) (dual_layer : pushed) : result t := Ok self.

Definition fval (self : t) (nu nu_prev : option pyval) : result fret :=
  match nu with
  | None => Ok (Bounds PyZero PyZero)
  | Some _ => Ok (Contrib PyZero)
  end.

End DualReshape.

Module DualSequential.

Definition affine (xs : list pyval) : result pyval := py_last xs.

Definition affine_transpose (xs : list pyval) : result pyval := py_last xs.

Definition fval (nu nu_prev : option pyval) : result fret :=
  match nu with
  | None => Ok (Bounds PyZero PyZero)
  | Some _ => Ok (Contrib PyZero)
  end.

End DualSequential.

(** ** ReLU relaxations *)

(** [d[index]] for a list of row indices. *)
Definition index_rows {A : Type} (m : list A) (index : list nat) : result (list A) :=
  mapM (fun b => match nth_error m b with
                 | Some row => Ok row
                 | None => Raise (IndexError "index out of range")
                 end) index.

(** [m.view(-1, *t.size()[1:])]: a (batch, features) block seen with the
    trailing dimensions of [t]. *)
Definition view_like (t : tensor) (m : list vec) : tensor :=
  match t with
  | T1 _ => T1 (concat m)
  | T2 _ => T2 m
  | T3 t3 => T3 (map (fun row => chunks (features (hd [] t3)) (length (hd [] t3)) row) m)
  end.

Module DualReLU.

(** [I_ind], [nus] and [I_collapse] exist when [I_empty] is false; they are
    empty lists otherwise. *)
Record t : Type := mk {
  I_empty : bool;
  I_ind : list (nat * nat);
  nus : list pyval;
  I_collapse : list vec;
  d : list vec;
  I : mask;
  zl : list vec
}.

Definition init (I : mask) (d zl : list vec) : result t :=
  match d with
  | [] => Raise (IndexError "index 0 is out of bounds for dimension 0 with size 0")
  | d0 :: _ =>
      let n := length d0 in
      if (0 <? mask_sum I)%nat then
        Iv <- view_cols n I ;;
        let I_ind := nonzero Iv in
        dI <- masked_select d I ;;
        nus0 <- zipM (fun (bf : nat * nat) (q : Q) =>
                        if (snd bf <? n)%nat then Ok (one_hot n (snd bf) q)
                        else Raise (RuntimeError "scatter: index out of bounds"))
                     I_ind dI ;;
        I_collapse <- mapM (fun bf : nat * nat =>
                              if (fst bf <? length zl)%nat
                              then Ok (one_hot (length zl) (fst bf) 1)
                              else Raise (RuntimeError "scatter: index out of bounds"))
                           I_ind ;;
        Ok {| I_empty := false; I_ind := I_ind; nus := [PyT (T2 nus0)];
              I_collapse := I_collapse; d := d; I := I; zl := zl |}
      else
        Ok {| I_empty := true; I_ind := []; nus := []; I_collapse := [];
              d := d; I := I; zl := zl |}
  end.

Definition apply (self : t) (dual_layer : pushed) : result t :=
  if I_empty self then Ok self
  else
    x <- (if pushed_is_DualReLU dual_layer
          then pushed_affine dual_layer (nus self) (Some (I_ind self))
          else pushed_affine dual_layer (nus self) None) ;;
    Ok {| I_empty := I_empty self; I_ind := I_ind self;
          nus := nus self ++ [x]; I_collapse := I_collapse self;
          d := d self; I := I self; zl := zl self |}.

(** The branch of [fval] taken when [nu_prev] is given; it reads [I_empty],
    [zl] and [I] alone, and [DualReLUProj.fval] calls it on its own
    fields. *)
Definition fval_direction (I_empty : bool) (zl : list vec) (I : mask)
  (nu_prev : pyval) : result fret :=
  if I_empty then Ok (Contrib PyZero)
  else
    nu3 <- view_direction nu_prev ;;
    let n := length nu3 in
    zlv <- view_rows n zl ;;
    Iv <- view_rows n I ;;
    p <- bop3 Qmult (map (map (map clamp_min0)) nu3) (unsqueeze1 zlv) ;;
    r <- matmul_batch p (mask_to_float Iv) ;;
    Ok (Contrib (PyT (T2 r))).

Definition fval (self : t) (nu nu_prev : option pyval) : result fret :=
  match nu_prev with
  | None =>
      if I_empty self then Ok (Bounds PyZero PyZero)
      else
        last <- py_last (nus self) ;;
        lt <- as_tensor last ;;
        let nu := flatten_rows lt in
        zlI <- masked_select (zl self) (I self) ;;
        a <- bop2 Qmult [zlI]
               (map (map clamp_min0) (map (map Qopp) (transpose nu))) ;;
        zl' <- mm a (I_collapse self) ;;
        b <- bop2 Qmult [zlI] (map (map clamp_min0) (transpose nu)) ;;
        zu' <- mm b (I_collapse self) ;;
        Ok (Bounds (PyT (view_like lt (transpose zl')))
                   (PyT (view_like lt (map (map Qopp) (transpose zu')))))
  | Some nu_prev => fval_direction (I_empty self) (zl self) (I self) nu_prev
  end.

Definition affine (self : t) (xs : list pyval)
  (I_ind : option (list (nat * nat))) : result pyval :=
  x <- py_last xs ;;
  xt <- as_tensor x ;;
  let d := if (2 <? rank xt)%nat then T3 (unsqueeze1 (d self)) else T2 (d self) in
  match I_ind with
  | Some ind =>
      dsel <- match d with
              | T3 d3 => r <- index_rows d3 (map fst ind) ;; Ok (T3 r)
              | T2 d2 => r <- index_rows d2 (map fst ind) ;; Ok (T2 r)
              | T1 v => Ok (T1 v)
              end ;;
      r <- tmul dsel xt ;;
      Ok (PyT r)
  | None => r <- tmul d xt ;; Ok (PyT r)
  end.

Definition affine_transpose (self : t) (xs : list pyval) : result pyval :=
  affine self xs None.

End DualReLU.

(** One row of the masked assignment of samples: a set entry takes the next
    sample of the stream, the others stay zero. *)
Fixpoint fill_row (E : torch) (m : list bool) (p : nat) : vec * nat :=
  match m with
  | [] => ([], p)
  | true :: m' => let '(r, p') := fill_row E m' (S p) in (cauchy_ E p :: r, p')
  | false :: m' => let '(r, p') := fill_row E m' p in (0 :: r, p')
  end.

Fixpoint fill_rows (E : torch) (m : list bool) (k p : nat) : list vec * nat :=
  match k with
  | O => ([], p)
  | S k' =>
      let '(r, p') := fill_row E m p in
      let '(rs, p'') := fill_rows E m k' p' in
      (r :: rs, p'')
  end.

Fixpoint fill_batches (E : torch) (I : mask) (k p : nat)
  : list (list vec) * nat :=
  match I with
  | [] => ([], p)
  | m :: I' =>
      let '(r, p') := fill_rows E m k p in
      let '(rs, p'') := fill_batches E I' k p' in
      (r :: rs, p'')
  end.

(** [t - x] where [x] may be the Python integer 0. *)
Definition tsub_py (t : tensor) (x : pyval) : result tensor :=
  match x with
  | PyZero => Ok (tmap (fun q => q - 0) t)
  | PyT b => tsub t b
  end.

Module DualReLUProj.

(** [class DualReLUProj(DualReLU)]; [nus] and [nu_ones] exist when
    [I_empty] is false and are empty lists otherwise. *)
Record t : Type := mk {
  d : list vec;
  I : mask;
  zl : list vec;
  I_empty : bool;
  nus : list pyval;
  nu_ones : list pyval
}.

Definition init (E : torch) (I : mask) (d zl : list vec) (k : Z) (w : world)
  : result (t * world) :=
  if (mask_sum I =? 0)%nat then
    Ok ({| d := d; I := I; zl := zl; I_empty := true; nus := []; nu_ones := [] |},
        warn "ReLU projection has no origin crossing activations" w)
  else if (k <? 0)%Z then
    Raise (RuntimeError "Trying to create tensor with negative dimension")
  else
    let f := features d in
    if negb (forallb (fun row : list bool => (length row =? f)%nat) I) then
      Raise (RuntimeError "The expanded size of the tensor must match the existing size")
    else
      let '(nu, p) := fill_batches E I (Z.to_nat k) (rng_pos w) in
      let w' := {| rng_pos := p; warnings := warnings w |} in
      let nu_one := mask_to_float I in
      nu <- bop3 Qmult (unsqueeze1 zl) nu ;;
      nu_one <- bop2 Qmult zl nu_one ;;
      nus0 <- bop3 Qmult (unsqueeze1 d) nu ;;
      nu_ones0 <- bop2 Qmult d nu_one ;;
      Ok ({| d := d; I := I; zl := zl; I_empty := false;
             nus := [PyT (T3 nus0)]; nu_ones := [PyT (T2 nu_ones0)] |}, w').

Definition apply (self : t) (dual_layer : pushed) : result t :=
  if I_empty self then Ok self
  else
    x <- pushed_affine dual_layer (nus self) None ;;
    y <- pushed_affine dual_layer (nu_ones self) None ;;
    Ok {| d := d self; I := I self; zl := zl self; I_empty := I_empty self;
          nus := nus self ++ [x]; nu_ones := nu_ones self ++ [y] |}.

Definition fval (self : t) (nu nu_prev : option pyval) : result fret :=
  match nu_prev with
  | None =>
      if I_empty self then Ok (Bounds PyZero PyZero)
      else
        last <- py_last (nus self) ;;
        lt <- as_tensor last ;;
        n <- median_dim1 (PyT (tabs lt)) ;;
        no <- py_last (nu_ones self) ;;
        lo <- tsub_py (tneg n) no ;;
        hi <- tsub_py n no ;;
        Ok (Bounds (PyT (tmap (fun q => q / 2) lo))
                   (PyT (tmap (fun q => q / 2) hi)))
  | Some nu_prev =>
      DualReLU.fval_direction (I_empty self) (zl self) (I self) nu_prev
  end.

(** [affine] and [affine_transpose] are inherited from [DualReLU] and read
    [d] alone. *)
Definition as_DualReLU (self : t) : DualReLU.t :=
  {| DualReLU.I_empty := I_empty self; DualReLU.I_ind := [];
     DualReLU.nus := nus self; DualReLU.I_collapse := [];
     DualReLU.d := d self; DualReLU.I := I self; DualReLU.zl := zl self |}.

Definition affine (self : t) (xs : list pyval)
  (I_ind : option (list (nat * nat))) : result pyval :=
  DualReLU.affine (as_DualReLU self) xs I_ind.

Definition affine_transpose (self : t) (xs : list pyval) : result pyval :=
  affine self xs None.

End DualReLUProj.

(** ** Normalization *)

(** A per-channel vector of shape (C,1,1) expanded over feature blocks of [f]
    elements: every channel value is repeated over its H*W positions. *)
Definition expand_channels (v : vec) (f : nat) : result vec :=
  let c := length v in
  if (c =? 0)%nat then
    if (f =? 0)%nat then Ok []
    else Raise (RuntimeError "The expanded size of the tensor must match the existing size")
  else if (f mod c =? 0)%nat then Ok (flat_map (fun q => repeat q (f / c)) v)
  else Raise (RuntimeError "The expanded size of the tensor must match the existing size").

(** [D * v] for a per-channel [D] and one feature block [v]. *)
Definition scale_channels (D v : vec) : result vec :=
  De <- expand_channels D (length v) ;;
  zipM (fun a b => Ok (a * b)) De v.

Module DualBatchNorm2d.

Record t : Type := mk { D : vec; ds : list pyval }.

Definition init (E : torch) (l : layer) (minibatch : list vec)
  (out_features : nat) : result t :=
  match l with
  | BatchNorm2d training running_mean running_var eps weight bias =>
      let '(mu, var) :=
        if training then channel_mean_var E minibatch
        else (running_mean, running_var) in
      let denom := map (fun v => torch_sqrt E (v + eps)) var in
      D <- bop1 Qdiv weight denom ;;
      q <- bop1 Qdiv mu denom ;;
      wq <- bop1 Qmult weight q ;;
      shift <- bop1 Qminus bias wq ;;
      ds0 <- expand_channels shift out_features ;;
      Ok {| D := D; ds := [PyT (T1 ds0)] |}
  | _ => Raise (AttributeError "layer has no attribute 'running_mean'")
  end.

Definition affine (self : t) (xs : list pyval) : result pyval :=
  x <- py_last xs ;;
  match x with
  | PyZero => Ok (PyT (T1 (map (fun q => q * 0) (D self))))
  | PyT (T1 v) => r <- scale_channels (D self) v ;; Ok (PyT (T1 r))
  | PyT (T2 m) => r <- mapM (scale_channels (D self)) m ;; Ok (PyT (T2 r))
  | PyT (T3 t) => r <- mapM (mapM (scale_channels (D self))) t ;; Ok (PyT (T3 r))
  end.

Definition affine_transpose (self : t) (xs : list pyval) : result pyval :=
  affine self xs.

Definition apply (self : t) (dual_layer : pushed) : result t :=
  x <- pushed_affine dual_layer (ds self) None ;;
  Ok {| D := D self; ds := ds self ++ [x] |}.

Definition fval (self : t) (nu nu_prev : option pyval) : result fret :=
  match nu with
  | None => d <- py_last (ds self) ;; Ok (Bounds d d)
  | Some nu =>
      match ds self with
      | [] => Raise (IndexError "list index out of range")
      | d0 :: _ =>
          d0t <- as_tensor d0 ;;
          nu3 <- view_direction nu ;;
          r <- matmul_vec nu3 (flat_all d0t) ;;
          Ok (Contrib (PyT (tneg (T2 r))))
      end
  end.

End DualBatchNorm2d.

(** ** Residual blocks *)

(** Python [sum(f(a) for a in l)]: every value is computed and added in
    turn, starting from the integer 0. *)
Definition pysum_gen {A : Type} (f : A -> result pyval) (l : list A)
  : result pyval :=
  fold_left (fun acc a => s <- acc ;; v <- f a ;; pyadd s v) l (Ok PyZero).

(** The sub-operators a block builds for its entries. *)
Inductive subop : Type :=
| SubConv2d (o : DualConv2d.t)
| SubLinear (o : DualLinear.t)
| SubSequential.

(** An entry of a [dual_ts] list.  The list aliases sub-operators of this and
    of later blocks; [affine_transpose] is the one method called through the
    alias and it reads the layer alone, so the entry keeps the layer. *)
Inductive transposed : Type :=
| TrConv2d (l : layer)
| TrLinear (l : layer)
| TrSequential.

Definition transposed_of (s : subop) : transposed :=
  match s with
  | SubConv2d o => TrConv2d (DualLinear.layer_ o)
  | SubLinear o => TrLinear (DualLinear.layer_ o)
  | SubSequential => TrSequential
  end.

Definition subop_affine (E : torch) (s : subop) (xs : list pyval) : result pyval :=
  match s with
  | SubConv2d o => DualConv2d.affine E o xs
  | SubLinear o => DualLinear.affine o xs
  | SubSequential => DualSequential.affine xs
  end.

Definition transposed_affine_transpose (E : torch) (s : transposed)
  (xs : list pyval) : result pyval :=
  match s with
  | TrConv2d l =>
      DualConv2d.affine_transpose E
        {| DualLinear.layer_ := l; DualLinear.bias := None |} xs
  | TrLinear l =>
      DualLinear.affine_transpose
        {| DualLinear.layer_ := l; DualLinear.bias := None |} xs
  | TrSequential => DualSequential.affine_transpose xs
  end.

Definition subop_apply (s : subop) (dual_layer : pushed) : result subop :=
  match s with
  | SubConv2d o => r <- DualLinear.apply o dual_layer ;; Ok (SubConv2d r)
  | SubLinear o => r <- DualLinear.apply o dual_layer ;; Ok (SubLinear r)
  | SubSequential => Ok SubSequential
  end.

Definition subop_fval (s : subop) (nu nu_prev : option pyval) : result fret :=
  match s with
  | SubConv2d o => DualLinear.fval o nu nu_prev
  | SubLinear o => DualLinear.fval o nu nu_prev
  | SubSequential => DualSequential.fval nu nu_prev
  end.

(** [l[-n:]] for [n] at most the length of [l]; [l[-0:]] is the whole
    list. *)
Definition last_n {A : Type} (n : nat) (l : list A) : list A :=
  if (n =? 0)%nat then l else skipn (length l - n) l.

(** [zip(range(len(xs) - len(ws), len(xs)), ws)] with the entries that are
    [None] dropped: every remaining entry comes with its window [xs[:i+1]]. *)
Definition windows {A : Type} (ws : list (option A)) (xs : list pyval)
  : list (A * list pyval) :=
  flat_map (fun jw : nat * option A =>
              match snd jw with
              | Some w => [(w, firstn (length xs - length ws + fst jw + 1) xs)]
              | None => []
              end)
           (combine (seq 0 (length ws)) ws).

Module DualDense.

Record t : Type := mk {
  duals : list (option subop);
  dual_ts : list (option transposed)
}.

Definition affine (E : torch) (self : t) (xs : list pyval) : result pyval :=
  let duals := last_n (Nat.min (length xs) (length (duals self))) (duals self) in
  pysum_gen (fun wx : subop * list pyval => subop_affine E (fst wx) (snd wx))
            (windows duals xs).

Definition affine_transpose (E : torch) (self : t) (xs : list pyval)
  : result pyval :=
  let dual_ts :=
    last_n (Nat.min (length xs) (length (dual_ts self))) (dual_ts self) in
  pysum_gen (fun wx : transposed * list pyval =>
               transposed_affine_transpose E (fst wx) (snd wx))
            (windows dual_ts xs).

Definition apply (self : t) (dual_layer : pushed) : result t :=
  ds <- mapM (fun W : option subop =>
                match W with
                | Some s => r <- subop_apply s dual_layer ;; Ok (Some r)
                | None => Ok None
                end) (duals self) ;;
  Ok {| duals := ds; dual_ts := dual_ts self |}.

Definition fval (self : t) (nu nu_prev : option pyval) : result fret :=
  fvals <- mapM (fun s => subop_fval s nu nu_prev)
             (flat_map (fun W : option subop =>
                          match W with Some s => [s] | None => [] end)
                       (duals self)) ;;
  match nu with
  | None =>
      match fvals with
      | [] => Raise (ValueError "not enough values to unpack (expected 2, got 0)")
      | _ =>
          lu <- mapM (fun f => match f with
                               | Bounds l u => Ok (l, u)
                               | Contrib _ =>
                                   Raise (TypeError "zip argument is not iterable")
                               end) fvals ;;
          l <- pysum (map fst lu) ;;
          u <- pysum (map snd lu) ;;
          Ok (Bounds l u)
      end
  | Some _ =>
      r <- pysum_gen (fun f => match f with
                               | Contrib v => Ok v
                               | Bounds _ _ =>
                                   Raise (TypeError "unsupported operand type(s) for +: 'int' and 'tuple'")
                               end) fvals ;;
      Ok (Contrib r)
  end.

End DualDense.

(** ** The dual operators as one type, with method dispatch *)

Inductive operator : Type :=
| OpInfBall (o : InfBall.t)
| OpInfBallProj (o : InfBallProj.t)
| OpLinear (o : DualLinear.t)
| OpConv2d (o : DualConv2d.t)
| OpReshape (o : DualReshape.t)
| OpReLU (o : DualReLU.t)
| OpReLUProj (o : DualReLUProj.t)
| OpDense (o : DualDense.t)
| OpBatchNorm2d (o : DualBatchNorm2d.t)
| OpSequential.

Definition no_I_ind (I_ind : option (list (nat * nat))) (r : result pyval)
  : result pyval :=
  match I_ind with
  | None => r
  | Some _ => Raise (TypeError "affine() got an unexpected keyword argument 'I_ind'")
  end.

Definition affine (E : torch) (op : operator) (xs : list pyval)
  (I_ind : option (list (nat * nat))) : result pyval :=
  match op with
  | OpInfBall _ | OpInfBallProj _ =>
      Raise (AttributeError "object has no attribute 'affine'")
  | OpLinear o => no_I_ind I_ind (DualLinear.affine o xs)
  | OpConv2d o => no_I_ind I_ind (DualConv2d.affine E o xs)
  | OpReshape o => no_I_ind I_ind (DualReshape.affine o xs)
  | OpReLU o => DualReLU.affine o xs I_ind
  | OpReLUProj o => DualReLUProj.affine o xs I_ind
  | OpDense o => no_I_ind I_ind (DualDense.affine E o xs)
  | OpBatchNorm2d o => no_I_ind I_ind (DualBatchNorm2d.affine o xs)
  | OpSequential => no_I_ind I_ind (DualSequential.affine xs)
  end.

Definition affine_transpose (E : torch) (op : operator) (xs : list pyval)
  : result pyval :=
  match op with
  | OpInfBall _ | OpInfBallProj _ =>
      Raise (AttributeError "object has no attribute 'affine_transpose'")
  | OpLinear o => DualLinear.affine_transpose o xs
  | OpConv2d o => DualConv2d.affine_transpose E o xs
  | OpReshape o => DualReshape.affine_transpose o xs
  | OpReLU o => DualReLU.affine_transpose o xs
  | OpReLUProj o => DualReLUProj.affine_transpose o xs
  | OpDense o => DualDense.affine_transpose E o xs
  | OpBatchNorm2d o => DualBatchNorm2d.affine_transpose o xs
  | OpSequential => DualSequential.affine_transpose xs
  end.

Definition isinstance_DualReLU (op : operator) : bool :=
  match op with
  | OpReLU _ | OpReLUProj _ => true
  | _ => false
  end.

Definition as_pushed (E : torch) (op : operator) : pushed :=
  {| pushed_affine := affine E op;
     pushed_is_DualReLU := isinstance_DualReLU op |}.

(** [l.apply(dual_layer)] *)
Definition apply (E : torch) (l dual_layer : operator) : result operator :=
  let p := as_pushed E dual_layer in
  match l with
  | OpInfBall o => r <- InfBall.apply o p ;; Ok (OpInfBall r)
  | OpInfBallProj o => r <- InfBallProj.apply o p ;; Ok (OpInfBallProj r)
  | OpLinear o => r <- DualLinear.apply o p ;; Ok (OpLinear r)
  | OpConv2d o => r <- DualLinear.apply o p ;; Ok (OpConv2d r)
  | OpReshape o => r <- DualReshape.apply o p ;; Ok (OpReshape r)
  | OpReLU o => r <- DualReLU.apply o p ;; Ok (OpReLU r)
  | OpReLUProj o => r <- DualReLUProj.apply o p ;; Ok (OpReLUProj r)
  | OpDense o => r <- DualDense.apply o p ;; Ok (OpDense r)
  | OpBatchNorm2d o => r <- DualBatchNorm2d.apply o p ;; Ok (OpBatchNorm2d r)
  | OpSequential => Ok OpSequential
  end.

(** [l.fval(nu=nu, nu_prev=nu_prev)] *)
Definition fval (op : operator) (nu nu_prev : option pyval) : result fret :=
  match op with
  | OpInfBall o => InfBall.fval o nu nu_prev
  | OpInfBallProj o => InfBallProj.fval o nu nu_prev
  | OpLinear o => DualLinear.fval o nu nu_prev
  | OpConv2d o => DualLinear.fval o nu nu_prev
  | OpReshape o => DualReshape.fval o nu nu_prev
  | OpReLU o => DualReLU.fval o nu nu_prev
  | OpReLUProj o => DualReLUProj.fval o nu nu_prev
  | OpDense o => DualDense.fval o nu nu_prev
  | OpBatchNorm2d o => DualBatchNorm2d.fval o nu nu_prev
  | OpSequential => DualSequential.fval nu nu_prev
  end.

(** A method call on an operator object and what it returns.  A call yields
    the object as the call leaves it together with the returned value. *)
Inductive call : Type :=
| CallApply (dual_layer : operator)
| CallFval (nu nu_prev : option pyval)
| CallAffine (xs : list pyval) (I_ind : option (list (nat * nat)))
| CallAffineTranspose (xs : list pyval).

Inductive returned : Type :=
| RetNone
| RetValue (v : pyval)
| RetFval (f : fret).

(** ** Method calls as state transformers

    A method call runs on the object it is called on: the body reads the
    attributes of [self], may leave the object in another state, and returns
    a value or raises.
    The bodies of [fval], [affine] and [affine_transpose] follow, statement
    by statement, in the monad of the state of the object; a call yields the
    returned value together with the object as the body leaves it. *)

Definition method (S A : Type) : Type := S -> result (A * S).

Definition mreturn {S A : Type} (a : A) : method S A := fun s => Ok (a, s).

Definition mbind {S A B : Type} (m : method S A) (k : A -> method S B)
  : method S B :=
  fun s => match m s with
           | Ok (a, s') => k a s'
           | Raise e => Raise e
           end.

(** [self.attr] *)
Definition getattr {S A : Type} (attr : S -> A) : method S A :=
  fun s => Ok (attr s, s).

(** An expression on values alone: it returns or raises and touches no
    object. *)
Definition expr {S A : Type} (r : result A) : method S A :=
  fun s => match r with
           | Ok a => Ok (a, s)
           | Raise e => Raise e
           end.

(** A method of a part of the object run on that part: [part] reads it and
    [put] stores it back as the call leaves it. *)
Definition on_part {S P A : Type} (part : S -> P) (put : P -> S -> S)
  (m : method P A) : method S A :=
  fun s => match m (part s) with
           | Ok (a, p') => Ok (a, put p' s)
           | Raise e => Raise e
           end.

Notation "x <~ m ;; k" := (mbind m (fun x => k))
  (at level 61, m at next level, right associativity).

Module Body.

(** [InfBall.fval] with a direction, on an object with the attributes
    [epsilon] and [nu_x]; [InfBallProj.fval] calls it on its own object. *)
Definition InfBall_fval_direction {S : Type} (epsilon : S -> Q)
  (nu_x : S -> list pyval) (nu : pyval) : method S fret :=
  nu3 <~ expr (view_direction nu) ;;
  xs <~ getattr nu_x ;;
  match xs with
  | [] => expr (Raise (IndexError "list index out of range"))
  | x0 :: _ =>
      x0t <~ expr (as_tensor x0) ;;
      nux <~ expr (matmul_batch nu3 (flatten_rows x0t)) ;;
      eps <~ getattr epsilon ;;
      let l1 := map (map (fun row => eps * sumQ (map Qabs row))) nu3 in
      r <~ expr (tsub (tneg (T2 nux)) (T2 l1)) ;;
      mreturn (Contrib (PyT r))
  end.

Definition InfBall_fval (nu nu_prev : option pyval) : method InfBall.t fret :=
  match nu with
  | None =>
      nu_1 <~ getattr InfBall.nu_1 ;;
      last1 <~ expr (py_last nu_1) ;;
      t1 <~ expr (as_tensor last1) ;;
      l1 <~ expr (sum_dim1 (tabs t1)) ;;
      nu_x <~ getattr InfBall.nu_x ;;
      x <~ expr (py_last nu_x) ;;
      eps <~ getattr InfBall.epsilon ;;
      lo <~ expr (pysub_t x (tscale eps l1)) ;;
      hi <~ expr (pyadd_t x (tscale eps l1)) ;;
      mreturn (Bounds (PyT lo) (PyT hi))
  | Some nu => InfBall_fval_direction InfBall.epsilon InfBall.nu_x nu
  end.

Definition InfBallProj_fval (nu nu_prev : option pyval)
  : method InfBallProj.t fret :=
  match nu with
  | None =>
      nus <~ getattr InfBallProj.nu ;;
      last1 <~ expr (py_last nus) ;;
      t1 <~ expr (as_tensor last1) ;;
      l1 <~ expr (median_dim1 (PyT (tabs t1))) ;;
      nu_x <~ getattr InfBallProj.nu_x ;;
      x <~ expr (py_last nu_x) ;;
      eps <~ getattr InfBallProj.epsilon ;;
      lo <~ expr (pysub_t x (tscale eps l1)) ;;
      hi <~ expr (pyadd_t x (tscale eps l1)) ;;
      mreturn (Bounds (PyT lo) (PyT hi))
  | Some d => InfBall_fval_direction InfBallProj.epsilon InfBallProj.nu_x d
  end.

(** [DualLinear.fval], which [DualConv2d] inherits. *)
Definition DualLinear_fval (nu nu_prev : option pyval)
  : method DualLinear.t fret :=
  match nu with
  | None =>
      bias <~ getattr DualLinear.bias ;;
      match bias with
      | None => mreturn (Bounds PyZero PyZero)
      | Some bs => b <~ expr (py_last bs) ;; mreturn (Bounds b b)
      end
  | Some nu =>
      bias <~ getattr DualLinear.bias ;;
      match bias with
      | None => mreturn (Contrib PyZero)
      | Some bs =>
          nu3 <~ expr (view_direction nu) ;;
          match bs with
          | [] => expr (Raise (IndexError "list index out of range"))
          | b0 :: _ =>
              b0t <~ expr (as_tensor b0) ;;
              r <~ expr (matmul_vec nu3 (flat_all b0t)) ;;
              mreturn (Contrib (PyT (tneg (T2 r))))
          end
      end
  end.

Definition DualLinear_affine (xs : list pyval) : method DualLinear.t pyval :=
  x <~ expr (py_last xs) ;;
  layer <~ getattr DualLinear.layer_ ;;
  match layer with
  | Linear in_features _ weight _ => expr (F_linear x in_features weight)
  | _ => expr (Raise (AttributeError "layer has no attribute 'weight'"))
  end.

Definition DualLinear_affine_transpose (xs : list pyval)
  : method DualLinear.t pyval :=
  x <~ expr (py_last xs) ;;
  layer <~ getattr DualLinear.layer_ ;;
  match layer with
  | Linear in_features out_features weight _ =>
      expr (F_linear x out_features (weight_t in_features weight))
  | _ => expr (Raise (AttributeError "layer has no attribute 'weight'"))
  end.

Definition DualConv2d_affine (E : torch) (xs : list pyval)
  : method DualConv2d.t pyval :=
  x <~ expr (py_last xs) ;;
  layer <~ getattr DualLinear.layer_ ;;
  match layer with
  | Conv2d weight stride padding _ =>
      expr (DualConv2d.through (conv2d (F_conv2d E weight stride padding)) x)
  | _ => expr (Raise (AttributeError "layer has no attribute 'weight'"))
  end.

Definition DualConv2d_affine_transpose (E : torch) (xs : list pyval)
  : method DualConv2d.t pyval :=
  x <~ expr (py_last xs) ;;
  layer <~ getattr DualLinear.layer_ ;;
  match layer with
  | Conv2d weight stride padding _ =>
      expr (DualConv2d.through
              (conv_transpose2d (F_conv_transpose2d E weight stride padding)) x)
  | _ => expr (Raise (AttributeError "layer has no attribute 'weight'"))
  end.

Definition DualReshape_fval (nu nu_prev : option pyval)
  : method DualReshape.t fret :=
  match nu with
  | None => mreturn (Bounds PyZero PyZero)
  | Some _ => mreturn (Contrib PyZero)
  end.

Definition DualReshape_affine (xs : list pyval) : method DualReshape.t pyval :=
  x <~ expr (py_last xs) ;;
  out_f <~ getattr DualReshape.out_f ;;
  expr (view_features out_f x).

Definition DualReshape_affine_transpose (xs : list pyval)
  : method DualReshape.t pyval :=
  x <~ expr (py_last xs) ;;
  in_f <~ getattr DualReshape.in_f ;;
  expr (view_features in_f x).

(** [DualSequential] has no attribute; the state of its objects is empty. *)
Definition DualSequential_fval (nu nu_prev : option pyval) : method unit fret :=
  match nu with
  | None => mreturn (Bounds PyZero PyZero)
  | Some _ => mreturn (Contrib PyZero)
  end.

Definition DualSequential_affine (xs : list pyval) : method unit pyval :=
  expr (py_last xs).

Definition DualSequential_affine_transpose (xs : list pyval)
  : method unit pyval :=
  expr (py_last xs).

(** [DualReLU.fval] with [nu_prev], on an object with the attributes
    [I_empty], [zl] and [I]; [DualReLUProj.fval] calls it on its own
    object. *)
Definition DualReLU_fval_direction {S : Type} (I_empty : S -> bool)
  (zl : S -> list vec) (I : S -> mask) (nu_prev : pyval) : method S fret :=
  empty <~ getattr I_empty ;;
  if empty then mreturn (Contrib PyZero)
  else
    nu3 <~ expr (view_direction nu_prev) ;;
    let n := length nu3 in
    zl0 <~ getattr zl ;;
    zlv <~ expr (view_rows n zl0) ;;
    I0 <~ getattr I ;;
    Iv <~ expr (view_rows n I0) ;;
    p <~ expr (bop3 Qmult (map (map (map clamp_min0)) nu3) (unsqueeze1 zlv)) ;;
    r <~ expr (matmul_batch p (mask_to_float Iv)) ;;
    mreturn (Contrib (PyT (T2 r))).

Definition DualReLU_fval (nu nu_prev : option pyval) : method DualReLU.t fret :=
  match nu_prev with
  | None =>
      empty <~ getattr DualReLU.I_empty ;;
      if empty then mreturn (Bounds PyZero PyZero)
      else
        nus <~ getattr DualReLU.nus ;;
        last <~ expr (py_last nus) ;;
        lt <~ expr (as_tensor last) ;;
        let nu := flatten_rows lt in
        zl <~ getattr DualReLU.zl ;;
        I <~ getattr DualReLU.I ;;
        zlI <~ expr (masked_select zl I) ;;
        I_collapse <~ getattr DualReLU.I_collapse ;;
        a <~ expr (bop2 Qmult [zlI]
                     (map (map clamp_min0) (map (map Qopp) (transpose nu)))) ;;
        zl' <~ expr (mm a I_collapse) ;;
        b <~ expr (bop2 Qmult [zlI] (map (map clamp_min0) (transpose nu))) ;;
        zu' <~ expr (mm b I_collapse) ;;
        mreturn (Bounds (PyT (view_like lt (transpose zl')))
                        (PyT (view_like lt (map (map Qopp) (transpose zu')))))
  | Some nu_prev =>
      DualReLU_fval_direction DualReLU.I_empty DualReLU.zl DualReLU.I nu_prev
  end.

(** [DualReLU.affine], on an object with the attribute [d];
    [DualReLUProj] inherits it. *)
Definition DualReLU_affine {S : Type} (d : S -> list vec) (xs : list pyval)
  (I_ind : option (list (nat * nat))) : method S pyval :=
  x <~ expr (py_last xs) ;;
  xt <~ expr (as_tensor x) ;;
  d0 <~ getattr d ;;
  let d1 := if (2 <? rank xt)%nat then T3 (unsqueeze1 d0) else T2 d0 in
  match I_ind with
  | Some ind =>
      dsel <~ expr (match d1 with
                    | T3 d3 => r <- index_rows d3 (map fst ind) ;; Ok (T3 r)
                    | T2 d2 => r <- index_rows d2 (map fst ind) ;; Ok (T2 r)
                    | T1 v => Ok (T1 v)
                    end) ;;
      r <~ expr (tmul dsel xt) ;;
      mreturn (PyT r)
  | None => r <~ expr (tmul d1 xt) ;; mreturn (PyT r)
  end.

Definition DualReLU_affine_transpose (xs : list pyval)
  : method DualReLU.t pyval :=
  DualReLU_affine DualReLU.d xs None.

Definition DualReLUProj_fval (nu nu_prev : option pyval)
  : method DualReLUProj.t fret :=
  match nu_prev with
  | None =>
      empty <~ getattr DualReLUProj.I_empty ;;
      if empty then mreturn (Bounds PyZero PyZero)
      else
        nus <~ getattr DualReLUProj.nus ;;
        last <~ expr (py_last nus) ;;
        lt <~ expr (as_tensor last) ;;
        n <~ expr (median_dim1 (PyT (tabs lt))) ;;
        nu_ones <~ getattr DualReLUProj.nu_ones ;;
        no <~ expr (py_last nu_ones) ;;
        lo <~ expr (tsub_py (tneg n) no) ;;
        hi <~ expr (tsub_py n no) ;;
        mreturn (Bounds (PyT (tmap (fun q => q / 2) lo))
                        (PyT (tmap (fun q => q / 2) hi)))
  | Some nu_prev =>
      DualReLU_fval_direction DualReLUProj.I_empty DualReLUProj.zl
        DualReLUProj.I nu_prev
  end.

Definition DualReLUProj_affine_transpose (xs : list pyval)
  : method DualReLUProj.t pyval :=
  DualReLU_affine DualReLUProj.d xs None.

Definition DualBatchNorm2d_fval (nu nu_prev : option pyval)
  : method DualBatchNorm2d.t fret :=
  match nu with
  | None =>
      ds <~ getattr DualBatchNorm2d.ds ;;
      d <~ expr (py_last ds) ;;
      mreturn (Bounds d d)
  | Some nu =>
      ds <~ getattr DualBatchNorm2d.ds ;;
      match ds with
      | [] => expr (Raise (IndexError "list index out of range"))
      | d0 :: _ =>
          d0t <~ expr (as_tensor d0) ;;
          nu3 <~ expr (view_direction nu) ;;
          r <~ expr (matmul_vec nu3 (flat_all d0t)) ;;
          mreturn (Contrib (PyT (tneg (T2 r))))
      end
  end.

Definition DualBatchNorm2d_affine (xs : list pyval)
  : method DualBatchNorm2d.t pyval :=
  x <~ expr (py_last xs) ;;
  D <~ getattr DualBatchNorm2d.D ;;
  match x with
  | PyZero => mreturn (PyT (T1 (map (fun q => q * 0) D)))
  | PyT (T1 v) => r <~ expr (scale_channels D v) ;; mreturn (PyT (T1 r))
  | PyT (T2 m) => r <~ expr (mapM (scale_channels D) m) ;; mreturn (PyT (T2 r))
  | PyT (T3 t) =>
      r <~ expr (mapM (mapM (scale_channels D)) t) ;; mreturn (PyT (T3 r))
  end.

Definition DualBatchNorm2d_affine_transpose (xs : list pyval)
  : method DualBatchNorm2d.t pyval :=
  DualBatchNorm2d_affine xs.

(** The methods of the sub-operators of a residual block. *)
Definition subop_fval (nu nu_prev : option pyval) : method subop fret :=
  fun s =>
    match s with
    | SubConv2d o =>
        '(f, o') <- DualLinear_fval nu nu_prev o ;; Ok (f, SubConv2d o')
    | SubLinear o =>
        '(f, o') <- DualLinear_fval nu nu_prev o ;; Ok (f, SubLinear o')
    | SubSequential =>
        '(f, _) <- DualSequential_fval nu nu_prev tt ;; Ok (f, SubSequential)
    end.

Definition subop_affine (E : torch) (xs : list pyval) : method subop pyval :=
  fun s =>
    match s with
    | SubConv2d o =>
        '(v, o') <- DualConv2d_affine E xs o ;; Ok (v, SubConv2d o')
    | SubLinear o =>
        '(v, o') <- DualLinear_affine xs o ;; Ok (v, SubLinear o')
    | SubSequential =>
        '(v, _) <- DualSequential_affine xs tt ;; Ok (v, SubSequential)
    end.

(** [W.affine_transpose(xs)] through an entry of [dual_ts]: the method runs
    on the sub-operator the entry stands for, and the entry stands for it
    as the call leaves it. *)
Definition transposed_affine_transpose (E : torch) (xs : list pyval)
  : method transposed pyval :=
  fun s =>
    match s with
    | TrConv2d l =>
        '(v, o') <- DualConv2d_affine_transpose E xs
                      {| DualLinear.layer_ := l; DualLinear.bias := None |} ;;
        Ok (v, TrConv2d (DualLinear.layer_ o'))
    | TrLinear l =>
        '(v, o') <- DualLinear_affine_transpose xs
                      {| DualLinear.layer_ := l; DualLinear.bias := None |} ;;
        Ok (v, TrLinear (DualLinear.layer_ o'))
    | TrSequential =>
        '(v, _) <- DualSequential_affine_transpose xs tt ;; Ok (v, TrSequential)
    end.

(** [list(W.fval(nu=nu, nu_prev=nu_prev) for W in self.duals if W is not None)]
    on the list [self.duals]. *)
Fixpoint duals_fvals (nu nu_prev : option pyval)
  : method (list (option subop)) (list fret) :=
  fun ds =>
    match ds with
    | [] => Ok ([], [])
    | None :: ds' =>
        '(fs, ds'') <- duals_fvals nu nu_prev ds' ;; Ok (fs, None :: ds'')
    | Some W :: ds' =>
        '(f, W') <- subop_fval nu nu_prev W ;;
        '(fs, ds'') <- duals_fvals nu nu_prev ds' ;;
        Ok (f :: fs, Some W' :: ds'')
    end.

Definition DualDense_fval (nu nu_prev : option pyval)
  : method DualDense.t fret :=
  fvals <~ on_part DualDense.duals
             (fun ds s => {| DualDense.duals := ds;
                             DualDense.dual_ts := DualDense.dual_ts s |})
             (duals_fvals nu nu_prev) ;;
  match nu with
  | None =>
      match fvals with
      | [] => expr (Raise (ValueError "not enough values to unpack (expected 2, got 0)"))
      | _ =>
          lu <~ expr (mapM (fun f => match f with
                                     | Bounds l u => Ok (l, u)
                                     | Contrib _ =>
                                         Raise (TypeError "zip argument is not iterable")
                                     end) fvals) ;;
          l <~ expr (pysum (map fst lu)) ;;
          u <~ expr (pysum (map snd lu)) ;;
          mreturn (Bounds l u)
      end
  | Some _ =>
      r <~ expr (pysum_gen (fun f => match f with
                                     | Contrib v => Ok v
                                     | Bounds _ _ =>
                                         Raise (TypeError "unsupported operand type(s) for +: 'int' and 'tuple'")
                                     end) fvals) ;;
      mreturn (Contrib r)
  end.

(** [sum(W.method(xs[:i+1]) for i,W in zip(range(start, len(xs)), slice) if W is not None)]
    on a slice of sub-operators, from the running total [acc]: the entry at
    position [i] is called on [xs[:i+1]]. *)
Fixpoint slice_sum {W : Type} (call : list pyval -> method W pyval)
  (xs : list pyval) (i : nat) (acc : pyval) : method (list (option W)) pyval :=
  fun ws =>
    match ws with
    | [] => Ok (acc, [])
    | None :: ws' =>
        '(total, ws'') <- slice_sum call xs (S i) acc ws' ;;
        Ok (total, None :: ws'')
    | Some w :: ws' =>
        '(v, w') <- call (firstn (i + 1) xs) w ;;
        acc' <- pyadd acc v ;;
        '(total, ws'') <- slice_sum call xs (S i) acc' ws' ;;
        Ok (total, Some w' :: ws'')
    end.

(** The slice [self.duals[-min(len(xs), len(self.duals)):]] is summed over;
    its entries are in [self.duals] as the calls leave them. *)
Definition DualDense_affine (E : torch) (xs : list pyval)
  : method DualDense.t pyval :=
  fun s =>
    let duals := DualDense.duals s in
    let slice := last_n (Nat.min (length xs) (length duals)) duals in
    '(total, slice') <-
      slice_sum (subop_affine E) xs (length xs - length slice) PyZero slice ;;
    Ok (total,
        {| DualDense.duals :=
             firstn (length duals - length slice) duals ++ slice';
           DualDense.dual_ts := DualDense.dual_ts s |}).

(** The slice [self.dual_ts[-min(len(xs), len(self.dual_ts)):]] is summed
    over; its entries are in [self.dual_ts] as the calls leave them. *)
Definition DualDense_affine_transpose (E : torch) (xs : list pyval)
  : method DualDense.t pyval :=
  fun s =>
    let dual_ts := DualDense.dual_ts s in
    let slice := last_n (Nat.min (length xs) (length dual_ts)) dual_ts in
    '(total, slice') <-
      slice_sum (transposed_affine_transpose E) xs (length xs - length slice)
        PyZero slice ;;
    Ok (total,
        {| DualDense.duals := DualDense.duals s;
           DualDense.dual_ts :=
             firstn (length dual_ts - length slice) dual_ts ++ slice' |}).

End Body.

(** [self.fval(nu=nu, nu_prev=nu_prev)] on an operator of any class. *)
Definition call_fval (self : operator) (nu nu_prev : option pyval)
  : result (operator * fret) :=
  match self with
  | OpInfBall o =>
      '(f, o') <- Body.InfBall_fval nu nu_prev o ;; Ok (OpInfBall o', f)
  | OpInfBallProj o =>
      '(f, o') <- Body.InfBallProj_fval nu nu_prev o ;; Ok (OpInfBallProj o', f)
  | OpLinear o =>
      '(f, o') <- Body.DualLinear_fval nu nu_prev o ;; Ok (OpLinear o', f)
  | OpConv2d o =>
      '(f, o') <- Body.DualLinear_fval nu nu_prev o ;; Ok (OpConv2d o', f)
  | OpReshape o =>
      '(f, o') <- Body.DualReshape_fval nu nu_prev o ;; Ok (OpReshape o', f)
  | OpReLU o =>
      '(f, o') <- Body.DualReLU_fval nu nu_prev o ;; Ok (OpReLU o', f)
  | OpReLUProj o =>
      '(f, o') <- Body.DualReLUProj_fval nu nu_prev o ;; Ok (OpReLUProj o', f)
  | OpDense o =>
      '(f, o') <- Body.DualDense_fval nu nu_prev o ;; Ok (OpDense o', f)
  | OpBatchNorm2d o =>
      '(f, o') <- Body.DualBatchNorm2d_fval nu nu_prev o ;;
      Ok (OpBatchNorm2d o', f)
  | OpSequential =>
      '(f, _) <- Body.DualSequential_fval nu nu_prev tt ;; Ok (OpSequential, f)
  end.

(** A call with the keyword [I_ind] of a method that does not take it is
    refused before the body runs. *)
Definition without_I_ind {A : Type} (I_ind : option (list (nat * nat)))
  (r : result A) : result A :=
  match I_ind with
  | None => r
  | Some _ => Raise (TypeError "affine() got an unexpected keyword argument 'I_ind'")
  end.

(** [self.affine(xs)] or [self.affine(xs, I_ind=I_ind)] on an operator of
    any class. *)
Definition call_affine (E : torch) (self : operator) (xs : list pyval)
  (I_ind : option (list (nat * nat))) : result (operator * pyval) :=
  match self with
  | OpInfBall _ | OpInfBallProj _ =>
      Raise (AttributeError "object has no attribute 'affine'")
  | OpLinear o =>
      without_I_ind I_ind
        ('(v, o') <- Body.DualLinear_affine xs o ;; Ok (OpLinear o', v))
  | OpConv2d o =>
      without_I_ind I_ind
        ('(v, o') <- Body.DualConv2d_affine E xs o ;; Ok (OpConv2d o', v))
  | OpReshape o =>
      without_I_ind I_ind
        ('(v, o') <- Body.DualReshape_affine xs o ;; Ok (OpReshape o', v))
  | OpReLU o =>
      '(v, o') <- Body.DualReLU_affine DualReLU.d xs I_ind o ;;
      Ok (OpReLU o', v)
  | OpReLUProj o =>
      '(v, o') <- Body.DualReLU_affine DualReLUProj.d xs I_ind o ;;
      Ok (OpReLUProj o', v)
  | OpDense o =>
      without_I_ind I_ind
        ('(v, o') <- Body.DualDense_affine E xs o ;; Ok (OpDense o', v))
  | OpBatchNorm2d o =>
      without_I_ind I_ind
        ('(v, o') <- Body.DualBatchNorm2d_affine xs o ;;
         Ok (OpBatchNorm2d o', v))
  | OpSequential =>
      without_I_ind I_ind
        ('(v, _) <- Body.DualSequential_affine xs tt ;; Ok (OpSequential, v))
  end.

(** [self.affine_transpose(xs)] on an operator of any class. *)
Definition call_affine_transpose (E : torch) (self : operator)
  (xs : list pyval) : result (operator * pyval) :=
  match self with
  | OpInfBall _ | OpInfBallProj _ =>
      Raise (AttributeError "object has no attribute 'affine_transpose'")
  | OpLinear o =>
      '(v, o') <- Body.DualLinear_affine_transpose xs o ;; Ok (OpLinear o', v)
  | OpConv2d o =>
      '(v, o') <- Body.DualConv2d_affine_transpose E xs o ;; Ok (OpConv2d o', v)
  | OpReshape o =>
      '(v, o') <- Body.DualReshape_affine_transpose xs o ;; Ok (OpReshape o', v)
  | OpReLU o =>
      '(v, o') <- Body.DualReLU_affine_transpose xs o ;; Ok (OpReLU o', v)
  | OpReLUProj o =>
      '(v, o') <- Body.DualReLUProj_affine_transpose xs o ;;
      Ok (OpReLUProj o', v)
  | OpDense o =>
      '(v, o') <- Body.DualDense_affine_transpose E xs o ;; Ok (OpDense o', v)
  | OpBatchNorm2d o =>
      '(v, o') <- Body.DualBatchNorm2d_affine_transpose xs o ;;
      Ok (OpBatchNorm2d o', v)
  | OpSequential =>
      '(v, _) <- Body.DualSequential_affine_transpose xs tt ;;
      Ok (OpSequential, v)
  end.

Definition invoke (E : torch) (self : operator) (c : call)
  : result (operator * returned) :=
  match c with
  | CallApply dual_layer => r <- apply E self dual_layer ;; Ok (r, RetNone)
  | CallFval nu nu_prev =>
      '(self', f) <- call_fval self nu nu_prev ;; Ok (self', RetFval f)
  | CallAffine xs I_ind =>
      '(self', v) <- call_affine E self xs I_ind ;; Ok (self', RetValue v)
  | CallAffineTranspose xs =>
      '(self', v) <- call_affine_transpose E self xs ;; Ok (self', RetValue v)
  end.

(** A sequence of method calls on one object. *)
Fixpoint invoke_all (E : torch) (self : operator) (cs : list call)
  : result operator :=
  match cs with
  | [] => Ok self
  | c :: cs' => '(self', _) <- invoke E self c ;; invoke_all E self' cs'
  end.

Definition is_apply (c : call) : bool :=
  match c with CallApply _ => true | _ => false end.

(** The history lists an operator owns. *)
Definition subop_histories (s : option subop) : list (list pyval) :=
  match s with
  | Some (SubConv2d o) | Some (SubLinear o) =>
      match DualLinear.bias o with Some bs => [bs] | None => [] end
  | _ => []
  end.

Definition histories (op : operator) : list (list pyval) :=
  match op with
  | OpInfBall o => [InfBall.nu_x o; InfBall.nu_1 o]
  | OpInfBallProj o => [InfBallProj.nu_x o; InfBallProj.nu o]
  | OpLinear o | OpConv2d o =>
      match DualLinear.bias o with Some bs => [bs] | None => [] end
  | OpReshape _ => []
  | OpReLU o => if DualReLU.I_empty o then [] else [DualReLU.nus o]
  | OpReLUProj o =>
      if DualReLUProj.I_empty o then []
      else [DualReLUProj.nus o; DualReLUProj.nu_ones o]
  | OpDense o => flat_map subop_histories (DualDense.duals o)
  | OpBatchNorm2d o => [DualBatchNorm2d.ds o]
  | OpSequential => []
  end.

(** ** Construction of a residual block operator *)

(** [net[idx].dual_ts = [dual_layer] + [None]*count + net[idx].dual_ts] for
    the operator [back] places before the end of [net]. *)
Definition rewire (net : list operator) (back : nat) (dual_layer : subop)
  (len_Ws i : nat) : result (list operator) :=
  if (length net <? back)%nat then Raise (IndexError "list index out of range")
  else
    let pos := (length net - back)%nat in
    match nth_error net pos with
    | Some (OpDense o) =>
        let old := DualDense.dual_ts o in
        let count := (len_Ws - i - length old - 1)%nat in
        let o' := {| DualDense.duals := DualDense.duals o;
                     DualDense.dual_ts :=
                       [Some (transposed_of dual_layer)] ++ repeat None count ++ old |} in
        Ok (firstn pos net ++ [OpDense o'] ++ skipn (S pos) net)
    | Some _ => Raise (AttributeError "object has no attribute 'dual_ts'")
    | None => Raise (IndexError "list index out of range")
    end.

Definition is_empty_Sequential (l : layer) : bool :=
  match l with
  | Sequential [] => true
  | _ => false
  end.

(** The loop [for i,W in enumerate(dense.Ws)] of [DualDense.__init__]. *)
Fixpoint DualDense_init_loop (E : torch) (Ws : list (option layer))
  (len_Ws i out_features : nat) (duals : list (option subop))
  (net : list operator) : result (list (option subop) * list operator) :=
  match Ws with
  | [] => Ok (duals, net)
  | W :: Ws' =>
      dual_layer <-
        match W with
        | Some (Conv2d _ _ _ _ as l) =>
            o <- DualConv2d.init E l out_features ;; Ok (Some (SubConv2d o))
        | Some (Linear _ _ _ _ as l) =>
            o <- DualLinear.init E l out_features ;; Ok (Some (SubLinear o))
        | Some l =>
            if is_empty_Sequential l then Ok (Some SubSequential)
            else Raise (ValueError "Don't know how to parse dense structure")
        | None => Ok None
        end ;;
      net' <-
        match dual_layer with
        | Some s =>
            if (i <? len_Ws - 1)%nat
            then rewire net (len_Ws - 1 - i) s len_Ws i
            else Ok net
        | None => Ok net
        end ;;
      DualDense_init_loop E Ws' len_Ws (S i) out_features
        (duals ++ [dual_layer]) net'
  end.

(** [DualDense(dense, dense_t, net, out_features)]: the new operator and the
    chain [net] with the [dual_ts] lists of its earlier blocks extended. *)
Definition DualDense_init (E : torch) (dense dense_t : layer)
  (net : list operator) (out_features : nat)
  : result (DualDense.t * list operator) :=
  match dense with
  | Dense Ws =>
      '(duals, net') <-
        DualDense_init_loop E Ws (length Ws) 0 out_features [] net ;;
      last <- py_last duals ;;
      Ok ({| DualDense.duals := duals;
             DualDense.dual_ts := [option_map transposed_of last] |}, net')
  | _ => Raise (AttributeError "object has no attribute 'Ws'")
  end.

(** ** The orchestrator *)

Definition tol : Q := 1 # 100000.

Definition Qlt_bool (x y : Q) : bool := negb (Qle_bool y x).

Definition bmask (f : bool -> bool -> bool) (a b : mask) : result mask :=
  bzip (bzip (fun x y => Ok (f x y))) a b.

(** The classification of the activations of a ReLU layer from its
    pre-activation bounds: the mask [I] of the unstable activations and the
    slope [d]. *)
Definition relu_region (zl zu : list vec) : result (mask * list vec) :=
  let d := map (map (fun z => if Qle_bool (- tol) z then 1 else 0)) zl in
  I <- bmask andb (map (map (fun z => Qlt_bool tol z)) zu)
                  (map (map (fun z => Qlt_bool z (- tol))) zl) ;;
  if (0 <? mask_sum I)%nat then
    zuI <- masked_select zu I ;;
    zuI' <- masked_select zu I ;;
    zlI <- masked_select zl I ;;
    den <- bop1 Qminus zuI' zlI ;;
    w <- bop1 Qdiv zuI den ;;
    d' <- masked_add d I w ;;
    Ok (I, d')
  else Ok (I, d).

Definition is_Dense (l : layer) : bool :=
  match l with Dense _ => true | _ => false end.

Definition class_name_of (l : layer) : string :=
  match l with
  | Linear _ _ _ _ => "Linear"
  | Conv2d _ _ _ _ => "Conv2d"
  | ReLU => "ReLU"
  | Sequential _ => "Sequential"
  | Dense _ => "Dense"
  | BatchNorm2d _ _ _ _ _ _ => "BatchNorm2d"
  | CustomModule name => name
  end.

(** ['Flatten' in str(layer.__class__.__name__)] *)
Definition is_Flatten (l : layer) : bool :=
  match index 0 "Flatten" (class_name_of l) with
  | Some _ => true
  | None => false
  end.

(** The layer kinds [DualNetBounds] has a dual operator for. *)
Definition recognized (l : layer) : bool :=
  match l with
  | Linear _ _ _ _ | Conv2d _ _ _ _ | ReLU | Dense _ | BatchNorm2d _ _ _ _ _ _ => true
  | _ => is_Flatten l
  end.

Module DualNetBounds.

(** [last_layer] is set by the last turn of the construction loop. *)
Record t : Type := mk {
  dual_net : list operator;
  last_layer : option operator
}.

(** The keyword arguments of [__init__]. *)
Record kwargs : Type := {
  alpha_grad : bool;
  scatter_grad : bool;
  l1_proj : option Z;
  l1_eps : option Q;
  m : option Z;
  batchnorm : bool;
  l1_type : string
}.

(** The forward pass that fills [zs]. *)
Fixpoint forward_pass (E : torch) (net : list layer) (zs : list (list vec))
  : result (list (list vec)) :=
  match net with
  | [] => Ok zs
  | l :: net' =>
      z <- (if is_Dense l then module_forward E l zs
            else last <- py_last zs ;; module_forward E l [last]) ;;
      forward_pass E net' (zs ++ [z])
  end.

(** The ReLU branch of the construction loop. *)
Definition relu_dual_layer (E : torch) (kw : kwargs)
  (dual_net : list operator) (w : world) : result (operator * world) :=
  fvals <- mapM (fun l => fval l None None) dual_net ;;
  lu <- mapM (fun f => match f with
                       | Bounds l u => Ok (l, u)
                       | Contrib _ => Raise (TypeError "zip argument is not iterable")
                       end) fvals ;;
  zl <- pysum (map fst lu) ;;
  zu <- pysum (map snd lu) ;;
  zlt <- as_tensor zl ;;
  zut <- as_tensor zu ;;
  Id <- relu_region (as_batch zlt) (as_batch zut) ;;
  let I := fst Id in
  let d := snd Id in
  match l1_proj kw with
  | Some k =>
      if (String.eqb (l1_type kw) "median" && (k <? Z.of_nat (mask_sum I))%Z)%bool
      then '(o, w') <- DualReLUProj.init E I d (as_batch zlt) k w ;;
           Ok (OpReLUProj o, w')
      else o <- DualReLU.init I d (as_batch zlt) ;; Ok (OpReLU o, w)
  | None => o <- DualReLU.init I d (as_batch zlt) ;; Ok (OpReLU o, w)
  end.

(** The dispatch on the kind of [layer]: the dual operator of the layer,
    and the chain, which a residual block rewires. *)
Definition make_dual_layer (E : torch) (kw : kwargs)
  (zs : list (list vec)) (dense_t : option (list layer)) (i in_f out_f : nat)
  (layer : layer) (dual_net : list operator) (w : world)
  : result (operator * list operator * world) :=
  match layer with
  | Linear _ _ _ _ =>
      o <- DualLinear.init E layer out_f ;; Ok (OpLinear o, dual_net, w)
  | Conv2d _ _ _ _ =>
      o <- DualConv2d.init E layer out_f ;; Ok (OpConv2d o, dual_net, w)
  | ReLU =>
      '(o, w') <- relu_dual_layer E kw dual_net w ;; Ok (o, dual_net, w')
  | _ =>
      if is_Flatten layer then
        Ok (OpReshape (DualReshape.init in_f out_f), dual_net, w)
      else
        match layer with
        | Dense _ =>
            match dense_t with
            | None => Raise (AttributeError "name 'dense_t' is not defined")
            | Some ts =>
                match nth_error ts i with
                | None => Raise (IndexError "list index out of range")
                | Some lt =>
                    if is_Dense lt then
                      '(o, net') <- DualDense_init E layer lt dual_net out_f ;;
                      Ok (OpDense o, net', w)
                    else Raise AssertionError
                end
            end
        | BatchNorm2d _ _ _ _ _ _ =>
            match nth_error zs i with
            | None => Raise (IndexError "list index out of range")
            | Some z =>
                o <- DualBatchNorm2d.init E layer z out_f ;;
                Ok (OpBatchNorm2d o, dual_net, w)
            end
        | _ =>
            Raise (ValueError ("No module for layer " ++ class_name_of layer))
        end
  end.

(** The loop [for i,(in_f,out_f,layer) in enumerate(zip(nf[:-1], nf[1:], net))]. *)
Fixpoint init_loop (E : torch) (kw : kwargs) (zs : list (list vec))
  (dense_t : option (list layer)) (len_net i : nat)
  (todo : list (nat * nat * layer)) (dual_net : list operator)
  (last_layer : option operator) (w : world)
  : result (t * world) :=
  match todo with
  | [] => Ok ({| dual_net := dual_net; last_layer := last_layer |}, w)
  | (in_f, out_f, layer) :: todo' =>
      '(dual_layer, dual_net1, w1) <-
        make_dual_layer E kw zs dense_t i in_f out_f layer dual_net w ;;
      if (i <? len_net - 1)%nat then
        dual_net2 <- mapM (fun l => apply E l dual_layer) dual_net1 ;;
        init_loop E kw zs dense_t len_net (S i) todo'
          (dual_net2 ++ [dual_layer]) last_layer w1
      else
        init_loop E kw zs dense_t len_net (S i) todo'
          dual_net1 (Some dual_layer) w1
  end.

Definition init (E : torch) (net : list layer) (X : list vec) (epsilon : Q)
  (kw : kwargs) (w : world) : result (t * world) :=
  zs <- forward_pass E net [X] ;;
  let nf := map features zs in
  ball <- InfBall.init X epsilon ;;
  let dual_net := [OpInfBall ball] in
  dense_t <- (if existsb is_Dense net
              then ts <- transpose_all E net ;; Ok (Some ts)
              else Ok None) ;;
  init_loop E kw zs dense_t (length net) 0
    (combine (combine (removelast nf) (tl nf)) net) dual_net None w.

(** The loop over [reversed(self.dual_net[1:])], which appends the
    [affine_transpose] of the whole list [nu] to it at every turn, on the
    operators in the order of the loop; the operators come back as the
    calls leave them. *)
Fixpoint sweep (E : torch) (ls : list operator) (nu : list pyval)
  : result (list operator * list pyval) :=
  match ls with
  | [] => Ok ([], nu)
  | l :: ls' =>
      '(l', v) <- call_affine_transpose E l nu ;;
      '(ls'', nu') <- sweep E ls' (nu ++ [v]) ;;
      Ok (l' :: ls'', nu')
  end.

(** [sum(l.fval(nu=n, nu_prev=nprev) for l,nprev,n in zip(dual_net, nu[:-1], nu[1:]))],
    from the running total [acc]. *)
Fixpoint sum_fvals (ls : list operator) (nprevs ns : list (option pyval))
  (acc : pyval) : result (list operator * pyval) :=
  match ls, nprevs, ns with
  | l :: ls', nprev :: nprevs', n :: ns' =>
      '(l', f) <- call_fval l n nprev ;;
      v <- match f with
           | Contrib v => Ok v
           | Bounds _ _ =>
               Raise (TypeError "unsupported operand type(s) for +: 'int' and 'tuple'")
           end ;;
      acc' <- pyadd acc v ;;
      '(ls'', total) <- sum_fvals ls' nprevs' ns' acc' ;;
      Ok (l' :: ls'', total)
  | _, _, _ => Ok (ls, acc)
  end.

(** [g(self, c)]: the object as the evaluation leaves it, and the bound. *)
Definition g (E : torch) (self : t) (c : list (list vec)) : result (t * pyval) :=
  let nu0 := PyT (tneg (T3 c)) in
  last0 <- match last_layer self with
           | Some l => Ok l
           | None =>
               Raise (AttributeError "'DualNetBounds' object has no attribute 'last_layer'")
           end ;;
  '(last1, v) <- call_affine_transpose E last0 [nu0] ;;
  '(swept, nu) <- sweep E (rev (tl (dual_net self))) [nu0; v] ;;
  let chain := firstn 1 (dual_net self) ++ rev swept in
  let nus := rev (map Some nu ++ [None]) in
  '(after, total) <-
    sum_fvals (chain ++ [last1]) (removelast nus) (tl nus) PyZero ;;
  Ok ({| dual_net := removelast after;
         last_layer := Some (last after last1) |}, total).

(** The bound alone. *)
Definition g_value (E : torch) (self : t) (c : list (list vec)) : result pyval :=
  '(_, v) <- g E self c ;; Ok v.

(** Several objectives evaluated one after the other on the same object. *)
Fixpoint g_all (E : torch) (self : t) (cs : list (list (list vec)))
  : result (t * list pyval) :=
  match cs with
  | [] => Ok (self, [])
  | c :: cs' =>
      '(self1, v) <- g E self c ;;
      '(self2, vs) <- g_all E self1 cs' ;;
      Ok (self2, v :: vs)
  end.

End DualNetBounds.

(** ** Vocabulary of the statements *)

Definition is_InfBallProj (op : operator) : bool :=
  match op with OpInfBallProj _ => true | _ => false end.

(** [op] is the exact representative of the ball of radius [eps] around [X]:
    an [InfBall] whose histories start from [X] and from the identity
    basis. *)
Definition exact_ball (X : list vec) (eps : Q) (op : operator) : Prop :=
  match op with
  | OpInfBall b =>
      InfBall.epsilon b = eps /\
      hd_error (InfBall.nu_x b) = Some (PyT (T2 X)) /\
      hd_error (InfBall.nu_1 b) = Some (PyT (T3 [eye (features X)]))
  | _ => False
  end.

(** A chain that starts with the exact representative and holds no
    randomized one. *)
Definition exact_chain (X : list vec) (eps : Q) (dual_net : list operator) : Prop :=
  match dual_net with
  | first :: _ => exact_ball X eps first
  | [] => False
  end /\
  Forall (fun op => is_InfBallProj op = false) dual_net.

(** Two lists paired by a function, up to the shorter one. *)
Fixpoint zip_with {A B C : Type} (f : A -> B -> C) (a : list A) (b : list B)
  : list C :=
  match a, b with
  | x :: a', y :: b' => f x y :: zip_with f a' b'
  | _, _ => []
  end.

(** The entry at batch element [b] and feature [f]. *)
Definition at2 {A : Type} (t : list (list A)) (b f : nat) : option A :=
  match nth_error t b with
  | Some row => nth_error row f
  | None => None
  end.

Definition same_shape {A B : Type} (s : list (list A)) (t : list (list B)) : Prop :=
  Forall2 (fun a b => length a = length b) s t.

(** The classification of one activation with bounds [l] and [u], written
    pointwise. *)
Definition unstable (l u : Q) : bool := Qlt_bool tol u && Qlt_bool l (- tol).

Definition base_slope (l : Q) : Q := if Qle_bool (- tol) l then 1 else 0.

Definition slope (l u : Q) : Q :=
  if unstable l u then base_slope l + u / (u - l) else base_slope l.

(** The entries of a row that a mask row selects, and a row with the values
    [w] added at the entries a mask row selects. *)
Fixpoint sel {A : Type} (v : list A) (m : list bool) : list A :=
  match v, m with
  | q :: v', b :: m' => if b then q :: sel v' m' else sel v' m'
  | _, _ => []
  end.

(** The median over the rows of the absolute values at feature [f], and the
    (batch, features) block of these medians for a (batch, rows, features)
    certificate. *)
Definition median_abs (rows : list vec) (f : nat) : Q :=
  nth ((length rows - 1) / 2) (sort (map (fun row => Qabs (nth f row 0)) rows)) 0.

Definition median_abs_rows (t : list (list vec)) : list vec :=
  map (fun rows => map (median_abs rows) (seq 0 (features rows))) t.

(** The operators as their constructors build them. *)
Inductive constructed (E : torch) : operator -> Prop :=
| constructed_InfBall X eps o :
    InfBall.init X eps = Ok o -> constructed E (OpInfBall o)
| constructed_InfBallProj X eps k w o w' :
    InfBallProj.init E X eps k w = Ok (o, w') -> constructed E (OpInfBallProj o)
| constructed_DualLinear l n o :
    DualLinear.init E l n = Ok o -> constructed E (OpLinear o)
| constructed_DualConv2d l n o :
    DualConv2d.init E l n = Ok o -> constructed E (OpConv2d o)
| constructed_DualReshape in_f out_f :
    constructed E (OpReshape (DualReshape.init in_f out_f))
| constructed_DualReLU I d zl o :
    DualReLU.init I d zl = Ok o -> constructed E (OpReLU o)
| constructed_DualReLUProj I d zl k w o w' :
    DualReLUProj.init E I d zl k w = Ok (o, w') -> constructed E (OpReLUProj o)
| constructed_DualDense dense dense_t net n o net' :
    DualDense_init E dense dense_t net n = Ok (o, net') -> constructed E (OpDense o)
| constructed_DualBatchNorm2d l minibatch n o :
    DualBatchNorm2d.init E l minibatch n = Ok o -> constructed E (OpBatchNorm2d o)
| constructed_DualSequential : constructed E OpSequential.

(** The number of [apply] calls in a sequence of calls. *)
Definition applies (cs : list call) : nat := length (filter is_apply cs).

(** *** The closed form of the bound of a purely affine network

    The objective is propagated through the transposed affine maps from the
    last layer to the first; every layer contributes minus the product of
    the direction after it with its bias; the ball contributes what
    [InfBall.fval] computes from the direction at the input. *)

Definition is_Linear (l : layer) : bool :=
  match l with Linear _ _ _ _ => true | _ => false end.

(** The direction before an affine layer from the direction after it. *)
Definition transposed_affine (l : layer) (nu : pyval) : result pyval :=
  match l with
  | Linear in_features out_features weight _ =>
      F_linear nu out_features (weight_t in_features weight)
  | _ => Raise (ValueError "not an affine layer")
  end.

(** The directions at the input, between the layers and at the output, in
    this order, from the direction at the output. *)
Fixpoint directions (net : list layer) (nu_out : pyval) : result (list pyval) :=
  match net with
  | [] => Ok [nu_out]
  | l :: net' =>
      nus <- directions net' nu_out ;;
      nu <- transposed_affine l (hd PyZero nus) ;;
      Ok (nu :: nus)
  end.

(** The contribution of the bias of an affine layer with [n] output features
    for the direction [nu] after the layer. *)
Definition bias_contribution (E : torch) (l : layer) (n : nat) (nu : pyval)
  : result pyval :=
  match l with
  | Linear _ _ _ (Some _) =>
      fb <- full_bias E l n ;;
      nu3 <- view_direction nu ;;
      r <- matmul_vec nu3 (flat_all fb) ;;
      Ok (PyT (tneg (T2 r)))
  | Linear _ _ _ None => Ok PyZero
  | _ => Raise (ValueError "not an affine layer")
  end.

Fixpoint sum_bias (E : torch) (layers : list (layer * nat)) (nus : list pyval)
  (acc : pyval) : result pyval :=
  match layers, nus with
  | (l, n) :: layers', nu :: nus' =>
      v <- bias_contribution E l n nu ;;
      acc' <- pyadd acc v ;;
      sum_bias E layers' nus' acc'
  | _, _ => Ok acc
  end.


(** [op] is the dual operator of the affine layer [l] with [n] output
    features: its history starts from the bias of the layer. *)
Definition affine_dual (E : torch) (ln : layer * nat) (op : operator) : Prop :=
  match op with
  | OpLinear o =>
      DualLinear.layer_ o = fst ln /\
      match fst ln with
      | Linear _ _ _ (Some _) =>
          exists fb hist,
            full_bias E (fst ln) (snd ln) = Ok fb /\
            DualLinear.bias o = Some (PyT fb :: hist)
      | Linear _ _ _ None => DualLinear.bias o = None
      | _ => False
      end
  | _ => False
  end.

(** The layers of the construction loop with their numbers of output
    features. *)
Definition layers_of (todo : list (nat * nat * layer)) : list (layer * nat) :=
  map (fun t : nat * nat * layer => (snd t, snd (fst t))) todo.

(** ** A concrete environment and a small network

    The forward pass of the standard modules, a bias laid out as one row, an
    identity stand-in for the convolution primitives and a fixed sample
    stream; the network is 4 -> 3 affine, ReLU, 3 -> 2 affine. *)

Module Example.

Definition forward (l : layer) (args : list (list vec)) : result (list vec) :=
  x <- py_last args ;;
  match l with
  | Linear in_features _ weight bias =>
      r <- mapM (linear_row in_features weight) x ;;
      match bias with
      | Some b => bop2 Qplus r [b]
      | None => Ok r
      end
  | ReLU => Ok (map (map clamp_min0) x)
  | CustomModule _ => Ok x
  | _ => Raise (RuntimeError "forward pass not available")
  end.

Definition E : torch := {|
  module_forward := forward;
  F_conv2d := fun _ _ _ v => Ok v;
  F_conv_transpose2d := fun _ _ _ v => Ok v;
  full_bias := fun l _ =>
                 match l with
                 | Linear _ _ _ (Some b) => Ok (T2 [b])
                 | _ => Raise (ValueError "full_bias")
                 end;
  transpose_all := fun net => Ok net;
  torch_sqrt := fun q => q;
  channel_mean_var := fun _ => ([], []);
  cauchy_ := fun n => inject_Z (Z.of_nat n) - 3
|}.

Definition kw : DualNetBounds.kwargs := {|
  DualNetBounds.alpha_grad := false;
  DualNetBounds.scatter_grad := false;
  DualNetBounds.l1_proj := None;
  DualNetBounds.l1_eps := None;
  DualNetBounds.m := None;
  DualNetBounds.batchnorm := false;
  DualNetBounds.l1_type := "exact"
|}.

Definition w0 : world := {| rng_pos := 0; warnings := [] |}.

Definition net : list layer :=
  [Linear 4 3 [[1; -1; 2; 0]; [0; 1; 1; -1]; [2; 0; -1; 1]]
     (Some [1 # 10; - (2 # 10); 0]);
   ReLU;
   Linear 3 2 [[1; -1; 1]; [0; 2; -1]] (Some [0; 1 # 2])].

Definition X : list vec := [[1 # 2; - (2 # 10); 1 # 10; 3 # 10]].

Definition epsilon : Q := 5 # 100.

(** The two affine layers alone. *)
Definition affine_net : list layer :=
  [Linear 4 3 [[1; -1; 2; 0]; [0; 1; 1; -1]; [2; 0; -1; 1]]
     (Some [1 # 10; - (2 # 10); 0]);
   Linear 3 2 [[1; -1; 1]; [0; 2; -1]] (Some [0; 1 # 2])].

Definition c : list (list vec) := [[[1; -1]]].

(** A randomized ReLU operator and a randomized representative of the ball,
    as their constructors build them from the sample stream. *)
Definition relu_proj : DualReLUProj.t :=
  Eval vm_compute in
    match DualReLUProj.init E [[true; false]] [[1 # 2; 1]] [[-1; 2]] 3%Z w0 with
    | Ok (o, _) => o
    | Raise _ =>
        {| DualReLUProj.d := []; DualReLUProj.I := []; DualReLUProj.zl := [];
           DualReLUProj.I_empty := true; DualReLUProj.nus := [];
           DualReLUProj.nu_ones := [] |}
    end.

Definition ball_proj : InfBallProj.t :=
  Eval vm_compute in
    match InfBallProj.init E [[0; 1]] 1 3 w0 with
    | Ok (o, _) => o
    | Raise _ =>
        {| InfBallProj.epsilon := 0; InfBallProj.nu_x := []; InfBallProj.nu := [] |}
    end.

(** The dual operators of the two affine layers. *)
Definition lin1 : operator :=
  OpLinear {| DualLinear.layer_ :=
                Linear 4 3 [[1; -1; 2; 0]; [0; 1; 1; -1]; [2; 0; -1; 1]]
                  (Some [1 # 10; - (2 # 10); 0]);
              DualLinear.bias := Some [PyT (T2 [[1 # 10; - (2 # 10); 0]])] |}.

Definition lin2 : operator :=
  OpLinear {| DualLinear.layer_ :=
                Linear 3 2 [[1; -1; 1]; [0; 2; -1]] (Some [0; 1 # 2]);
              DualLinear.bias := Some [PyT (T2 [[0; 1 # 2]])] |}.

(** A network of one affine layer that does not fit an input of three
    features. *)
Definition misfit_net : list layer := [Linear 2 1 [[1; 1]] None].

Definition misfit_X : list vec := [[1; 2; 3]].

End Example.


(** The sums over the rows of the absolute values of every column:
    [rows.abs().sum(0)] for one (rows, features) block. *)
Definition l1_columns (rows : list vec) : vec :=
  map sumQ (transpose (map (map Qabs) rows)).


(** What the construction of a later residual block may change of an
    operator of the chain: the [dual_ts] list of a block grows at the front,
    and nothing else changes. *)
Definition rewired (op op' : operator) : Prop :=
  match op, op' with
  | OpDense o, OpDense o' =>
      DualDense.duals o' = DualDense.duals o /\
      exists front, DualDense.dual_ts o' = front ++ DualDense.dual_ts o
  | _, _ => op' = op
  end.

(** [op] is an operator of the class the construction loop picks for the
    layer [l]; an affine operator holds the layer itself and a block has one
    entry for every entry of the layer. *)
Definition dual_of (l : layer) (op : operator) : Prop :=
  match l, op with
  | Linear _ _ _ _, OpLinear o => DualLinear.layer_ o = l
  | Conv2d _ _ _ _, OpConv2d o => DualLinear.layer_ o = l
  | ReLU, OpReLU _ | ReLU, OpReLUProj _ => True
  | Dense Ws, OpDense o => length (DualDense.duals o) = length Ws
  | BatchNorm2d _ _ _ _ _ _, OpBatchNorm2d _ => True
  | CustomModule _, OpReshape _ => is_Flatten l = true
  | _, _ => False
  end.

Definition is_ReLUProj (op : operator) : bool :=
  match op with OpReLUProj _ => true | _ => false end.

(** Every history list of [op] has [age] entries. *)
Definition aged (age : nat) (op : operator) : Prop :=
  Forall (fun h => length h = age) (histories op).


(** Two lists paired from their ends: the last entries together, the ones
    before them together, and so on for as long as both have entries. *)
Definition zip_from_end {A B : Type} (l1 : list A) (l2 : list B) : list (A * B) :=
  let k := Nat.min (length l1) (length l2) in
  combine (skipn (length l1 - k) l1) (skipn (length l2 - k) l2).

(** The pairs whose first component is not [None]. *)
Definition present {A B : Type} (l : list (option A * B)) : list (A * B) :=
  flat_map (fun wx : option A * B =>
              match fst wx with Some w => [(w, snd wx)] | None => [] end) l.


(** *** Affine networks as functions

    The function a network of affine layers computes on one sample, its
    well-formedness for inputs of [n] features, and the quantities of the
    dual objective for one row [v] of the objective: the direction at the
    input and the sum of the products of the directions with the biases. *)

Definition add_bias (y : vec) (b : option vec) : vec :=
  match b with
  | Some bv => zip_with Qplus y bv
  | None => y
  end.

Fixpoint net_output (net : list layer) (x : vec) : vec :=
  match net with
  | [] => x
  | Linear _ _ weight bias :: net' =>
      net_output net' (add_bias (map (dot x) weight) bias)
  | _ :: net' => net_output net' x
  end.

Fixpoint affine_wf (n : nat) (net : list layer) : Prop :=
  match net with
  | [] => True
  | Linear in_features out_features weight bias :: net' =>
      in_features = n /\ length weight = out_features /\
      Forall (fun row => length row = in_features) weight /\
      match bias with Some bv => length bv = out_features | None => True end /\
      affine_wf out_features net'
  | _ :: _ => False
  end.

Fixpoint out_dim (n : nat) (net : list layer) : nat :=
  match net with
  | [] => n
  | Linear _ out_features _ _ :: net' => out_dim out_features net'
  | _ :: net' => out_dim n net'
  end.

Fixpoint back (net : list layer) (v : vec) : vec :=
  match net with
  | [] => v
  | Linear in_features _ weight _ :: net' =>
      map (dot (back net' v)) (weight_t in_features weight)
  | _ :: net' => back net' v
  end.

Fixpoint bias_term (net : list layer) (v : vec) : Q :=
  match net with
  | [] => 0
  | Linear _ _ _ bias :: net' =>
      match bias with Some bv => dot (back net' v) bv | None => 0 end
      + bias_term net' v
  | _ :: net' => bias_term net' v
  end.

(** The directions of a (batch, objectives, features) objective [C] at the
    input of every layer and at the output. *)
Fixpoint dirs (net : list layer) (C : list (list vec)) : list pyval :=
  match net with
  | [] => [PyT (T3 C)]
  | _ :: net' => PyT (T3 (map (map (back net)) C)) :: dirs net' C
  end.

(** [Aff.full_bias] lays the bias of an affine layer out as it is. *)
Definition full_bias_flat (E : torch) : Prop :=
  forall in_features out_features weight bv n,
  exists fb,
    full_bias E (Linear in_features out_features weight (Some bv)) n = Ok fb /\
    flat_all fb = bv.


(** ** The robust objective *)

(** Python [-v] where [v] may be the integer 0. *)
Definition pyneg (v : pyval) : pyval :=
  match v with
  | PyZero => PyZero
  | PyT t => PyT (tneg t)
  end.

(** An index into a dimension of size [n]: a negative index counts from the
    end. *)
Definition py_index (n : nat) (z : Z) : result nat :=
  if ((0 <=? z) && (z <? Z.of_nat n))%Z then Ok (Z.to_nat z)
  else if ((- Z.of_nat n <=? z) && (z <? 0))%Z then Ok (Z.to_nat (Z.of_nat n + z))
  else Raise (IndexError "index out of range").

(** [torch.eye(num_classes)[y].unsqueeze(1) - torch.eye(num_classes).unsqueeze(0)] *)
Definition objective (num_classes : nat) (y : list Z) : result (list (list vec)) :=
  idx <- mapM (py_index num_classes) y ;;
  rows <- index_rows (eye num_classes) idx ;;
  bop3 Qminus (unsqueeze1 rows) [eye num_classes].

Module RobustBounds.

Record t : Type := mk {
  net : list layer;
  epsilon : Q;
  kwargs : DualNetBounds.kwargs
}.

(** [forward(X, y)]; [num_classes] is [self.net[-1].out_features]. *)
Definition forward (E : torch) (self : t) (num_classes : nat) (X : list vec)
  (y : list Z) (w : world) : result (pyval * world) :=
  '(dual, w') <- DualNetBounds.init E (net self) X (epsilon self) (kwargs self) w ;;
  c <- objective num_classes y ;;
  '(_, v) <- DualNetBounds.g E dual c ;;
  Ok (pyneg v, w').

End RobustBounds.


(** Two tensors of the same shape related entry by entry, a tensor whose
    entries all satisfy a predicate, and Python values ordered entry by
    entry. *)
Definition trel (R : Q -> Q -> Prop) (a b : tensor) : Prop :=
  match a, b with
  | T1 u, T1 v => Forall2 R u v
  | T2 m, T2 m' => Forall2 (Forall2 R) m m'
  | T3 t, T3 t' => Forall2 (Forall2 (Forall2 R)) t t'
  | _, _ => False
  end.

Definition tall (P : Q -> Prop) (t : tensor) : Prop :=
  match t with
  | T1 v => Forall P v
  | T2 m => Forall (Forall P) m
  | T3 t => Forall (Forall (Forall P)) t
  end.

Definition pyle (a b : pyval) : Prop :=
  match a, b with
  | PyZero, PyZero => True
  | PyT s, PyT t => trel Qle s t
  | _, _ => False
  end.


(** Every entry of a Python value satisfies a predicate; the integer [0]
    has no entries. *)
Definition pyall (P : Q -> Prop) (v : pyval) : Prop :=
  match v with
  | PyZero => True
  | PyT t => tall P t
  end.


(** ** The robust error *)

(** The index of the maximum of a row, scanning from position [i] with the
    best index and value so far; of several maxima the first is kept (the
    properties below use only that the entry at the index is a maximum). *)
Fixpoint argmax_from (i best : nat) (bestv : Q) (row : vec) : nat :=
  match row with
  | [] => best
  | q :: row' =>
      if Qlt_bool bestv q then argmax_from (S i) i q row'
      else argmax_from (S i) best bestv row'
  end.

Definition argmax (row : vec) : result nat :=
  match row with
  | [] => Raise (RuntimeError "cannot perform reduction function max on tensor with no elements")
  | q :: row' => Ok (argmax_from 1 0 q row')
  end.

Definition index_value (i : nat) : Q := inject_Z (Z.of_nat i).

(** [t.max(1)[1]]: the indices of the maxima along dimension 1. *)
Definition max_dim1_indices (t : tensor) : result tensor :=
  match t with
  | T1 _ => Raise (IndexError "Dimension out of range")
  | T2 m => r <- mapM argmax m ;; Ok (T1 (map index_value r))
  | T3 t =>
      r <- mapM (fun rows =>
                   match rows with
                   | [] => Raise (RuntimeError "cannot perform reduction function max on tensor with no elements")
                   | _ => mapM argmax (transpose rows)
                   end) t ;;
      Ok (T2 (map (map index_value) r))
  end.

(** [a != b] entry by entry, as a tensor of zeros and ones. *)
Definition tne : tensor -> tensor -> result tensor :=
  tbop (fun a b => if Qeq_bool a b then 0 else 1).

(** The error flags of [robust_loss], [f.data.max(1)[1] != y.data], before
    they are averaged; [nn.DataParallel] is taken as the call of the module
    it wraps. *)
Definition robust_loss_err (E : torch) (net : list layer) (epsilon : Q)
  (kw : DualNetBounds.kwargs) (num_classes : nat) (X : list vec) (y : list Z)
  (w : world) : result (tensor * world) :=
  '(f, w') <- RobustBounds.forward E
                {| RobustBounds.net := net; RobustBounds.epsilon := epsilon;
                   RobustBounds.kwargs := kw |} num_classes X y w ;;
  ft <- as_tensor f ;;
  idx <- max_dim1_indices ft ;;
  err <- tne idx (T1 (map inject_Z y)) ;;
  Ok (err, w').


(** A row of values is supported on a mask row: it has the length of the
    mask row and is zero wherever the mask is not set. *)
Definition supported_on (m : list bool) (row : vec) : Prop :=
  Forall2 (fun (b : bool) (q : Q) => b = false -> q == 0) m row.


(** The element of a leading dimension that a sample [b] reads when the
    tensor is broadcast against a batch: a leading dimension of size one is
    shared by every sample. *)
Definition batch_row {A : Type} (t : list A) (b : nat) : option A :=
  if (length t =? 1)%nat then nth_error t 0 else nth_error t b.


(** A network with two ReLU layers and keyword arguments that ask for the
    randomized relaxation with one projection. *)
Module RandomExample.

Definition kw : DualNetBounds.kwargs := {|
  DualNetBounds.alpha_grad := false;
  DualNetBounds.scatter_grad := false;
  DualNetBounds.l1_proj := Some 1%Z;
  DualNetBounds.l1_eps := None;
  DualNetBounds.m := None;
  DualNetBounds.batchnorm := false;
  DualNetBounds.l1_type := "median"
|}.

Definition net : list layer :=
  [Linear 1 2 [[1]; [1]] None; ReLU;
   Linear 2 2 [[1; 1]; [1; -1]] None; ReLU;
   Linear 2 1 [[1; 1]] None].

Definition X : list vec := [[0]].

Definition c : list (list vec) := [[[1]]].

End RandomExample.

(** * Properties *)

(** ** The result monad and list helpers *)

Lemma bind_Ok {A B : Type} (m : result A) (k : A -> result B) (b : B) :
  bind m k = Ok b -> exists a, m = Ok a /\ k a = Ok b.
Proof.
  destruct m as [a|e]; simpl; intros H; [eauto | discriminate].
Qed.

Lemma mapM_app {A B : Type} (f : A -> result B) (l1 l2 : list A) :
  mapM f (l1 ++ l2) =
  (y1 <- mapM f l1 ;; y2 <- mapM f l2 ;; Ok (y1 ++ y2)).
Proof.
  induction l1 as [|a l1 IH]; simpl.
  - destruct (mapM f l2); reflexivity.
  - destruct (f a) as [b|e]; simpl; [|reflexivity].
    rewrite IH. destruct (mapM f l1); simpl; [|reflexivity].
    destruct (mapM f l2); reflexivity.
Qed.

Lemma mapM_length {A B : Type} (f : A -> result B) (l : list A) (r : list B) :
  mapM f l = Ok r -> length r = length l.
Proof.
  revert r; induction l as [|a l IH]; simpl; intros r H.
  - injection H as <-. reflexivity.
  - destruct (f a); simpl in H; [|discriminate].
    destruct (mapM f l) eqn:E; simpl in H; [|discriminate].
    injection H as <-. simpl. f_equal. apply IH. reflexivity.
Qed.

(** ** Minibatched convolution (C10) *)

Section MinibatchFacts.

Variable prim : vec -> result vec.
Variable bs : nat.
Hypothesis bs_pos : (0 < bs)%nat.

Lemma slice_skipn (x : list vec) (i : nat) :
  (i < length x)%nat ->
  skipn i x = slice x i (Nat.min (i + bs) (length x)) ++ skipn (i + bs) x.
Proof.
  intros Hi. unfold slice.
  replace (i + bs)%nat with (bs + i)%nat at 2 by lia.
  rewrite <- skipn_skipn.
  assert (Hlen : length (skipn i x) = (length x - i)%nat) by apply length_skipn.
  destruct (Nat.le_ge_cases (i + bs) (length x)) as [Hle|Hge].
  - rewrite Nat.min_l by assumption.
    replace (i + bs - i)%nat with bs by lia.
    symmetry. apply firstn_skipn.
  - rewrite Nat.min_r by assumption.
    rewrite (skipn_all2 (skipn i x)) by lia.
    rewrite firstn_all2 by lia.
    now rewrite app_nil_r.
Qed.

Lemma minibatch_loop_concat (x : list vec) :
  forall fuel i out,
    (length x - i <= fuel)%nat ->
    (o <- minibatch_loop prim bs fuel i x out ;; Ok (concat o)) =
    (ys <- F_batched prim (skipn i x) ;; Ok (concat out ++ ys)).
Proof.
  induction fuel as [|fuel IH]; intros i out Hfuel; simpl.
  - destruct (Nat.ltb_spec i (length x)) as [Hlt|Hge]; [lia|].
    rewrite skipn_all2 by lia. simpl. now rewrite app_nil_r.
  - destruct (Nat.ltb_spec i (length x)) as [Hlt|Hge].
    + assert (Hsplit : F_batched prim (skipn i x) =
                       (y1 <- F_batched prim (slice x i (Nat.min (i + bs) (length x))) ;;
                        y2 <- F_batched prim (skipn (i + bs) x) ;; Ok (y1 ++ y2))).
      { rewrite (slice_skipn x i Hlt) at 1. apply mapM_app. }
      rewrite Hsplit.
      destruct (F_batched prim (slice x i (Nat.min (i + bs) (length x))))
        as [y|e]; simpl; [|reflexivity].
      rewrite IH by lia.
      destruct (F_batched prim (skipn (i + bs) x)); simpl; [|reflexivity].
      rewrite concat_app. simpl. now rewrite app_nil_r, <- app_assoc.
    + rewrite skipn_all2 by lia. simpl. now rewrite app_nil_r.
Qed.

Lemma minibatch_loop_nonempty (x : list vec) :
  forall fuel i out o,
    out <> [] ->
    minibatch_loop prim bs fuel i x out = Ok o -> o <> [].
Proof.
  induction fuel as [|fuel IH]; intros i out o Hout; simpl.
  - destruct (i <? length x)%nat; [discriminate|].
    intros H; injection H as <-; assumption.
  - destruct (i <? length x)%nat.
    + destruct (F_batched prim _) as [y|e]; simpl; [|discriminate].
      apply IH. destruct out; discriminate.
    + intros H; injection H as <-; assumption.
Qed.

Lemma minibatched_unchunked (x : list vec) :
  x <> [] -> minibatched prim bs x = F_batched prim x.
Proof.
  intros Hx. unfold minibatched.
  pose proof (minibatch_loop_concat x (length x) 0 [] ltac:(lia)) as Hc.
  simpl in Hc.
  destruct (minibatch_loop prim bs (length x) 0 x []) as [o|e] eqn:Hloop;
    simpl in *.
  - assert (Ho : o <> []).
    { destruct x as [|x0 x']; [contradiction|]. simpl in Hloop.
      destruct (F_batched prim _) as [y|e]; simpl in Hloop; [|discriminate].
      eapply minibatch_loop_nonempty; [|exact Hloop]. discriminate. }
    destruct o as [|o0 o']; [contradiction|]. simpl.
    destruct (F_batched prim x); simpl in Hc; congruence.
  - destruct (F_batched prim x); simpl in Hc; congruence.
Qed.

End MinibatchFacts.

Lemma batch_size_pos : (0 < batch_size)%nat.
Proof. unfold batch_size. lia. Qed.

(** On an input with at least one sample the minibatched helpers return
    what one call of the primitive on the whole input returns, errors
    included. *)
Theorem conv_helpers_unchunked (prim prim_t : vec -> result vec) (x : list vec) :
  x <> [] ->
  conv2d prim x = F_batched prim x /\
  conv_transpose2d prim_t x = F_batched prim_t x.
Proof.
  intros Hx. split; apply minibatched_unchunked; auto using batch_size_pos.
Qed.

Lemma conv_helpers_unchunked_witness :
  conv2d (fun v => Ok (map (Qmult 2) v)) [[1; 2]; [3; 4]] =
    F_batched (fun v => Ok (map (Qmult 2) v)) [[1; 2]; [3; 4]] /\
  conv_transpose2d (fun v => Ok v) [[1; 2]; [3; 4]] =
    F_batched (fun v => Ok v) [[1; 2]; [3; 4]].
Proof.
  apply (conv_helpers_unchunked (fun v => Ok (map (Qmult 2) v)) (fun v => Ok v)
           [[1; 2]; [3; 4]]).
  discriminate.
Defined.

(** C10: the helpers miss the input whose leading dimension is empty.  The
    loop body never runs, the concatenation of no tensors is refused, while
    one call of the primitive returns the empty result. *)
Lemma conv_helpers_empty_input :
  conv2d (fun v => Ok v) [] <> F_batched (fun v => Ok v) [] /\
  conv_transpose2d (fun v => Ok v) [] <> F_batched (fun v => Ok v) [].
Proof.
  split; vm_compute; discriminate.
Qed.

(** ** The empty-relaxation state (C6) *)

(** C6: a ReLU operator, exact or randomized, built from a mask without set
    entries is in the empty state: [apply] returns it unchanged, [fval]
    without [nu_prev] returns the pair (0, 0) and [fval] with [nu_prev]
    returns 0; the randomized constructor emits its warning. *)
Theorem relu_empty_inert (E : torch) (I : mask) (d zl : list vec) (k : Z)
  (w : world) :
  mask_sum I = 0%nat ->
  d <> [] ->
  (exists o,
      DualReLU.init I d zl = Ok o /\
      DualReLU.I_empty o = true /\
      (forall dual_layer, apply E (OpReLU o) dual_layer = Ok (OpReLU o)) /\
      (forall nu, fval (OpReLU o) nu None = Ok (Bounds PyZero PyZero)) /\
      (forall nu nu_prev,
          fval (OpReLU o) nu (Some nu_prev) = Ok (Contrib PyZero))) /\
  (exists o,
      DualReLUProj.init E I d zl k w =
        Ok (o, warn "ReLU projection has no origin crossing activations" w) /\
      DualReLUProj.I_empty o = true /\
      (forall dual_layer, apply E (OpReLUProj o) dual_layer = Ok (OpReLUProj o)) /\
      (forall nu, fval (OpReLUProj o) nu None = Ok (Bounds PyZero PyZero)) /\
      (forall nu nu_prev,
          fval (OpReLUProj o) nu (Some nu_prev) = Ok (Contrib PyZero))).
Proof.
  intros Hsum Hd. split.
  - destruct d as [|d0 d']; [contradiction|].
    unfold DualReLU.init. rewrite Hsum. simpl.
    eexists. split; [reflexivity|]. repeat split; intros; reflexivity.
  - unfold DualReLUProj.init. rewrite Hsum. simpl.
    eexists. split; [reflexivity|]. repeat split; intros; reflexivity.
Qed.

Lemma relu_empty_inert_witness :
  exists o,
    DualReLU.init [[false; false]] [[1; 0]] [[1; -2]] = Ok o /\
    DualReLU.I_empty o = true /\
    fval (OpReLU o) None None = Ok (Bounds PyZero PyZero).
Proof.
  destruct (relu_empty_inert Example.E [[false; false]] [[1; 0]] [[1; -2]] 3%Z
              Example.w0 eq_refl ltac:(discriminate))
    as [(o & Hi & He & _ & Hf & _) _].
  exists o. repeat split; auto.
Defined.

(** ** The head of the chain (C5) *)

Lemma mapM_Forall2 {A B : Type} (f : A -> result B) (l : list A) (r : list B) :
  mapM f l = Ok r -> Forall2 (fun a b => f a = Ok b) l r.
Proof.
  revert r; induction l as [|a l IH]; simpl; intros r H.
  - injection H as <-. constructor.
  - destruct (f a) as [b|] eqn:Ea; simpl in H; [|discriminate].
    destruct (mapM f l) as [r'|] eqn:El; simpl in H; [|discriminate].
    injection H as <-. constructor; auto.
Qed.

Lemma hd_error_app_some {A : Type} (l : list A) (x a : A) :
  hd_error l = Some a -> hd_error (l ++ [x]) = Some a.
Proof. destruct l; simpl; [discriminate | auto]. Qed.

Ltac inv_bind H :=
  let a := fresh "a" in
  let Ha := fresh "Ha" in
  apply bind_Ok in H; destruct H as (a & Ha & H).

(** ** The method bodies and the values of the methods

    Every body of [fval] and [affine_transpose] returns what the method
    computes from the attributes and leaves the object as it found it. *)

Ltac run_body :=
  unfold mbind, getattr, expr, mreturn, bind;
  repeat first
    [ reflexivity
    | match goal with
      | |- context [match ?r with Ok _ => _ | Raise _ => _ end] =>
          lazymatch r with
          | Ok _ => fail
          | Raise _ => fail
          | match _ with Ok _ => _ | Raise _ => _ end => fail
          | _ => destruct r
          end
      end ].

Lemma InfBall_fval_direction_body {S : Type} (epsilon : S -> Q)
  (nu_x : S -> list pyval) (nu : pyval) (s : S) :
  Body.InfBall_fval_direction epsilon nu_x nu s =
  (r <- InfBall.fval_direction (epsilon s) (nu_x s) nu ;; Ok (r, s)).
Proof.
  unfold Body.InfBall_fval_direction, InfBall.fval_direction.
  unfold mbind, getattr, expr, mreturn, bind.
  destruct (view_direction nu) as [nu3|]; [|reflexivity].
  destruct (nu_x s) as [|x0 rest]; [reflexivity|].
  run_body.
Qed.

Lemma InfBall_fval_body (nu nu_prev : option pyval) (o : InfBall.t) :
  Body.InfBall_fval nu nu_prev o =
  (r <- InfBall.fval o nu nu_prev ;; Ok (r, o)).
Proof.
  unfold Body.InfBall_fval, InfBall.fval. destruct nu as [nu|].
  - apply InfBall_fval_direction_body.
  - run_body.
Qed.

Lemma InfBallProj_fval_body (nu nu_prev : option pyval) (o : InfBallProj.t) :
  Body.InfBallProj_fval nu nu_prev o =
  (r <- InfBallProj.fval o nu nu_prev ;; Ok (r, o)).
Proof.
  unfold Body.InfBallProj_fval, InfBallProj.fval. destruct nu as [nu|].
  - apply InfBall_fval_direction_body.
  - run_body.
Qed.

Lemma DualLinear_fval_body (nu nu_prev : option pyval) (o : DualLinear.t) :
  Body.DualLinear_fval nu nu_prev o =
  (r <- DualLinear.fval o nu nu_prev ;; Ok (r, o)).
Proof.
  unfold Body.DualLinear_fval, DualLinear.fval.
  unfold mbind, getattr, expr, mreturn, bind.
  destruct nu as [nu|]; destruct (DualLinear.bias o) as [bs|];
    try reflexivity.
  - destruct (view_direction nu) as [nu3|]; [|reflexivity].
    destruct bs as [|b0 rest]; [reflexivity|]. run_body.
  - run_body.
Qed.

Lemma DualLinear_affine_body (xs : list pyval) (o : DualLinear.t) :
  Body.DualLinear_affine xs o =
  (r <- DualLinear.affine o xs ;; Ok (r, o)).
Proof.
  unfold Body.DualLinear_affine, DualLinear.affine.
  unfold mbind, getattr, expr, mreturn, bind.
  destruct (py_last xs) as [x|]; [|reflexivity].
  destruct (DualLinear.layer_ o); try reflexivity; run_body.
Qed.

Lemma DualLinear_affine_transpose_body (xs : list pyval) (o : DualLinear.t) :
  Body.DualLinear_affine_transpose xs o =
  (r <- DualLinear.affine_transpose o xs ;; Ok (r, o)).
Proof.
  unfold Body.DualLinear_affine_transpose, DualLinear.affine_transpose.
  unfold mbind, getattr, expr, mreturn, bind.
  destruct (py_last xs) as [x|]; [|reflexivity].
  destruct (DualLinear.layer_ o); try reflexivity; run_body.
Qed.

Lemma DualConv2d_affine_body (E : torch) (xs : list pyval)
  (o : DualConv2d.t) :
  Body.DualConv2d_affine E xs o =
  (r <- DualConv2d.affine E o xs ;; Ok (r, o)).
Proof.
  unfold Body.DualConv2d_affine, DualConv2d.affine.
  unfold mbind, getattr, expr, mreturn, bind.
  destruct (py_last xs) as [x|]; [|reflexivity].
  destruct (DualLinear.layer_ o); try reflexivity; run_body.
Qed.

Lemma DualConv2d_affine_transpose_body (E : torch) (xs : list pyval)
  (o : DualConv2d.t) :
  Body.DualConv2d_affine_transpose E xs o =
  (r <- DualConv2d.affine_transpose E o xs ;; Ok (r, o)).
Proof.
  unfold Body.DualConv2d_affine_transpose, DualConv2d.affine_transpose.
  unfold mbind, getattr, expr, mreturn, bind.
  destruct (py_last xs) as [x|]; [|reflexivity].
  destruct (DualLinear.layer_ o); try reflexivity; run_body.
Qed.

Lemma DualReshape_fval_body (nu nu_prev : option pyval) (o : DualReshape.t) :
  Body.DualReshape_fval nu nu_prev o =
  (r <- DualReshape.fval o nu nu_prev ;; Ok (r, o)).
Proof. destruct nu; reflexivity. Qed.

Lemma DualReshape_affine_body (xs : list pyval) (o : DualReshape.t) :
  Body.DualReshape_affine xs o =
  (r <- DualReshape.affine o xs ;; Ok (r, o)).
Proof.
  unfold Body.DualReshape_affine, DualReshape.affine.
  run_body.
Qed.

Lemma DualReshape_affine_transpose_body (xs : list pyval) (o : DualReshape.t) :
  Body.DualReshape_affine_transpose xs o =
  (r <- DualReshape.affine_transpose o xs ;; Ok (r, o)).
Proof.
  unfold Body.DualReshape_affine_transpose, DualReshape.affine_transpose.
  run_body.
Qed.

Lemma DualSequential_fval_body (nu nu_prev : option pyval) (u : unit) :
  Body.DualSequential_fval nu nu_prev u =
  (r <- DualSequential.fval nu nu_prev ;; Ok (r, u)).
Proof. destruct nu; reflexivity. Qed.

Lemma DualSequential_affine_body (xs : list pyval) (u : unit) :
  Body.DualSequential_affine xs u =
  (r <- DualSequential.affine xs ;; Ok (r, u)).
Proof.
  unfold Body.DualSequential_affine, DualSequential.affine.
  run_body.
Qed.

Lemma DualSequential_affine_transpose_body (xs : list pyval) (u : unit) :
  Body.DualSequential_affine_transpose xs u =
  (r <- DualSequential.affine_transpose xs ;; Ok (r, u)).
Proof.
  unfold Body.DualSequential_affine_transpose, DualSequential.affine_transpose.
  run_body.
Qed.

Lemma DualReLU_fval_direction_body {S : Type} (I_empty : S -> bool)
  (zl : S -> list vec) (I : S -> mask) (nu_prev : pyval) (s : S) :
  Body.DualReLU_fval_direction I_empty zl I nu_prev s =
  (r <- DualReLU.fval_direction (I_empty s) (zl s) (I s) nu_prev ;; Ok (r, s)).
Proof.
  unfold Body.DualReLU_fval_direction, DualReLU.fval_direction.
  unfold mbind, getattr, expr, mreturn, bind.
  destruct (I_empty s); [reflexivity|]. run_body.
Qed.

Lemma DualReLU_fval_body (nu nu_prev : option pyval) (o : DualReLU.t) :
  Body.DualReLU_fval nu nu_prev o =
  (r <- DualReLU.fval o nu nu_prev ;; Ok (r, o)).
Proof.
  unfold Body.DualReLU_fval, DualReLU.fval. destruct nu_prev as [nu_prev|].
  - apply DualReLU_fval_direction_body.
  - unfold mbind, getattr, expr, mreturn, bind.
    destruct (DualReLU.I_empty o); [reflexivity|]. run_body.
Qed.

Lemma DualReLU_affine_body {S : Type} (d : S -> list vec) (xs : list pyval)
  (I_ind : option (list (nat * nat))) (s : S) (self : DualReLU.t) :
  DualReLU.d self = d s ->
  Body.DualReLU_affine d xs I_ind s =
  (r <- DualReLU.affine self xs I_ind ;; Ok (r, s)).
Proof.
  intros Hd. unfold Body.DualReLU_affine, DualReLU.affine. rewrite Hd.
  unfold mbind, getattr, expr, mreturn, bind.
  destruct (py_last xs) as [x|]; [|reflexivity].
  destruct (as_tensor x) as [xt|]; [|reflexivity].
  destruct I_ind as [ind|]; destruct (2 <? rank xt)%nat; run_body.
Qed.

Lemma DualReLU_affine_transpose_body (xs : list pyval) (o : DualReLU.t) :
  Body.DualReLU_affine_transpose xs o =
  (r <- DualReLU.affine_transpose o xs ;; Ok (r, o)).
Proof. now apply DualReLU_affine_body. Qed.

Lemma DualReLUProj_fval_body (nu nu_prev : option pyval) (o : DualReLUProj.t) :
  Body.DualReLUProj_fval nu nu_prev o =
  (r <- DualReLUProj.fval o nu nu_prev ;; Ok (r, o)).
Proof.
  unfold Body.DualReLUProj_fval, DualReLUProj.fval.
  destruct nu_prev as [nu_prev|].
  - apply DualReLU_fval_direction_body.
  - unfold mbind, getattr, expr, mreturn, bind.
    destruct (DualReLUProj.I_empty o); [reflexivity|]. run_body.
Qed.

Lemma DualReLUProj_affine_transpose_body (xs : list pyval)
  (o : DualReLUProj.t) :
  Body.DualReLUProj_affine_transpose xs o =
  (r <- DualReLUProj.affine_transpose o xs ;; Ok (r, o)).
Proof.
  unfold Body.DualReLUProj_affine_transpose, DualReLUProj.affine_transpose,
    DualReLUProj.affine.
  now apply DualReLU_affine_body.
Qed.

Lemma DualBatchNorm2d_fval_body (nu nu_prev : option pyval)
  (o : DualBatchNorm2d.t) :
  Body.DualBatchNorm2d_fval nu nu_prev o =
  (r <- DualBatchNorm2d.fval o nu nu_prev ;; Ok (r, o)).
Proof.
  unfold Body.DualBatchNorm2d_fval, DualBatchNorm2d.fval.
  unfold mbind, getattr, expr, mreturn, bind.
  destruct nu as [nu|].
  - destruct (DualBatchNorm2d.ds o) as [|d0 rest]; [reflexivity|]. run_body.
  - run_body.
Qed.

Lemma DualBatchNorm2d_affine_body (xs : list pyval) (o : DualBatchNorm2d.t) :
  Body.DualBatchNorm2d_affine xs o =
  (r <- DualBatchNorm2d.affine o xs ;; Ok (r, o)).
Proof.
  unfold Body.DualBatchNorm2d_affine, DualBatchNorm2d.affine.
  unfold mbind, getattr, expr, mreturn, bind.
  destruct (py_last xs) as [x|]; [|reflexivity].
  destruct x as [|[v|m|t]]; run_body.
Qed.

Lemma DualBatchNorm2d_affine_transpose_body (xs : list pyval)
  (o : DualBatchNorm2d.t) :
  Body.DualBatchNorm2d_affine_transpose xs o =
  (r <- DualBatchNorm2d.affine_transpose o xs ;; Ok (r, o)).
Proof. apply DualBatchNorm2d_affine_body. Qed.

Lemma subop_fval_body (nu nu_prev : option pyval) (s : subop) :
  Body.subop_fval nu nu_prev s =
  (r <- subop_fval s nu nu_prev ;; Ok (r, s)).
Proof.
  destruct s as [o|o|]; unfold Body.subop_fval, subop_fval.
  - rewrite DualLinear_fval_body.
    destruct (DualLinear.fval o nu nu_prev); reflexivity.
  - rewrite DualLinear_fval_body.
    destruct (DualLinear.fval o nu nu_prev); reflexivity.
  - rewrite DualSequential_fval_body.
    destruct (DualSequential.fval nu nu_prev); reflexivity.
Qed.

Lemma subop_affine_body (E : torch) (xs : list pyval) (s : subop) :
  Body.subop_affine E xs s = (r <- subop_affine E s xs ;; Ok (r, s)).
Proof.
  destruct s as [o|o|]; unfold Body.subop_affine, subop_affine.
  - rewrite DualConv2d_affine_body.
    destruct (DualConv2d.affine E o xs); reflexivity.
  - rewrite DualLinear_affine_body.
    destruct (DualLinear.affine o xs); reflexivity.
  - rewrite DualSequential_affine_body.
    destruct (DualSequential.affine xs); reflexivity.
Qed.

Lemma transposed_affine_transpose_body (E : torch) (xs : list pyval)
  (s : transposed) :
  Body.transposed_affine_transpose E xs s =
  (r <- transposed_affine_transpose E s xs ;; Ok (r, s)).
Proof.
  destruct s as [l|l|];
    unfold Body.transposed_affine_transpose, transposed_affine_transpose.
  - rewrite DualConv2d_affine_transpose_body.
    destruct (DualConv2d.affine_transpose E _ xs); reflexivity.
  - rewrite DualLinear_affine_transpose_body.
    destruct (DualLinear.affine_transpose _ xs); reflexivity.
  - rewrite DualSequential_affine_transpose_body.
    destruct (DualSequential.affine_transpose xs); reflexivity.
Qed.

Lemma duals_fvals_body (nu nu_prev : option pyval) (ds : list (option subop)) :
  Body.duals_fvals nu nu_prev ds =
  (fs <- mapM (fun s => subop_fval s nu nu_prev)
           (flat_map (fun W : option subop =>
                        match W with Some s => [s] | None => [] end) ds) ;;
   Ok (fs, ds)).
Proof.
  induction ds as [|[W|] ds IH]; simpl; [reflexivity| |].
  - rewrite subop_fval_body.
    destruct (subop_fval W nu nu_prev) as [f|]; cbn [bind]; [|reflexivity].
    rewrite IH.
    destruct (mapM _ _) as [fs|]; reflexivity.
  - rewrite IH.
    destruct (mapM _ _) as [fs|]; reflexivity.
Qed.

Lemma DualDense_fval_body (nu nu_prev : option pyval) (o : DualDense.t) :
  Body.DualDense_fval nu nu_prev o =
  (r <- DualDense.fval o nu nu_prev ;; Ok (r, o)).
Proof.
  unfold Body.DualDense_fval, DualDense.fval.
  unfold mbind at 1, on_part. rewrite duals_fvals_body.
  destruct (mapM _ _) as [fvals|]; cbn [bind]; [|reflexivity].
  destruct o as [ds ts]. cbn [DualDense.duals DualDense.dual_ts].
  destruct nu as [nu|].
  - run_body.
  - destruct fvals as [|f fvals]; [reflexivity|]. run_body.
Qed.

Lemma pysum_gen_raise {A : Type} (f : A -> result pyval) (l : list A) (e : error) :
  fold_left (fun acc a => s <- acc ;; v <- f a ;; pyadd s v) l (Raise e) = Raise e.
Proof. induction l; simpl; auto. Qed.

Lemma slice_sum_body {W : Type} (call : list pyval -> method W pyval)
  (f : W -> list pyval -> result pyval) (xs : list pyval) (base : nat) :
  (forall ys w, call ys w = (r <- f w ys ;; Ok (r, w))) ->
  forall ws k acc,
    Body.slice_sum call xs (base + k) acc ws =
    (total <- fold_left
                (fun acc (wx : W * list pyval) =>
                   s <- acc ;; v <- f (fst wx) (snd wx) ;; pyadd s v)
                (flat_map (fun jw : nat * option W =>
                             match snd jw with
                             | Some w => [(w, firstn (base + fst jw + 1) xs)]
                             | None => []
                             end)
                          (combine (seq k (length ws)) ws))
                (Ok acc) ;;
     Ok (total, ws)).
Proof.
  intros Hcall.
  induction ws as [|[w|] ws IH]; intros k acc; simpl; [reflexivity| |].
  - rewrite Hcall.
    destruct (f w _) as [v|e]; cbn [bind].
    + destruct (pyadd acc v) as [acc'|e]; cbn [bind].
      * replace (S (base + k)) with (base + S k)%nat by lia.
        rewrite IH. destruct (fold_left _ _ (Ok acc')); reflexivity.
      * now rewrite pysum_gen_raise.
    + now rewrite pysum_gen_raise.
  - replace (S (base + k)) with (base + S k)%nat by lia.
    rewrite IH. destruct (fold_left _ _ (Ok acc)); reflexivity.
Qed.

Lemma last_n_firstn_skipn {A : Type} (k : nat) (l : list A) :
  (k <= length l)%nat ->
  firstn (length l - length (last_n k l)) l ++ last_n k l = l.
Proof.
  intros Hk. unfold last_n. destruct (k =? 0)%nat.
  - now rewrite Nat.sub_diag.
  - rewrite length_skipn.
    replace (length l - (length l - (length l - k)))%nat
      with (length l - k)%nat by lia.
    apply firstn_skipn.
Qed.

Lemma DualDense_affine_body (E : torch) (xs : list pyval) (o : DualDense.t) :
  Body.DualDense_affine E xs o =
  (r <- DualDense.affine E o xs ;; Ok (r, o)).
Proof.
  unfold Body.DualDense_affine, DualDense.affine, pysum_gen, windows.
  set (slice := last_n (Nat.min (length xs) (length (DualDense.duals o)))
                  (DualDense.duals o)).
  pose proof (slice_sum_body (Body.subop_affine E) (subop_affine E) xs
                (length xs - length slice)
                (fun ys w => subop_affine_body E ys w) slice 0 PyZero) as H.
  rewrite Nat.add_0_r in H. rewrite H.
  destruct (fold_left _ _ (Ok PyZero)) as [total|]; cbn [bind]; [|reflexivity].
  unfold slice. rewrite last_n_firstn_skipn by apply Nat.le_min_r.
  destruct o; reflexivity.
Qed.

Lemma DualDense_affine_transpose_body (E : torch) (xs : list pyval)
  (o : DualDense.t) :
  Body.DualDense_affine_transpose E xs o =
  (r <- DualDense.affine_transpose E o xs ;; Ok (r, o)).
Proof.
  unfold Body.DualDense_affine_transpose, DualDense.affine_transpose,
    pysum_gen, windows.
  set (slice := last_n (Nat.min (length xs) (length (DualDense.dual_ts o)))
                  (DualDense.dual_ts o)).
  pose proof (slice_sum_body (Body.transposed_affine_transpose E)
                (transposed_affine_transpose E) xs
                (length xs - length slice)
                (fun ys w => transposed_affine_transpose_body E ys w)
                slice 0 PyZero) as H.
  rewrite Nat.add_0_r in H. rewrite H.
  destruct (fold_left _ _ (Ok PyZero)) as [total|]; cbn [bind]; [|reflexivity].
  unfold slice. rewrite last_n_firstn_skipn by apply Nat.le_min_r.
  destruct o; reflexivity.
Qed.

(** A call of [fval] returns the value of the method and the object it was
    called on. *)
Lemma call_fval_eq (self : operator) (nu nu_prev : option pyval) :
  call_fval self nu nu_prev = (f <- fval self nu nu_prev ;; Ok (self, f)).
Proof.
  destruct self; unfold call_fval, fval;
    rewrite ?InfBall_fval_body, ?InfBallProj_fval_body, ?DualLinear_fval_body,
      ?DualReshape_fval_body, ?DualReLU_fval_body, ?DualReLUProj_fval_body,
      ?DualDense_fval_body, ?DualBatchNorm2d_fval_body,
      ?DualSequential_fval_body;
    match goal with
    | |- context [bind ?r _] => destruct r; reflexivity
    end.
Qed.

(** A call of [affine] returns the value of the method and the object it
    was called on. *)
Lemma call_affine_eq (E : torch) (self : operator) (xs : list pyval)
  (I_ind : option (list (nat * nat))) :
  call_affine E self xs I_ind =
  (v <- affine E self xs I_ind ;; Ok (self, v)).
Proof.
  destruct self; unfold call_affine, affine, without_I_ind, no_I_ind;
    try reflexivity;
    lazymatch goal with
    | |- context [Body.DualReLU_affine DualReLU.d] =>
        rewrite (DualReLU_affine_body DualReLU.d xs I_ind o o eq_refl);
        destruct (DualReLU.affine o xs I_ind); reflexivity
    | |- context [Body.DualReLU_affine DualReLUProj.d] =>
        unfold DualReLUProj.affine;
        rewrite (DualReLU_affine_body DualReLUProj.d xs I_ind o
                   (DualReLUProj.as_DualReLU o) eq_refl);
        destruct (DualReLU.affine (DualReLUProj.as_DualReLU o) xs I_ind);
        reflexivity
    | _ =>
        destruct I_ind; [reflexivity|];
        rewrite ?DualLinear_affine_body, ?DualConv2d_affine_body,
          ?DualReshape_affine_body, ?DualDense_affine_body,
          ?DualBatchNorm2d_affine_body, ?DualSequential_affine_body;
        match goal with
        | |- context [bind ?r _] => destruct r; reflexivity
        end
    end.
Qed.

(** A call of [affine_transpose] returns the value of the method and the
    object it was called on. *)
Lemma call_affine_transpose_eq (E : torch) (self : operator) (xs : list pyval) :
  call_affine_transpose E self xs =
  (v <- affine_transpose E self xs ;; Ok (self, v)).
Proof.
  destruct self; unfold call_affine_transpose, affine_transpose;
    try reflexivity;
    rewrite ?DualLinear_affine_transpose_body, ?DualConv2d_affine_transpose_body,
      ?DualReshape_affine_transpose_body, ?DualReLU_affine_transpose_body,
      ?DualReLUProj_affine_transpose_body, ?DualDense_affine_transpose_body,
      ?DualBatchNorm2d_affine_transpose_body,
      ?DualSequential_affine_transpose_body;
    match goal with
    | |- context [bind ?r _] => destruct r; reflexivity
    end.
Qed.

Lemma apply_exact_ball (E : torch) (X : list vec) (eps : Q) (l dl l' : operator) :
  apply E l dl = Ok l' -> exact_ball X eps l -> exact_ball X eps l'.
Proof.
  intros H Hb. destruct l; simpl in Hb; try contradiction.
  simpl in H. inv_bind H. injection H as <-.
  unfold InfBall.apply in Ha. inv_bind Ha. inv_bind Ha. injection Ha as <-.
  destruct Hb as (He & Hx & H1). simpl.
  repeat split; auto using hd_error_app_some.
Qed.

Lemma apply_is_InfBallProj (E : torch) (l dl l' : operator) :
  apply E l dl = Ok l' -> is_InfBallProj l' = is_InfBallProj l.
Proof.
  intros H. destruct l; simpl in H; try inv_bind H;
    injection H as <-; reflexivity.
Qed.

Lemma apply_all_exact_chain (E : torch) (X : list vec) (eps : Q)
  (dl : operator) (dn dn' : list operator) :
  mapM (fun l => apply E l dl) dn = Ok dn' ->
  exact_chain X eps dn -> exact_chain X eps dn'.
Proof.
  intros H [Hhd Hall]. apply mapM_Forall2 in H.
  split.
  - destruct H as [|a b l l' Hab _]; [contradiction|].
    eapply apply_exact_ball; eauto.
  - clear Hhd. induction H as [|a b l l' Hab _ IH]; constructor.
    + apply apply_is_InfBallProj in Hab. inversion Hall; subst. congruence.
    + apply IH. inversion Hall; assumption.
Qed.

Lemma nth_error_firstn_skipn {A : Type} (l : list A) (n : nat) (a : A) :
  nth_error l n = Some a -> l = firstn n l ++ a :: skipn (S n) l.
Proof.
  revert l; induction n as [|n IH]; intros [|b l] H; simpl in *;
    try discriminate.
  - now injection H as ->.
  - f_equal. now apply IH.
Qed.

Lemma rewire_exact_chain (X : list vec) (eps : Q) (net net' : list operator)
  (back : nat) (s : subop) (len_Ws i : nat) :
  rewire net back s len_Ws i = Ok net' ->
  exact_chain X eps net -> exact_chain X eps net'.
Proof.
  unfold rewire. intros H [Hhd Hall].
  destruct (length net <? back)%nat; [discriminate|].
  set (pos := (length net - back)%nat) in *.
  destruct (nth_error net pos) as [op|] eqn:Hn; [|discriminate].
  destruct op; try discriminate. injection H as <-.
  pose proof (nth_error_firstn_skipn _ _ _ Hn) as Hsplit.
  split.
  - destruct net as [|first rest]; [contradiction|].
    destruct pos as [|pos'].
    + simpl in Hn. injection Hn as ->. contradiction.
    + simpl. assumption.
  - rewrite Hsplit in Hall. apply Forall_app in Hall as [H1 H2].
    apply Forall_app. split; [assumption|].
    inversion H2; subst. constructor; [reflexivity | assumption].
Qed.

Lemma DualDense_init_loop_exact_chain (E : torch) (X : list vec) (eps : Q)
  (Ws : list (option layer)) :
  forall len_Ws i out_features duals net duals' net',
    DualDense_init_loop E Ws len_Ws i out_features duals net = Ok (duals', net') ->
    exact_chain X eps net -> exact_chain X eps net'.
Proof.
  induction Ws as [|W Ws IH]; simpl; intros len_Ws i out_f duals net duals' net' H Hc.
  - injection H as <- <-. assumption.
  - inv_bind H. inv_bind H. eapply IH; [exact H|].
    destruct a as [s|].
    + destruct (i <? len_Ws - 1)%nat.
      * eapply rewire_exact_chain; eauto.
      * injection Ha0 as <-. assumption.
    + injection Ha0 as <-. assumption.
Qed.

Lemma make_dual_layer_exact_chain (E : torch) (kw : DualNetBounds.kwargs)
  (X : list vec) (eps : Q) (zs : list (list vec)) (dense_t : option (list layer))
  (i in_f out_f : nat) (layer : layer) (dn dn1 : list operator)
  (w w1 : world) (dl : operator) :
  DualNetBounds.make_dual_layer E kw zs dense_t i in_f out_f layer dn w =
    Ok (dl, dn1, w1) ->
  exact_chain X eps dn ->
  exact_chain X eps dn1 /\ is_InfBallProj dl = false.
Proof.
  intros H Hc. unfold DualNetBounds.make_dual_layer in H.
  destruct layer.
  - inv_bind H. injection H as <- <- <-. auto.
  - inv_bind H. injection H as <- <- <-. auto.
  - inv_bind H. destruct a as [o w']. injection H as <- <- <-. split; [assumption|].
    unfold DualNetBounds.relu_dual_layer in Ha.
    repeat inv_bind Ha.
    destruct (DualNetBounds.l1_proj kw).
    + destruct (_ && _)%bool.
      * inv_bind Ha. destruct a6. injection Ha as <- _. reflexivity.
      * inv_bind Ha. injection Ha as <- _. reflexivity.
    + inv_bind Ha. injection Ha as <- _. reflexivity.
  - destruct (is_Flatten _); [|discriminate].
    injection H as <- <- <-. auto.
  - destruct (is_Flatten _).
    + injection H as <- <- <-. auto.
    + destruct dense_t as [ts|]; [|discriminate].
      destruct (nth_error ts i) as [lt|]; [|discriminate].
      destruct (is_Dense lt); [|discriminate].
      inv_bind H. destruct a as [o net']. injection H as <- <- <-.
      split; [|reflexivity].
      unfold DualDense_init in Ha. inv_bind Ha. destruct a as [duals net''].
      inv_bind Ha. injection Ha as _ <-.
      eapply DualDense_init_loop_exact_chain; eauto.
  - destruct (is_Flatten _).
    + injection H as <- <- <-. auto.
    + destruct (nth_error zs i); [|discriminate].
      inv_bind H. injection H as <- <- <-. auto.
  - destruct (is_Flatten _); [|discriminate].
    injection H as <- <- <-. auto.
Qed.

Lemma init_loop_exact_chain (E : torch) (kw : DualNetBounds.kwargs)
  (X : list vec) (eps : Q) (zs : list (list vec)) (dense_t : option (list layer))
  (len_net : nat) (todo : list (nat * nat * layer)) :
  forall i dn last w self w',
    DualNetBounds.init_loop E kw zs dense_t len_net i todo dn last w =
      Ok (self, w') ->
    exact_chain X eps dn ->
    (forall l, last = Some l -> is_InfBallProj l = false) ->
    exact_chain X eps (DualNetBounds.dual_net self) /\
    (forall l, DualNetBounds.last_layer self = Some l -> is_InfBallProj l = false).
Proof.
  induction todo as [|[[in_f out_f] layer] todo IH]; simpl;
    intros i dn last w self w' H Hc Hlast.
  - injection H as <- <-. simpl. auto.
  - inv_bind H. destruct a as [[dl dn1] w1].
    destruct (make_dual_layer_exact_chain _ _ X eps _ _ _ _ _ _ _ _ _ _ _ Ha Hc)
      as [Hc1 Hdl].
    destruct (i <? len_net - 1)%nat.
    + inv_bind H. eapply IH; [exact H| |exact Hlast].
      pose proof (apply_all_exact_chain _ X eps _ _ _ Ha0 Hc1) as [Hh Ha2].
      split.
      * destruct a; [contradiction|]. simpl. assumption.
      * apply Forall_app. split; [assumption|]. constructor; auto.
    + eapply IH; [exact H|exact Hc1|].
      intros l Hl. injection Hl as <-. assumption.
Qed.

(** ** The classification of the activations (C2) *)

Lemma zipM_pure {A B C : Type} (f : A -> B -> C) (a : list A) (b : list B) :
  zipM (fun x y => Ok (f x y)) a b = Ok (zip_with f a b).
Proof.
  revert b; induction a as [|x a IH]; intros [|y b]; simpl; auto.
  now rewrite IH.
Qed.

Lemma zipM_Forall2 {A B C : Type} (F : A -> B -> result C) (G : A -> B -> C)
  (a : list A) (b : list B) :
  Forall2 (fun x y => F x y = Ok (G x y)) a b ->
  zipM F a b = Ok (zip_with G a b).
Proof.
  induction 1 as [|x y a b Hxy _ IH]; simpl; auto.
  now rewrite Hxy, IH.
Qed.

Lemma bzip_same_length {A B C : Type} (F : A -> B -> result C)
  (a : list A) (b : list B) :
  length a = length b -> bzip F a b = zipM F a b.
Proof.
  intros H. unfold bzip. now rewrite H, Nat.eqb_refl.
Qed.

Lemma bop1_same_length (f : Q -> Q -> Q) (a b : vec) :
  length a = length b -> bop1 f a b = Ok (zip_with f a b).
Proof.
  intros H. unfold bop1. rewrite bzip_same_length by assumption.
  apply zipM_pure.
Qed.

Lemma zip_with_length {A B C : Type} (f : A -> B -> C) (a : list A) (b : list B) :
  length a = length b -> length (zip_with f a b) = length a.
Proof.
  revert b; induction a as [|x a IH]; intros [|y b] H; simpl in *;
    try discriminate; auto.
Qed.

Lemma zip_with_app {A B C : Type} (f : A -> B -> C) (a a' : list A)
  (b b' : list B) :
  length a = length b ->
  zip_with f (a ++ a') (b ++ b') = zip_with f a b ++ zip_with f a' b'.
Proof.
  revert b; induction a as [|x a IH]; intros [|y b] H; simpl in *;
    try discriminate; auto.
  f_equal. apply IH. lia.
Qed.

Lemma Forall2_length_eq {A B : Type} (R : A -> B -> Prop) (a : list A) (b : list B) :
  Forall2 R a b -> length a = length b.
Proof. induction 1; simpl; auto. Qed.

Lemma bmask_same_shape (f : bool -> bool -> bool) (a b : mask) :
  same_shape a b -> bmask f a b = Ok (zip_with (zip_with f) a b).
Proof.
  intros H. unfold bmask.
  rewrite bzip_same_length by (eapply Forall2_length_eq; eauto).
  apply zipM_Forall2.
  induction H as [|x y a b Hxy _ IH]; constructor; auto.
  rewrite bzip_same_length by assumption. apply zipM_pure.
Qed.

Lemma zip_with_map {A A' B B' C : Type} (f : A' -> B' -> C) (g : A -> A')
  (h : B -> B') (a : list A) (b : list B) :
  zip_with f (map g a) (map h b) = zip_with (fun x y => f (g x) (h y)) a b.
Proof.
  revert b; induction a as [|x a IH]; intros [|y b]; simpl; auto.
  now rewrite IH.
Qed.

Lemma zip_with_swap {A B C : Type} (f : A -> B -> C) (a : list A) (b : list B) :
  zip_with f a b = zip_with (fun y x => f x y) b a.
Proof.
  revert b; induction a as [|x a IH]; intros [|y b]; simpl; auto.
  now rewrite IH.
Qed.

Lemma zip_with_ext {A B C : Type} (f g : A -> B -> C) (a : list A) (b : list B) :
  (forall x y, f x y = g x y) -> zip_with f a b = zip_with g a b.
Proof.
  intros H. revert b; induction a as [|x a IH]; intros [|y b]; simpl; auto.
  now rewrite H, IH.
Qed.

(** The mask the code computes is the pointwise classification. *)
Lemma relu_mask_pointwise (zl zu : list vec) :
  same_shape zl zu ->
  bmask andb (map (map (fun z => Qlt_bool tol z)) zu)
             (map (map (fun z => Qlt_bool z (- tol))) zl) =
  Ok (zip_with (zip_with unstable) zl zu).
Proof.
  intros H. rewrite bmask_same_shape.
  - f_equal. rewrite zip_with_map, zip_with_swap.
    induction H as [|l u zl zu Hlu _ IH]; simpl; auto.
    rewrite IH. f_equal.
    rewrite zip_with_map, zip_with_swap. apply zip_with_ext.
    intros x y. reflexivity.
  - induction H as [|l u zl zu Hlu _ IH]; simpl; constructor; auto.
    now rewrite !length_map.
Qed.

(** One row of the gather, the elementwise quotient and the scatter. *)
Lemma region_row (l u : vec) :
  length l = length u ->
  exists su sl,
    select_row u (zip_with unstable l u) = Ok su /\
    select_row l (zip_with unstable l u) = Ok sl /\
    length su = length sl /\
    length su = length (filter (fun b : bool => b) (zip_with unstable l u)) /\
    forall rest,
      add_row (map base_slope l) (zip_with unstable l u)
        (zip_with Qdiv su (zip_with Qminus su sl) ++ rest) =
      Ok (zip_with slope l u, rest).
Proof.
  revert u; induction l as [|x l IH]; intros [|y u] H; simpl in *;
    try discriminate.
  - exists [], []. repeat split; auto.
  - destruct (IH u ltac:(lia)) as (su & sl & Hu & Hl & Hlen & Hcnt & Hadd).
    rewrite Hu, Hl. simpl. unfold slope at 1.
    destruct (unstable x y) eqn:Hxy.
    + exists (y :: su), (x :: sl). simpl. repeat split; auto.
      intros rest. rewrite Hadd. reflexivity.
    + exists su, sl. repeat split; auto.
      intros rest. rewrite Hadd. reflexivity.
Qed.

Lemma mask_sum_cons (m : list bool) (I : mask) :
  mask_sum (m :: I) = (length (filter (fun b : bool => b) m) + mask_sum I)%nat.
Proof.
  unfold mask_sum. simpl. now rewrite filter_app, length_app.
Qed.

Lemma region_rows (zl zu : list vec) :
  same_shape zl zu ->
  exists su sl,
    masked_select zu (zip_with (zip_with unstable) zl zu) = Ok su /\
    masked_select zl (zip_with (zip_with unstable) zl zu) = Ok sl /\
    length su = length sl /\
    forall rest,
      masked_add_rows (map (map base_slope) zl)
        (zip_with (zip_with unstable) zl zu)
        (zip_with Qdiv su (zip_with Qminus su sl) ++ rest) =
      Ok (zip_with (zip_with slope) zl zu, rest).
Proof.
  induction 1 as [|l u zl zu Hlu _ IH]; simpl.
  - exists [], []. repeat split; auto.
  - destruct IH as (su' & sl' & Hu' & Hl' & Hlen' & Hadd').
    destruct (region_row l u Hlu) as (su & sl & Hu & Hl & Hlen & _ & Hadd).
    rewrite Hu, Hl, Hu', Hl'. simpl.
    exists (su ++ su'), (sl ++ sl'). repeat split; auto.
    + rewrite !length_app. lia.
    + intros rest.
      rewrite (zip_with_app Qminus) by assumption.
      rewrite (zip_with_app Qdiv)
        by (rewrite zip_with_length by assumption; reflexivity).
      rewrite <- app_assoc, Hadd. simpl. rewrite Hadd'. reflexivity.
Qed.

Lemma filter_none_sel_row (l u : vec) :
  length (filter (fun b : bool => b) (zip_with unstable l u)) = 0%nat ->
  map base_slope l = zip_with slope l u \/ length l <> length u.
Proof.
  revert u; induction l as [|x l IH]; intros [|y u] H; simpl in *; auto;
    try (right; discriminate).
  unfold slope at 1. destruct (unstable x y); simpl in H; [discriminate|].
  destruct (IH u H) as [->|Hne]; [left; reflexivity | right; lia].
Qed.

Lemma no_unstable_slope (zl zu : list vec) :
  same_shape zl zu ->
  mask_sum (zip_with (zip_with unstable) zl zu) = 0%nat ->
  map (map base_slope) zl = zip_with (zip_with slope) zl zu.
Proof.
  induction 1 as [|l u zl zu Hlu _ IH]; simpl; auto.
  rewrite mask_sum_cons. intros H.
  destruct (filter_none_sel_row l u ltac:(lia)) as [->|Hne]; [|contradiction].
  rewrite IH by lia. reflexivity.
Qed.

(** The code computes the pointwise classification. *)
Lemma relu_region_pointwise (zl zu : list vec) :
  same_shape zl zu ->
  relu_region zl zu =
  Ok (zip_with (zip_with unstable) zl zu, zip_with (zip_with slope) zl zu).
Proof.
  intros H. unfold relu_region.
  change (map (map (fun z => if Qle_bool (- tol) z then 1 else 0)) zl)
    with (map (map base_slope) zl).
  rewrite (relu_mask_pointwise zl zu H). cbn [bind].
  destruct (0 <? mask_sum _)%nat eqn:Hsum.
  - destruct (region_rows zl zu H) as (su & sl & Hu & Hl & Hlen & Hadd).
    rewrite Hu, Hl. cbn [bind].
    rewrite bop1_same_length by assumption. cbn [bind].
    rewrite bop1_same_length
      by (rewrite zip_with_length by assumption; reflexivity).
    cbn [bind]. unfold masked_add.
    specialize (Hadd []). rewrite app_nil_r in Hadd. rewrite Hadd.
    reflexivity.
  - apply Nat.ltb_ge in Hsum.
    rewrite (no_unstable_slope zl zu H) by lia. reflexivity.
Qed.

Lemma nth_error_zip_with {A B C : Type} (f : A -> B -> C) (r : list A)
  (r' : list B) (k : nat) (x : A) (y : B) :
  nth_error r k = Some x -> nth_error r' k = Some y ->
  nth_error (zip_with f r r') k = Some (f x y).
Proof.
  revert r' k; induction r as [|a r IHr]; intros [|a' r'] [|k]; simpl;
    try discriminate; auto.
  intros [= ->] [= ->]. reflexivity.
Qed.

Lemma at2_zip_with {A B C : Type} (f : A -> B -> C) (s : list (list A))
  (t : list (list B)) (b k : nat) (x : A) (y : B) :
  at2 s b k = Some x -> at2 t b k = Some y ->
  at2 (zip_with (zip_with f) s t) b k = Some (f x y).
Proof.
  unfold at2. revert t b; induction s as [|r s IH]; intros [|r' t] [|b];
    simpl; try discriminate; auto.
  apply nth_error_zip_with.
Qed.

Lemma Qlt_bool_iff (x y : Q) : Qlt_bool x y = true <-> x < y.
Proof.
  unfold Qlt_bool. rewrite negb_true_iff.
  split; intros H.
  - apply Qnot_le_lt. intros Hle. apply Qle_bool_iff in Hle. congruence.
  - destruct (Qle_bool y x) eqn:E; auto.
    apply Qle_bool_iff in E. exfalso. eapply Qlt_not_le; eauto.
Qed.

Lemma unstable_iff (l u : Q) : unstable l u = true <-> tol < u /\ l < - tol.
Proof.
  unfold unstable. rewrite andb_true_iff, !Qlt_bool_iff. tauto.
Qed.

Lemma tol_pos : 0 < tol.
Proof. reflexivity. Qed.

(** The slope of one activation. *)
Lemma slope_spec (l u : Q) :
  0 <= slope l u /\ slope l u <= 1 /\
  (- tol <= l -> slope l u == 1) /\
  (l < - tol -> u <= tol -> slope l u == 0) /\
  (unstable l u = true ->
   slope l u == u / (u - l) /\ 2 * tol < u - l).
Proof.
  pose proof tol_pos as Htol.
  unfold slope, base_slope.
  destruct (unstable l u) eqn:Hun.
  - apply unstable_iff in Hun as [Hu Hl].
    assert (Hden : 0 < u - l) by lra.
    destruct (Qle_bool (- tol) l) eqn:Hb.
    { apply Qle_bool_iff in Hb. lra. }
    assert (Hq0 : 0 <= u / (u - l)).
    { apply Qle_shift_div_l; [assumption | lra]. }
    assert (Hq1 : u / (u - l) <= 1).
    { apply Qle_shift_div_r; [assumption | lra]. }
    repeat split; try lra.
  - assert (Hnot : ~ (tol < u /\ l < - tol)).
    { rewrite <- unstable_iff. congruence. }
    destruct (Qle_bool (- tol) l) eqn:Hb.
    + apply Qle_bool_iff in Hb. repeat split; try lra; discriminate.
    + assert (Hl : l < - tol).
      { apply Qlt_bool_iff. unfold Qlt_bool. now rewrite Hb. }
      repeat split; try lra; discriminate.
Qed.

(** C2: for pre-activation bounds of one shape the classification succeeds;
    the mask marks exactly the activations with [zu > 1e-5] and
    [zl < -1e-5]; the slope lies in [0,1], is 1 where [zl >= -1e-5], is 0
    where [zl < -1e-5] and [zu <= 1e-5], and is [zu/(zu-zl)] on the marked
    activations, where the denominator exceeds [2e-5]. *)
Theorem relu_region_spec (zl zu : list vec) :
  same_shape zl zu ->
  exists I d,
    relu_region zl zu = Ok (I, d) /\
    same_shape zl I /\ same_shape zl d /\
    forall b f l u,
      at2 zl b f = Some l -> at2 zu b f = Some u ->
      exists i s,
        at2 I b f = Some i /\ at2 d b f = Some s /\
        (i = true <-> tol < u /\ l < - tol) /\
        0 <= s /\ s <= 1 /\
        (- tol <= l -> s == 1) /\
        (l < - tol -> u <= tol -> s == 0) /\
        (i = true -> s == u / (u - l) /\ 2 * tol < u - l).
Proof.
  intros H.
  exists (zip_with (zip_with unstable) zl zu), (zip_with (zip_with slope) zl zu).
  split; [apply relu_region_pointwise; assumption|].
  split; [|split].
  - induction H as [|l u zl zu Hlu _ IH]; simpl; constructor; auto.
    now rewrite zip_with_length.
  - induction H as [|l u zl zu Hlu _ IH]; simpl; constructor; auto.
    now rewrite zip_with_length.
  - intros b f l u Hl Hu.
    exists (unstable l u), (slope l u).
    split; [apply at2_zip_with; assumption|].
    split; [apply at2_zip_with; assumption|].
    split; [apply unstable_iff|].
    pose proof (slope_spec l u). tauto.
Qed.

Lemma relu_region_spec_witness :
  same_shape [[-1; 1 # 2; -3]] [[1; 2; -2]] /\
  exists I d,
    relu_region [[-1; 1 # 2; -3]] [[1; 2; -2]] = Ok (I, d) /\
    same_shape [[-1; 1 # 2; -3]] I /\ same_shape [[-1; 1 # 2; -3]] d.
Proof.
  assert (Hs : same_shape [[-1; 1 # 2; -3]] [[1; 2; -2]])
    by (repeat constructor).
  split; [exact Hs|].
  destruct (relu_region_spec [[-1; 1 # 2; -3]] [[1; 2; -2]] Hs)
    as (I & d & Hr & HI & Hd & _).
  exists I, d. auto.
Defined.

(** ** The seed of the exact ReLU operator and what [apply] appends (C3) *)

Lemma mapM_pure {A B : Type} (F : A -> result B) (G : A -> B) (l : list A) :
  Forall (fun x => F x = Ok (G x)) l -> mapM F l = Ok (map G l).
Proof.
  induction 1 as [|x l Hx _ IH]; simpl; auto.
  now rewrite Hx, IH.
Qed.

Lemma Forall2_nth_error {A B : Type} (R : A -> B -> Prop) (a : list A)
  (b : list B) (r : nat) (x : A) :
  Forall2 R a b -> nth_error a r = Some x ->
  exists y, nth_error b r = Some y /\ R x y.
Proof.
  intros H. revert r. induction H as [|x0 y0 a b Hxy _ IH]; intros [|r] Hr;
    simpl in *; try discriminate.
  - injection Hr as <-. eauto.
  - auto.
Qed.

Lemma select_row_sel (v : vec) (m : list bool) :
  length v = length m -> select_row v m = Ok (sel v m).
Proof.
  revert m; induction v as [|q v IH]; intros [|b m] H; simpl in *;
    try discriminate; auto.
  rewrite IH by lia. reflexivity.
Qed.

Lemma masked_select_sel (t : list vec) (I : mask) :
  same_shape t I -> masked_select t I = Ok (concat (zip_with sel t I)).
Proof.
  induction 1 as [|v m t I Hvm _ IH]; simpl; auto.
  rewrite select_row_sel by assumption. simpl. rewrite IH. reflexivity.
Qed.

Lemma true_positions_sel (v : vec) (m : list bool) :
  length v = length m ->
  forall i,
    Forall2 (fun f q => exists k, f = (i + k)%nat /\
                                  nth_error v k = Some q /\
                                  nth_error m k = Some true)
            (true_positions i m) (sel v m).
Proof.
  revert m; induction v as [|q v IH]; intros [|b m] H i; simpl in *;
    try discriminate; try constructor.
  assert (Htail : Forall2
                    (fun f q' => exists k, f = (i + k)%nat /\
                                           nth_error (q :: v) k = Some q' /\
                                           nth_error (b :: m) k = Some true)
                    (true_positions (S i) m) (sel v m)).
  { eapply Forall2_impl; [|apply (IH m ltac:(lia) (S i))].
    intros f q' (k & -> & Hv & Hm). exists (S k). simpl.
    repeat split; auto; lia. }
  destruct b; [constructor|]; auto.
  exists 0%nat. simpl. repeat split; auto; lia.
Qed.

Lemma nonzero_from_sel (t : list vec) (I : mask) :
  same_shape t I ->
  forall b0,
    Forall2 (fun bf q => exists b, fst bf = (b0 + b)%nat /\
                                   at2 t b (snd bf) = Some q /\
                                   at2 I b (snd bf) = Some true)
            (nonzero_from b0 I) (concat (zip_with sel t I)).
Proof.
  induction 1 as [|v m t I Hvm _ IH]; intros b0; simpl; [constructor|].
  apply Forall2_app.
  - pose proof (true_positions_sel v m Hvm 0) as Hrow.
    clear IH. induction Hrow as [|f q fs qs Hfq _ IHrow]; simpl; constructor; auto.
    destruct Hfq as (k & -> & Hv & Hm). exists 0%nat. unfold at2. simpl.
    repeat split; auto.
  - eapply Forall2_impl; [|apply (IH (S b0))].
    intros bf q (b & Hb & Ht & HI). exists (S b). unfold at2 in *. simpl.
    repeat split; auto; lia.
Qed.

Lemma nonzero_from_length (I : mask) (b0 : nat) :
  length (nonzero_from b0 I) = mask_sum I.
Proof.
  revert b0; induction I as [|m I IH]; intros b0; simpl; auto.
  rewrite mask_sum_cons, length_app, length_map, IH. f_equal.
  generalize 0%nat. induction m as [|[|] m IHm]; intros i; simpl; auto.
Qed.

Lemma at2_lt {A : Type} (t : list (list A)) (b f : nat) (x : A) :
  at2 t b f = Some x ->
  (b < length t)%nat /\ exists row, nth_error t b = Some row /\ (f < length row)%nat.
Proof.
  unfold at2. destruct (nth_error t b) as [row|] eqn:Hb; [|discriminate].
  intros Hf. split.
  - apply nth_error_Some. congruence.
  - exists row. split; auto. apply nth_error_Some. congruence.
Qed.

Lemma view_cols_same {A : Type} (n : nat) (m : list (list A)) :
  Forall (fun row => length row = n) m -> view_cols n m = Ok m.
Proof.
  intros H. unfold view_cols.
  replace (forallb (fun row => (length row =? n)%nat) m) with true; auto.
  symmetry. apply forallb_forall. intros row Hin.
  apply Nat.eqb_eq. rewrite Forall_forall in H. auto.
Qed.

Lemma one_hot_length (n j : nat) (q : Q) : length (one_hot n j q) = n.
Proof. unfold one_hot. now rewrite length_map, length_seq. Qed.

(** The constructor of the exact operator on a mask with set entries. *)
Lemma DualReLU_init_seed (I : mask) (d zl : list vec) (n : nat) :
  (0 < mask_sum I)%nat ->
  Forall (fun row => length row = n) d ->
  same_shape d I ->
  length zl = length d ->
  exists o rows,
    DualReLU.init I d zl = Ok o /\
    DualReLU.I_empty o = false /\
    DualReLU.I_ind o = nonzero I /\
    DualReLU.d o = d /\
    DualReLU.nus o = [PyT (T2 rows)] /\
    length rows = mask_sum I /\
    length (nonzero I) = mask_sum I /\
    Forall (fun row => length row = n) rows /\
    forall r b f,
      nth_error (nonzero I) r = Some (b, f) ->
      exists q,
        at2 I b f = Some true /\ at2 d b f = Some q /\
        nth_error rows r = Some (one_hot n f q).
Proof.
  intros Hsum Hd Hshape Hzl.
  assert (HI : Forall (fun row : list bool => length row = n) I).
  { clear - Hd Hshape. induction Hshape as [|v m d I Hvm _ IH]; constructor.
    - inversion Hd; subst. congruence.
    - apply IH. inversion Hd; assumption. }
  pose proof (nonzero_from_sel d I Hshape 0) as Hsel.
  fold (nonzero I) in Hsel.
  set (rows := zip_with (fun (bf : nat * nat) (q : Q) => one_hot n (snd bf) q)
                 (nonzero I) (concat (zip_with sel d I))).
  destruct d as [|d0 d'].
  { inversion Hshape; subst. unfold mask_sum in Hsum. simpl in Hsum. lia. }
  assert (Hn : length d0 = n) by (inversion Hd; assumption).
  assert (Hinit : DualReLU.init I (d0 :: d') zl =
                  Ok {| DualReLU.I_empty := false;
                        DualReLU.I_ind := nonzero I;
                        DualReLU.nus := [PyT (T2 rows)];
                        DualReLU.I_collapse :=
                          map (fun bf : nat * nat => one_hot (length zl) (fst bf) 1)
                              (nonzero I);
                        DualReLU.d := d0 :: d'; DualReLU.I := I;
                        DualReLU.zl := zl |}).
  { unfold DualReLU.init. rewrite Hn.
    apply Nat.ltb_lt in Hsum. rewrite Hsum.
    rewrite (view_cols_same n I HI). cbn [bind].
    rewrite (masked_select_sel _ _ Hshape). cbn [bind].
    rewrite (zipM_Forall2 _ (fun (bf : nat * nat) (q : Q) => one_hot n (snd bf) q)).
    2:{ eapply Forall2_impl; [|exact Hsel].
        intros bf q (b & _ & Hq & _). cbn beta.
        apply at2_lt in Hq as (_ & row & Hrow & Hlt).
        assert (length row = n).
        { rewrite Forall_forall in Hd. apply Hd. eapply nth_error_In; eauto. }
        replace (snd bf <? n)%nat with true; auto.
        symmetry. apply Nat.ltb_lt. lia. }
    cbn [bind].
    rewrite (mapM_pure _ (fun bf : nat * nat => one_hot (length zl) (fst bf) 1)).
    2:{ apply Forall_forall. intros bf Hin.
        destruct (In_nth_error _ _ Hin) as (r & Hr).
        destruct (Forall2_nth_error _ _ _ _ _ Hsel Hr) as (q & _ & b & Hb & _ & HIb).
        apply at2_lt in HIb as (Hlt & _).
        pose proof (Forall2_length_eq _ _ _ Hshape) as Hlen.
        replace (fst bf <? length zl)%nat with true; auto.
        symmetry. apply Nat.ltb_lt. simpl in *. unfold vec in *. lia. }
    reflexivity. }
  pose proof (nonzero_from_length I 0) as Hnz. fold (nonzero I) in Hnz.
  pose proof (Forall2_length_eq _ _ _ Hsel) as Hlen.
  eexists. exists rows. split; [exact Hinit|]. simpl.
  repeat split; auto.
  - unfold rows. rewrite zip_with_length; auto.
  - unfold rows. clear - Hsel. induction Hsel; simpl; constructor; auto.
    apply one_hot_length.
  - intros r b f Hr.
    destruct (Forall2_nth_error _ _ _ _ _ Hsel Hr) as (q & Hq & b' & Hb & Hd' & HI').
    simpl in Hb, Hd', HI'. subst b'. exists q. repeat split; auto.
    unfold rows. erewrite nth_error_zip_with; eauto. reflexivity.
Qed.

(** What [apply] appends: the image of the history under the [affine] of
    the pushed operator, which gets the index set when it is a ReLU
    operator. *)
Lemma DualReLU_apply_appends (E : torch) (o : DualReLU.t) (dual_layer : operator) :
  DualReLU.I_empty o = false ->
  apply E (OpReLU o) dual_layer =
  (x <- affine E dual_layer (DualReLU.nus o)
         (if isinstance_DualReLU dual_layer then Some (DualReLU.I_ind o) else None) ;;
   Ok (OpReLU {| DualReLU.I_empty := DualReLU.I_empty o;
                 DualReLU.I_ind := DualReLU.I_ind o;
                 DualReLU.nus := DualReLU.nus o ++ [x];
                 DualReLU.I_collapse := DualReLU.I_collapse o;
                 DualReLU.d := DualReLU.d o;
                 DualReLU.I := DualReLU.I o;
                 DualReLU.zl := DualReLU.zl o |})).
Proof.
  intros He. unfold apply, DualReLU.apply. rewrite He. simpl.
  destruct (isinstance_DualReLU dual_layer);
    destruct (affine E dual_layer _ _); reflexivity.
Qed.

Lemma index_rows_nth {A : Type} (m : list (list A)) (index : list nat) :
  Forall (fun b => (b < length m)%nat) index ->
  index_rows m index = Ok (map (fun b => nth b m []) index).
Proof.
  intros H. unfold index_rows. apply mapM_pure.
  eapply Forall_impl; [|exact H]. intros b Hb. cbn beta.
  now rewrite (nth_error_nth' m [] Hb).
Qed.

Lemma bop2_same_shape (f : Q -> Q -> Q) (a b : list vec) :
  same_shape a b -> bop2 f a b = Ok (zip_with (zip_with f) a b).
Proof.
  intros H. unfold bop2.
  rewrite bzip_same_length by (eapply Forall2_length_eq; eauto).
  apply zipM_Forall2.
  induction H as [|x y a b Hxy _ IH]; constructor; auto.
  now apply bop1_same_length.
Qed.

Lemma zip_with_map_l {A A' B C : Type} (f : A' -> B -> C) (g : A -> A')
  (a : list A) (b : list B) :
  zip_with f (map g a) b = zip_with (fun x y => f (g x) y) a b.
Proof.
  revert b; induction a as [|x a IH]; intros [|y b]; simpl; auto.
  now rewrite IH.
Qed.

(** The [affine] of a ReLU operator with an index set: every row of the
    last entry is multiplied elementwise by the row of [d] of its batch
    element. *)
Lemma DualReLU_affine_gathers (o2 : DualReLU.t) (xs : list pyval)
  (m : list vec) (ind : list (nat * nat)) :
  py_last xs = Ok (PyT (T2 m)) ->
  Forall2 (fun (bf : nat * nat) row =>
             (fst bf < length (DualReLU.d o2))%nat /\
             length (nth (fst bf) (DualReLU.d o2) []) = length row) ind m ->
  DualReLU.affine o2 xs (Some ind) =
  Ok (PyT (T2 (zip_with (fun (bf : nat * nat) row =>
                           zip_with Qmult (nth (fst bf) (DualReLU.d o2) []) row)
                        ind m))).
Proof.
  intros Hlast Hshape. unfold DualReLU.affine. rewrite Hlast.
  cbn [bind as_tensor rank Nat.ltb Nat.leb]. unfold vec.
  rewrite (index_rows_nth (A := Q) (DualReLU.d o2) (map fst ind)).
  2:{ clear - Hshape. induction Hshape as [|bf row ind m [Hb _] _ IH]; simpl;
        constructor; auto. }
  cbn [bind]. unfold tmul, tbop. rewrite bop2_same_shape.
  2:{ clear - Hshape. induction Hshape as [|bf row ind m [_ Hl] _ IH]; simpl;
        constructor; auto. }
  cbn [bind]. rewrite map_map, zip_with_map_l. reflexivity.
Qed.

(** C3, as the code has it.  On a mask with set entries the constructor of
    the exact operator seeds its history with one row per unstable
    activation, in the order of the index set; the row of the activation at
    batch element [b] and coordinate [f] holds [d] of that activation at
    coordinate [f] and zero elsewhere.  Every later [apply] appends the
    image of the history under the [affine] of the pushed operator; the
    [affine] of a ReLU operator, given the index set, multiplies every row
    of the last entry elementwise by the row of its own [d] at the batch
    element of the row. *)
Theorem DualReLU_seed_and_apply (E : torch) (I : mask) (d zl : list vec) (n : nat) :
  (0 < mask_sum I)%nat ->
  Forall (fun row => length row = n) d ->
  same_shape d I ->
  length zl = length d ->
  (exists o rows,
      DualReLU.init I d zl = Ok o /\
      DualReLU.I_empty o = false /\
      DualReLU.I_ind o = nonzero I /\
      DualReLU.nus o = [PyT (T2 rows)] /\
      length rows = mask_sum I /\
      length (nonzero I) = mask_sum I /\
      forall r b f,
        nth_error (nonzero I) r = Some (b, f) ->
        exists q,
          at2 I b f = Some true /\ at2 d b f = Some q /\
          nth_error rows r = Some (one_hot n f q)) /\
  (forall o dual_layer,
      DualReLU.I_empty o = false ->
      apply E (OpReLU o) dual_layer =
      (x <- affine E dual_layer (DualReLU.nus o)
             (if isinstance_DualReLU dual_layer
              then Some (DualReLU.I_ind o) else None) ;;
       Ok (OpReLU {| DualReLU.I_empty := DualReLU.I_empty o;
                     DualReLU.I_ind := DualReLU.I_ind o;
                     DualReLU.nus := DualReLU.nus o ++ [x];
                     DualReLU.I_collapse := DualReLU.I_collapse o;
                     DualReLU.d := DualReLU.d o;
                     DualReLU.I := DualReLU.I o;
                     DualReLU.zl := DualReLU.zl o |}))) /\
  (forall o2 xs m ind,
      py_last xs = Ok (PyT (T2 m)) ->
      Forall2 (fun (bf : nat * nat) row =>
                 (fst bf < length (DualReLU.d o2))%nat /\
                 length (nth (fst bf) (DualReLU.d o2) []) = length row) ind m ->
      affine E (OpReLU o2) xs (Some ind) =
      Ok (PyT (T2 (zip_with (fun (bf : nat * nat) row =>
                               zip_with Qmult (nth (fst bf) (DualReLU.d o2) []) row)
                            ind m)))).
Proof.
  intros Hsum Hd Hshape Hzl. split; [|split].
  - destruct (DualReLU_init_seed I d zl n Hsum Hd Hshape Hzl)
      as (o & rows & Hi & He & Hind & _ & Hnus & Hlen & Hnz & _ & Hrows).
    exists o, rows. repeat split; auto.
  - intros o dual_layer He. now apply DualReLU_apply_appends.
  - intros o2 xs m ind Hlast Hsh. simpl. now apply DualReLU_affine_gathers.
Qed.

Lemma DualReLU_seed_and_apply_witness :
  (0 < mask_sum [[true; false]; [false; true]])%nat /\
  exists o,
    DualReLU.init [[true; false]; [false; true]]
      [[1 # 2; 1]; [0; 1 # 4]] [[-1; 2]; [-4; -3]] = Ok o /\
    DualReLU.I_ind o = [(0%nat, 0%nat); (1%nat, 1%nat)].
Proof.
  split; [vm_compute; lia|].
  destruct (DualReLU_seed_and_apply Example.E [[true; false]; [false; true]]
              [[1 # 2; 1]; [0; 1 # 4]] [[-1; 2]; [-4; -3]] 2)
    as [(o & rows & Hi & _ & Hind & _) _].
  - vm_compute; lia.
  - repeat constructor.
  - repeat constructor.
  - reflexivity.
  - exists o. split; [exact Hi | exact Hind].
Defined.

(** C3 as stated fails: for an unstable activation with bounds
    [zl = -1] and [zu = 1] the slope is [1/2]; the seeded entry is the slope
    [1/2] and not [d * zl = -1/2].  An [apply] that pushes the affine layer
    with weight [3] appends [3 * 1/2], the image under the affine map, and
    not the product [1/2 * 1/2] with [d]. *)
Lemma DualReLU_seed_is_not_d_times_zl :
  exists o o',
    DualReLU.init [[true]] [[1 # 2]] [[-1]] = Ok o /\
    DualReLU.nus o = [PyT (T2 [[1 # 2]])] /\
    relu_region [[-1]] [[1]] = Ok ([[true]], [[0 + 1 / (1 - -1)]]) /\
    0 + 1 / (1 - -1) == 1 # 2 /\
    ~ (1 # 2 == (1 # 2) * -1) /\
    apply Example.E (OpReLU o)
      (OpLinear {| DualLinear.layer_ := Linear 1 1 [[3]] None;
                   DualLinear.bias := None |}) = Ok (OpReLU o') /\
    DualReLU.nus o' = [PyT (T2 [[1 # 2]]); PyT (T2 [[(1 # 2) * 3 + 0]])] /\
    ~ ((1 # 2) * 3 + 0 == (1 # 2) * (1 # 2)).
Proof.
  eexists. eexists. split; [reflexivity|]. split; [reflexivity|].
  split; [reflexivity|]. split; [reflexivity|].
  split; [intros H; discriminate H|].
  split; [reflexivity|]. split; [reflexivity|].
  intros H. discriminate H.
Qed.

(** ** The bounds of the randomized operators (C4) *)

Lemma mapM_map {A B C : Type} (F : B -> result C) (g : A -> B) (l : list A) :
  mapM F (map g l) = mapM (fun x => F (g x)) l.
Proof.
  induction l as [|x l IH]; simpl; auto. now rewrite IH.
Qed.

Lemma median_nonempty (l : list Q) :
  l <> [] -> median l = Ok (nth ((length l - 1) / 2) (sort l) 0).
Proof. destruct l; [contradiction | reflexivity]. Qed.

Lemma median_dim1_abs (t : list (list vec)) :
  Forall (fun rows => rows <> []) t ->
  median_dim1 (PyT (tabs (T3 t))) = Ok (T2 (median_abs_rows t)).
Proof.
  intros H. unfold median_dim1, tabs, tmap.
  rewrite mapM_map.
  rewrite (mapM_pure _ (fun rows => map (median_abs rows) (seq 0 (features rows)))).
  - reflexivity.
  - eapply Forall_impl; [|exact H]. intros rows Hne. cbn beta.
    destruct rows as [|row0 rows']; [contradiction|].
    change (map (map Qabs) (row0 :: rows'))
      with (map Qabs row0 :: map (map Qabs) rows').
    cbv iota.
    change (map Qabs row0 :: map (map Qabs) rows')
      with (map (map Qabs) (row0 :: rows')).
    unfold transpose. rewrite mapM_map.
    replace (features (map (map Qabs) (row0 :: rows')))
      with (features (row0 :: rows'))
      by (unfold features; simpl; now rewrite length_map).
    apply mapM_pure. apply Forall_forall. intros f _.
    rewrite median_nonempty by discriminate.
    unfold median_abs. rewrite !length_map, map_map.
    do 3 f_equal. apply map_ext. intros row.
    change 0 with (Qabs 0) at 1. apply map_nth.
Qed.

Lemma map_zip_with {A B C D : Type} (g : C -> D) (f : A -> B -> C)
  (a : list A) (b : list B) :
  map g (zip_with f a b) = zip_with (fun x y => g (f x y)) a b.
Proof.
  revert b; induction a as [|x a IH]; intros [|y b]; simpl; auto.
  now rewrite IH.
Qed.

Lemma zip_with_ext_in {A B C : Type} (f g : A -> B -> C) (a : list A) (b : list B) :
  (forall x y, In x a -> In y b -> f x y = g x y) ->
  zip_with f a b = zip_with g a b.
Proof.
  revert b; induction a as [|x a IH]; intros [|y b] H; simpl; auto.
  rewrite H by (left; reflexivity). f_equal.
  apply IH. intros; apply H; right; assumption.
Qed.

Lemma same_shape_map_l {A A' B : Type} (g : list A -> list A') (s : list (list A))
  (t : list (list B)) :
  (forall r, length (g r) = length r) ->
  same_shape s t -> same_shape (map g s) t.
Proof.
  intros Hg H. induction H; simpl; constructor; auto. now rewrite Hg.
Qed.

Lemma bzip_broadcast_r {A B C : Type} (F : A -> B -> result C) (xs : list A) (y : B) :
  bzip F xs [y] = mapM (fun x => F x y) xs.
Proof.
  unfold bzip. destruct xs as [|x [|x' xs]]; simpl; auto.
Qed.

(** The bounds of the randomized ReLU operator. *)
Lemma DualReLUProj_fval_bounds (o : DualReLUProj.t) (nu : option pyval)
  (t : list (list vec)) (no : list vec) :
  DualReLUProj.I_empty o = false ->
  py_last (DualReLUProj.nus o) = Ok (PyT (T3 t)) ->
  py_last (DualReLUProj.nu_ones o) = Ok (PyT (T2 no)) ->
  Forall (fun rows => rows <> []) t ->
  same_shape (median_abs_rows t) no ->
  DualReLUProj.fval o nu None =
  Ok (Bounds
        (PyT (T2 (zip_with (zip_with (fun n x => (- n - x) / 2))
                           (median_abs_rows t) no)))
        (PyT (T2 (zip_with (zip_with (fun n x => (n - x) / 2))
                           (median_abs_rows t) no)))).
Proof.
  intros He Hnus Hones Hne Hshape. unfold DualReLUProj.fval.
  rewrite He, Hnus. cbn [bind as_tensor].
  rewrite (median_dim1_abs t Hne). cbn [bind]. rewrite Hones. cbn [bind].
  unfold tsub_py, tneg, tsub, tbop, tmap.
  rewrite bop2_same_shape
    by (apply same_shape_map_l; [intros; apply length_map | assumption]).
  cbn [bind]. rewrite (bop2_same_shape _ _ _ Hshape). cbn [bind].
  rewrite zip_with_map_l, !map_zip_with.
  do 3 f_equal.
  - f_equal. apply zip_with_ext. intros r r'.
    rewrite zip_with_map_l, map_zip_with. reflexivity.
  - f_equal. apply zip_with_ext. intros r r'.
    rewrite map_zip_with. reflexivity.
Qed.

(** The bounds of the randomized representative of the ball: its
    certificate has one batch element, whose medians are broadcast over the
    batch of [nu_x]. *)
Lemma InfBallProj_fval_bounds (o : InfBallProj.t) (nu_prev : option pyval)
  (rows : list vec) (x : list vec) :
  py_last (InfBallProj.nu o) = Ok (PyT (T3 [rows])) ->
  py_last (InfBallProj.nu_x o) = Ok (PyT (T2 x)) ->
  rows <> [] ->
  Forall (fun xr => length xr = features rows) x ->
  InfBallProj.fval o None nu_prev =
  Ok (Bounds
        (PyT (T2 (map (fun xr =>
                         zip_with (fun a n => a - InfBallProj.epsilon o * n) xr
                                  (map (median_abs rows) (seq 0 (features rows))))
                      x)))
        (PyT (T2 (map (fun xr =>
                         zip_with (fun a n => a + InfBallProj.epsilon o * n) xr
                                  (map (median_abs rows) (seq 0 (features rows))))
                      x)))).
Proof.
  intros Hnu Hx Hne Hshape. unfold InfBallProj.fval.
  rewrite Hnu. cbn [bind as_tensor].
  rewrite (median_dim1_abs [rows]) by (constructor; auto).
  cbn [bind]. rewrite Hx. cbn [bind].
  unfold pysub_t, pyadd_t, tsub, tadd, tbop, tscale, tmap, median_abs_rows.
  cbn [map]. unfold bop2. rewrite !bzip_broadcast_r.
  set (med := map (median_abs rows) (seq 0 (features rows))).
  assert (Hlen : length med = features rows)
    by (unfold med; now rewrite length_map, length_seq).
  rewrite (mapM_pure _ (fun xr => zip_with (fun a n => a - InfBallProj.epsilon o * n) xr med)).
  2:{ eapply Forall_impl; [|exact Hshape]. intros xr Hxr. cbn beta.
      rewrite bop1_same_length by (rewrite length_map; congruence).
      now rewrite zip_with_swap, zip_with_map_l, zip_with_swap. }
  cbn [bind].
  rewrite (mapM_pure _ (fun xr => zip_with (fun a n => a + InfBallProj.epsilon o * n) xr med)).
  2:{ eapply Forall_impl; [|exact Hshape]. intros xr Hxr. cbn beta.
      rewrite bop1_same_length by (rewrite length_map; congruence).
      now rewrite zip_with_swap, zip_with_map_l, zip_with_swap. }
  reflexivity.
Qed.

(** C4, as the code has it.  Without [nu_prev] the randomized ReLU operator
    with a non-empty certificate returns [(-n - no)/2] and [(n - no)/2],
    where [n] is the median over the rows of the absolute values of its last
    certificate and [no] its last ones-entry; without a direction the
    randomized representative of the ball returns [nu_x[-1] - epsilon*n] and
    [nu_x[-1] + epsilon*n], with no ones-term and no halving. *)
Theorem randomized_fval_bounds (o : DualReLUProj.t) (b : InfBallProj.t)
  (nu nu_prev : option pyval) (t : list (list vec)) (no rows x : list vec) :
  DualReLUProj.I_empty o = false ->
  py_last (DualReLUProj.nus o) = Ok (PyT (T3 t)) ->
  py_last (DualReLUProj.nu_ones o) = Ok (PyT (T2 no)) ->
  Forall (fun rows => rows <> []) t ->
  same_shape (median_abs_rows t) no ->
  py_last (InfBallProj.nu b) = Ok (PyT (T3 [rows])) ->
  py_last (InfBallProj.nu_x b) = Ok (PyT (T2 x)) ->
  rows <> [] ->
  Forall (fun xr => length xr = features rows) x ->
  fval (OpReLUProj o) nu None =
    Ok (Bounds
          (PyT (T2 (zip_with (zip_with (fun n x => (- n - x) / 2))
                             (median_abs_rows t) no)))
          (PyT (T2 (zip_with (zip_with (fun n x => (n - x) / 2))
                             (median_abs_rows t) no)))) /\
  fval (OpInfBallProj b) None nu_prev =
    Ok (Bounds
          (PyT (T2 (map (fun xr =>
                           zip_with (fun a n => a - InfBallProj.epsilon b * n) xr
                                    (map (median_abs rows) (seq 0 (features rows))))
                        x)))
          (PyT (T2 (map (fun xr =>
                           zip_with (fun a n => a + InfBallProj.epsilon b * n) xr
                                    (map (median_abs rows) (seq 0 (features rows))))
                        x)))).
Proof.
  intros. split.
  - now apply DualReLUProj_fval_bounds.
  - now apply InfBallProj_fval_bounds.
Qed.

Lemma randomized_fval_bounds_witness :
  fval (OpReLUProj Example.relu_proj) None None =
    Ok (Bounds
          (PyT (T2 (zip_with (zip_with (fun n x => (- n - x) / 2))
                      (median_abs_rows [[[3 # 2; 0]; [2 # 2; 0]; [1 # 2; 0]]])
                      [[-1 # 2; 0]])))
          (PyT (T2 (zip_with (zip_with (fun n x => (n - x) / 2))
                      (median_abs_rows [[[3 # 2; 0]; [2 # 2; 0]; [1 # 2; 0]]])
                      [[-1 # 2; 0]])))) /\
  fval (OpInfBallProj Example.ball_proj) None None =
    Ok (Bounds
          (PyT (T2 (map (fun xr =>
                           zip_with (fun a n => a - 1 * n) xr
                             (map (median_abs [[-3; -2]; [-1; 0]; [1; 2]])
                                  (seq 0 2)))
                        [[0; 1]])))
          (PyT (T2 (map (fun xr =>
                           zip_with (fun a n => a + 1 * n) xr
                             (map (median_abs [[-3; -2]; [-1; 0]; [1; 2]])
                                  (seq 0 2)))
                        [[0; 1]])))).
Proof.
  apply (randomized_fval_bounds Example.relu_proj Example.ball_proj None None
           [[[3 # 2; 0]; [2 # 2; 0]; [1 # 2; 0]]] [[-1 # 2; 0]]
           [[-3; -2]; [-1; 0]; [1; 2]] [[0; 1]]).
  - reflexivity.
  - reflexivity.
  - reflexivity.
  - repeat constructor; discriminate.
  - repeat constructor.
  - reflexivity.
  - reflexivity.
  - discriminate.
  - repeat constructor.
Defined.

(** C4 as stated fails for the randomized representative of the ball: with
    [epsilon = 1], the nominal input [0] and one sampled direction [-3], the
    median is 3 and the bounds are [-3] and [3]; no ones-term [no] makes
    them [(-3 - no)/2] and [(3 - no)/2]. *)
Lemma InfBallProj_fval_is_not_halved :
  exists b w',
    InfBallProj.init Example.E [[0]] 1 1 Example.w0 = Ok (b, w') /\
    InfBallProj.nu b = [PyT (T3 [[[-3]]])] /\
    fval (OpInfBallProj b) None None =
      Ok (Bounds (PyT (T2 [[-3]])) (PyT (T2 [[3]]))) /\
    median_abs [[-3]] 0 = 3 /\
    ~ (exists no : Q, -3 == (- 3 - no) / 2 /\ 3 == (3 - no) / 2).
Proof.
  eexists. eexists. split; [reflexivity|].
  split; [reflexivity|]. split; [reflexivity|]. split; [reflexivity|].
  intros (no & Hlo & Hhi).
  assert (H1 : (- 3 - no) / 2 == (- 3 - no) * (1 # 2)) by (field).
  assert (H2 : (3 - no) / 2 == (3 - no) * (1 # 2)) by (field).
  rewrite H1 in Hlo. rewrite H2 in Hhi. lra.
Qed.

(** ** The length of the history lists (C7) *)

Lemma Forall2_flat_map {A B C D : Type} (R : C -> D -> Prop)
  (f : A -> list C) (g : B -> list D) (l : list A) (l' : list B) :
  Forall2 (fun a b => Forall2 R (f a) (g b)) l l' ->
  Forall2 R (flat_map f l) (flat_map g l').
Proof.
  induction 1; simpl; [constructor | apply Forall2_app; assumption].
Qed.

Lemma Forall2_same {A : Type} (R : A -> A -> Prop) (l : list A) :
  (forall x, R x x) -> Forall2 R l l.
Proof. intros H; induction l; constructor; auto. Qed.

Lemma DualLinear_apply_histories (o o' : DualLinear.t) (p : pushed) :
  DualLinear.apply o p = Ok o' ->
  Forall2 (fun h h' : list pyval => length h' = S (length h))
    match DualLinear.bias o with Some bs => [bs] | None => [] end
    match DualLinear.bias o' with Some bs => [bs] | None => [] end.
Proof.
  unfold DualLinear.apply. destruct (DualLinear.bias o) as [bs|] eqn:Hb;
    intros H.
  - inv_bind H. injection H as <-. simpl. repeat constructor.
    rewrite length_app. simpl. lia.
  - injection H as <-. rewrite Hb. constructor.
Qed.

(** A successful [apply] puts one entry on every history list. *)
Lemma apply_histories (E : torch) (l dual_layer l' : operator) :
  apply E l dual_layer = Ok l' ->
  Forall2 (fun h h' => length h' = S (length h)) (histories l) (histories l').
Proof.
  assert (Hsnoc : forall (h : list pyval) x, length (h ++ [x]) = S (length h))
    by (intros; rewrite length_app; simpl; lia).
  intros H. destruct l; simpl in H.
  - inv_bind H. injection H as <-.
    unfold InfBall.apply in Ha. repeat inv_bind Ha. injection Ha as <-.
    simpl. repeat constructor; apply Hsnoc.
  - inv_bind H. injection H as <-.
    unfold InfBallProj.apply in Ha. repeat inv_bind Ha. injection Ha as <-.
    simpl. repeat constructor; apply Hsnoc.
  - inv_bind H. injection H as <-. simpl.
    now apply DualLinear_apply_histories with (p := as_pushed E dual_layer).
  - inv_bind H. injection H as <-. simpl.
    now apply DualLinear_apply_histories with (p := as_pushed E dual_layer).
  - injection H as <-. constructor.
  - inv_bind H. injection H as <-.
    unfold DualReLU.apply in Ha.
    destruct o as [Ie ind nus Ic d I zl]; simpl in *. destruct Ie.
    + injection Ha as <-. constructor.
    + inv_bind Ha. injection Ha as <-. simpl.
      repeat constructor; apply Hsnoc.
  - inv_bind H. injection H as <-.
    unfold DualReLUProj.apply in Ha.
    destruct o as [d I zl Ie nus ones]; simpl in *. destruct Ie.
    + injection Ha as <-. constructor.
    + repeat inv_bind Ha. injection Ha as <-. simpl.
      repeat constructor; apply Hsnoc.
  - inv_bind H. injection H as <-.
    unfold DualDense.apply in Ha. inv_bind Ha. injection Ha as <-. simpl.
    apply Forall2_flat_map. apply mapM_Forall2 in Ha0.
    eapply Forall2_impl; [|exact Ha0].
    intros [s|] W' HW; cbn beta in HW.
    + inv_bind HW. injection HW as <-.
      destruct s as [c|c|]; simpl in Ha.
      * inv_bind Ha. injection Ha as <-. simpl.
        now apply DualLinear_apply_histories with (p := as_pushed E dual_layer).
      * inv_bind Ha. injection Ha as <-. simpl.
        now apply DualLinear_apply_histories with (p := as_pushed E dual_layer).
      * injection Ha as <-. constructor.
    + injection HW as <-. constructor.
  - inv_bind H. injection H as <-.
    unfold DualBatchNorm2d.apply in Ha. inv_bind Ha. injection Ha as <-.
    simpl. repeat constructor; apply Hsnoc.
  - injection H as <-. constructor.
Qed.

Lemma invoke_histories (E : torch) (op op' : operator) (c : call) (r : returned) :
  invoke E op c = Ok (op', r) ->
  Forall2 (fun h h' => length h' = (length h + if is_apply c then 1 else 0)%nat)
          (histories op) (histories op').
Proof.
  intros H. destruct c; simpl in H.
  - inv_bind H. injection H as <- _.
    eapply Forall2_impl; [|eapply apply_histories; eauto].
    intros h h' Hh. cbn beta in Hh. simpl. lia.
  - inv_bind H. destruct a as [s f]. injection H as <- _.
    rewrite call_fval_eq in Ha. inv_bind Ha. injection Ha as <- _.
    apply Forall2_same. intros; simpl; lia.
  - inv_bind H. destruct a as [s v]. injection H as <- _.
    rewrite call_affine_eq in Ha. inv_bind Ha. injection Ha as <- _.
    apply Forall2_same. intros; simpl; lia.
  - inv_bind H. destruct a as [s v]. injection H as <- _.
    rewrite call_affine_transpose_eq in Ha. inv_bind Ha. injection Ha as <- _.
    apply Forall2_same. intros; simpl; lia.
Qed.

Lemma invoke_all_histories (E : torch) (cs : list call) :
  forall op op',
    invoke_all E op cs = Ok op' ->
    Forall2 (fun h h' => length h' = (length h + applies cs)%nat)
            (histories op) (histories op').
Proof.
  induction cs as [|c cs IH]; simpl; intros op op' H.
  - injection H as <-. apply Forall2_same. intros; unfold applies; simpl; lia.
  - inv_bind H. destruct a as [op1 r].
    pose proof (invoke_histories _ _ _ _ _ Ha) as H1.
    pose proof (IH _ _ H) as H2.
    clear - H1 H2. revert H2. generalize (histories op').
    induction H1 as [|h h1 l l1 Hh _ IHl]; intros l2 H2; inversion H2; subst;
      constructor; auto.
    unfold applies in *. simpl. destruct (is_apply c); simpl; lia.
Qed.

Lemma DualLinear_init_fresh (E : torch) (l : layer) (n : nat) (o : DualLinear.t) :
  DualLinear.init E l n = Ok o \/ DualConv2d.init E l n = Ok o ->
  match DualLinear.bias o with
  | Some bs => length bs = 1%nat
  | None => True
  end.
Proof.
  intros [H|H]; [unfold DualLinear.init in H | unfold DualConv2d.init in H];
    destruct l; try discriminate;
    destruct bias as [b|]; try inv_bind H; injection H as <-; simpl; auto.
Qed.

Lemma DualDense_init_loop_fresh (E : torch) (Ws : list (option layer)) :
  forall len_Ws i n duals net duals' net',
    DualDense_init_loop E Ws len_Ws i n duals net = Ok (duals', net') ->
    Forall (fun h => length h = 1%nat) (flat_map subop_histories duals) ->
    Forall (fun h => length h = 1%nat) (flat_map subop_histories duals').
Proof.
  induction Ws as [|W Ws IH]; simpl; intros len_Ws i n duals net duals' net' H Hf.
  - injection H as <- _. assumption.
  - inv_bind H. inv_bind H. eapply IH; [exact H|].
    rewrite flat_map_app. apply Forall_app. split; [assumption|].
    simpl. rewrite app_nil_r. clear - Ha.
    destruct W as [l|]; [|injection Ha as <-; constructor].
    destruct l; simpl in Ha;
      try (destruct mods; simpl in Ha);
      try discriminate;
      try (injection Ha as <-; constructor).
    + inv_bind Ha. injection Ha as <-. simpl.
      pose proof (DualLinear_init_fresh E
                    (Linear in_features out_features weight bias) n a0
                    (or_introl Ha0)) as Hb.
      destruct (DualLinear.bias a0); repeat constructor; auto.
    + inv_bind Ha. injection Ha as <-. simpl.
      pose proof (DualLinear_init_fresh E
                    (Conv2d weight stride padding bias) n a0
                    (or_intror Ha0)) as Hb.
      destruct (DualLinear.bias a0); repeat constructor; auto.
Qed.

(** Every history list of a freshly constructed operator has one entry. *)
Lemma constructed_fresh (E : torch) (op : operator) :
  constructed E op -> Forall (fun h => length h = 1%nat) (histories op).
Proof.
  intros H. destruct H as [X eps o H|X eps k w o w' H|l n o H|l n o H| |I d zl o H
                          |I d zl k w o w' H|dense dense_t net n o net' H
                          |l mb n o H| ]; simpl.
  - unfold InfBall.init in H. destruct X; [discriminate|].
    injection H as <-. repeat constructor.
  - unfold InfBallProj.init in H. destruct X; [discriminate|].
    injection H as <- _. repeat constructor.
  - pose proof (DualLinear_init_fresh E _ _ _ (or_introl H)) as Hb.
    destruct (DualLinear.bias o); repeat constructor; auto.
  - pose proof (DualLinear_init_fresh E _ _ _ (or_intror H)) as Hb.
    destruct (DualLinear.bias o); repeat constructor; auto.
  - constructor.
  - unfold DualReLU.init in H. destruct d as [|d0 d']; [discriminate|].
    destruct (0 <? mask_sum I)%nat.
    + repeat inv_bind H. injection H as <-. simpl. repeat constructor.
    + injection H as <-. constructor.
  - unfold DualReLUProj.init in H.
    destruct (mask_sum I =? 0)%nat; [injection H as <- _; constructor|].
    destruct (k <? 0)%Z; [discriminate|].
    destruct (negb _); [discriminate|].
    destruct (fill_batches _ _ _ _) as [nu p].
    repeat inv_bind H. injection H as <- _. simpl. repeat constructor.
  - unfold DualDense_init in H. destruct dense; try discriminate.
    inv_bind H. destruct a as [duals net1]. inv_bind H. injection H as <- _.
    simpl. eapply DualDense_init_loop_fresh; [exact Ha|]. constructor.
  - unfold DualBatchNorm2d.init in H. destruct l; try discriminate.
    destruct (if training then _ else _) as [mu var].
    repeat inv_bind H. injection H as <-. simpl. repeat constructor.
  - constructor.
Qed.

(** C7: after any sequence of method calls that returns, every history list
    an operator owns has one entry for its initial state and one for every
    [apply] among the calls, and the operator owns the same lists as at its
    construction. *)
Theorem history_length (E : torch) (op op' : operator) (cs : list call) :
  constructed E op ->
  invoke_all E op cs = Ok op' ->
  length (histories op') = length (histories op) /\
  Forall (fun h => length h = (1 + applies cs)%nat) (histories op').
Proof.
  intros Hc H.
  pose proof (constructed_fresh E op Hc) as Hfresh.
  pose proof (invoke_all_histories E cs op op' H) as H2.
  split.
  - symmetry. eapply Forall2_length_eq; eauto.
  - clear - Hfresh H2. induction H2 as [|h h' l l' Hh _ IH]; constructor.
    + inversion Hfresh; subst. lia.
    + apply IH. inversion Hfresh; assumption.
Qed.

Lemma history_length_witness :
  exists op op',
    constructed Example.E op /\
    invoke_all Example.E op
      [CallApply Example.lin1; CallFval None None; CallApply Example.lin2] = Ok op' /\
    length (histories op') = length (histories op) /\
    Forall (fun h => length h = 3%nat) (histories op').
Proof.
  destruct (InfBall.init Example.X Example.epsilon) as [b|] eqn:Hb;
    [|discriminate].
  destruct (invoke_all Example.E (OpInfBall b)
              [CallApply Example.lin1; CallFval None None; CallApply Example.lin2])
    as [op'|] eqn:Hrun.
  - exists (OpInfBall b), op'.
    assert (Hc : constructed Example.E (OpInfBall b))
      by (econstructor; exact Hb).
    split; [exact Hc|]. split; [exact Hrun|].
    exact (history_length Example.E _ _ _ Hc Hrun).
  - exfalso. vm_compute in Hb. injection Hb as <-.
    vm_compute in Hrun. discriminate.
Defined.

(** ** Evaluation leaves the chain as it is (C8) *)

Lemma sweep_same (E : torch) (ls : list operator) :
  forall nu ls' nu',
    DualNetBounds.sweep E ls nu = Ok (ls', nu') -> ls' = ls.
Proof.
  induction ls as [|l ls IH]; simpl; intros nu ls' nu' H.
  - now injection H as <- _.
  - inv_bind H. destruct a as [l1 v]. inv_bind H. destruct a as [ls1 nu1].
    injection H as <- _.
    rewrite call_affine_transpose_eq in Ha. inv_bind Ha. injection Ha as <- _.
    f_equal. eapply IH; eauto.
Qed.

Lemma sum_fvals_same (ls : list operator) :
  forall nprevs ns acc ls' total,
    DualNetBounds.sum_fvals ls nprevs ns acc = Ok (ls', total) -> ls' = ls.
Proof.
  induction ls as [|l ls IH]; simpl; intros nprevs ns acc ls' total H.
  - now injection H as <- _.
  - destruct nprevs as [|nprev nprevs]; [now injection H as <- _|].
    destruct ns as [|n ns]; [now injection H as <- _|].
    inv_bind H. destruct a as [l1 f]. inv_bind H. inv_bind H. inv_bind H.
    destruct a1 as [ls1 t1]. injection H as <- _.
    rewrite call_fval_eq in Ha. inv_bind Ha. injection Ha as <- _.
    f_equal. eapply IH; eauto.
Qed.

Lemma g_same (E : torch) (self self' : DualNetBounds.t) (c : list (list vec))
  (v : pyval) :
  DualNetBounds.g E self c = Ok (self', v) -> self' = self.
Proof.
  unfold DualNetBounds.g. intros H.
  destruct self as [dn last].
  cbn [DualNetBounds.dual_net DualNetBounds.last_layer] in H.
  destruct last as [last0|]; [|discriminate]. cbn [bind] in H.
  inv_bind H. destruct a as [last1 v1]. inv_bind H. destruct a as [swept nu].
  inv_bind H. destruct a as [after total]. injection H as <- _.
  rewrite call_affine_transpose_eq in Ha. inv_bind Ha. injection Ha as <- _.
  apply sweep_same in Ha0. subst swept.
  apply sum_fvals_same in Ha1. subst after.
  rewrite rev_involutive.
  assert (Hdn : firstn 1 dn ++ tl dn = dn) by (destruct dn; reflexivity).
  rewrite Hdn, removelast_last, last_last. reflexivity.
Qed.

Lemma g_all_same (E : torch) (self : DualNetBounds.t)
  (cs : list (list (list vec))) :
  DualNetBounds.g_all E self cs =
  (vs <- mapM (DualNetBounds.g_value E self) cs ;; Ok (self, vs)).
Proof.
  induction cs as [|c cs IH]; simpl; [reflexivity|].
  unfold DualNetBounds.g_value at 1.
  destruct (DualNetBounds.g E self c) as [[self1 v]|e] eqn:Hg; simpl;
    [|reflexivity].
  apply g_same in Hg. subst self1. rewrite IH.
  destruct (mapM (DualNetBounds.g_value E self) cs); reflexivity.
Qed.

(** ** Construction errors (C9) *)

Lemma forward_pass_length (E : torch) (net : list layer) :
  forall zs zs',
    DualNetBounds.forward_pass E net zs = Ok zs' ->
    length zs' = (length zs + length net)%nat.
Proof.
  induction net as [|l net IH]; simpl; intros zs zs' H.
  - injection H as <-. lia.
  - inv_bind H. apply IH in H. rewrite length_app in H. simpl in H. lia.
Qed.

Lemma combine_map_snd {A B : Type} (l : list A) (l' : list B) :
  length l = length l' -> map snd (combine l l') = l'.
Proof.
  revert l'; induction l as [|a l IH]; intros [|b l'] H; simpl in *;
    try discriminate; auto.
  f_equal. apply IH. lia.
Qed.

Lemma removelast_length {A : Type} (l : list A) :
  length (removelast l) = (length l - 1)%nat.
Proof.
  induction l as [|a [|b l] IH]; simpl in *; auto. rewrite IH. lia.
Qed.

Lemma tl_length {A : Type} (l : list A) : length (tl l) = (length l - 1)%nat.
Proof. destruct l; simpl; lia. Qed.

(** The dispatch refuses a layer of an unrecognized kind. *)
Lemma make_dual_layer_unrecognized (E : torch) (kw : DualNetBounds.kwargs)
  (zs : list (list vec)) (dense_t : option (list layer)) (i in_f out_f : nat)
  (layer : layer) (dn : list operator) (w : world) :
  recognized layer = false ->
  DualNetBounds.make_dual_layer E kw zs dense_t i in_f out_f layer dn w =
  Raise (ValueError ("No module for layer " ++ class_name_of layer)).
Proof.
  intros H. unfold DualNetBounds.make_dual_layer.
  destruct layer; simpl in H; try discriminate; rewrite H; reflexivity.
Qed.

Lemma init_loop_unrecognized (E : torch) (kw : DualNetBounds.kwargs)
  (zs : list (list vec)) (dense_t : option (list layer)) (len_net : nat)
  (todo : list (nat * nat * layer)) :
  existsb (fun l => negb (recognized l)) (map snd todo) = true ->
  forall i dn last w,
  exists e,
    DualNetBounds.init_loop E kw zs dense_t len_net i todo dn last w = Raise e.
Proof.
  induction todo as [|[[in_f out_f] layer] todo IH]; simpl; [discriminate|].
  intros H i dn last w.
  destruct (recognized layer) eqn:Hrec; simpl in H.
  - destruct (DualNetBounds.make_dual_layer E kw zs dense_t i in_f out_f layer dn w)
      as [[[dl dn1] w1]|e]; simpl; [|eauto].
    destruct (i <? len_net - 1)%nat.
    + destruct (mapM (fun l => apply E l dl) dn1) as [dn2|e]; simpl; [|eauto].
      apply IH; assumption.
    + apply IH; assumption.
  - rewrite make_dual_layer_unrecognized by assumption. simpl. eauto.
Qed.

(** C9, as the code has it.  A network that contains a layer of an
    unrecognized kind is refused: the construction raises and returns no
    chain, and the dispatch raises the "No module" error at such a layer.
    [DualLinear] raises on a layer that is not [nn.Linear] and [DualConv2d]
    on a layer that is not [nn.Conv2d]. *)
Theorem unrecognized_layer_is_fatal (E : torch) :
  (forall net X eps kw w,
      existsb (fun l => negb (recognized l)) net = true ->
      exists e, DualNetBounds.init E net X eps kw w = Raise e) /\
  (forall kw zs dense_t i in_f out_f layer dn w,
      recognized layer = false ->
      DualNetBounds.make_dual_layer E kw zs dense_t i in_f out_f layer dn w =
      Raise (ValueError ("No module for layer " ++ class_name_of layer))) /\
  (forall l n,
      match l with Linear _ _ _ _ => False | _ => True end ->
      DualLinear.init E l n = Raise (ValueError "Expected nn.Linear input.")) /\
  (forall l n,
      match l with Conv2d _ _ _ _ => False | _ => True end ->
      DualConv2d.init E l n = Raise (ValueError "Expected nn.Conv2d input.")).
Proof.
  split; [|split; [|split]].
  - intros net X eps kw w H. unfold DualNetBounds.init.
    destruct (DualNetBounds.forward_pass E net [X]) as [zs|e] eqn:Hf;
      simpl; [|eauto].
    destruct (InfBall.init X eps) as [ball|e]; simpl; [|eauto].
    destruct (if existsb is_Dense net then _ else _) as [dense_t|e];
      simpl; [|eauto].
    apply init_loop_unrecognized.
    rewrite combine_map_snd; [assumption|].
    apply forward_pass_length in Hf. simpl in Hf.
    rewrite length_combine, removelast_length, tl_length, !length_map. lia.
  - intros. now apply make_dual_layer_unrecognized.
  - intros l n H. destruct l; simpl in *; try contradiction; reflexivity.
  - intros l n H. destruct l; simpl in *; try contradiction; reflexivity.
Qed.

Lemma unrecognized_layer_is_fatal_witness :
  (exists e,
      DualNetBounds.init Example.E
        [Linear 4 3 [[1; -1; 2; 0]; [0; 1; 1; -1]; [2; 0; -1; 1]] None;
         CustomModule "Tanh"]
        Example.X Example.epsilon Example.kw Example.w0 = Raise e) /\
  DualLinear.init Example.E ReLU 3 = Raise (ValueError "Expected nn.Linear input.").
Proof.
  destruct (unrecognized_layer_is_fatal Example.E) as (Hnet & _ & Hlin & _).
  split.
  - apply Hnet. reflexivity.
  - apply Hlin. exact I.
Defined.

(** C9 as stated fails in the direction from failure to an unrecognized
    layer: a network of one [nn.Linear] with two input features, on an input
    of three features, holds recognized layers only, and its construction
    raises a size mismatch. *)
Lemma recognized_layers_can_fail :
  forallb recognized Example.misfit_net = true /\
  DualNetBounds.init Example.E Example.misfit_net Example.misfit_X
    Example.epsilon Example.kw Example.w0 =
  Raise (RuntimeError "size mismatch").
Proof.
  split; reflexivity.
Qed.

(** ** The bound of a purely affine network (C1) *)

Lemma py_last_snoc {A : Type} (l : list A) (x : A) : py_last (l ++ [x]) = Ok x.
Proof. unfold py_last. now rewrite rev_unit. Qed.

Lemma apply_affine_dual (E : torch) (ln : layer * nat) (op dl op' : operator) :
  apply E op dl = Ok op' -> affine_dual E ln op -> affine_dual E ln op'.
Proof.
  intros H Hd. destruct op; simpl in Hd; try contradiction.
  simpl in H. inv_bind H. injection H as <-.
  destruct Hd as [Hl Hb]. destruct ln as [l n]. simpl in *.
  unfold DualLinear.apply in Ha.
  destruct o as [lay bs]. simpl in *. subst lay.
  destruct l; try contradiction.
  destruct bias as [b|].
  - destruct Hb as (fb & hist & Hfb & ->).
    inv_bind Ha. injection Ha as <-. simpl. split; [reflexivity|].
    exists fb, (hist ++ [a0]). split; [assumption | reflexivity].
  - subst bs. injection Ha as <-. simpl. auto.
Qed.

Lemma DualLinear_init_affine_dual (E : torch) (l : layer) (n : nat)
  (o : DualLinear.t) :
  DualLinear.init E l n = Ok o -> affine_dual E (l, n) (OpLinear o).
Proof.
  unfold DualLinear.init. intros H. destruct l; try discriminate.
  destruct bias as [b|].
  - inv_bind H. injection H as <-. simpl. split; [reflexivity|].
    exists a, []. split; [assumption | reflexivity].
  - injection H as <-. simpl. auto.
Qed.

Lemma sweep_app (E : torch) (a b : list operator) :
  forall nu,
    DualNetBounds.sweep E (a ++ b) nu =
    (r1 <- DualNetBounds.sweep E a nu ;;
     r2 <- DualNetBounds.sweep E b (snd r1) ;;
     Ok (fst r1 ++ fst r2, snd r2)).
Proof.
  induction a as [|l a IH]; intros nu; simpl.
  - destruct (DualNetBounds.sweep E b nu) as [[b' nu']|]; reflexivity.
  - destruct (call_affine_transpose E l nu) as [[l' v]|]; simpl; [|reflexivity].
    rewrite IH.
    destruct (DualNetBounds.sweep E a (nu ++ [v])) as [[a' nu1]|]; simpl;
      [|reflexivity].
    destruct (DualNetBounds.sweep E b nu1) as [[b' nu2]|]; reflexivity.
Qed.

Lemma directions_cons (net : list layer) (nu : pyval) (ds : list pyval) :
  directions net nu = Ok ds ->
  exists d0 rest, ds = d0 :: rest /\ length ds = S (length net).
Proof.
  revert ds; induction net as [|l net IH]; simpl; intros ds H.
  - injection H as <-. eauto.
  - inv_bind H. inv_bind H. injection H as <-.
    destruct (IH _ Ha) as (d0 & rest & -> & Hlen).
    exists a0, (d0 :: rest). split; [reflexivity|]. simpl in *. lia.
Qed.

(** The transposed sweep over the operators of affine layers computes the
    directions of the closed form. *)
Lemma sweep_directions (E : torch) (lns : list (layer * nat))
  (ops : list operator) :
  Forall2 (affine_dual E) lns ops ->
  forall pre nu,
    DualNetBounds.sweep E (rev ops) (pre ++ [nu]) =
    (ds <- directions (map fst lns) nu ;; Ok (rev ops, pre ++ rev ds)).
Proof.
  induction 1 as [|ln op lns ops Hd _ IH]; intros pre nu; simpl.
  - reflexivity.
  - rewrite sweep_app, IH.
    destruct (directions (map fst lns) nu) as [ds|] eqn:Hds; simpl;
      [|reflexivity].
    destruct (directions_cons _ _ _ Hds) as (d0 & rest & -> & _).
    simpl hd. simpl rev. rewrite app_assoc.
    rewrite call_affine_transpose_eq.
    destruct op; simpl in Hd; try contradiction.
    destruct Hd as [Hl Hb]. simpl affine_transpose.
    unfold DualLinear.affine_transpose. rewrite py_last_snoc. cbn [bind].
    rewrite Hl. destruct (fst ln); try contradiction.
    unfold transposed_affine.
    destruct (F_linear d0 out_features (weight_t in_features weight));
      simpl; [|reflexivity].
    now rewrite <- !app_assoc.
Qed.

(** The contributions of the operators of affine layers add up to the bias
    terms of the closed form. *)
Lemma sum_fvals_affine (E : torch) (lns : list (layer * nat))
  (ops : list operator) :
  Forall2 (affine_dual E) lns ops ->
  forall nprevs nus acc,
    length nprevs = length ops ->
    length nus = length ops ->
    DualNetBounds.sum_fvals ops nprevs (map Some nus) acc =
    (total <- sum_bias E lns nus acc ;; Ok (ops, total)).
Proof.
  induction 1 as [|ln op lns ops Hd _ IH]; intros nprevs nus acc Hp Hn.
  - destruct nus; [reflexivity | discriminate].
  - destruct nprevs as [|nprev nprevs]; [discriminate|].
    destruct nus as [|nu nus]; [discriminate|].
    simpl in Hp, Hn. cbn [map DualNetBounds.sum_fvals sum_bias].
    destruct ln as [l n].
    destruct op; simpl in Hd; try contradiction.
    destruct Hd as [Hl Hb]. destruct o as [lay bs]. simpl in Hl, Hb. subst lay.
    rewrite call_fval_eq. cbn [fval]. unfold DualLinear.fval, bias_contribution.
    cbn [DualLinear.bias].
    destruct l; try contradiction.
    destruct bias as [b|].
    + destruct Hb as (fb & hist & Hfb & ->). rewrite Hfb. cbn [bind as_tensor].
      destruct (view_direction nu) as [nu3|]; cbn [bind]; [|reflexivity].
      destruct (matmul_vec nu3 (flat_all fb)) as [r|]; cbn [bind]; [|reflexivity].
      destruct (pyadd acc (PyT (tneg (T2 r)))) as [acc'|]; cbn [bind];
        [|reflexivity].
      rewrite IH by lia.
      destruct (sum_bias E lns nus acc'); reflexivity.
    + subst bs. cbn [bind].
      destruct (pyadd acc PyZero) as [acc'|]; cbn [bind]; [|reflexivity].
      rewrite IH by lia.
      destruct (sum_bias E lns nus acc'); reflexivity.
Qed.

Lemma apply_all_affine_dual (E : torch) (dl : operator)
  (lns : list (layer * nat)) (ops : list operator) :
  Forall2 (affine_dual E) lns ops ->
  forall ops',
    mapM (fun l => apply E l dl) ops = Ok ops' ->
    Forall2 (affine_dual E) lns ops'.
Proof.
  induction 1 as [|ln op lns ops Hd _ IH]; simpl; intros ops' H.
  - injection H as <-. constructor.
  - inv_bind H. inv_bind H. injection H as <-.
    constructor; [eapply apply_affine_dual; eauto | auto].
Qed.

(** The construction loop on affine layers: the chain is the exact ball
    followed by the operators of the layers but the last, whose operator is
    [last_layer]. *)
Lemma init_loop_affine (E : torch) (kw : DualNetBounds.kwargs)
  (zs : list (list vec)) (dense_t : option (list layer)) (len_net : nat)
  (X : list vec) (eps : Q) (todo : list (nat * nat * layer)) :
  forall i b ops done w self w',
    todo <> [] ->
    Forall (fun t : nat * nat * layer => is_Linear (snd t) = true) todo ->
    (i + length todo = len_net)%nat ->
    exact_ball X eps (OpInfBall b) ->
    Forall2 (affine_dual E) done ops ->
    DualNetBounds.init_loop E kw zs dense_t len_net i todo
      (OpInfBall b :: ops) None w = Ok (self, w') ->
    exists b' ops' lastop,
      DualNetBounds.dual_net self = OpInfBall b' :: ops' /\
      exact_ball X eps (OpInfBall b') /\
      Forall2 (affine_dual E) (done ++ layers_of todo) (ops' ++ [lastop]) /\
      DualNetBounds.last_layer self = Some lastop.
Proof.
  induction todo as [|[[in_f out_f] l] todo IH];
    intros i b ops done w self w' Hne Hlin Hlen Hb Hdone H; [contradiction|].
  apply Forall_cons_iff in Hlin as [Hl Hlin']. simpl in Hl.
  destruct l; try discriminate. clear Hl.
  cbn [DualNetBounds.init_loop DualNetBounds.make_dual_layer] in H.
  inv_bind H. inv_bind Ha. injection Ha as <-.
  pose proof (DualLinear_init_affine_dual _ _ _ _ Ha0) as Hnew.
  cbn [length] in Hlen.
  destruct todo as [|t' todo'].
  - replace (i <? len_net - 1)%nat with false in H
      by (symmetry; apply Nat.ltb_ge; simpl in Hlen; lia).
    simpl in H. injection H as <- <-. simpl.
    exists b, ops, (OpLinear a0).
    split; [reflexivity|]. split; [exact Hb|]. split; [|reflexivity].
    apply Forall2_app; [assumption | constructor; [exact Hnew | constructor]].
  - replace (i <? len_net - 1)%nat with true in H
      by (symmetry; apply Nat.ltb_lt; simpl in Hlen; lia).
    inv_bind H. cbn [mapM] in Ha. inv_bind Ha. inv_bind Ha.
    injection Ha as <-.
    assert (Hb2 : exists b2, a1 = OpInfBall b2 /\ exact_ball X eps (OpInfBall b2)).
    { pose proof (apply_exact_ball _ X eps _ _ _ Ha1 Hb) as Hx.
      destruct a1; simpl in Hx; try contradiction. eauto. }
    destruct Hb2 as (b2 & -> & Hb2).
    pose proof (apply_all_affine_dual _ _ _ _ Hdone _ Ha2) as Hdone2.
    change ((OpInfBall b2 :: a2) ++ [OpLinear a0])
      with (OpInfBall b2 :: (a2 ++ [OpLinear a0])) in H.
    destruct (IH (S i) b2 (a2 ++ [OpLinear a0])
                (done ++ [(Linear in_features out_features weight bias, out_f)])
                w self w') as (b' & ops' & lastop & Hdn & Hb' & Hall & Hlast);
      auto.
    + discriminate.
    + simpl in *. lia.
    + apply Forall2_app; [assumption | constructor; [exact Hnew | constructor]].
    + exists b', ops', lastop.
      split; [assumption|]. split; [assumption|]. split; [|assumption].
      rewrite <- app_assoc in Hall. exact Hall.
Qed.

Lemma fval_direction_contrib (eps : Q) (nu_x : list pyval) (nu : pyval) (f : fret) :
  InfBall.fval_direction eps nu_x nu = Ok f -> exists v, f = Contrib v.
Proof.
  unfold InfBall.fval_direction. intros H.
  inv_bind H. destruct nu_x as [|x0 hist]; [discriminate|].
  repeat inv_bind H. injection H as <-. eauto.
Qed.

Lemma layers_of_combine (A B : list nat) (N : list layer) :
  length A = length N -> length B = length N ->
  layers_of (combine (combine A B) N) = combine N B /\
  map snd (combine (combine A B) N) = N.
Proof.
  revert A B; induction N as [|l N IH]; intros [|a A] [|b B] HA HB;
    simpl in *; try discriminate; auto.
  destruct (IH A B) as [H1 H2]; try lia.
  unfold layers_of in *. simpl. now rewrite H1, H2.
Qed.

(** The evaluation of [g] on the chain of a purely affine network. *)
Lemma g_affine_chain (E : torch) (lns : list (layer * nat)) (b : InfBall.t)
  (ops : list operator) (lastop : operator) (X : list vec) (eps : Q)
  (c : list (list vec)) :
  exact_ball X eps (OpInfBall b) ->
  Forall2 (affine_dual E) lns (ops ++ [lastop]) ->
  DualNetBounds.g_value E
    {| DualNetBounds.dual_net := OpInfBall b :: ops;
       DualNetBounds.last_layer := Some lastop |} c =
  (nus <- directions (map fst lns) (PyT (tneg (T3 c))) ;;
   f <- InfBall.fval_direction eps [PyT (T2 X)] (hd PyZero nus) ;;
   match f with
   | Contrib ball => sum_bias E lns (tl nus) ball
   | Bounds _ _ => Raise (TypeError "not a contribution")
   end).
Proof.
  intros Hb Hall. unfold DualNetBounds.g_value, DualNetBounds.g.
  cbn [DualNetBounds.dual_net DualNetBounds.last_layer bind tl].
  set (nu0 := PyT (tneg (T3 c))).
  pose proof (sweep_directions E lns (ops ++ [lastop]) Hall [] nu0) as Hsw.
  rewrite rev_app_distr in Hsw.
  cbn [rev app DualNetBounds.sweep] in Hsw.
  destruct (call_affine_transpose E lastop [nu0]) as [[l1 v]|e];
    cbn [bind] in *.
  2:{ destruct (directions (map fst lns) nu0); cbn [bind] in *;
        [discriminate | congruence]. }
  destruct (DualNetBounds.sweep E (rev ops) [nu0; v]) as [[swept nu]|e];
    cbn [bind] in *.
  2:{ destruct (directions (map fst lns) nu0); cbn [bind] in *;
        [discriminate | congruence]. }
  destruct (directions (map fst lns) nu0) as [ds|] eqn:Hds; cbn [bind] in *;
    [|discriminate].
  injection Hsw as -> -> ->.
  destruct (directions_cons _ _ _ Hds) as (d0 & ds' & -> & Hlen).
  rewrite rev_involutive, rev_app_distr, map_rev, rev_involutive.
  cbn [rev app map firstn hd tl].
  change (removelast (None :: Some d0 :: map Some ds'))
    with (None :: removelast (Some d0 :: map Some ds')).
  cbn [DualNetBounds.sum_fvals].
  rewrite call_fval_eq. cbn [fval]. unfold InfBall.fval.
  destruct Hb as (He & Hx & _). rewrite He.
  destruct (InfBall.nu_x b) as [|x0 hist]; [discriminate|].
  injection Hx as ->.
  change (InfBall.fval_direction eps (PyT (T2 X) :: hist) d0)
    with (InfBall.fval_direction eps [PyT (T2 X)] d0).
  destruct (InfBall.fval_direction eps [PyT (T2 X)] d0) as [f|] eqn:Hf;
    cbn [bind]; [|reflexivity].
  destruct (fval_direction_contrib _ _ _ _ Hf) as (v0 & ->).
  cbn [bind pyadd].
  pose proof (Forall2_length_eq _ _ _ Hall) as Hlen2.
  rewrite length_map in Hlen. simpl in Hlen.
  rewrite (sum_fvals_affine E lns (ops ++ [lastop]) Hall).
  - destruct (sum_bias E lns ds' v0); reflexivity.
  - rewrite removelast_length. simpl. rewrite length_map. lia.
  - lia.
Qed.



(** The bound of the two affine layers of the example for the objective
    [e0 - e1]: the forward value is [(28/10, -19/10)], the objective
    propagated to the input is [(5, -4, -3, 5)], of L1 norm 17, and the
    bound is [47/10 - (5/100) * 17]. *)
Example affine_example_bound :
  exists self w' q,
    DualNetBounds.init Example.E Example.affine_net Example.X Example.epsilon
      Example.kw Example.w0 = Ok (self, w') /\
    DualNetBounds.g_value Example.E self Example.c = Ok (PyT (T2 [[q]])) /\
    q == (47 # 10) - (5 # 100) * 17.
Proof.
  destruct (DualNetBounds.init Example.E Example.affine_net Example.X
              Example.epsilon Example.kw Example.w0) as [[self w']|] eqn:Hinit;
    [|vm_compute in Hinit; discriminate].
  vm_compute in Hinit. injection Hinit as <- <-.
  eexists. eexists. eexists. split; [reflexivity|].
  split; [vm_compute; reflexivity|]. reflexivity.
Qed.


(** * Further properties of the code *)

(** ** [batch] and [unbatch] *)

Lemma concat_length_rect {A : Type} (k : nat) (t : list (list A)) :
  Forall (fun r => length r = k) t -> length (concat t) = (k * length t)%nat.
Proof.
  induction 1 as [|r t Hr _ IH]; simpl; [lia|].
  rewrite length_app, IH, Hr. lia.
Qed.

Lemma chunks_concat {A : Type} (k : nat) (t : list (list A)) :
  Forall (fun r => length r = k) t -> chunks k (length t) (concat t) = t.
Proof.
  induction 1 as [|r t Hr _ IH]; simpl; [reflexivity|].
  rewrite firstn_app, skipn_app, Hr, Nat.sub_diag. simpl.
  rewrite app_nil_r, <- Hr, firstn_all, skipn_all. simpl. now rewrite Hr, IH.
Qed.

Lemma concat_chunks {A : Type} (k n : nat) (l : list A) :
  length l = (k * n)%nat -> concat (chunks k n l) = l.
Proof.
  revert l; induction n as [|n IH]; intros l H; simpl.
  - destruct l; [reflexivity | simpl in H; lia].
  - rewrite IH by (rewrite length_skipn; lia). apply firstn_skipn.
Qed.

Lemma chunks_length {A : Type} (k n : nat) (l : list A) :
  length (chunks k n l) = n.
Proof. revert l; induction n; intros l; simpl; auto. Qed.

Lemma chunks_rows {A : Type} (k n : nat) (l : list A) :
  length l = (k * n)%nat -> Forall (fun r => length r = k) (chunks k n l).
Proof.
  revert l; induction n as [|n IH]; intros l H; simpl; constructor.
  - rewrite length_firstn. lia.
  - apply IH. rewrite length_skipn. lia.
Qed.

Lemma batch_concat {A : Type} (t : list (list A)) (k : nat) :
  t <> [] ->
  Forall (fun r => length r = k) t ->
  batch (concat t) (length t) = Ok t.
Proof.
  intros Hne Hrect. unfold batch.
  assert (Hn : length t <> 0%nat) by (destruct t; [contradiction | discriminate]).
  rewrite (concat_length_rect k t Hrect).
  replace (length t =? 0)%nat with false by (symmetry; now apply Nat.eqb_neq).
  rewrite Nat.Div0.mod_mul, Nat.eqb_refl, Nat.div_mul by assumption.
  now rewrite chunks_concat.
Qed.

(** [batch] after [unbatch]: a block with at least one group, all groups of
    one size, comes back as it was. *)
Theorem batch_unbatch {A : Type} (t : list (list A)) (k : nat) :
  t <> [] ->
  Forall (fun r => length r = k) t ->
  batch (unbatch t) (length t) = Ok t.
Proof. intros Hne Hrect. unfold unbatch. now apply batch_concat with k. Qed.

Lemma batch_unbatch_witness :
  batch (unbatch [[1; 2]; [3; 4]; [5; 6]]) 3 = Ok [[1; 2]; [3; 4]; [5; 6]].
Proof.
  apply (batch_unbatch [[1; 2]; [3; 4]; [5; 6]] 2).
  - discriminate.
  - repeat constructor.
Defined.

(** [unbatch] after [batch]: when the view with [n] groups exists, merging
    the groups gives the block back, and there are [n] groups of one
    size. *)
Theorem unbatch_batch {A : Type} (l : list A) (n : nat) (t : list (list A)) :
  batch l n = Ok t ->
  unbatch t = l /\ length t = n /\
  Forall (fun r => length r = (length l / n)%nat) t.
Proof.
  unfold batch, unbatch. intros H.
  destruct (n =? 0)%nat eqn:Hn; [discriminate|]. apply Nat.eqb_neq in Hn.
  destruct (length l mod n =? 0)%nat eqn:Hm; [|discriminate].
  apply Nat.eqb_eq in Hm. injection H as <-.
  assert (Hlen : length l = (length l / n * n)%nat).
  { pose proof (Nat.div_mod_eq (length l) n). lia. }
  split; [now apply concat_chunks|].
  split; [apply chunks_length | now apply chunks_rows].
Qed.

Lemma unbatch_batch_witness :
  unbatch [[1; 2; 3]; [4; 5; 6]] = [1; 2; 3; 4; 5; 6] /\
  length [[1; 2; 3]; [4; 5; 6]] = 2%nat /\
  Forall (fun r => length r = (length [1; 2; 3; 4; 5; 6] / 2)%nat)
         [[1; 2; 3]; [4; 5; 6]].
Proof.
  apply (unbatch_batch [1; 2; 3; 4; 5; 6] 2 [[1; 2; 3]; [4; 5; 6]]).
  reflexivity.
Defined.


(** ** Convolution operators on directions with a row dimension *)

Lemma mapM_concat {A B : Type} (f : A -> result B) (t : list (list A)) :
  mapM f (concat t) = (r <- mapM (mapM f) t ;; Ok (concat r)).
Proof.
  induction t as [|a t IH]; simpl; [reflexivity|].
  rewrite mapM_app. destruct (mapM f a) as [ya|e]; simpl; [|reflexivity].
  rewrite IH. destruct (mapM (mapM f) t); reflexivity.
Qed.

Lemma mapM_mapM_rect {A B : Type} (f : A -> result B) (k : nat)
  (t : list (list A)) (r : list (list B)) :
  mapM (mapM f) t = Ok r ->
  Forall (fun row => length row = k) t ->
  length r = length t /\ Forall (fun row => length row = k) r.
Proof.
  intros H Hrect. split; [now apply mapM_length in H|].
  apply mapM_Forall2 in H.
  induction H as [|a b t r Hab _ IH]; constructor.
  - apply mapM_length in Hab. apply Forall_inv in Hrect. congruence.
  - apply IH. now apply Forall_inv_tail in Hrect.
Qed.

Lemma through_minibatched (prim : vec -> result vec) (bs : nat)
  (t : list (list vec)) (k : nat) :
  (0 < bs)%nat -> t <> [] -> (0 < k)%nat ->
  Forall (fun rows => length rows = k) t ->
  DualConv2d.through (minibatched prim bs) (PyT (T3 t)) =
  (r <- mapM (mapM prim) t ;; Ok (PyT (T3 r))).
Proof.
  intros Hbs Hne Hk Hrect. unfold DualConv2d.through, unbatch.
  assert (Hc : concat t <> []).
  { destruct t as [|a t']; [contradiction|]. apply Forall_inv in Hrect.
    destruct a; [simpl in Hrect; lia | discriminate]. }
  rewrite (minibatched_unchunked prim bs Hbs _ Hc). unfold F_batched.
  rewrite mapM_concat.
  destruct (mapM (mapM prim) t) as [r|e] eqn:Hr; simpl; [|reflexivity].
  destruct (mapM_mapM_rect prim k t r Hr Hrect) as [Hlen Hrows].
  rewrite <- Hlen, (batch_concat r k); [reflexivity | | assumption].
  intros ->. destruct t; [contradiction | discriminate].
Qed.

(** [DualConv2d.affine] and [DualConv2d.affine_transpose] on a direction with
    a row dimension: the rows are merged into the batch, sent through the
    minibatched helper and split again, which amounts to the convolution
    primitive on every row of every batch element, errors included, in the
    shape of the input. *)
Theorem DualConv2d_rows (E : torch) (self : DualConv2d.t)
  (weight : list (list (list vec))) (stride padding : nat * nat)
  (b : option vec) (xs : list pyval) (t : list (list vec)) (k : nat) :
  DualLinear.layer_ self = Conv2d weight stride padding b ->
  py_last xs = Ok (PyT (T3 t)) ->
  t <> [] -> (0 < k)%nat ->
  Forall (fun rows => length rows = k) t ->
  DualConv2d.affine E self xs =
    (r <- mapM (mapM (F_conv2d E weight stride padding)) t ;; Ok (PyT (T3 r))) /\
  DualConv2d.affine_transpose E self xs =
    (r <- mapM (mapM (F_conv_transpose2d E weight stride padding)) t ;;
     Ok (PyT (T3 r))).
Proof.
  intros Hl Hx Hne Hk Hrect.
  unfold DualConv2d.affine, DualConv2d.affine_transpose, conv2d, conv_transpose2d.
  rewrite Hx, Hl. cbn [bind].
  split; apply through_minibatched with k; auto using batch_size_pos.
Qed.

Lemma DualConv2d_rows_witness :
  DualConv2d.affine Example.E
    {| DualLinear.layer_ := Conv2d [] (1%nat, 1%nat) (0%nat, 0%nat) None;
       DualLinear.bias := None |}
    [PyT (T3 [[[1; 2]; [3; 4]]; [[5; 6]; [7; 8]]])] =
    (r <- mapM (mapM (F_conv2d Example.E [] (1%nat, 1%nat) (0%nat, 0%nat)))
            [[[1; 2]; [3; 4]]; [[5; 6]; [7; 8]]] ;;
     Ok (PyT (T3 r))) /\
  DualConv2d.affine_transpose Example.E
    {| DualLinear.layer_ := Conv2d [] (1%nat, 1%nat) (0%nat, 0%nat) None;
       DualLinear.bias := None |}
    [PyT (T3 [[[1; 2]; [3; 4]]; [[5; 6]; [7; 8]]])] =
    (r <- mapM (mapM (F_conv_transpose2d Example.E [] (1%nat, 1%nat) (0%nat, 0%nat)))
            [[[1; 2]; [3; 4]]; [[5; 6]; [7; 8]]] ;;
     Ok (PyT (T3 r))).
Proof.
  apply (DualConv2d_rows Example.E _ [] (1%nat, 1%nat) (0%nat, 0%nat) None _
           [[[1; 2]; [3; 4]]; [[5; 6]; [7; 8]]] 2).
  - reflexivity.
  - reflexivity.
  - discriminate.
  - lia.
  - repeat constructor.
Defined.


(** ** The affine operator and its transpose *)

Lemma dot_nil_r (y : vec) : dot y [] = 0.
Proof. destruct y; reflexivity. Qed.

Lemma dot_map_zero {A : Type} (l : list A) :
  forall x : vec, dot x (map (fun _ => 0) l) == 0.
Proof.
  induction l as [|i l IH]; intros [|a x]; simpl; try reflexivity.
  rewrite IH. ring.
Qed.

Lemma dot_map_add {A : Type} (f g : A -> Q) (l : list A) :
  forall x : vec,
    dot x (map (fun i => f i + g i) l) == dot x (map f l) + dot x (map g l).
Proof.
  induction l as [|i l IH]; intros [|a x]; simpl; try reflexivity.
  rewrite IH. ring.
Qed.

Lemma dot_map_scale {A : Type} (b : Q) (f : A -> Q) (l : list A) :
  forall x : vec, dot x (map (fun i => b * f i) l) == b * dot x (map f l).
Proof.
  induction l as [|i l IH]; intros [|a x]; simpl; try ring.
  rewrite IH. ring.
Qed.

Lemma map_nth_seq_id (r : vec) : map (fun i => nth i r 0) (seq 0 (length r)) = r.
Proof.
  induction r as [|a r IH]; simpl; [reflexivity|].
  f_equal. rewrite <- seq_shift, map_map. exact IH.
Qed.

Lemma dot_adjoint (n : nat) (W : list vec) :
  Forall (fun row => length row = n) W ->
  forall x y : vec,
    dot (map (dot x) W) y == dot x (map (dot y) (weight_t n W)).
Proof.
  unfold weight_t. induction 1 as [|r W Hr _ IH]; intros x y; rewrite map_map.
  - simpl. rewrite (map_ext _ (fun _ => 0)) by (intros; apply dot_nil_r).
    now rewrite dot_map_zero.
  - destruct y as [|b y]; simpl.
    + now rewrite dot_map_zero.
    + pose proof (dot_map_add (fun i => b * nth i r 0)
                    (fun i => dot y (map (fun row => nth i row 0) W))
                    (seq 0 n) x) as Hadd.
      cbn beta in Hadd. rewrite Hadd. clear Hadd.
      rewrite dot_map_scale, <- Hr, map_nth_seq_id, Hr.
      rewrite IH, map_map. ring.
Qed.

(** [DualLinear.affine_transpose] is the adjoint of [DualLinear.affine]: for
    a weight with [in_features] columns, an input [x] and a direction [y],
    the product of [affine x] with [y] is the product of [x] with
    [affine_transpose y]. *)
Theorem DualLinear_adjoint (self : DualLinear.t) (in_features out_features : nat)
  (weight : list vec) (b : option vec) (x y : vec) :
  DualLinear.layer_ self = Linear in_features out_features weight b ->
  Forall (fun row => length row = in_features) weight ->
  length x = in_features ->
  length y = out_features ->
  exists ax aty,
    DualLinear.affine self [PyT (T1 x)] = Ok (PyT (T1 ax)) /\
    DualLinear.affine_transpose self [PyT (T1 y)] = Ok (PyT (T1 aty)) /\
    dot ax y == dot x aty.
Proof.
  intros Hl HW Hx Hy.
  exists (map (dot x) weight), (map (dot y) (weight_t in_features weight)).
  unfold DualLinear.affine, DualLinear.affine_transpose. rewrite Hl.
  cbn [py_last rev app bind F_linear]. unfold linear_row.
  rewrite Hx, Hy, !Nat.eqb_refl. cbn [bind].
  repeat split. now apply dot_adjoint.
Qed.

Lemma DualLinear_adjoint_witness :
  exists ax aty,
    DualLinear.affine
      {| DualLinear.layer_ := Linear 3 2 [[1; -1; 1]; [0; 2; -1]] None;
         DualLinear.bias := None |} [PyT (T1 [1; 2; 3])] = Ok (PyT (T1 ax)) /\
    DualLinear.affine_transpose
      {| DualLinear.layer_ := Linear 3 2 [[1; -1; 1]; [0; 2; -1]] None;
         DualLinear.bias := None |} [PyT (T1 [5; 7])] = Ok (PyT (T1 aty)) /\
    dot ax [5; 7] == dot [1; 2; 3] aty.
Proof.
  apply (DualLinear_adjoint _ 3 2 [[1; -1; 1]; [0; 2; -1]] None [1; 2; 3] [5; 7]).
  - reflexivity.
  - repeat constructor.
  - reflexivity.
  - reflexivity.
Defined.


(** ** The bounds of the exact representative of the ball *)

Lemma features_map_Qabs (rows : list vec) :
  features (map (map Qabs) rows) = features rows.
Proof. destruct rows; simpl; [reflexivity|]. unfold features. simpl. apply length_map. Qed.

Lemma l1_columns_length (rows : list vec) :
  length (l1_columns rows) = features rows.
Proof.
  unfold l1_columns, transpose.
  now rewrite !length_map, length_seq, features_map_Qabs.
Qed.

Lemma nth_error_map_seq {A : Type} (g : nat -> A) (n f : nat) :
  (f < n)%nat -> nth_error (map g (seq 0 n)) f = Some (g f).
Proof.
  intros H. rewrite nth_error_map, nth_error_seq.
  apply Nat.ltb_lt in H. now rewrite H.
Qed.

Lemma l1_columns_nth (rows : list vec) (f : nat) :
  (f < features rows)%nat ->
  nth_error (l1_columns rows) f =
  Some (sumQ (map (fun row => Qabs (nth f row 0)) rows)).
Proof.
  intros H. unfold l1_columns, transpose.
  rewrite map_map, features_map_Qabs, nth_error_map_seq by assumption.
  rewrite map_map. do 2 f_equal. apply map_ext. intros row.
  exact (map_nth Qabs row 0 f).
Qed.

(** The bounds [InfBall.fval] returns without a direction. *)
Lemma InfBall_fval_bounds (o : InfBall.t) (nu_prev : option pyval)
  (rows : list vec) (x : list vec) :
  py_last (InfBall.nu_1 o) = Ok (PyT (T3 [rows])) ->
  py_last (InfBall.nu_x o) = Ok (PyT (T2 x)) ->
  Forall (fun xr => length xr = features rows) x ->
  InfBall.fval o None nu_prev =
  Ok (Bounds
        (PyT (T2 (map (fun xr =>
                         zip_with (fun a n => a - InfBall.epsilon o * n) xr
                                  (l1_columns rows)) x)))
        (PyT (T2 (map (fun xr =>
                         zip_with (fun a n => a + InfBall.epsilon o * n) xr
                                  (l1_columns rows)) x)))).
Proof.
  intros Hnu Hx Hshape. unfold InfBall.fval.
  rewrite Hnu. cbn [bind as_tensor tabs tmap sum_dim1 map]. rewrite Hx. cbn [bind].
  fold (l1_columns rows).
  unfold pysub_t, pyadd_t, tsub, tadd, tbop, tscale, tmap.
  cbn [map]. unfold bop2. rewrite !bzip_broadcast_r.
  pose proof (l1_columns_length rows) as Hlen.
  rewrite (mapM_pure _ (fun xr => zip_with (fun a n => a - InfBall.epsilon o * n) xr
                                    (l1_columns rows))).
  2:{ eapply Forall_impl; [|exact Hshape]. intros xr Hxr. cbn beta.
      rewrite bop1_same_length by (rewrite length_map; congruence).
      now rewrite zip_with_swap, zip_with_map_l, zip_with_swap. }
  cbn [bind].
  rewrite (mapM_pure _ (fun xr => zip_with (fun a n => a + InfBall.epsilon o * n) xr
                                    (l1_columns rows))).
  2:{ eapply Forall_impl; [|exact Hshape]. intros xr Hxr. cbn beta.
      rewrite bop1_same_length by (rewrite length_map; congruence).
      now rewrite zip_with_swap, zip_with_map_l, zip_with_swap. }
  reflexivity.
Qed.

Lemma nth_map_seq (g : nat -> Q) (n f : nat) :
  (f < n)%nat -> nth f (map g (seq 0 n)) 0 = g f.
Proof.
  intros H. apply nth_error_nth. now apply nth_error_map_seq.
Qed.

Lemma nth_one_hot (n j f : nat) (q : Q) :
  (f < n)%nat -> nth f (one_hot n j q) 0 = if (f =? j)%nat then q else 0.
Proof. intros H. unfold one_hot. now rewrite nth_map_seq. Qed.

Lemma sum_indicator (f n : nat) :
  forall s,
    sumQ (map (fun j => Qabs (if (f =? j)%nat then 1 else 0)) (seq s n)) ==
    if ((s <=? f) && (f <? s + n))%nat then 1 else 0.
Proof.
  induction n as [|n IH]; intros s; simpl.
  - destruct (Nat.leb_spec s f), (Nat.ltb_spec f (s + 0)); simpl;
      try reflexivity; lia.
  - rewrite IH.
    destruct (Nat.eqb_spec f s), (Nat.leb_spec s f), (Nat.leb_spec (S s) f),
      (Nat.ltb_spec f (S s + n)), (Nat.ltb_spec f (s + S n)); simpl;
      try reflexivity; lia.
Qed.

Lemma features_eye (n : nat) : features (eye n) = n.
Proof.
  unfold eye, features. destruct n; [reflexivity|].
  simpl. rewrite length_map, length_seq. reflexivity.
Qed.

Lemma l1_columns_eye (n f : nat) :
  (f < n)%nat ->
  exists q, nth_error (l1_columns (eye n)) f = Some q /\ q == 1.
Proof.
  intros H. eexists. split.
  - apply l1_columns_nth. now rewrite features_eye.
  - unfold eye. rewrite map_map.
    rewrite (map_ext_in _ (fun j => Qabs (if (f =? j)%nat then 1 else 0))).
    + rewrite sum_indicator.
      destruct (Nat.leb_spec 0 f), (Nat.ltb_spec f (0 + n)); simpl;
        try reflexivity; lia.
    + intros j _. now rewrite nth_one_hot.
Qed.

Lemma same_shape_map_zip_with {A B C : Type} (f : A -> B -> C)
  (x : list (list A)) (c : list B) :
  Forall (fun xr => length xr = length c) x ->
  same_shape x (map (fun xr => zip_with f xr c) x).
Proof.
  unfold same_shape. induction 1; simpl; constructor; auto.
  now rewrite zip_with_length.
Qed.

Lemma at2_map_zip_with {A B C : Type} (f : A -> B -> C) (x : list (list A))
  (c : list B) (b k : nat) (a : A) (n : B) :
  at2 x b k = Some a -> nth_error c k = Some n ->
  at2 (map (fun xr => zip_with f xr c) x) b k = Some (f a n).
Proof.
  unfold at2. intros Ha Hn. rewrite nth_error_map.
  destruct (nth_error x b) as [xr|]; [|discriminate]. simpl.
  now apply nth_error_zip_with.
Qed.

(** The bounds of a fresh [InfBall] are the box around the input: every
    entry [a] of [X] gets the lower bound [a - epsilon] and the upper bound
    [a + epsilon]. *)
Theorem InfBall_fresh_bounds (X : list vec) (eps : Q) (o : InfBall.t) :
  InfBall.init X eps = Ok o ->
  Forall (fun row => length row = features X) X ->
  exists lo hi,
    InfBall.fval o None None = Ok (Bounds (PyT (T2 lo)) (PyT (T2 hi))) /\
    same_shape X lo /\ same_shape X hi /\
    forall b f a,
      at2 X b f = Some a ->
      exists l h,
        at2 lo b f = Some l /\ at2 hi b f = Some h /\
        l == a - eps /\ h == a + eps.
Proof.
  intros Hinit Hrect. unfold InfBall.init in Hinit.
  destruct X as [|x0 X']; [discriminate|]. injection Hinit as <-.
  set (X := x0 :: X') in *.
  assert (Hf : features X = length x0) by reflexivity.
  assert (Hshape : Forall (fun xr => length xr = features (eye (length x0))) X).
  { rewrite features_eye, <- Hf. exact Hrect. }
  eexists _, _. split; [|split; [|split]].
  - apply InfBall_fval_bounds with (rows := eye (length x0)) (x := X);
      [reflexivity | reflexivity | exact Hshape].
  - apply same_shape_map_zip_with. now rewrite l1_columns_length.
  - apply same_shape_map_zip_with. now rewrite l1_columns_length.
  - intros b f a Ha. cbn [InfBall.epsilon].
    destruct (at2_lt _ _ _ _ Ha) as [_ [row [Hrow Hlt]]].
    assert (Hfn : (f < length x0)%nat).
    { rewrite Forall_forall in Hrect. apply nth_error_In in Hrow.
      rewrite <- Hf, <- (Hrect _ Hrow). exact Hlt. }
    destruct (l1_columns_eye _ _ Hfn) as [q [Hq Hq1]].
    exists (a - eps * q), (a + eps * q). repeat split.
    + now apply (at2_map_zip_with (fun a n => a - eps * n)).
    + now apply (at2_map_zip_with (fun a n => a + eps * n)).
    + rewrite Hq1. ring.
    + rewrite Hq1. ring.
Qed.

Lemma InfBall_fresh_bounds_witness :
  exists o lo hi,
    InfBall.init [[1; 2]; [3; 4]] (1 # 10) = Ok o /\
    InfBall.fval o None None = Ok (Bounds (PyT (T2 lo)) (PyT (T2 hi))) /\
    same_shape [[1; 2]; [3; 4]] lo.
Proof.
  destruct (InfBall.init [[1; 2]; [3; 4]] (1 # 10)) as [o|] eqn:H;
    [|vm_compute in H; discriminate].
  destruct (InfBall_fresh_bounds [[1; 2]; [3; 4]] (1 # 10) o H) as
    [lo [hi [Hf [Hs _]]]].
  - repeat constructor.
  - exists o, lo, hi. repeat split; assumption.
Defined.


(** ** The ball pushed through an affine layer *)

Lemma linear_row_ok (n : nat) (W : list vec) (x : vec) :
  length x = n -> linear_row n W x = Ok (map (dot x) W).
Proof. intros H. unfold linear_row. now rewrite H, Nat.eqb_refl. Qed.

Lemma F_linear_T2 (n : nat) (W : list vec) (X : list vec) :
  Forall (fun x => length x = n) X ->
  F_linear (PyT (T2 X)) n W = Ok (PyT (T2 (map (fun x => map (dot x) W) X))).
Proof.
  intros H. cbn [F_linear].
  rewrite (mapM_pure _ (fun x => map (dot x) W)); [reflexivity|].
  eapply Forall_impl; [|exact H]. intros x Hx. now apply linear_row_ok.
Qed.

Lemma F_linear_T3 (n : nat) (W : list vec) (t : list (list vec)) :
  Forall (Forall (fun x => length x = n)) t ->
  F_linear (PyT (T3 t)) n W =
  Ok (PyT (T3 (map (map (fun x => map (dot x) W)) t))).
Proof.
  intros H. cbn [F_linear].
  rewrite (mapM_pure _ (map (fun x => map (dot x) W))); [reflexivity|].
  eapply Forall_impl; [|exact H]. intros rows Hrows. cbn beta.
  apply mapM_pure. eapply Forall_impl; [|exact Hrows].
  intros x Hx. now apply linear_row_ok.
Qed.

Lemma eye_rows (n : nat) : Forall (fun x => length x = n) (eye n).
Proof.
  unfold eye. apply Forall_forall. intros x Hx.
  apply in_map_iff in Hx as [i [<- _]]. apply one_hot_length.
Qed.

Lemma dot_indicator (i : nat) :
  forall n s (w : vec),
    length w = n ->
    dot (map (fun j => if (j =? i)%nat then 1 else 0) (seq s n)) w ==
    if ((s <=? i) && (i <? s + n))%nat then nth (i - s) w 0 else 0.
Proof.
  induction n as [|n IH]; intros s w Hw.
  - destruct w; [|discriminate]. simpl.
    destruct ((s <=? i) && (i <? s + 0))%nat; [destruct (i - s)%nat|]; reflexivity.
  - destruct w as [|b w]; [discriminate|]. injection Hw as Hw.
    cbn [seq map dot]. rewrite (IH (S s) w Hw).
    destruct (Nat.eqb_spec s i) as [->|Hne].
    + replace (i <=? i)%nat with true by (symmetry; apply Nat.leb_refl).
      replace (i <? i + S n)%nat with true by (symmetry; apply Nat.ltb_lt; lia).
      replace (S i <=? i)%nat with false by (symmetry; apply Nat.leb_gt; lia).
      rewrite Nat.sub_diag. simpl. ring.
    + destruct (Nat.leb_spec s i), (Nat.leb_spec (S s) i),
        (Nat.ltb_spec i (S s + n)), (Nat.ltb_spec i (s + S n));
        cbn [andb]; try lia; try ring.
      replace (i - s)%nat with (S (i - S s)) by lia. simpl. ring.
Qed.

Lemma dot_one_hot (n i : nat) (w : vec) :
  length w = n -> (i < n)%nat -> dot (one_hot n i 1) w == nth i w 0.
Proof.
  intros Hw Hi. unfold one_hot. rewrite (dot_indicator i n 0%nat w Hw).
  replace (0 <=? i)%nat with true by (symmetry; apply Nat.leb_le; lia).
  replace (i <? 0 + n)%nat with true by (symmetry; apply Nat.ltb_lt; lia).
  now rewrite Nat.sub_0_r.
Qed.

Lemma sumQ_map_Qeq {A : Type} (f g : A -> Q) (l : list A) :
  (forall i, In i l -> f i == g i) -> sumQ (map f l) == sumQ (map g l).
Proof.
  induction l as [|a l IH]; intros H; simpl; [reflexivity|].
  rewrite (H a) by (now left). rewrite IH; [reflexivity|].
  intros i Hi. apply H. now right.
Qed.

Lemma sumQ_abs_nonneg (w : vec) : 0 <= sumQ (map Qabs w).
Proof.
  induction w as [|b w IH]; simpl; [apply Qle_refl|].
  pose proof (Qabs_nonneg b). lra.
Qed.

(** The column sums of the identity basis pushed through a weight are the
    1-norms of the rows of the weight. *)
Lemma l1_columns_weight (n : nat) (W : list vec) (k : nat) (w : vec) :
  Forall (fun row => length row = n) W ->
  nth_error W k = Some w ->
  sumQ (map (fun row => Qabs (nth k row 0))
            (map (fun x => map (dot x) W) (eye n))) ==
  sumQ (map Qabs w).
Proof.
  intros HW Hk.
  assert (Hw : length w = n).
  { rewrite Forall_forall in HW. apply HW. eapply nth_error_In; eauto. }
  unfold eye. rewrite !map_map.
  rewrite <- (map_nth_seq_id w) at 1. rewrite map_map, Hw.
  apply sumQ_map_Qeq. intros i Hi. apply in_seq in Hi.
  assert (Hn : nth k (map (dot (one_hot n i 1)) W) 0 = dot (one_hot n i 1) w).
  { apply nth_error_nth. now rewrite nth_error_map, Hk. }
  rewrite Hn. apply Qabs_wd. apply dot_one_hot; [assumption | lia].
Qed.

Lemma dot_ball (eps : Q) :
  0 <= eps ->
  forall x x' : vec,
    Forall2 (fun a a' => Qabs (a' - a) <= eps) x x' ->
    forall w : vec, Qabs (dot x' w - dot x w) <= eps * sumQ (map Qabs w).
Proof.
  intros Heps x x'. induction 1 as [|a a' x x' Ha _ IH]; intros w.
  - simpl. pose proof (sumQ_abs_nonneg w).
    now apply Qmult_le_0_compat.
  - destruct w as [|b w]; cbn [dot map sumQ fold_right].
    + change (Qabs (0 - 0)) with 0.
      setoid_replace (eps * 0) with 0 by ring. apply Qle_refl.
    + setoid_replace (a' * b + dot x' w - (a * b + dot x w))
        with ((a' - a) * b + (dot x' w - dot x w)) by ring.
      eapply Qle_trans; [apply Qabs_triangle|].
      setoid_replace (eps * (Qabs b + sumQ (map Qabs w)))
        with (eps * Qabs b + eps * sumQ (map Qabs w)) by ring.
      apply Qplus_le_compat; [|apply IH].
      rewrite Qabs_Qmult. apply Qmult_le_compat_r; [assumption | apply Qabs_nonneg].
Qed.

(** The bounds after one affine layer are the interval bounds of the layer.
    A fresh [InfBall] that a [DualLinear] operator is applied to returns,
    for the sample [x] and the row [w] of the weight, the bounds
    [x.w - epsilon*|w|_1] and [x.w + epsilon*|w|_1]. *)
Theorem InfBall_linear_bounds (E : torch) (X : list vec) (eps : Q)
  (o : InfBall.t) (lin : DualLinear.t) (in_features out_features : nat)
  (W : list vec) (bias : option vec) :
  InfBall.init X eps = Ok o ->
  DualLinear.layer_ lin = Linear in_features out_features W bias ->
  (0 < in_features)%nat ->
  Forall (fun x => length x = in_features) X ->
  Forall (fun w => length w = in_features) W ->
  exists o' lo hi,
    apply E (OpInfBall o) (OpLinear lin) = Ok (OpInfBall o') /\
    fval (OpInfBall o') None None = Ok (Bounds (PyT (T2 lo)) (PyT (T2 hi))) /\
    forall b k x w,
      nth_error X b = Some x -> nth_error W k = Some w ->
      exists l h,
        at2 lo b k = Some l /\ at2 hi b k = Some h /\
        l == dot x w - eps * sumQ (map Qabs w) /\
        h == dot x w + eps * sumQ (map Qabs w).
Proof.
  intros Hinit Hl Hpos HX HW. unfold InfBall.init in Hinit.
  destruct X as [|x0 X']; [discriminate|]. injection Hinit as <-.
  set (X := x0 :: X') in *.
  assert (Hn : length x0 = in_features) by (now apply Forall_inv in HX).
  set (X1 := map (fun x => map (dot x) W) X).
  set (rows := map (fun x => map (dot x) W) (eye in_features)).
  exists {| InfBall.epsilon := eps;
            InfBall.nu_x := [PyT (T2 X); PyT (T2 X1)];
            InfBall.nu_1 := [PyT (T3 [eye in_features]); PyT (T3 [rows])] |}.
  assert (Hfr : features rows = length W).
  { unfold rows, eye. destruct in_features; [lia|]. unfold features. simpl.
    now rewrite length_map. }
  assert (Hshape : Forall (fun xr => length xr = features rows) X1).
  { unfold X1. apply Forall_forall. intros xr Hxr.
    apply in_map_iff in Hxr as [x [<- _]]. now rewrite length_map, Hfr. }
  eexists _, _. split; [|split].
  - unfold apply, InfBall.apply, as_pushed.
    cbn [pushed_affine affine no_I_ind InfBall.nu_x InfBall.nu_1 InfBall.epsilon].
    unfold DualLinear.affine. rewrite Hl. cbn [py_last rev app bind].
    rewrite (F_linear_T2 in_features W X HX). cbn [bind]. rewrite Hn.
    rewrite (F_linear_T3 in_features W [eye in_features])
      by (constructor; [apply eye_rows | constructor]).
    reflexivity.
  - cbn [fval]. apply InfBall_fval_bounds with (rows := rows) (x := X1);
      [reflexivity | reflexivity | exact Hshape].
  - intros b k x w Hx Hw. cbn [InfBall.epsilon].
    assert (Hk : (k < features rows)%nat).
    { rewrite Hfr. apply nth_error_Some. congruence. }
    pose proof (l1_columns_nth rows k Hk) as Hcol.
    pose proof (l1_columns_weight in_features W k w HW Hw) as Hsum.
    fold rows in Hsum.
    set (q := sumQ (map (fun row => Qabs (nth k row 0)) rows)) in *.
    assert (Hat : at2 X1 b k = Some (dot x w)).
    { unfold at2, X1. now rewrite nth_error_map, Hx; simpl;
        rewrite nth_error_map, Hw. }
    exists (dot x w - eps * q), (dot x w + eps * q).
    split; [now apply (at2_map_zip_with (fun a n => a - eps * n))|].
    split; [now apply (at2_map_zip_with (fun a n => a + eps * n))|].
    split; rewrite Hsum; ring.
Qed.

Lemma InfBall_linear_bounds_witness :
  exists o o' lo hi,
    InfBall.init Example.X Example.epsilon = Ok o /\
    apply Example.E (OpInfBall o)
      (OpLinear {| DualLinear.layer_ := Linear 4 2 [[1; -1; 2; 0]; [0; 1; 1; -1]] None;
                   DualLinear.bias := None |}) = Ok (OpInfBall o') /\
    fval (OpInfBall o') None None = Ok (Bounds (PyT (T2 lo)) (PyT (T2 hi))).
Proof.
  destruct (InfBall.init Example.X Example.epsilon) as [o|] eqn:H;
    [|vm_compute in H; discriminate].
  destruct (InfBall_linear_bounds Example.E Example.X Example.epsilon o
              {| DualLinear.layer_ := Linear 4 2 [[1; -1; 2; 0]; [0; 1; 1; -1]] None;
                 DualLinear.bias := None |}
              4 2 [[1; -1; 2; 0]; [0; 1; 1; -1]] None H)
    as [o' [lo [hi [Ha [Hf _]]]]].
  - reflexivity.
  - lia.
  - repeat constructor.
  - repeat constructor.
  - exists o, o', lo, hi. repeat split; assumption.
Defined.


(** ** The construction of a residual block *)

Lemma rewired_refl (op : operator) : rewired op op.
Proof.
  destruct op; simpl; try reflexivity. split; [reflexivity|]. now exists [].
Qed.

Lemma rewired_trans (a b c : operator) : rewired a b -> rewired b c -> rewired a c.
Proof.
  destruct a, b; simpl; try discriminate; try (intros ->; auto; fail);
    destruct c; simpl; try discriminate; try congruence.
  intros [H1 [f1 H1']] [H2 [f2 H2']]. split; [congruence|].
  exists (f2 ++ f1). now rewrite H2', H1', app_assoc.
Qed.

Lemma Forall2_rewired_refl (net : list operator) : Forall2 rewired net net.
Proof. induction net; constructor; auto using rewired_refl. Qed.

Lemma Forall2_rewired_trans (a b c : list operator) :
  Forall2 rewired a b -> Forall2 rewired b c -> Forall2 rewired a c.
Proof.
  intros H. revert c. induction H; intros c Hc; inversion Hc; subst; constructor;
    eauto using rewired_trans.
Qed.

Lemma rewire_rewired (net net' : list operator) (back : nat) (s : subop)
  (len_Ws i : nat) :
  rewire net back s len_Ws i = Ok net' -> Forall2 rewired net net'.
Proof.
  unfold rewire. destruct (length net <? back)%nat; [discriminate|].
  destruct (nth_error net (length net - back)) as [op|] eqn:Hn; [|discriminate].
  destruct op; try discriminate. intros H. injection H as <-.
  rewrite (nth_error_firstn_skipn _ _ _ Hn) at 1.
  apply Forall2_app; [apply Forall2_rewired_refl|].
  constructor; [|apply Forall2_rewired_refl].
  simpl. split; [reflexivity|].
  now exists (Some (transposed_of s) ::
              repeat None (len_Ws - i - length (DualDense.dual_ts o) - 1)).
Qed.

Lemma DualDense_init_loop_rewired (E : torch) (Ws : list (option layer)) :
  forall len_Ws i n duals net duals' net',
    DualDense_init_loop E Ws len_Ws i n duals net = Ok (duals', net') ->
    Forall2 rewired net net' /\ length duals' = (length duals + length Ws)%nat.
Proof.
  induction Ws as [|W Ws IH]; intros len_Ws i n duals net duals' net' H.
  - simpl in H. injection H as <- <-. split; [apply Forall2_rewired_refl | simpl; lia].
  - cbn [DualDense_init_loop] in H.
    apply bind_Ok in H as [dl [_ H]]. apply bind_Ok in H as [net1 [Hnet1 H]].
    apply IH in H as [Hrw Hlen]. split.
    + eapply Forall2_rewired_trans; [|exact Hrw].
      destruct dl as [s|]; [|injection Hnet1 as <-; apply Forall2_rewired_refl].
      destruct (i <? len_Ws - 1)%nat;
        [eapply rewire_rewired; eauto | injection Hnet1 as <-; apply Forall2_rewired_refl].
    + rewrite Hlen, length_app. simpl. lia.
Qed.

(** [DualDense(dense, dense_t, net, out_features)] leaves the chain [net] as
    it is but for the [dual_ts] lists of its earlier blocks, which grow at
    the front; the new block has one entry for every entry of the layer and a
    [dual_ts] list of one entry, the transposed view of its last entry. *)
Theorem DualDense_init_rewires (E : torch) (dense dense_t : layer)
  (net net' : list operator) (n : nat) (o : DualDense.t) :
  DualDense_init E dense dense_t net n = Ok (o, net') ->
  Forall2 rewired net net' /\
  (exists Ws last,
      dense = Dense Ws /\ Ws <> [] /\
      length (DualDense.duals o) = length Ws /\
      py_last (DualDense.duals o) = Ok last /\
      DualDense.dual_ts o = [option_map transposed_of last]).
Proof.
  unfold DualDense_init. destruct dense; try discriminate. intros H.
  apply bind_Ok in H as [[duals net1] [Hloop H]].
  apply bind_Ok in H as [last [Hlast H]]. injection H as <- <-.
  apply DualDense_init_loop_rewired in Hloop as [Hrw Hlen]. simpl in Hlen.
  split; [exact Hrw|]. exists Ws, last. cbn [DualDense.duals DualDense.dual_ts].
  repeat split; auto.
  intros ->. destruct duals; [discriminate | discriminate].
Qed.

Lemma DualDense_init_rewires_witness :
  exists o net',
    DualDense_init Example.E
      (Dense [Some (Sequential []); None; Some (Linear 1 1 [[2]] None)]) (Dense [])
      [OpSequential;
       OpDense {| DualDense.duals := [Some SubSequential];
                  DualDense.dual_ts := [Some TrSequential] |};
       OpSequential] 1 = Ok (o, net') /\
    Forall2 rewired
      [OpSequential;
       OpDense {| DualDense.duals := [Some SubSequential];
                  DualDense.dual_ts := [Some TrSequential] |};
       OpSequential] net'.
Proof.
  destruct (DualDense_init Example.E
      (Dense [Some (Sequential []); None; Some (Linear 1 1 [[2]] None)]) (Dense [])
      [OpSequential;
       OpDense {| DualDense.duals := [Some SubSequential];
                  DualDense.dual_ts := [Some TrSequential] |};
       OpSequential] 1) as [[o net']|] eqn:H;
    [|vm_compute in H; discriminate].
  exists o, net'. split; [reflexivity|].
  exact (proj1 (DualDense_init_rewires _ _ _ _ _ _ _ H)).
Defined.


(** ** The construction loop *)

Section InitLoop.

Variable E : torch.
Variable kw : DualNetBounds.kwargs.
Variable zs : list (list vec).
Variable dense_t : option (list layer).
Variable len_net : nat.

(** An invariant of the loop, on the index, the layers still to come, the
    chain, the last layer and the process state. *)
Variable Inv :
  nat -> list (nat * nat * layer) -> list operator -> option operator -> world -> Prop.

Hypothesis step_inner :
  forall i in_f out_f layer todo dn ll w dl dn1 w1 dn2,
    Inv i ((in_f, out_f, layer) :: todo) dn ll w ->
    DualNetBounds.make_dual_layer E kw zs dense_t i in_f out_f layer dn w =
      Ok (dl, dn1, w1) ->
    (i <? len_net - 1)%nat = true ->
    mapM (fun l => apply E l dl) dn1 = Ok dn2 ->
    Inv (S i) todo (dn2 ++ [dl]) ll w1.

Hypothesis step_last :
  forall i in_f out_f layer todo dn ll w dl dn1 w1,
    Inv i ((in_f, out_f, layer) :: todo) dn ll w ->
    DualNetBounds.make_dual_layer E kw zs dense_t i in_f out_f layer dn w =
      Ok (dl, dn1, w1) ->
    (i <? len_net - 1)%nat = false ->
    Inv (S i) todo dn1 (Some dl) w1.

Lemma init_loop_inv (todo : list (nat * nat * layer)) :
  forall i dn ll w self w',
    Inv i todo dn ll w ->
    DualNetBounds.init_loop E kw zs dense_t len_net i todo dn ll w = Ok (self, w') ->
    exists i', Inv i' [] (DualNetBounds.dual_net self)
                 (DualNetBounds.last_layer self) w'.
Proof.
  induction todo as [|[[in_f out_f] layer] todo IH]; simpl;
    intros i dn ll w self w' HI H.
  - injection H as <- <-. simpl. now exists i.
  - inv_bind H. destruct a as [[dl dn1] w1].
    destruct (i <? len_net - 1)%nat eqn:Hi.
    + inv_bind H. eapply IH; [|exact H]. eapply step_inner; eauto.
    + eapply IH; [|exact H]. eapply step_last; eauto.
Qed.

End InitLoop.

Lemma init_todo_length (E : torch) (net : list layer) (X : list vec)
  (zs : list (list vec)) :
  DualNetBounds.forward_pass E net [X] = Ok zs ->
  length (combine (combine (removelast (map features zs)) (tl (map features zs))) net)
  = length net /\
  map snd (combine (combine (removelast (map features zs)) (tl (map features zs))) net)
  = net.
Proof.
  intros H. apply forward_pass_length in H. simpl in H.
  assert (H1 : length (removelast (map features zs)) = length net)
    by (rewrite removelast_length, length_map; lia).
  assert (H2 : length (tl (map features zs)) = length net)
    by (rewrite tl_length, length_map; lia).
  split.
  - rewrite !length_combine. lia.
  - apply combine_map_snd. rewrite length_combine. lia.
Qed.

Lemma Forall2_transport {A B : Type} (P : A -> B -> Prop) (S : B -> B -> Prop)
  (xs : list A) (ys ys' : list B) :
  (forall x y y', S y y' -> P x y -> P x y') ->
  Forall2 P xs ys -> Forall2 S ys ys' -> Forall2 P xs ys'.
Proof.
  intros HS H. revert ys'. induction H; intros ys' H'; inversion H'; subst;
    constructor; eauto.
Qed.

Lemma rewired_dual_of (l : layer) (op op' : operator) :
  rewired op op' -> dual_of l op -> dual_of l op'.
Proof.
  destruct op; simpl; try (intros ->; auto; fail).
  destruct op'; try discriminate. intros [Hd _].
  destruct l; simpl; auto. congruence.
Qed.

Lemma apply_dual_of (E : torch) (l : layer) (op dl op' : operator) :
  apply E op dl = Ok op' -> dual_of l op -> dual_of l op'.
Proof.
  intros H. destruct op; cbn [apply] in H; try (inv_bind H); injection H as <-;
    destruct l; simpl; auto.
  - unfold DualLinear.apply in Ha. destruct (DualLinear.bias o).
    + inv_bind Ha. now injection Ha as <-.
    + now injection Ha as <-.
  - unfold DualLinear.apply in Ha. destruct (DualLinear.bias o).
    + inv_bind Ha. now injection Ha as <-.
    + now injection Ha as <-.
  - unfold DualDense.apply in Ha. inv_bind Ha. injection Ha as <-. simpl.
    apply mapM_length in Ha0. congruence.
Qed.

Lemma DualLinear_init_layer (E : torch) (l : layer) (n : nat) (o : DualLinear.t) :
  DualLinear.init E l n = Ok o \/ DualConv2d.init E l n = Ok o ->
  DualLinear.layer_ o = l.
Proof.
  unfold DualLinear.init, DualConv2d.init.
  intros [H|H]; destruct l; try discriminate;
    (destruct bias; [inv_bind H|]; now injection H as <-).
Qed.

Lemma relu_dual_layer_class (E : torch) (kw : DualNetBounds.kwargs)
  (dn : list operator) (w w1 : world) (op : operator) :
  DualNetBounds.relu_dual_layer E kw dn w = Ok (op, w1) ->
  isinstance_DualReLU op = true.
Proof.
  unfold DualNetBounds.relu_dual_layer. intros H. repeat inv_bind H.
  destruct (DualNetBounds.l1_proj kw).
  - destruct (_ && _)%bool.
    + inv_bind H. destruct a6. now injection H as <- _.
    + inv_bind H. now injection H as <- _.
  - inv_bind H. now injection H as <- _.
Qed.

Lemma make_dual_layer_dual_of (E : torch) (kw : DualNetBounds.kwargs)
  (zs : list (list vec)) (dense_t : option (list layer))
  (i in_f out_f : nat) (layer : layer) (dn dn1 : list operator)
  (w w1 : world) (dl : operator) :
  DualNetBounds.make_dual_layer E kw zs dense_t i in_f out_f layer dn w =
    Ok (dl, dn1, w1) ->
  dual_of layer dl /\ Forall2 rewired dn dn1.
Proof.
  intros H. unfold DualNetBounds.make_dual_layer in H. destruct layer.
  - inv_bind H. injection H as <- <- <-. split; [|apply Forall2_rewired_refl].
    simpl. apply (DualLinear_init_layer E _ out_f). now left.
  - inv_bind H. injection H as <- <- <-. split; [|apply Forall2_rewired_refl].
    simpl. apply (DualLinear_init_layer E _ out_f). now right.
  - inv_bind H. destruct a as [o w']. injection H as <- <- <-.
    split; [|apply Forall2_rewired_refl].
    apply relu_dual_layer_class in Ha. destruct o; try discriminate; exact I.
  - destruct (is_Flatten _) eqn:Hf; [discriminate Hf | discriminate].
  - destruct (is_Flatten _) eqn:Hf; [discriminate Hf|].
    destruct dense_t as [ts|]; [|discriminate].
    destruct (nth_error ts i) as [lt|]; [|discriminate].
    destruct (is_Dense lt); [|discriminate].
    inv_bind H. destruct a as [o net']. injection H as <- <- <-.
    unfold DualDense_init in Ha. inv_bind Ha. destruct a as [duals net''].
    inv_bind Ha. injection Ha as <- <-.
    apply DualDense_init_loop_rewired in Ha0 as [Hrw Hlen]. split; [|exact Hrw].
    simpl. exact Hlen.
  - destruct (is_Flatten _) eqn:Hf; [discriminate Hf|].
    destruct (nth_error zs i); [|discriminate].
    inv_bind H. injection H as <- <- <-. split; [exact I | apply Forall2_rewired_refl].
  - destruct (is_Flatten _) eqn:Hf; [|discriminate].
    injection H as <- <- <-. split; [exact Hf | apply Forall2_rewired_refl].
Qed.

(** The invariant of the construction loop behind the shape of the chain:
    the chain is an [InfBall] followed by the operators of the layers seen
    so far. *)
Lemma init_loop_mirror (E : torch) (kw : DualNetBounds.kwargs)
  (zs : list (list vec)) (dense_t : option (list layer)) (net : list layer)
  (todo : list (nat * nat * layer)) (b : InfBall.t) (w w' : world)
  (self : DualNetBounds.t) :
  map snd todo = net ->
  DualNetBounds.init_loop E kw zs dense_t (length net) 0 todo [OpInfBall b] None w =
    Ok (self, w') ->
  exists b' ops,
    DualNetBounds.dual_net self = OpInfBall b' :: ops /\
    match DualNetBounds.last_layer self with
    | Some lastop => Forall2 dual_of net (ops ++ [lastop])
    | None => net = [] /\ ops = []
    end.
Proof.
  intros Hnet H.
  pose (Inv := fun (i : nat) (todo : list (nat * nat * layer))
                   (dn : list operator) (ll : option operator) (_ : world) =>
    (i + length todo = length net)%nat /\
    exists b' ops done,
      dn = OpInfBall b' :: ops /\ net = done ++ map snd todo /\
      match ll with
      | Some l => Forall2 dual_of done (ops ++ [l]) /\ todo = []
      | None => Forall2 dual_of done ops /\ (todo = [] -> done = [])
      end).
  destruct (init_loop_inv E kw zs dense_t (length net) Inv) with
    (todo := todo) (i := 0%nat) (dn := [OpInfBall b]) (ll := @None operator)
    (w := w) (self := self) (w' := w') as [i' HI]; [| | |exact H|].
  - (* inner turn *)
    intros i in_f out_f layer td dn ll w0 dl dn1 w1 dn2
      (Hlen & b0 & ops & done & -> & Hn & Hll) Hmk Hi Hap.
    apply Nat.ltb_lt in Hi. simpl in Hlen.
    destruct ll as [l|]; [destruct Hll as [_ Hll]; discriminate|].
    destruct Hll as [Hdone _].
    apply make_dual_layer_dual_of in Hmk as [Hdl Hrw].
    inversion Hrw as [|? op1 ? ops1 Hhd Hrw']; subst. simpl in Hhd. subst op1.
    apply mapM_Forall2 in Hap.
    inversion Hap as [|? op2 ? ops2 Hhd2 Hap']; subst.
    cbn [apply] in Hhd2. inv_bind Hhd2. injection Hhd2 as <-.
    split; [lia|]. exists a, (ops2 ++ [dl]), (done ++ [layer]).
    split; [reflexivity|]. split; [now rewrite <- app_assoc|].
    split; [|intros ->; simpl in Hlen; lia].
    apply Forall2_app; [|constructor; [exact Hdl | constructor]].
    eapply Forall2_transport; [|eapply Forall2_transport; [|exact Hdone|exact Hrw']|exact Hap'].
    + intros x y y' Hy Hx. exact (apply_dual_of E x y dl y' Hy Hx).
    + intros x y y'. apply rewired_dual_of.
  - (* last turn *)
    intros i in_f out_f layer td dn ll w0 dl dn1 w1
      (Hlen & b0 & ops & done & -> & Hn & Hll) Hmk Hi.
    apply Nat.ltb_ge in Hi. simpl in Hlen.
    destruct ll as [l|]; [destruct Hll as [_ Hll]; discriminate|].
    destruct Hll as [Hdone _].
    apply make_dual_layer_dual_of in Hmk as [Hdl Hrw].
    inversion Hrw as [|? op1 ? ops1 Hhd Hrw']; subst. simpl in Hhd. subst op1.
    split; [lia|]. exists b0, ops1, (done ++ [layer]).
    split; [reflexivity|]. split; [now rewrite <- app_assoc|].
    split; [|destruct td; [reflexivity | simpl in Hlen; lia]].
    apply Forall2_app; [|constructor; [exact Hdl | constructor]].
    eapply Forall2_transport; [|exact Hdone|exact Hrw'].
    intros x y y'. apply rewired_dual_of.
  - (* start *)
    split; [rewrite <- Hnet, length_map; reflexivity|].
    exists b, [], []. repeat split; auto.
  - destruct HI as (_ & b' & ops & done & Hdn & Hn & Hll).
    exists b', ops. split; [exact Hdn|]. simpl in Hn. rewrite app_nil_r in Hn.
    destruct (DualNetBounds.last_layer self).
    + destruct Hll as [Hll _]. now rewrite Hn.
    + destruct Hll as [Hll Hd]. specialize (Hd eq_refl). rewrite Hd in Hn, Hll.
      inversion Hll. now split.
Qed.

(** The chain mirrors the network.  After a successful construction on a
    non-empty network the chain is an [InfBall] followed by one operator for
    every layer but the last, the last layer has its operator in
    [last_layer], and every operator is of the class of its layer. *)
Theorem chain_mirrors_network (E : torch) (net : list layer) (X : list vec)
  (eps : Q) (kw : DualNetBounds.kwargs) (w w' : world) (self : DualNetBounds.t) :
  net <> [] ->
  DualNetBounds.init E net X eps kw w = Ok (self, w') ->
  exists ball ops lastop,
    DualNetBounds.dual_net self = OpInfBall ball :: ops /\
    DualNetBounds.last_layer self = Some lastop /\
    Forall2 dual_of net (ops ++ [lastop]) /\
    length (DualNetBounds.dual_net self) = length net.
Proof.
  intros Hne H. unfold DualNetBounds.init in H.
  inv_bind H. inv_bind H. inv_bind H.
  destruct (init_todo_length E net X a Ha) as [_ Hsnd].
  destruct (init_loop_mirror _ _ _ _ net _ _ _ _ _ Hsnd H) as (b' & ops & Hdn & Hll).
  destruct (DualNetBounds.last_layer self) as [lastop|].
  - exists b', ops, lastop. repeat split; auto.
    rewrite Hdn. apply Forall2_length_eq in Hll.
    rewrite length_app in Hll. simpl in *. lia.
  - destruct Hll as [Hnil _]. contradiction.
Qed.

Lemma chain_mirrors_network_witness :
  exists self w' ball ops lastop,
    DualNetBounds.init Example.E Example.net Example.X Example.epsilon
      Example.kw Example.w0 = Ok (self, w') /\
    DualNetBounds.dual_net self = OpInfBall ball :: ops /\
    DualNetBounds.last_layer self = Some lastop /\
    Forall2 dual_of Example.net (ops ++ [lastop]).
Proof.
  destruct (DualNetBounds.init Example.E Example.net Example.X Example.epsilon
              Example.kw Example.w0) as [[self w']|] eqn:H;
    [|vm_compute in H; discriminate].
  destruct (chain_mirrors_network Example.E Example.net Example.X Example.epsilon
              Example.kw Example.w0 w' self) as (ball & ops & lastop & H1 & H2 & H3 & _).
  - discriminate.
  - exact H.
  - exists self, w', ball, ops, lastop. repeat split; assumption.
Defined.

(** The empty network.  The construction succeeds with a chain of the
    [InfBall] alone and never sets [last_layer], so that every evaluation of
    the bound raises an [AttributeError]. *)
Theorem empty_network_has_no_bound (E : torch) (X : list vec) (eps : Q)
  (kw : DualNetBounds.kwargs) (w w' : world) (self : DualNetBounds.t) :
  DualNetBounds.init E [] X eps kw w = Ok (self, w') ->
  w' = w /\
  (exists ball, DualNetBounds.dual_net self = [OpInfBall ball]) /\
  DualNetBounds.last_layer self = None /\
  forall c,
    DualNetBounds.g E self c =
    Raise (AttributeError "'DualNetBounds' object has no attribute 'last_layer'").
Proof.
  unfold DualNetBounds.init. cbn [DualNetBounds.forward_pass bind existsb].
  intros H. inv_bind H. cbn in H. injection H as <- <-.
  split; [reflexivity|]. split; [now exists a|]. split; [reflexivity|].
  intros c. reflexivity.
Qed.

Lemma empty_network_has_no_bound_witness :
  exists self w',
    DualNetBounds.init Example.E [] Example.X Example.epsilon Example.kw Example.w0
      = Ok (self, w') /\
    DualNetBounds.g Example.E self Example.c =
    Raise (AttributeError "'DualNetBounds' object has no attribute 'last_layer'").
Proof.
  destruct (DualNetBounds.init Example.E [] Example.X Example.epsilon Example.kw
              Example.w0) as [[self w']|] eqn:H;
    [|vm_compute in H; discriminate].
  exists self, w'. split; [reflexivity|].
  exact (proj2 (proj2 (proj2 (empty_network_has_no_bound _ _ _ _ _ _ _ H))) Example.c).
Defined.


(** ** Samples and warnings during the construction *)

Lemma apply_is_ReLUProj (E : torch) (l dl l' : operator) :
  apply E l dl = Ok l' -> is_ReLUProj l' = is_ReLUProj l.
Proof.
  intros H. destruct l; cbn [apply] in H; try (inv_bind H);
    now injection H as <-.
Qed.

Lemma rewired_is_ReLUProj (op op' : operator) :
  rewired op op' -> is_ReLUProj op' = is_ReLUProj op.
Proof.
  destruct op; simpl; try (now intros ->). destruct op'; try discriminate.
  reflexivity.
Qed.

Lemma relu_dual_layer_exact (E : torch) (kw : DualNetBounds.kwargs)
  (dn : list operator) (w w1 : world) (op : operator) :
  DualNetBounds.l1_proj kw = None \/ DualNetBounds.l1_type kw <> "median"%string ->
  DualNetBounds.relu_dual_layer E kw dn w = Ok (op, w1) ->
  w1 = w /\ is_ReLUProj op = false.
Proof.
  intros Hkw H. unfold DualNetBounds.relu_dual_layer in H. repeat inv_bind H.
  destruct (DualNetBounds.l1_proj kw) as [k|].
  - destruct Hkw as [Hkw|Hkw]; [discriminate|].
    apply String.eqb_neq in Hkw. rewrite Hkw in H. cbn [andb] in H.
    inv_bind H. now injection H as <- <-.
  - inv_bind H. now injection H as <- <-.
Qed.

Lemma relu_dual_layer_warnings (E : torch) (kw : DualNetBounds.kwargs)
  (dn : list operator) (w w1 : world) (op : operator) :
  (forall k, DualNetBounds.l1_proj kw = Some k -> (0 <= k)%Z) ->
  DualNetBounds.relu_dual_layer E kw dn w = Ok (op, w1) ->
  warnings w1 = warnings w.
Proof.
  intros Hkw H. unfold DualNetBounds.relu_dual_layer in H. repeat inv_bind H.
  destruct (DualNetBounds.l1_proj kw) as [k|].
  - specialize (Hkw k eq_refl).
    destruct (_ && _)%bool eqn:Hc.
    + apply andb_prop in Hc as [_ Hc]. apply Z.ltb_lt in Hc.
      inv_bind H. destruct a6 as [o w2]. injection H as _ <-.
      unfold DualReLUProj.init in Ha6.
      destruct (mask_sum (fst a5) =? 0)%nat eqn:Hs.
      { apply Nat.eqb_eq in Hs. rewrite Hs in Hc. simpl in Hc. lia. }
      destruct (k <? 0)%Z; [discriminate|].
      destruct (negb _); [discriminate|].
      destruct (fill_batches _ _ _ _) as [nu p].
      repeat inv_bind Ha6. now injection Ha6 as _ <-.
    + inv_bind H. now injection H as _ <-.
  - inv_bind H. now injection H as _ <-.
Qed.

Lemma make_dual_layer_world (E : torch) (kw : DualNetBounds.kwargs)
  (zs : list (list vec)) (dense_t : option (list layer))
  (i in_f out_f : nat) (layer : layer) (dn dn1 : list operator)
  (w w1 : world) (dl : operator) :
  DualNetBounds.make_dual_layer E kw zs dense_t i in_f out_f layer dn w =
    Ok (dl, dn1, w1) ->
  (exists w2, DualNetBounds.relu_dual_layer E kw dn w = Ok (dl, w2) /\ w1 = w2) \/
  (w1 = w /\ is_ReLUProj dl = false).
Proof.
  intros H. unfold DualNetBounds.make_dual_layer in H. destruct layer.
  - inv_bind H. injection H as <- <- <-. now right.
  - inv_bind H. injection H as <- <- <-. now right.
  - inv_bind H. destruct a as [o w2]. injection H as <- <- <-. left. now exists w2.
  - destruct (is_Flatten _); [|discriminate]. injection H as <- <- <-. now right.
  - destruct (is_Flatten _); [injection H as <- <- <-; now right|].
    destruct dense_t as [ts|]; [|discriminate].
    destruct (nth_error ts i) as [lt|]; [|discriminate].
    destruct (is_Dense lt); [|discriminate].
    inv_bind H. destruct a as [o net']. injection H as <- <- <-. now right.
  - destruct (is_Flatten _); [injection H as <- <- <-; now right|].
    destruct (nth_error zs i); [|discriminate].
    inv_bind H. injection H as <- <- <-. now right.
  - destruct (is_Flatten _); [|discriminate]. injection H as <- <- <-. now right.
Qed.

Lemma Forall_rewired_is_ReLUProj (dn dn1 : list operator) :
  Forall (fun op => is_ReLUProj op = false) dn ->
  Forall2 rewired dn dn1 ->
  Forall (fun op => is_ReLUProj op = false) dn1.
Proof.
  intros H Hrw. induction Hrw as [|a b dn dn1 Hab _ IH]; constructor.
  - apply rewired_is_ReLUProj in Hab. apply Forall_inv in H. congruence.
  - apply IH. now apply Forall_inv_tail in H.
Qed.

Lemma Forall_apply_is_ReLUProj (E : torch) (dl : operator)
  (dn1 dn2 : list operator) :
  Forall (fun op => is_ReLUProj op = false) dn1 ->
  Forall2 (fun a b => apply E a dl = Ok b) dn1 dn2 ->
  Forall (fun op => is_ReLUProj op = false) dn2.
Proof.
  intros H1 Hap. induction Hap as [|a b dn1 dn2 Hab _ IH]; constructor.
  - apply apply_is_ReLUProj in Hab. apply Forall_inv in H1. congruence.
  - apply IH. now apply Forall_inv_tail in H1.
Qed.

(** The exact construction is silent.  Without [l1_proj], or with an
    [l1_type] other than ["median"], a successful construction draws no
    sample, emits no warning, and puts no randomized ReLU operator in the
    chain or in [last_layer]. *)
Theorem exact_construction_is_silent (E : torch) (net : list layer)
  (X : list vec) (eps : Q) (kw : DualNetBounds.kwargs) (w w' : world)
  (self : DualNetBounds.t) :
  DualNetBounds.l1_proj kw = None \/ DualNetBounds.l1_type kw <> "median"%string ->
  DualNetBounds.init E net X eps kw w = Ok (self, w') ->
  w' = w /\
  Forall (fun op => is_ReLUProj op = false) (DualNetBounds.dual_net self) /\
  (forall l, DualNetBounds.last_layer self = Some l -> is_ReLUProj l = false).
Proof.
  intros Hkw H. unfold DualNetBounds.init in H.
  inv_bind H. inv_bind H. inv_bind H.
  pose (Inv := fun (_ : nat) (_ : list (nat * nat * layer))
                   (dn : list operator) (ll : option operator) (w1 : world) =>
    w1 = w /\ Forall (fun op => is_ReLUProj op = false) dn /\
    (forall l, ll = Some l -> is_ReLUProj l = false)).
  assert (Hmk : forall zs dense_t i in_f out_f layer dn w0 dl dn1 w1,
             DualNetBounds.make_dual_layer E kw zs dense_t i in_f out_f layer dn w0 =
               Ok (dl, dn1, w1) -> w1 = w0 /\ is_ReLUProj dl = false).
  { intros zs dense_t i in_f out_f layer dn w0 dl dn1 w1 Hm.
    apply make_dual_layer_world in Hm as [[w2 [Hr ->]]|Hm]; [|exact Hm].
    eapply relu_dual_layer_exact; eauto. }
  destruct (init_loop_inv E kw a a1 (length net) Inv) with (4 := H) as [i' HI].
  - intros i in_f out_f layer td dn ll w0 dl dn1 w1 dn2 (-> & Hall & Hll) Hm Hi Hap.
    pose proof Hm as Hm'. apply Hmk in Hm' as [-> Hdl].
    apply make_dual_layer_dual_of in Hm as [_ Hrw]. apply mapM_Forall2 in Hap.
    pose proof (Forall_rewired_is_ReLUProj dn dn1 Hall Hrw) as H1.
    pose proof (Forall_apply_is_ReLUProj E dl dn1 dn2 H1 Hap) as H2.
    split; [reflexivity|]. split; [|exact Hll].
    apply Forall_app. split; [exact H2|]. now constructor.
  - intros i in_f out_f layer td dn ll w0 dl dn1 w1 (-> & Hall & Hll) Hm Hi.
    pose proof Hm as Hm'. apply Hmk in Hm' as [-> Hdl].
    apply make_dual_layer_dual_of in Hm as [_ Hrw].
    pose proof (Forall_rewired_is_ReLUProj dn dn1 Hall Hrw) as H1.
    split; [reflexivity|]. split; [exact H1|].
    intros l Hl. now injection Hl as <-.
  - split; [reflexivity|]. split; [repeat constructor | discriminate].
  - exact HI.
Qed.

Lemma exact_construction_is_silent_witness :
  exists self w',
    DualNetBounds.init Example.E Example.net Example.X Example.epsilon
      Example.kw Example.w0 = Ok (self, w') /\
    w' = Example.w0 /\
    Forall (fun op => is_ReLUProj op = false) (DualNetBounds.dual_net self).
Proof.
  destruct (DualNetBounds.init Example.E Example.net Example.X Example.epsilon
              Example.kw Example.w0) as [[self w']|] eqn:H;
    [|vm_compute in H; discriminate].
  destruct (exact_construction_is_silent Example.E Example.net Example.X
              Example.epsilon Example.kw Example.w0 w' self) as (H1 & H2 & _).
  - left. reflexivity.
  - exact H.
  - exists self, w'. repeat split; assumption.
Defined.

(** The warning of the randomized ReLU operator is out of reach of the
    construction loop: the loop builds that operator only when the number of
    unstable activations exceeds [l1_proj], so with [l1_proj] at least zero
    a successful construction emits no warning. *)
Theorem construction_never_warns (E : torch) (net : list layer)
  (X : list vec) (eps : Q) (kw : DualNetBounds.kwargs) (w w' : world)
  (self : DualNetBounds.t) :
  (forall k, DualNetBounds.l1_proj kw = Some k -> (0 <= k)%Z) ->
  DualNetBounds.init E net X eps kw w = Ok (self, w') ->
  warnings w' = warnings w.
Proof.
  intros Hkw H. unfold DualNetBounds.init in H.
  inv_bind H. inv_bind H. inv_bind H.
  pose (Inv := fun (_ : nat) (_ : list (nat * nat * layer))
                   (_ : list operator) (_ : option operator) (w1 : world) =>
    warnings w1 = warnings w).
  assert (Hmk : forall zs dense_t i in_f out_f layer dn w0 dl dn1 w1,
             DualNetBounds.make_dual_layer E kw zs dense_t i in_f out_f layer dn w0 =
               Ok (dl, dn1, w1) -> warnings w1 = warnings w0).
  { intros zs dense_t i in_f out_f layer dn w0 dl dn1 w1 Hm.
    apply make_dual_layer_world in Hm as [[w2 [Hr ->]]|[-> _]]; [|reflexivity].
    eapply relu_dual_layer_warnings; eauto. }
  destruct (init_loop_inv E kw a a1 (length net) Inv) with (4 := H) as [i' HI].
  - intros i in_f out_f layer td dn ll w0 dl dn1 w1 dn2 HI Hm _ _.
    unfold Inv in *. apply Hmk in Hm. congruence.
  - intros i in_f out_f layer td dn ll w0 dl dn1 w1 HI Hm _.
    unfold Inv in *. apply Hmk in Hm. congruence.
  - reflexivity.
  - exact HI.
Qed.

Lemma construction_never_warns_witness :
  exists self w',
    DualNetBounds.init Example.E Example.net Example.X Example.epsilon
      {| DualNetBounds.alpha_grad := false; DualNetBounds.scatter_grad := false;
         DualNetBounds.l1_proj := Some 0%Z; DualNetBounds.l1_eps := None;
         DualNetBounds.m := None; DualNetBounds.batchnorm := false;
         DualNetBounds.l1_type := "median" |} Example.w0 = Ok (self, w') /\
    warnings w' = warnings Example.w0.
Proof.
  destruct (DualNetBounds.init Example.E Example.net Example.X Example.epsilon
      {| DualNetBounds.alpha_grad := false; DualNetBounds.scatter_grad := false;
         DualNetBounds.l1_proj := Some 0%Z; DualNetBounds.l1_eps := None;
         DualNetBounds.m := None; DualNetBounds.batchnorm := false;
         DualNetBounds.l1_type := "median" |} Example.w0) as [[self w']|] eqn:H;
    [|vm_compute in H; discriminate].
  exists self, w'. split; [reflexivity|].
  apply (construction_never_warns _ _ _ _ _ _ _ _) with (2 := H).
  intros k Hk. simpl in Hk. injection Hk as <-. lia.
Defined.


(** ** History lengths inside a chain *)

Lemma make_dual_layer_constructed (E : torch) (kw : DualNetBounds.kwargs)
  (zs : list (list vec)) (dense_t : option (list layer))
  (i in_f out_f : nat) (layer : layer) (dn dn1 : list operator)
  (w w1 : world) (dl : operator) :
  DualNetBounds.make_dual_layer E kw zs dense_t i in_f out_f layer dn w =
    Ok (dl, dn1, w1) ->
  constructed E dl.
Proof.
  intros H. unfold DualNetBounds.make_dual_layer in H. destruct layer.
  - inv_bind H. injection H as <- _ _. eapply constructed_DualLinear; eauto.
  - inv_bind H. injection H as <- _ _. eapply constructed_DualConv2d; eauto.
  - inv_bind H. destruct a as [o w']. injection H as <- _ _.
    unfold DualNetBounds.relu_dual_layer in Ha. repeat inv_bind Ha.
    destruct (DualNetBounds.l1_proj kw).
    + destruct (_ && _)%bool.
      * inv_bind Ha. destruct a6. injection Ha as <- _.
        eapply constructed_DualReLUProj; eauto.
      * inv_bind Ha. injection Ha as <- _. eapply constructed_DualReLU; eauto.
    + inv_bind Ha. injection Ha as <- _. eapply constructed_DualReLU; eauto.
  - destruct (is_Flatten _); [|discriminate].
    injection H as <- _ _. apply constructed_DualReshape.
  - destruct (is_Flatten _); [injection H as <- _ _; apply constructed_DualReshape|].
    destruct dense_t as [ts|]; [|discriminate].
    destruct (nth_error ts i) as [lt|]; [|discriminate].
    destruct (is_Dense lt); [|discriminate].
    inv_bind H. destruct a as [o net']. injection H as <- _ _.
    eapply constructed_DualDense; eauto.
  - destruct (is_Flatten _); [injection H as <- _ _; apply constructed_DualReshape|].
    destruct (nth_error zs i); [|discriminate].
    inv_bind H. injection H as <- _ _. eapply constructed_DualBatchNorm2d; eauto.
  - destruct (is_Flatten _); [|discriminate].
    injection H as <- _ _. apply constructed_DualReshape.
Qed.

Lemma rewired_histories (op op' : operator) :
  rewired op op' -> histories op' = histories op.
Proof.
  destruct op; simpl; try (now intros ->). destruct op'; try discriminate.
  intros [Hd _]. simpl. now rewrite Hd.
Qed.

Lemma apply_aged (E : torch) (n : nat) (op dl op' : operator) :
  apply E op dl = Ok op' -> aged n op -> aged (S n) op'.
Proof.
  intros H. apply apply_histories in H. unfold aged.
  induction H as [|h h' hs hs' Hh _ IH]; intros Ha; constructor.
  - apply Forall_inv in Ha. congruence.
  - apply IH. now apply Forall_inv_tail in Ha.
Qed.

Lemma Forall2_nth_error_r {A B : Type} (R : A -> B -> Prop) (a : list A)
  (b : list B) (r : nat) (y : B) :
  Forall2 R a b -> nth_error b r = Some y ->
  exists x, nth_error a r = Some x /\ R x y.
Proof.
  intros H. revert r. induction H as [|x0 y0 a b Hxy _ IH]; intros [|r] Hr;
    simpl in *; try discriminate.
  - injection Hr as <-. eauto.
  - eauto.
Qed.

(** Inside a chain that [DualNetBounds] has built, every history list of
    the operator at index [j] has [len(dual_net) - j] entries: one for its
    construction and one for every operator appended after it.  The
    histories of [last_layer] have their one initial entry. *)
Theorem chain_history_lengths (E : torch) (net : list layer) (X : list vec)
  (eps : Q) (kw : DualNetBounds.kwargs) (w w' : world) (self : DualNetBounds.t) :
  DualNetBounds.init E net X eps kw w = Ok (self, w') ->
  (forall j op,
      nth_error (DualNetBounds.dual_net self) j = Some op ->
      aged (length (DualNetBounds.dual_net self) - j) op) /\
  (forall l, DualNetBounds.last_layer self = Some l -> aged 1 l).
Proof.
  intros H. unfold DualNetBounds.init in H.
  inv_bind H. inv_bind H. inv_bind H.
  pose (Inv := fun (_ : nat) (_ : list (nat * nat * layer))
                   (dn : list operator) (ll : option operator) (_ : world) =>
    (forall j op, nth_error dn j = Some op -> aged (length dn - j) op) /\
    (forall l, ll = Some l -> aged 1 l)).
  destruct (init_loop_inv E kw a a1 (length net) Inv) with (4 := H) as [i' HI].
  - intros i in_f out_f layer td dn ll w0 dl dn1 w1 dn2 [Hdn Hll] Hm _ Hap.
    pose proof (make_dual_layer_constructed _ _ _ _ _ _ _ _ _ _ _ _ _ Hm) as Hc.
    apply constructed_fresh in Hc.
    apply make_dual_layer_dual_of in Hm as [_ Hrw]. apply mapM_Forall2 in Hap.
    pose proof (Forall2_length_eq _ _ _ Hrw) as Hl1.
    pose proof (Forall2_length_eq _ _ _ Hap) as Hl2.
    split; [|exact Hll]. intros j op Hj. rewrite length_app. simpl.
    destruct (Nat.lt_ge_cases j (length dn2)) as [Hlt|Hge].
    + rewrite nth_error_app1 in Hj by assumption.
      destruct (Forall2_nth_error_r _ _ _ _ _ Hap Hj) as [op1 [Hj1 Hop1]].
      destruct (Forall2_nth_error_r _ _ _ _ _ Hrw Hj1) as [op0 [Hj0 Hop0]].
      apply Hdn in Hj0. unfold aged in Hj0.
      rewrite <- (rewired_histories _ _ Hop0) in Hj0.
      replace (length dn2 + 1 - j)%nat with (S (length dn - j)) by lia.
      exact (apply_aged E _ _ _ _ Hop1 Hj0).
    + rewrite nth_error_app2 in Hj by assumption.
      destruct (j - length dn2)%nat as [|[|k]] eqn:Hk; simpl in Hj; try discriminate.
      injection Hj as <-.
      replace (length dn2 + 1 - j)%nat with 1%nat by lia. exact Hc.
  - intros i in_f out_f layer td dn ll w0 dl dn1 w1 [Hdn Hll] Hm _.
    pose proof (make_dual_layer_constructed _ _ _ _ _ _ _ _ _ _ _ _ _ Hm) as Hc.
    apply constructed_fresh in Hc.
    apply make_dual_layer_dual_of in Hm as [_ Hrw].
    pose proof (Forall2_length_eq _ _ _ Hrw) as Hl1.
    split.
    + intros j op Hj.
      destruct (Forall2_nth_error_r _ _ _ _ _ Hrw Hj) as [op0 [Hj0 Hop0]].
      apply Hdn in Hj0. unfold aged in *.
      rewrite (rewired_histories _ _ Hop0), <- Hl1. exact Hj0.
    + intros l Hl. injection Hl as <-. exact Hc.
  - split; [|discriminate]. intros [|[|j]] op Hj; simpl in Hj; try discriminate.
    injection Hj as <-. simpl.
    apply (constructed_fresh E). eapply constructed_InfBall; eauto.
  - exact HI.
Qed.

Lemma chain_history_lengths_witness :
  exists self w',
    DualNetBounds.init Example.E Example.net Example.X Example.epsilon
      Example.kw Example.w0 = Ok (self, w') /\
    (forall j op,
        nth_error (DualNetBounds.dual_net self) j = Some op ->
        aged (length (DualNetBounds.dual_net self) - j) op) /\
    (forall l, DualNetBounds.last_layer self = Some l -> aged 1 l).
Proof.
  destruct (DualNetBounds.init Example.E Example.net Example.X Example.epsilon
              Example.kw Example.w0) as [[self w']|] eqn:H;
    [|vm_compute in H; discriminate].
  exists self, w'. split; [reflexivity|].
  exact (chain_history_lengths _ _ _ _ _ _ _ _ H).
Defined.


(** ** Residual blocks read their inputs from the end *)

Lemma pysum_gen_Forall2 {A B : Type} (f : A -> result pyval) (g : B -> result pyval)
  (l : list A) (l' : list B) :
  Forall2 (fun a b => f a = g b) l l' ->
  pysum_gen f l = pysum_gen g l'.
Proof.
  unfold pysum_gen. generalize (Ok PyZero : result pyval).
  intros acc H. revert acc. induction H as [|a b l l' Hab _ IH]; intros acc; simpl.
  - reflexivity.
  - rewrite Hab. apply IH.
Qed.

Lemma firstn_S_snoc {A : Type} (l : list A) (n : nat) (x : A) :
  nth_error l n = Some x -> firstn (S n) l = firstn n l ++ [x].
Proof.
  revert n. induction l as [|a l IH]; intros [|n] H; simpl in *; try discriminate.
  - now injection H as ->.
  - f_equal. now apply IH.
Qed.

Lemma skipn_nth_error_cons {A : Type} (l : list A) (n : nat) (x : A) :
  nth_error l n = Some x -> skipn n l = x :: skipn (S n) l.
Proof.
  revert n. induction l as [|a l IH]; intros [|n] H; simpl in *; try discriminate.
  - now injection H as ->.
  - now apply IH.
Qed.

Lemma subop_affine_last (E : torch) (s : subop) (xs ys : list pyval) :
  py_last xs = py_last ys -> subop_affine E s xs = subop_affine E s ys.
Proof.
  intros H. destruct s; simpl.
  - unfold DualConv2d.affine. now rewrite H.
  - unfold DualLinear.affine. now rewrite H.
  - exact H.
Qed.

Lemma transposed_affine_transpose_last (E : torch) (s : transposed)
  (xs ys : list pyval) :
  py_last xs = py_last ys ->
  transposed_affine_transpose E s xs = transposed_affine_transpose E s ys.
Proof.
  intros H. destruct s; simpl.
  - unfold DualConv2d.affine_transpose. now rewrite H.
  - unfold DualLinear.affine_transpose. now rewrite H.
  - exact H.
Qed.

(** The windows of a block against the pairing from the end, for any method
    that reads the last element of its arguments alone. *)
Lemma windows_aligned {A : Type} (F : A -> list pyval -> result pyval)
  (xs : list pyval) (base : nat) :
  (forall a ys zs, py_last ys = py_last zs -> F a ys = F a zs) ->
  forall (ws : list (option A)) (s : nat),
    (base + s + length ws <= length xs)%nat ->
    Forall2 (fun (a : A * list pyval) (b : A * pyval) =>
               F (fst a) (snd a) = F (fst b) [snd b])
      (flat_map (fun jw : nat * option A =>
                   match snd jw with
                   | Some w => [(w, firstn (base + fst jw + 1) xs)]
                   | None => []
                   end) (combine (seq s (length ws)) ws))
      (present (combine ws (skipn (base + s) xs))).
Proof.
  intros HF. induction ws as [|w ws IH]; intros s Hlen; simpl.
  - constructor.
  - simpl in Hlen.
    destruct (nth_error xs (base + s)) as [x|] eqn:Hx;
      [|apply nth_error_None in Hx; lia].
    rewrite (skipn_nth_error_cons _ _ _ Hx). cbn [combine present flat_map fst snd].
    replace (S (base + s)) with (base + S s)%nat by lia.
    specialize (IH (S s) ltac:(lia)). unfold present in IH.
    destruct w as [a|]; simpl.
    + constructor; [|exact IH]. simpl. apply HF.
      replace (base + s + 1)%nat with (S (base + s)) by lia.
      rewrite (firstn_S_snoc _ _ _ Hx), py_last_snoc. reflexivity.
    + exact IH.
Qed.

Lemma windows_zip_from_end {A : Type} (F : A -> list pyval -> result pyval)
  (ws : list (option A)) (xs : list pyval) :
  (forall a ys zs, py_last ys = py_last zs -> F a ys = F a zs) ->
  xs <> [] ->
  pysum_gen (fun wx : A * list pyval => F (fst wx) (snd wx))
    (windows (last_n (Nat.min (length xs) (length ws)) ws) xs) =
  pysum_gen (fun wx : A * pyval => F (fst wx) [snd wx])
    (present (zip_from_end ws xs)).
Proof.
  intros HF Hne. apply pysum_gen_Forall2.
  unfold windows, zip_from_end, last_n.
  assert (Hx : (0 < length xs)%nat) by (destruct xs; [contradiction | simpl; lia]).
  rewrite (Nat.min_comm (length ws)).
  set (k := Nat.min (length xs) (length ws)).
  assert (Hk : (k <= length xs /\ k <= length ws)%nat) by (unfold k; lia).
  destruct (Nat.eqb_spec k 0) as [H0|H0].
  - assert (ws = []) as -> by (destruct ws; [reflexivity | simpl in *; lia]).
    simpl. constructor.
  - set (ws' := skipn (length ws - k) ws).
    assert (Hl : length ws' = k) by (unfold ws'; rewrite length_skipn; lia).
    rewrite Hl.
    pose proof (windows_aligned F xs (length xs - k) HF ws' 0%nat) as H.
    rewrite Hl, Nat.add_0_r in H. apply H. lia.
Qed.

(** A residual block pairs its entries with its arguments from the end: the
    last entry of [duals] acts on the last argument, the entry before it on
    the argument before, and so on; [None] entries are skipped and the
    results are added.  The same holds for [affine_transpose] and
    [dual_ts]. *)
Theorem DualDense_reads_from_the_end (E : torch) (o : DualDense.t)
  (xs : list pyval) :
  xs <> [] ->
  DualDense.affine E o xs =
    pysum_gen (fun sx : subop * pyval => subop_affine E (fst sx) [snd sx])
      (present (zip_from_end (DualDense.duals o) xs)) /\
  DualDense.affine_transpose E o xs =
    pysum_gen (fun sx : transposed * pyval =>
                 transposed_affine_transpose E (fst sx) [snd sx])
      (present (zip_from_end (DualDense.dual_ts o) xs)).
Proof.
  intros Hne. unfold DualDense.affine, DualDense.affine_transpose. split.
  - apply (windows_zip_from_end (subop_affine E)); [|exact Hne].
    intros a ys zs. apply subop_affine_last.
  - apply (windows_zip_from_end (transposed_affine_transpose E)); [|exact Hne].
    intros a ys zs. apply transposed_affine_transpose_last.
Qed.

Lemma DualDense_reads_from_the_end_witness :
  DualDense.affine Example.E
    {| DualDense.duals :=
         [Some SubSequential; None;
          Some (SubLinear {| DualLinear.layer_ := Linear 1 1 [[2]] None;
                             DualLinear.bias := None |})];
       DualDense.dual_ts := [Some TrSequential] |}
    [PyT (T2 [[1]]); PyT (T2 [[10]]); PyT (T2 [[100]]); PyT (T2 [[1000]])] =
  pysum_gen (fun sx : subop * pyval => subop_affine Example.E (fst sx) [snd sx])
    [(SubSequential, PyT (T2 [[10]]));
     (SubLinear {| DualLinear.layer_ := Linear 1 1 [[2]] None;
                   DualLinear.bias := None |}, PyT (T2 [[1000]]))].
Proof.
  apply (DualDense_reads_from_the_end Example.E
    {| DualDense.duals :=
         [Some SubSequential; None;
          Some (SubLinear {| DualLinear.layer_ := Linear 1 1 [[2]] None;
                             DualLinear.bias := None |})];
       DualDense.dual_ts := [Some TrSequential] |}
    [PyT (T2 [[1]]); PyT (T2 [[10]]); PyT (T2 [[100]]); PyT (T2 [[1000]])]).
  discriminate.
Defined.


(** ** The ball term of the dual objective *)

Lemma zip_with_map_same {A B C D : Type} (f : B -> C -> D) (g : A -> B)
  (h : A -> C) (l : list A) :
  zip_with f (map g l) (map h l) = map (fun x => f (g x) (h x)) l.
Proof. induction l; simpl; congruence. Qed.

Lemma zip_with_zip_with_map {A B C D E' : Type} (f : C -> D -> E')
  (g : A -> B -> C) (h : A -> D) (a : list A) (b : list B) :
  length a = length b ->
  zip_with f (zip_with g a b) (map h a) = zip_with (fun x y => f (g x y) (h x)) a b.
Proof.
  revert b. induction a as [|x a IH]; intros [|y b] H; simpl in *;
    try reflexivity; try discriminate.
  f_equal. apply IH. lia.
Qed.

Lemma same_shape_zip_with_map {A B C D : Type} (g : A -> B -> list C)
  (h : A -> list D) (a : list A) (b : list B) :
  length a = length b ->
  (forall x y, length (g x y) = length (h x)) ->
  same_shape (zip_with g a b) (map h a).
Proof.
  unfold same_shape. revert b. induction a as [|x a IH]; intros [|y b] H Hg;
    simpl in *; try discriminate; constructor; auto.
Qed.

(** The value [InfBall.fval] returns for a direction. *)
Lemma InfBall_fval_direction_value (eps : Q) (X : list vec) (rest : list pyval)
  (nu : list (list vec)) :
  Forall2 (fun nb xb => Forall (fun row : vec => length row = length xb) nb) nu X ->
  InfBall.fval_direction eps (PyT (T2 X) :: rest) (PyT (T3 nu)) =
  Ok (Contrib (PyT (T2 (zip_with
                          (fun (nb : list vec) (xb : vec) =>
                             map (fun row => - dot row xb - eps * sumQ (map Qabs row)) nb)
                          nu X)))).
Proof.
  intros Hshape. pose proof (Forall2_length_eq _ _ _ Hshape) as Hlen.
  unfold InfBall.fval_direction. cbn [view_direction bind as_tensor flatten_rows].
  unfold matmul_batch. rewrite bzip_same_length by assumption.
  rewrite (zipM_Forall2 _ (fun (nb : list vec) (xb : vec) =>
                             map (fun row => dot row xb) nb)).
  2:{ eapply Forall2_impl; [|exact Hshape]. intros nb xb Hnb. cbn beta.
      apply mapM_pure. eapply Forall_impl; [|exact Hnb].
      intros row Hrow. unfold dot_strict. now rewrite Hrow, Nat.eqb_refl. }
  cbn [bind tneg tmap]. unfold tsub, tbop.
  rewrite bop2_same_shape.
  2:{ apply same_shape_map_l; [intros; apply length_map|].
      apply same_shape_zip_with_map; [assumption|].
      intros nb xb. now rewrite !length_map. }
  cbn [bind]. do 4 f_equal.
  rewrite zip_with_map_l, zip_with_zip_with_map by assumption.
  apply zip_with_ext. intros nb xb. rewrite map_map.
  exact (zip_with_map_same Qminus (fun row : vec => - dot row xb)
           (fun row : vec => eps * sumQ (map Qabs row)) nb).
Qed.

Lemma dot_comm (u : vec) : forall v : vec, dot u v == dot v u.
Proof.
  induction u as [|a u IH]; intros [|b v]; simpl; try reflexivity.
  rewrite IH. ring.
Qed.

Lemma at2_zip_with_map {A B C : Type} (g : B -> A -> C) (nu : list (list A))
  (X : list B) (b j : nat) (x : B) (v : A) :
  nth_error X b = Some x -> at2 nu b j = Some v ->
  at2 (zip_with (fun nb xb => map (g xb) nb) nu X) b j = Some (g x v).
Proof.
  unfold at2. intros Hx Hv.
  destruct (nth_error nu b) as [nb|] eqn:Hnb; [|discriminate].
  rewrite (nth_error_zip_with _ _ _ _ _ _ Hnb Hx). now apply map_nth_error.
Qed.

(** The ball term of the dual objective is sound.  For a direction [nu], the
    exact representative of the ball around [X] contributes
    [- v.x - epsilon*|v|_1] for every row [v] of the direction and its sample
    [x], and this is a lower bound of [- v.x'] over every [x'] within
    [epsilon] of [x] in every coordinate. *)
Theorem InfBall_direction_sound (o : InfBall.t) (X : list vec) (eps : Q)
  (nu : list (list vec)) (nu_prev : option pyval) :
  exact_ball X eps (OpInfBall o) ->
  Forall2 (fun nb xb => Forall (fun row : vec => length row = length xb) nb) nu X ->
  exists r,
    fval (OpInfBall o) (Some (PyT (T3 nu))) nu_prev = Ok (Contrib (PyT (T2 r))) /\
    forall b j x v,
      nth_error X b = Some x -> at2 nu b j = Some v ->
      exists q,
        at2 r b j = Some q /\
        q == - dot v x - eps * sumQ (map Qabs v) /\
        forall x',
          Forall2 (fun a a' => Qabs (a' - a) <= eps) x x' ->
          q <= - dot v x'.
Proof.
  intros (Heps & Hx & _) Hshape.
  destruct o as [e nu_x nu_1]. cbn [InfBall.epsilon InfBall.nu_x] in *. subst e.
  destruct nu_x as [|x0 rest]; [discriminate|]. injection Hx as ->.
  eexists. split.
  - cbn [fval InfBall.fval InfBall.epsilon InfBall.nu_x].
    now apply InfBall_fval_direction_value.
  - intros b j x v Hxb Hv. eexists. split; [|split].
    + apply (at2_zip_with_map
               (fun (xb : vec) (row : vec) =>
                  - dot row xb - eps * sumQ (map Qabs row))); eassumption.
    + reflexivity.
    + intros x' Hball. cbn beta.
      destruct Hball as [|a a' x x' Ha Hball].
      * rewrite !dot_nil_r.
        assert (Hv0 : v = []).
        { unfold at2 in Hv. destruct (nth_error nu b) as [nb|] eqn:Hnb; [|discriminate].
          destruct (Forall2_nth_error _ _ _ _ _ Hshape Hnb) as [xb [Hxb' Hrows]].
          pose proof (eq_trans (eq_sym Hxb') Hxb) as Heq. injection Heq as ->.
          rewrite Forall_forall in Hrows. apply nth_error_In in Hv.
          apply Hrows in Hv. now destruct v. }
        subst v. simpl. setoid_replace (eps * 0) with 0 by ring. lra.
      * assert (Heps : 0 <= eps)
          by (eapply Qle_trans; [apply Qabs_nonneg | exact Ha]).
        assert (Hb : Forall2 (fun a a' => Qabs (a' - a) <= eps) (a :: x) (a' :: x'))
          by (constructor; assumption).
        pose proof (dot_ball eps Heps (a :: x) (a' :: x') Hb v) as Hd.
        apply Qabs_Qle_condition in Hd.
        rewrite (dot_comm v (a :: x)), (dot_comm v (a' :: x')). lra.
Qed.

Lemma InfBall_direction_sound_witness :
  exists o r,
    InfBall.init Example.X Example.epsilon = Ok o /\
    fval (OpInfBall o) (Some (PyT (T3 [[[1; -1; 0; 2]; [0; 0; 1; 0]]]))) None =
      Ok (Contrib (PyT (T2 r))).
Proof.
  destruct (InfBall.init Example.X Example.epsilon) as [o|] eqn:H;
    [|vm_compute in H; discriminate].
  destruct (InfBall_direction_sound o Example.X Example.epsilon
              [[[1; -1; 0; 2]; [0; 0; 1; 0]]] None) as [r [Hr _]].
  - unfold InfBall.init in H. simpl in H. injection H as <-. simpl. auto.
  - repeat constructor.
  - exists o, r. split; [reflexivity | exact Hr].
Defined.


(** ** Soundness of the bound of an affine network *)

Lemma g_value_affine_net (E : torch) (net : list layer) (X : list vec)
  (eps : Q) (kw : DualNetBounds.kwargs) (w w' : world) (self : DualNetBounds.t)
  (c : list (list vec)) :
  net <> [] ->
  forallb is_Linear net = true ->
  DualNetBounds.init E net X eps kw w = Ok (self, w') ->
  exists outs,
    length outs = length net /\
    DualNetBounds.g_value E self c =
    (nus <- directions net (PyT (tneg (T3 c))) ;;
     f <- InfBall.fval_direction eps [PyT (T2 X)] (hd PyZero nus) ;;
     match f with
     | Contrib ball => sum_bias E (combine net outs) (tl nus) ball
     | Bounds _ _ => Raise (TypeError "not a contribution")
     end).
Proof.
  intros Hne Hlin Hinit.
  unfold DualNetBounds.init in Hinit.
  destruct (DualNetBounds.forward_pass E net [X]) as [zs|] eqn:Hf;
    [|discriminate].
  cbn [bind] in *.
  destruct (InfBall.init X eps) as [ball|] eqn:Hball; [|discriminate].
  cbn [bind] in Hinit. inv_bind Hinit.
  apply forward_pass_length in Hf. simpl in Hf.
  destruct (layers_of_combine (removelast (map features zs))
              (tl (map features zs)) net) as [Hlayers Hsnd].
  { rewrite removelast_length, length_map. lia. }
  { rewrite tl_length, length_map. lia. }
  assert (Hball' : exact_ball X eps (OpInfBall ball)).
  { unfold InfBall.init in Hball. destruct X as [|x0 X']; [discriminate|].
    injection Hball as <-. simpl. auto. }
  set (todo := combine (combine (removelast (map features zs))
                                (tl (map features zs))) net) in *.
  assert (H1 : todo <> []).
  { intros Hnil. apply (f_equal (map snd)) in Hnil. rewrite Hsnd in Hnil.
    simpl in Hnil. congruence. }
  assert (H2 : Forall (fun t : nat * nat * layer => is_Linear (snd t) = true) todo).
  { apply Forall_forall. intros t Hin.
    rewrite forallb_forall in Hlin. apply Hlin.
    rewrite <- Hsnd. now apply in_map. }
  assert (H3 : (0 + length todo = length net)%nat).
  { rewrite <- (length_map snd), Hsnd. reflexivity. }
  destruct (init_loop_affine E kw zs a (length net) X eps todo 0 ball [] [] w
              self w' H1 H2 H3 Hball' (Forall2_nil _) Hinit)
    as (b' & ops' & lastop & Hdn & Hb' & Hall & Hlast).
  destruct self as [dn last]. simpl in Hdn, Hlast. subst dn last.
  simpl app in Hall. rewrite Hlayers in Hall.
  exists (tl (map features zs)).
  assert (Hl : length (tl (map features zs)) = length net)
    by (rewrite tl_length, length_map; lia).
  split; [exact Hl|].
  rewrite (g_affine_chain E _ b' ops' lastop X eps c Hb' Hall).
  assert (Hfst : map fst (combine net (tl (map features zs))) = net).
  { revert Hl. generalize (tl (map features zs)). clear.
    induction net as [|l net IH]; intros [|n ns] Hl; simpl in *;
      try discriminate; auto.
    f_equal. apply IH. lia. }
  rewrite Hfst. reflexivity.
Qed.

Lemma affine_wf_is_Linear (net : list layer) :
  forall n, affine_wf n net -> forallb is_Linear net = true.
Proof.
  induction net as [|l net IH]; intros n H; [reflexivity|].
  destruct l; simpl in H; try contradiction.
  destruct H as (_ & _ & _ & _ & H). simpl. eauto.
Qed.

Lemma weight_t_length (n : nat) (W : list vec) : length (weight_t n W) = n.
Proof. unfold weight_t. now rewrite length_map, length_seq. Qed.

Lemma back_length (net : list layer) :
  forall n v, affine_wf n net -> length v = out_dim n net -> length (back net v) = n.
Proof.
  induction net as [|l net IH]; intros n v Hwf Hv; simpl in *; [exact Hv|].
  destruct l; try contradiction. destruct Hwf as (-> & _).
  now rewrite length_map, weight_t_length.
Qed.

Lemma dot_zip_plus (u : vec) :
  forall p q : vec, length p = length q ->
    dot u (zip_with Qplus p q) == dot u p + dot u q.
Proof.
  induction u as [|a u IH]; intros [|x p] [|y q] H; simpl in *;
    try discriminate; try ring.
  rewrite IH by lia. ring.
Qed.

(** The identity behind the dual objective of an affine network: the
    direction at the input against the input, plus the directions against
    the biases, is the objective row against the output. *)
Lemma back_net_output (net : list layer) :
  forall n x v,
    affine_wf n net ->
    dot (back net v) x + bias_term net v == dot v (net_output net x).
Proof.
  induction net as [|l net IH]; intros n x v Hwf; simpl in *; [ring|].
  destruct l; try contradiction.
  destruct Hwf as (-> & Hlen & HW & Hb & Hwf).
  rewrite <- (IH out_features (add_bias (map (dot x) weight) bias) v Hwf).
  rewrite (dot_comm _ x), <- (dot_adjoint n weight HW x (back net v)).
  destruct bias as [bv|]; simpl.
  - rewrite dot_zip_plus by (rewrite length_map; congruence).
    rewrite (dot_comm (back net v) (map (dot x) weight)). ring.
  - rewrite (dot_comm (back net v) (map (dot x) weight)). ring.
Qed.


Lemma map_map_id_ext {A : Type} (f : A -> A) (C : list (list A)) :
  (forall v, f v = v) -> map (map f) C = C.
Proof.
  intros H. rewrite <- (map_id C) at 2. apply map_ext. intros cb.
  rewrite <- (map_id cb) at 2. now apply map_ext.
Qed.

Lemma hd_dirs (net : list layer) (C : list (list vec)) :
  hd PyZero (dirs net C) = PyT (T3 (map (map (back net)) C)).
Proof.
  destruct net; simpl; [|reflexivity].
  now rewrite map_map_id_ext.
Qed.

Lemma dirs_cons (net : list layer) (C : list (list vec)) :
  dirs net C = PyT (T3 (map (map (back net)) C)) :: tl (dirs net C).
Proof.
  destruct net; simpl; [|reflexivity]. now rewrite map_map_id_ext.
Qed.

Lemma Forall_Forall_map {A B : Type} (P : A -> Prop) (Q' : B -> Prop)
  (f : A -> B) (C : list (list A)) :
  (forall v, P v -> Q' (f v)) ->
  Forall (Forall P) C -> Forall (Forall Q') (map (map f) C).
Proof.
  intros H HC. apply Forall_map. eapply Forall_impl; [|exact HC].
  intros cb Hcb. apply Forall_map. eapply Forall_impl; [|exact Hcb]. exact H.
Qed.

Lemma directions_dirs (net : list layer) :
  forall n (C : list (list vec)),
    affine_wf n net ->
    Forall (Forall (fun v : vec => length v = out_dim n net)) C ->
    directions net (PyT (T3 C)) = Ok (dirs net C).
Proof.
  induction net as [|l net IH]; intros n C Hwf HC; [reflexivity|].
  destruct l; simpl in Hwf; try contradiction.
  destruct Hwf as (-> & Hlen & HW & Hb & Hwf). cbn [out_dim] in HC.
  cbn [directions]. rewrite (IH out_features C Hwf HC). cbn [bind].
  rewrite hd_dirs. cbn [transposed_affine].
  rewrite F_linear_T3.
  2:{ eapply Forall_Forall_map; [|exact HC]. intros v Hv. cbn beta.
      now apply back_length. }
  cbn [bind dirs]. do 4 f_equal.
  rewrite map_map. apply map_ext. intros cb. now rewrite map_map.
Qed.

Lemma bias_contribution_value (E : torch) (in_features out_features : nat)
  (weight : list vec) (bv : vec) (n : nat) (N : list (list vec)) :
  full_bias_flat E ->
  Forall (Forall (fun row : vec => length row = length bv)) N ->
  bias_contribution E (Linear in_features out_features weight (Some bv)) n
    (PyT (T3 N)) =
  Ok (PyT (T2 (map (map (fun row => - dot row bv)) N))).
Proof.
  intros HE HN. unfold bias_contribution.
  destruct (HE in_features out_features weight bv n) as [fb [Hfb Hflat]].
  rewrite Hfb. cbn [bind view_direction]. rewrite Hflat. unfold matmul_vec.
  rewrite (mapM_pure _ (map (fun row => dot row bv))).
  2:{ eapply Forall_impl; [|exact HN]. intros nb Hnb. cbn beta.
      apply mapM_pure. eapply Forall_impl; [|exact Hnb].
      intros row Hrow. unfold dot_strict. now rewrite Hrow, Nat.eqb_refl. }
  cbn [bind tneg tmap]. do 3 f_equal.
  rewrite map_map. apply map_ext. intros nb. now rewrite map_map.
Qed.

Lemma sum_bias_value (E : torch) (X : list vec) (C : list (list vec)) :
  full_bias_flat E ->
  length C = length X ->
  forall (rest : list layer) (n : nat) (outs : list nat) (h : vec -> vec -> Q),
    affine_wf n rest ->
    length outs = length rest ->
    Forall (Forall (fun v : vec => length v = out_dim n rest)) C ->
    exists h' : vec -> vec -> Q,
      sum_bias E (combine rest outs) (tl (dirs rest C))
        (PyT (T2 (zip_with (fun cb xb => map (h xb) cb) C X))) =
      Ok (PyT (T2 (zip_with (fun cb xb => map (h' xb) cb) C X))) /\
      forall xb v, h' xb v == h xb v - bias_term rest v.
Proof.
  intros HE HCX. induction rest as [|l rest IH]; intros n outs h Hwf Houts HC.
  - exists h. split; [reflexivity|]. intros xb v. simpl. ring.
  - destruct l; simpl in Hwf; try contradiction.
    destruct Hwf as (-> & Hlen & HW & Hb & Hwf). cbn [out_dim] in HC.
    destruct outs as [|n0 outs]; [discriminate|]. simpl in Houts.
    cbn [dirs tl combine]. rewrite (dirs_cons rest C). cbn [sum_bias tl].
    destruct bias as [bv|].
    + rewrite bias_contribution_value; [|exact HE|].
      2:{ eapply Forall_Forall_map; [|exact HC]. intros v Hv. cbn beta.
          rewrite Hb. now apply back_length. }
      cbn [bind pyadd]. unfold tadd, tbop.
      rewrite bop2_same_shape.
      2:{ rewrite map_map.
          apply (same_shape_zip_with_map (fun (cb : list vec) (xb : vec) => map (h xb) cb));
            [assumption|]. intros cb xb. now rewrite !length_map. }
      cbn [bind].
      destruct (IH out_features outs
                  (fun xb v => h xb v + - dot (back rest v) bv) Hwf
                  ltac:(lia) HC) as [h' [Hsum Hh']].
      exists h'. split.
      * rewrite <- Hsum. do 3 f_equal.
        rewrite map_map.
        rewrite (zip_with_zip_with_map (zip_with Qplus)
                   (fun (cb : list vec) (xb : vec) => map (h xb) cb)
                   (fun cb : list vec =>
                      map (fun row => - dot row bv) (map (back rest) cb)))
          by assumption.
        apply zip_with_ext. intros cb xb. rewrite map_map.
        exact (zip_with_map_same Qplus (h xb)
                 (fun v => - dot (back rest v) bv) cb).
      * intros xb v. rewrite Hh'. simpl. ring.
    + cbn [bias_contribution bind pyadd].
      destruct (IH out_features outs h Hwf ltac:(lia) HC) as [h' [Hsum Hh']].
      exists h'. split; [exact Hsum|].
      intros xb v. rewrite Hh'. simpl. ring.
Qed.

Lemma dot_map_opp (u : vec) : forall y : vec, dot (map Qopp u) y == - dot u y.
Proof.
  induction u as [|a u IH]; intros [|b y]; simpl; try ring.
  rewrite IH. ring.
Qed.

Lemma at2_map_map {A B : Type} (f : A -> B) (c : list (list A)) (b j : nat) (x : A) :
  at2 c b j = Some x -> at2 (map (map f) c) b j = Some (f x).
Proof.
  unfold at2. rewrite nth_error_map.
  destruct (nth_error c b); [|discriminate]. simpl. apply map_nth_error.
Qed.

Lemma g_value_affine_bound (E : torch) (net : list layer) (n : nat)
  (X : list vec) (eps : Q) (kw : DualNetBounds.kwargs) (w w' : world)
  (self : DualNetBounds.t) (c : list (list vec)) :
  net <> [] ->
  affine_wf n net ->
  full_bias_flat E ->
  Forall (fun x => length x = n) X ->
  length c = length X ->
  Forall (Forall (fun cj : vec => length cj = out_dim n net)) c ->
  0 <= eps ->
  DualNetBounds.init E net X eps kw w = Ok (self, w') ->
  exists r,
    DualNetBounds.g_value E self c = Ok (PyT (T2 r)) /\
    Forall2 (fun (cb : list vec) (rb : vec) => length rb = length cb) c r /\
    forall b j x cj,
      nth_error X b = Some x -> at2 c b j = Some cj ->
      exists q,
        at2 r b j = Some q /\
        q == - dot (back net (map Qopp cj)) x
             - eps * sumQ (map Qabs (back net (map Qopp cj)))
             - bias_term net (map Qopp cj) /\
        forall x',
          Forall2 (fun a a' => Qabs (a' - a) <= eps) x x' ->
          q <= dot cj (net_output net x').
Proof.
  intros Hne Hwf HE HX HcX Hc Heps Hinit.
  destruct (g_value_affine_net E net X eps kw w w' self c Hne
              (affine_wf_is_Linear net n Hwf) Hinit) as [outs [Houts Hg]].
  rewrite Hg. clear Hg. cbn [tneg tmap].
  set (C := map (map (map Qopp)) c).
  assert (HC : Forall (Forall (fun v : vec => length v = out_dim n net)) C).
  { unfold C. eapply Forall_Forall_map; [|exact Hc]. intros v Hv. cbn beta.
    now rewrite length_map. }
  assert (HCX : length C = length X) by (unfold C; now rewrite length_map).
  rewrite (directions_dirs net n C Hwf HC). cbn [bind].
  rewrite hd_dirs.
  rewrite InfBall_fval_direction_value.
  2:{ clear - HC HCX HX Hwf. revert X HX HCX.
      induction HC as [|cb C' Hcb _ IH]; intros [|xb X] HX HCX;
        simpl in *; try discriminate; constructor.
      - apply Forall_map. eapply Forall_impl; [|exact Hcb].
        intros v Hv. cbn beta. rewrite (Forall_inv HX). now apply back_length.
      - apply IH; [now apply Forall_inv_tail in HX | lia]. }
  cbn [bind].
  rewrite zip_with_map_l.
  rewrite (zip_with_ext _
             (fun (cb : list vec) (xb : vec) =>
                map (fun v => - dot (back net v) xb
                              - eps * sumQ (map Qabs (back net v))) cb))
    by (intros cb xb; now rewrite map_map).
  destruct (sum_bias_value E X C HE HCX net n outs
              (fun xb v => - dot (back net v) xb
                           - eps * sumQ (map Qabs (back net v)))
              Hwf Houts HC) as [h' [Hsum Hh']].
  rewrite Hsum. eexists. split; [reflexivity|]. split.
  { unfold C. clear - HcX. revert X HcX.
    induction c as [|cb c IH]; intros [|xb X] HcX; simpl in *;
      try discriminate; constructor.
    - now rewrite !length_map.
    - apply IH. lia. }
  intros b j x cj Hx Hcj.
  exists (h' x (map Qopp cj)). split; [|split].
  - apply (at2_zip_with_map h'); [exact Hx|].
    unfold C. now apply at2_map_map.
  - apply Hh'.
  - intros x' Hball. rewrite Hh'.
    pose proof (back_net_output net n x' (map Qopp cj) Hwf) as Hid.
    rewrite dot_map_opp in Hid.
    pose proof (dot_ball eps Heps x x' Hball (back net (map Qopp cj))) as Hd.
    apply Qabs_Qle_condition in Hd.
    rewrite (dot_comm x'), (dot_comm x) in Hd. lra.
Qed.

(** The bound of an affine network is sound.  For a non-empty network of
    well-formed affine layers that [DualNetBounds] has built into a chain,
    [g(c)] returns a (batch, objectives) tensor, and its entry for the
    sample [x] and the objective row [cj] is a lower bound of [cj] against
    the output of the network at [x'], for every [x'] within [epsilon] of
    [x] in every coordinate. *)
Theorem affine_bound_sound (E : torch) (net : list layer) (n : nat)
  (X : list vec) (eps : Q) (kw : DualNetBounds.kwargs) (w w' : world)
  (self : DualNetBounds.t) (c : list (list vec)) :
  net <> [] ->
  affine_wf n net ->
  full_bias_flat E ->
  Forall (fun x => length x = n) X ->
  length c = length X ->
  Forall (Forall (fun cj : vec => length cj = out_dim n net)) c ->
  0 <= eps ->
  DualNetBounds.init E net X eps kw w = Ok (self, w') ->
  exists r,
    DualNetBounds.g_value E self c = Ok (PyT (T2 r)) /\
    forall b j x cj,
      nth_error X b = Some x -> at2 c b j = Some cj ->
      exists q,
        at2 r b j = Some q /\
        forall x',
          Forall2 (fun a a' => Qabs (a' - a) <= eps) x x' ->
          q <= dot cj (net_output net x').
Proof.
  intros Hne Hwf HE HX HcX Hc Heps Hinit.
  destruct (g_value_affine_bound E net n X eps kw w w' self c Hne Hwf HE HX HcX
              Hc Heps Hinit) as [r [Hg [_ Hr]]].
  exists r. split; [exact Hg|]. intros b j x cj Hx Hcj.
  destruct (Hr b j x cj Hx Hcj) as [q [Hq [_ Hsound]]]. eauto.
Qed.

Lemma affine_bound_sound_witness :
  exists self w' r,
    DualNetBounds.init Example.E Example.affine_net Example.X Example.epsilon
      Example.kw Example.w0 = Ok (self, w') /\
    DualNetBounds.g_value Example.E self Example.c = Ok (PyT (T2 r)).
Proof.
  destruct (DualNetBounds.init Example.E Example.affine_net Example.X
              Example.epsilon Example.kw Example.w0) as [[self w']|] eqn:H;
    [|vm_compute in H; discriminate].
  destruct (affine_bound_sound Example.E Example.affine_net 4 Example.X
              Example.epsilon Example.kw Example.w0 w' self Example.c)
    as [r [Hr _]].
  - discriminate.
  - simpl. repeat split; repeat constructor.
  - intros i o W bv n. exists (T2 [bv]). split; [reflexivity|]. simpl.
    apply app_nil_r.
  - repeat constructor.
  - reflexivity.
  - repeat constructor.
  - unfold Example.epsilon. unfold Qle. simpl. lia.
  - exact H.
  - exists self, w', r. split; [reflexivity | exact Hr].
Defined.


(** [net_output] is what the forward pass of the example environment
    computes on a batch of one sample. *)
Lemma net_output_is_forward (net : list layer) :
  forall n (x : vec) (pre : list (list vec)),
    affine_wf n net -> length x = n ->
    exists zs,
      DualNetBounds.forward_pass Example.E net (pre ++ [[x]]) = Ok zs /\
      py_last zs = Ok [net_output net x].
Proof.
  induction net as [|l net IH]; intros n x pre Hwf Hx.
  - exists (pre ++ [[x]]). split; [reflexivity | apply py_last_snoc].
  - destruct l; simpl in Hwf; try contradiction.
    destruct Hwf as (-> & Hlen & HW & Hb & Hwf).
    cbn [DualNetBounds.forward_pass is_Dense]. rewrite py_last_snoc. cbn [bind].
    cbn [module_forward Example.E Example.forward py_last rev app bind mapM].
    rewrite (linear_row_ok _ weight x Hx). cbn [bind].
    destruct bias as [bv|].
    + unfold bop2. rewrite bzip_same_length by reflexivity. cbn [zipM].
      rewrite bop1_same_length by (rewrite length_map; congruence).
      cbn [bind].
      apply (IH out_features _ (pre ++ [[x]]) Hwf).
      rewrite zip_with_length; rewrite length_map; congruence.
    + cbn [bind].
      apply (IH out_features _ (pre ++ [[x]]) Hwf).
      now rewrite length_map.
Qed.


(** ** The robustness certificate of an affine network *)

Lemma bzip_broadcast_l {A B C : Type} (F : A -> B -> result C) (x : A) (ys : list B) :
  bzip F [x] ys = mapM (F x) ys.
Proof.
  unfold bzip. destruct ys as [|y [|y' ys]]; simpl; auto.
Qed.

Lemma eye_length (n : nat) : length (eye n) = n.
Proof. unfold eye. now rewrite length_map, length_seq. Qed.

Lemma nth_error_eye (n j : nat) :
  (j < n)%nat -> nth_error (eye n) j = Some (one_hot n j 1).
Proof.
  intros H. unfold eye. exact (nth_error_map_seq (fun i => one_hot n i 1) n j H).
Qed.

Lemma py_index_in_range (n : nat) (z : Z) :
  (0 <= z < Z.of_nat n)%Z -> py_index n z = Ok (Z.to_nat z).
Proof.
  intros [H0 H1]. unfold py_index.
  apply Z.leb_le in H0. apply Z.ltb_lt in H1. now rewrite H0, H1.
Qed.

(** The objective for labels in range: for every sample and every class
    [j], the indicator of the label minus the indicator of [j]. *)
Lemma objective_value (n : nat) (y : list Z) :
  Forall (fun z => (0 <= z < Z.of_nat n)%Z) y ->
  objective n y =
  Ok (map (fun z =>
             map (fun e => zip_with Qminus (one_hot n (Z.to_nat z) 1) e) (eye n)) y).
Proof.
  intros Hy. unfold objective.
  rewrite (mapM_pure _ Z.to_nat)
    by (eapply Forall_impl; [|exact Hy]; intros z Hz; now apply py_index_in_range).
  cbn [bind]. unfold vec.
  rewrite (index_rows_nth (A := Q) (eye n) (map Z.to_nat y)).
  2:{ apply Forall_map. eapply Forall_impl; [|exact Hy]. intros z Hz.
      cbn beta in *. rewrite eye_length. lia. }
  cbn [bind]. unfold bop3, unsqueeze1. rewrite bzip_broadcast_r.
  rewrite !map_map, mapM_map.
  apply mapM_pure. eapply Forall_impl; [|exact Hy]. intros z Hz. cbn beta in *.
  unfold bop2. rewrite bzip_broadcast_l.
  assert (Hn : @nth (list Q) (Z.to_nat z) (eye n) [] = one_hot n (Z.to_nat z) 1).
  { apply nth_error_nth. apply nth_error_eye. lia. }
  rewrite Hn. apply mapM_pure. eapply Forall_impl; [|apply eye_rows].
  intros e He. cbn beta. apply bop1_same_length. now rewrite one_hot_length.
Qed.

Lemma dot_zip_minus_l (u : vec) :
  forall v w : vec, length u = length v ->
    dot (zip_with Qminus u v) w == dot u w - dot v w.
Proof.
  induction u as [|a u IH]; intros [|b v] [|c w] H; simpl in *;
    try discriminate; try ring.
  rewrite IH by lia. ring.
Qed.

Lemma net_output_length (net : list layer) :
  forall n x, affine_wf n net -> length x = n ->
    length (net_output net x) = out_dim n net.
Proof.
  induction net as [|l net IH]; intros n x Hwf Hx; simpl in *; [exact Hx|].
  destruct l; try contradiction.
  destruct Hwf as (-> & Hlen & HW & Hb & Hwf). apply IH; [exact Hwf|].
  destruct bias as [bv|]; simpl.
  - rewrite zip_with_length; rewrite length_map; congruence.
  - now rewrite length_map.
Qed.

(** The certificate of [RobustBounds].  For a non-empty network of
    well-formed affine layers and labels in range, [forward(X, y)] returns a
    (batch, classes) tensor whose entry for the sample [x] with label [z]
    and the class [j] is an upper bound of the output for [j] minus the
    output for [z] at every [x'] within [epsilon] of [x] in every
    coordinate. *)
Theorem robust_certificate (E : torch) (self : RobustBounds.t) (n : nat)
  (X : list vec) (y : list Z) (w w' : world) (dual : DualNetBounds.t) :
  RobustBounds.net self <> [] ->
  affine_wf n (RobustBounds.net self) ->
  full_bias_flat E ->
  Forall (fun x => length x = n) X ->
  length y = length X ->
  Forall (fun z => (0 <= z < Z.of_nat (out_dim n (RobustBounds.net self)))%Z) y ->
  0 <= RobustBounds.epsilon self ->
  DualNetBounds.init E (RobustBounds.net self) X (RobustBounds.epsilon self)
    (RobustBounds.kwargs self) w = Ok (dual, w') ->
  exists f,
    RobustBounds.forward E self (out_dim n (RobustBounds.net self)) X y w =
      Ok (PyT (T2 f), w') /\
    forall b j x z,
      nth_error X b = Some x -> nth_error y b = Some z ->
      (j < out_dim n (RobustBounds.net self))%nat ->
      exists q,
        at2 f b j = Some q /\
        forall x',
          Forall2 (fun a a' => Qabs (a' - a) <= RobustBounds.epsilon self) x x' ->
          nth j (net_output (RobustBounds.net self) x') 0
          - nth (Z.to_nat z) (net_output (RobustBounds.net self) x') 0 <= q.
Proof.
  destruct self as [net eps kw]. cbn [RobustBounds.net RobustBounds.epsilon
                                      RobustBounds.kwargs].
  intros Hne Hwf HE HX HyX Hy Heps Hinit.
  set (m := out_dim n net) in *.
  set (c := map (fun z =>
                   map (fun e => zip_with Qminus (one_hot m (Z.to_nat z) 1) e)
                       (eye m)) y).
  assert (Hc : Forall (Forall (fun cj : vec => length cj = m)) c).
  { unfold c. apply Forall_map. apply Forall_forall. intros z _.
    apply Forall_map. eapply Forall_impl; [|apply eye_rows].
    intros e He. cbn beta. rewrite zip_with_length; now rewrite one_hot_length. }
  assert (HcX : length c = length X) by (unfold c; now rewrite length_map).
  destruct (g_value_affine_bound E net n X eps kw w w' dual c Hne Hwf HE HX HcX
              Hc Heps Hinit) as [r [Hg [_ Hr]]].
  exists (map (map Qopp) r). split.
  - unfold RobustBounds.forward.
    cbn [RobustBounds.net RobustBounds.epsilon RobustBounds.kwargs].
    rewrite Hinit. cbn [bind]. fold m. rewrite (objective_value m y Hy).
    cbn [bind]. fold c. unfold DualNetBounds.g_value in Hg.
    destruct (DualNetBounds.g E dual c) as [[dual' v]|]; [|discriminate].
    cbn [bind] in *. injection Hg as ->. reflexivity.
  - intros b j x z Hx Hz Hj.
    assert (Hcj : at2 c b j =
                  Some (zip_with Qminus (one_hot m (Z.to_nat z) 1) (one_hot m j 1))).
    { unfold at2, c. rewrite (map_nth_error _ _ _ Hz).
      now rewrite (map_nth_error _ _ _ (nth_error_eye m j Hj)). }
    destruct (Hr b j x _ Hx Hcj) as [q0 [Hq0 [_ Hsound]]].
    exists (- q0). split; [now apply at2_map_map|].
    intros x' Hball. specialize (Hsound x' Hball).
    assert (Hx' : length x' = n).
    { apply Forall2_length_eq in Hball.
      rewrite Forall_forall in HX. rewrite <- Hball. apply HX.
      eapply nth_error_In; eauto. }
    pose proof (net_output_length net n x' Hwf Hx') as Hout. fold m in Hout.
    rewrite dot_zip_minus_l in Hsound by (now rewrite !one_hot_length).
    rewrite Forall_forall in Hy. apply nth_error_In in Hz. apply Hy in Hz.
    rewrite !dot_one_hot in Hsound by (auto; lia). lra.
Qed.

Lemma robust_certificate_witness :
  exists f w',
    RobustBounds.forward Example.E
      {| RobustBounds.net := Example.affine_net;
         RobustBounds.epsilon := Example.epsilon;
         RobustBounds.kwargs := Example.kw |} 2 Example.X [1%Z] Example.w0 =
    Ok (PyT (T2 f), w').
Proof.
  destruct (DualNetBounds.init Example.E Example.affine_net Example.X
              Example.epsilon Example.kw Example.w0) as [[dual w']|] eqn:H;
    [|vm_compute in H; discriminate].
  destruct (robust_certificate Example.E
              {| RobustBounds.net := Example.affine_net;
                 RobustBounds.epsilon := Example.epsilon;
                 RobustBounds.kwargs := Example.kw |} 4 Example.X [1%Z]
              Example.w0 w' dual) as [f [Hf _]].
  - discriminate.
  - simpl. repeat split; repeat constructor.
  - intros i o W bv n. exists (T2 [bv]). split; [reflexivity|]. simpl.
    apply app_nil_r.
  - repeat constructor.
  - reflexivity.
  - repeat constructor; simpl; lia.
  - unfold Example.epsilon, Qle. simpl. lia.
  - exact H.
  - exists f, w'. exact Hf.
Defined.


(** ** The ReLU term of the dual objective *)

Lemma zipM_map {A A' B B' C : Type} (F : A' -> B' -> result C) (g : A -> A')
  (h : B -> B') (a : list A) (b : list B) :
  zipM F (map g a) (map h b) = zipM (fun x y => F (g x) (h y)) a b.
Proof.
  revert b. induction a as [|x a IH]; intros [|y b]; simpl; auto.
  destruct (F (g x) (h y)); simpl; [|reflexivity]. now rewrite IH.
Qed.

Lemma nth_error_zip_with_inv {A B C : Type} (f : A -> B -> C) (a : list A)
  (b : list B) (k : nat) (c : C) :
  nth_error (zip_with f a b) k = Some c ->
  exists x y, nth_error a k = Some x /\ nth_error b k = Some y /\ c = f x y.
Proof.
  revert b k. induction a as [|x a IH]; intros [|y b] [|k] H; simpl in *;
    try discriminate.
  - injection H as <-. eauto.
  - eauto.
Qed.

Lemma clamp_min0_nonneg (a : Q) : 0 <= clamp_min0 a.
Proof.
  unfold clamp_min0. destruct (Qle_bool 0 a) eqn:H.
  - now apply Qle_bool_iff.
  - apply Qle_refl.
Qed.

Lemma dot_masked_nonpos (row : vec) :
  forall (zb : vec) (ib : list bool),
    (forall f, nth_error ib f = Some true ->
               exists z, nth_error zb f = Some z /\ z <= 0) ->
    dot (zip_with Qmult (map clamp_min0 row) zb)
        (map (fun i : bool => if i then 1 else 0) ib) <= 0.
Proof.
  induction row as [|a row IH]; intros [|z zb] [|i ib] H; simpl;
    try apply Qle_refl.
  assert (Hrest : dot (zip_with Qmult (map clamp_min0 row) zb)
                      (map (fun i : bool => if i then 1 else 0) ib) <= 0).
  { apply IH. intros f Hf. exact (H (S f) Hf). }
  pose proof (clamp_min0_nonneg a) as Hc.
  destruct i.
  - destruct (H 0%nat eq_refl) as [z' [Hz' Hle]]. injection Hz' as <-.
    assert (Hp : 0 <= clamp_min0 a * - z) by (apply Qmult_le_0_compat; lra).
    setoid_replace (clamp_min0 a * z * 1) with (- (clamp_min0 a * - z)) by ring.
    lra.
  - setoid_replace (clamp_min0 a * z * 0) with 0 by ring. lra.
Qed.

(** The value [DualReLU.fval] returns for [nu_prev]. *)
Lemma DualReLU_fval_direction_value (zl : list vec) (I : mask)
  (nu3 : list (list vec)) :
  Forall2 (fun nb zb => Forall (fun row : vec => length row = length zb) nb) nu3 zl ->
  same_shape zl I ->
  DualReLU.fval_direction false zl I (PyT (T3 nu3)) =
  Ok (Contrib (PyT (T2
    (zip_with (fun (pb : list vec) (ib : vec) => map (fun row => dot row ib) pb)
       (zip_with (fun (nb : list vec) (zb : vec) =>
                    map (fun row => zip_with Qmult (map clamp_min0 row) zb) nb)
                 nu3 zl)
       (mask_to_float I))))).
Proof.
  intros Hshape HI.
  pose proof (Forall2_length_eq _ _ _ Hshape) as Hlen.
  pose proof (Forall2_length_eq _ _ _ HI) as HlenI.
  unfold DualReLU.fval_direction. cbn [view_direction bind].
  unfold view_rows. rewrite <- Hlen, Nat.eqb_refl. cbn [bind].
  rewrite <- HlenI, <- Hlen, Nat.eqb_refl. cbn [bind].
  unfold bop3, unsqueeze1.
  rewrite bzip_same_length by (now rewrite !length_map).
  rewrite zipM_map.
  rewrite (zipM_Forall2 _ (fun (nb : list vec) (zb : vec) =>
             map (fun row => zip_with Qmult (map clamp_min0 row) zb) nb)).
  2:{ eapply Forall2_impl; [|exact Hshape]. intros nb zb Hnb. cbn beta.
      unfold bop2. rewrite bzip_broadcast_r, mapM_map.
      apply mapM_pure. eapply Forall_impl; [|exact Hnb]. intros row Hrow.
      cbn beta. apply bop1_same_length. now rewrite length_map. }
  cbn [bind]. unfold matmul_batch.
  assert (Hp : Forall2 (fun (pb : list vec) (ib : vec) =>
                          mapM (fun row => dot_strict row ib) pb =
                          Ok (map (fun row => dot row ib) pb))
                 (zip_with (fun (nb : list vec) (zb : vec) =>
                              map (fun row => zip_with Qmult (map clamp_min0 row) zb) nb)
                           nu3 zl)
                 (mask_to_float I)).
  { clear Hlen HlenI. revert I HI. unfold mask_to_float.
    induction Hshape as [|nb zb nu3 zl Hnb _ IH]; intros I HI;
      inversion HI as [|? ib ? I' Hzi HI']; subst; simpl; constructor.
    - apply mapM_pure. apply Forall_map. eapply Forall_impl; [|exact Hnb].
      intros row Hrow. cbn beta. unfold dot_strict.
      rewrite zip_with_length by (now rewrite length_map).
      rewrite !length_map, Hrow, Hzi. now rewrite Nat.eqb_refl.
    - now apply IH. }
  rewrite bzip_same_length by (exact (Forall2_length_eq _ _ _ Hp)).
  rewrite (zipM_Forall2 _ _ _ _ Hp). reflexivity.
Qed.

(** The ReLU term of the dual objective is never positive.  For the mask
    and slope [(I, d)] that the construction loop derives from the bounds
    [zl] and [zu], with at least one unstable activation, the operator
    [DualReLU(I, d, zl)] contributes, for every row [v] of the direction
    [nu_prev], the sum over the unstable activations of [zl * max(v, 0)],
    which is at most zero. *)
Theorem DualReLU_term_nonpositive (zl zu : list vec) (I : mask) (d : list vec)
  (o : DualReLU.t) (nu : option pyval) (nu3 : list (list vec)) :
  same_shape zl zu ->
  relu_region zl zu = Ok (I, d) ->
  (0 < mask_sum I)%nat ->
  DualReLU.init I d zl = Ok o ->
  Forall2 (fun nb zb => Forall (fun row : vec => length row = length zb) nb) nu3 zl ->
  exists r,
    fval (OpReLU o) nu (Some (PyT (T3 nu3))) = Ok (Contrib (PyT (T2 r))) /\
    (forall b j v zb ib,
        at2 nu3 b j = Some v -> nth_error zl b = Some zb ->
        nth_error I b = Some ib ->
        at2 r b j =
        Some (dot (zip_with Qmult (map clamp_min0 v) zb)
                  (map (fun i : bool => if i then 1 else 0) ib))) /\
    (forall b j q, at2 r b j = Some q -> q <= 0).
Proof.
  intros Hzu Hreg Hsum Hinit Hshape.
  rewrite (relu_region_pointwise zl zu Hzu) in Hreg. injection Hreg as <- <-.
  set (I := zip_with (zip_with unstable) zl zu) in *.
  assert (HI : same_shape zl I).
  { unfold I, same_shape. clear - Hzu. induction Hzu; simpl; constructor; auto.
    now rewrite zip_with_length. }
  assert (Ho : DualReLU.I_empty o = false /\ DualReLU.zl o = zl /\ DualReLU.I o = I).
  { unfold DualReLU.init in Hinit. destruct (zip_with (zip_with slope) zl zu);
      [discriminate|].
    apply Nat.ltb_lt in Hsum. rewrite Hsum in Hinit.
    repeat inv_bind Hinit. injection Hinit as <-. auto. }
  destruct Ho as (He & Hz & Hi).
  eexists. split; [|split].
  - cbn [fval]. unfold DualReLU.fval. rewrite He, Hz, Hi.
    now apply DualReLU_fval_direction_value.
  - intros b j v zb ib Hv Hzb Hib. unfold at2 in *. unfold mask_to_float.
    destruct (nth_error nu3 b) as [nb|] eqn:Hnb; [|discriminate].
    rewrite (nth_error_zip_with _ _ _ b _ _
               (nth_error_zip_with _ _ _ b _ _ Hnb Hzb)
               (map_nth_error _ _ _ Hib)).
    rewrite (map_nth_error _ _ _ (map_nth_error _ _ _ Hv)). reflexivity.
  - intros b j q Hq. unfold at2 in Hq.
    destruct (nth_error _ b) as [rb|] eqn:Hrb in Hq; [|discriminate].
    apply nth_error_zip_with_inv in Hrb as (pb & ib' & Hpb & Hib' & ->).
    apply nth_error_zip_with_inv in Hpb as (nb & zb & Hnb & Hzb & ->).
    unfold mask_to_float in Hib'. rewrite nth_error_map in Hib'.
    destruct (nth_error I b) as [ib|] eqn:Hib; [|discriminate].
    injection Hib' as <-.
    rewrite map_map, nth_error_map in Hq.
    destruct (@nth_error (list Q) nb j) as [v|]; simpl in Hq; [|discriminate].
    injection Hq as <-.
    apply dot_masked_nonpos. intros f Hf.
    unfold I in Hib.
    apply nth_error_zip_with_inv in Hib as (zb' & ub & Hzb' & Hub & ->).
    pose proof (eq_trans (eq_sym Hzb') Hzb) as Heq. injection Heq as ->.
    apply nth_error_zip_with_inv in Hf as (l & u & Hl & Hu & Hun).
    exists l. split; [exact Hl|]. symmetry in Hun.
    apply unstable_iff in Hun as [_ Hlt]. pose proof tol_pos. lra.
Qed.

Lemma DualReLU_term_nonpositive_witness :
  exists o r,
    DualReLU.init [[true; false; false]]
      [[0 + 1 / (1 - -1); 1; 0]] [[-1; 1 # 2; -3]] = Ok o /\
    fval (OpReLU o) None (Some (PyT (T3 [[[2; 1; 1]; [-1; 0; 5]]]))) =
      Ok (Contrib (PyT (T2 r))) /\
    (forall b j q, at2 r b j = Some q -> q <= 0).
Proof.
  destruct (DualReLU.init [[true; false; false]]
              [[0 + 1 / (1 - -1); 1; 0]] [[-1; 1 # 2; -3]]) as [o|] eqn:H;
    [|vm_compute in H; discriminate].
  destruct (DualReLU_term_nonpositive [[-1; 1 # 2; -3]] [[1; 2; -2]]
              [[true; false; false]] [[0 + 1 / (1 - -1); 1; 0]] o None
              [[[2; 1; 1]; [-1; 0; 5]]]) as [r [Hr [_ Hle]]].
  - repeat constructor.
  - reflexivity.
  - vm_compute. lia.
  - exact H.
  - repeat constructor.
  - exists o, r. repeat split; assumption.
Defined.


(** ** Bounds are never inverted *)

Lemma zipM_rel {A A' B B' C C' : Type} (F : A -> B -> result C)
  (G : A' -> B' -> result C') (RA : A -> A' -> Prop) (RB : B -> B' -> Prop)
  (RC : C -> C' -> Prop) :
  (forall x x' y y' a b,
      RA x x' -> RB y y' -> F x y = Ok a -> G x' y' = Ok b -> RC a b) ->
  forall xs xs', Forall2 RA xs xs' ->
  forall ys ys' r1 r2, Forall2 RB ys ys' ->
    zipM F xs ys = Ok r1 -> zipM G xs' ys' = Ok r2 -> Forall2 RC r1 r2.
Proof.
  intros H xs xs' HA. induction HA as [|x x' xs xs' Hx _ IH];
    intros ys ys' r1 r2 HB H1 H2.
  - simpl in *. injection H1 as <-. injection H2 as <-. constructor.
  - destruct HB as [|y y' ys ys' Hy HB]; simpl in *.
    + injection H1 as <-. injection H2 as <-. constructor.
    + inv_bind H1. inv_bind H1. injection H1 as <-.
      inv_bind H2. inv_bind H2. injection H2 as <-.
      constructor; eauto.
Qed.

Lemma mapM_rel {A A' C C' : Type} (F : A -> result C) (G : A' -> result C')
  (RA : A -> A' -> Prop) (RC : C -> C' -> Prop) :
  (forall x x' a b, RA x x' -> F x = Ok a -> G x' = Ok b -> RC a b) ->
  forall xs xs' r1 r2, Forall2 RA xs xs' ->
    mapM F xs = Ok r1 -> mapM G xs' = Ok r2 -> Forall2 RC r1 r2.
Proof.
  intros H xs xs' r1 r2 HA. revert r1 r2.
  induction HA as [|x x' xs xs' Hx _ IH]; intros r1 r2 H1 H2; simpl in *.
  - injection H1 as <-. injection H2 as <-. constructor.
  - inv_bind H1. inv_bind H1. injection H1 as <-.
    inv_bind H2. inv_bind H2. injection H2 as <-.
    constructor; eauto.
Qed.

(** Broadcasting preserves a relation between the operands. *)
Lemma bzip_rel {A A' B B' C C' : Type} (F : A -> B -> result C)
  (G : A' -> B' -> result C') (RA : A -> A' -> Prop) (RB : B -> B' -> Prop)
  (RC : C -> C' -> Prop) :
  (forall x x' y y' a b,
      RA x x' -> RB y y' -> F x y = Ok a -> G x' y' = Ok b -> RC a b) ->
  forall xs xs' ys ys' r1 r2,
    Forall2 RA xs xs' -> Forall2 RB ys ys' ->
    bzip F xs ys = Ok r1 -> bzip G xs' ys' = Ok r2 -> Forall2 RC r1 r2.
Proof.
  intros H xs xs' ys ys' r1 r2 HA HB H1 H2. unfold bzip in *.
  rewrite <- (Forall2_length_eq _ _ _ HA), <- (Forall2_length_eq _ _ _ HB) in H2.
  destruct (length xs =? length ys)%nat.
  - eapply (zipM_rel F G RA RB RC); eauto.
  - destruct HA as [|x x' xs xs' Hx HA].
    + destruct HB as [|y y' ys ys' Hy HB]; [discriminate|].
      destruct HB; [|discriminate]. simpl in *.
      injection H1 as <-. injection H2 as <-. constructor.
    + destruct HA as [|x2 x2' xs xs' Hx2 HA].
      * eapply (mapM_rel (F x) (G x') RB RC); eauto.
      * destruct HB as [|y y' ys ys' Hy HB]; [discriminate|].
        destruct HB; [|discriminate].
        eapply (mapM_rel (fun x => F x y) (fun x => G x y') RA RC);
          [| |exact H1|exact H2]; [eauto|].
        repeat constructor; assumption.
Qed.

Section TensorRelations.

Variables (f g : Q -> Q -> Q) (RA RB RC : Q -> Q -> Prop).
Hypothesis Hfg : forall a a' b b', RA a a' -> RB b b' -> RC (f a b) (g a' b').

Lemma bop1_rel (u u' v v' r1 r2 : vec) :
  Forall2 RA u u' -> Forall2 RB v v' ->
  bop1 f u v = Ok r1 -> bop1 g u' v' = Ok r2 -> Forall2 RC r1 r2.
Proof.
  unfold bop1. apply bzip_rel. intros x x' y y' a b Hx Hy Ha Hb.
  injection Ha as <-. injection Hb as <-. now apply Hfg.
Qed.

Lemma bop2_rel (u u' v v' r1 r2 : list vec) :
  Forall2 (Forall2 RA) u u' -> Forall2 (Forall2 RB) v v' ->
  bop2 f u v = Ok r1 -> bop2 g u' v' = Ok r2 -> Forall2 (Forall2 RC) r1 r2.
Proof.
  unfold bop2. apply bzip_rel. intros x x' y y' a b Hx Hy Ha Hb.
  eapply bop1_rel; eauto.
Qed.

Lemma bop3_rel (u u' v v' r1 r2 : list (list vec)) :
  Forall2 (Forall2 (Forall2 RA)) u u' -> Forall2 (Forall2 (Forall2 RB)) v v' ->
  bop3 f u v = Ok r1 -> bop3 g u' v' = Ok r2 ->
  Forall2 (Forall2 (Forall2 RC)) r1 r2.
Proof.
  unfold bop3. apply bzip_rel. intros x x' y y' a b Hx Hy Ha Hb.
  eapply bop2_rel; eauto.
Qed.

Lemma tbop_rel (x x' y y' r1 r2 : tensor) :
  trel RA x x' -> trel RB y y' ->
  tbop f x y = Ok r1 -> tbop g x' y' = Ok r2 -> trel RC r1 r2.
Proof.
  intros Hx Hy H1 H2.
  destruct x, x'; simpl in Hx; try contradiction;
    destruct y, y'; simpl in Hy; try contradiction;
    cbn [tbop] in H1, H2; inv_bind H1; inv_bind H2;
    injection H1 as <-; injection H2 as <-; simpl;
    first [ eapply bop1_rel; [| |eassumption|eassumption]
          | eapply bop2_rel; [| |eassumption|eassumption]
          | eapply bop3_rel; [| |eassumption|eassumption] ];
    repeat constructor; assumption.
Qed.

End TensorRelations.

Lemma Forall2_diag {A : Type} (R : A -> A -> Prop) (P : A -> Prop) (l : list A) :
  (forall x, P x -> R x x) -> Forall P l -> Forall2 R l l.
Proof. intros H. induction 1; constructor; auto. Qed.

Lemma trel_diag (R : Q -> Q -> Prop) (P : Q -> Prop) (t : tensor) :
  (forall x, P x -> R x x) -> tall P t -> trel R t t.
Proof.
  intros H. destruct t; simpl; intros Ht.
  - eapply Forall2_diag; eauto.
  - eapply Forall2_diag; [|exact Ht]. intros. eapply Forall2_diag; eauto.
  - eapply Forall2_diag; [|exact Ht]. intros. eapply Forall2_diag; [|eassumption].
    intros. eapply Forall2_diag; eauto.
Qed.

Lemma tall_True (t : tensor) : tall (fun _ => True) t.
Proof.
  destruct t; simpl; repeat (apply Forall_forall; intros ? _); exact I.
Qed.

Lemma Forall2_map_both {A B : Type} (R : B -> B -> Prop) (f g : A -> B)
  (l : list A) :
  Forall (fun x => R (f x) (g x)) l -> Forall2 R (map f l) (map g l).
Proof. induction 1; simpl; constructor; auto. Qed.

Lemma tmap_rel (R : Q -> Q -> Prop) (P : Q -> Prop) (f g : Q -> Q) (t : tensor) :
  (forall x, P x -> R (f x) (g x)) -> tall P t -> trel R (tmap f t) (tmap g t).
Proof.
  intros H. destruct t; simpl; intros Ht.
  - apply Forall2_map_both. eapply Forall_impl; eauto.
  - apply Forall2_map_both. eapply Forall_impl; [|exact Ht]. intros.
    apply Forall2_map_both. eapply Forall_impl; eauto.
  - apply Forall2_map_both. eapply Forall_impl; [|exact Ht]. intros.
    apply Forall2_map_both. eapply Forall_impl; [|eassumption]. intros.
    apply Forall2_map_both. eapply Forall_impl; eauto.
Qed.

Lemma Forall2_map_l_diag {A : Type} (R : A -> A -> Prop) (f : A -> A) (l : list A) :
  Forall (fun x => R (f x) x) l -> Forall2 R (map f l) l.
Proof. induction 1; simpl; constructor; auto. Qed.

Lemma tmap_rel_l (R : Q -> Q -> Prop) (P : Q -> Prop) (f : Q -> Q) (t : tensor) :
  (forall x, P x -> R (f x) x) -> tall P t -> trel R (tmap f t) t.
Proof.
  intros H. destruct t; simpl; intros Ht.
  - apply Forall2_map_l_diag. eapply Forall_impl; eauto.
  - apply Forall2_map_l_diag. eapply Forall_impl; [|exact Ht]. intros.
    apply Forall2_map_l_diag. eapply Forall_impl; eauto.
  - apply Forall2_map_l_diag. eapply Forall_impl; [|exact Ht]. intros.
    apply Forall2_map_l_diag. eapply Forall_impl; [|eassumption]. intros.
    apply Forall2_map_l_diag. eapply Forall_impl; eauto.
Qed.

Lemma Forall2_map_mono {A : Type} (R R' : A -> A -> Prop) (f : A -> A)
  (l l' : list A) :
  (forall x y, R x y -> R' (f x) (f y)) ->
  Forall2 R l l' -> Forall2 R' (map f l) (map f l').
Proof. intros H. induction 1; simpl; constructor; auto. Qed.

Lemma tmap_mono (R R' : Q -> Q -> Prop) (f : Q -> Q) (s t : tensor) :
  (forall x y, R x y -> R' (f x) (f y)) -> trel R s t -> trel R' (tmap f s) (tmap f t).
Proof.
  intros H. destruct s, t; simpl; try contradiction; intros Hst.
  - eapply Forall2_map_mono; eauto.
  - eapply Forall2_map_mono; [|exact Hst]. intros.
    eapply Forall2_map_mono; eauto.
  - eapply Forall2_map_mono; [|exact Hst]. intros.
    eapply Forall2_map_mono; [|eassumption]. intros.
    eapply Forall2_map_mono; eauto.
Qed.

Lemma tall_tmap (P P' : Q -> Prop) (f : Q -> Q) (t : tensor) :
  (forall x, P x -> P' (f x)) -> tall P t -> tall P' (tmap f t).
Proof.
  intros H. destruct t; simpl; intros Ht.
  - apply Forall_map. eapply Forall_impl; eauto.
  - apply Forall_map. eapply Forall_impl; [|exact Ht]. intros.
    apply Forall_map. eapply Forall_impl; eauto.
  - apply Forall_map. eapply Forall_impl; [|exact Ht]. intros.
    apply Forall_map. eapply Forall_impl; [|eassumption]. intros.
    apply Forall_map. eapply Forall_impl; eauto.
Qed.

Lemma sumQ_nonneg (l : vec) : Forall (fun q => 0 <= q) l -> 0 <= sumQ l.
Proof. induction 1; simpl; [apply Qle_refl | lra]. Qed.

Lemma transpose_nonneg (rows : list vec) :
  Forall (Forall (fun q => 0 <= q)) rows ->
  Forall (Forall (fun q => 0 <= q)) (transpose rows).
Proof.
  intros H. unfold transpose. apply Forall_map. apply Forall_forall. intros i _.
  apply Forall_map. eapply Forall_impl; [|exact H]. intros row Hrow. cbn beta.
  destruct (nth_in_or_default i row 0) as [Hin| ->]; [|apply Qle_refl].
  rewrite Forall_forall in Hrow. now apply Hrow.
Qed.

Lemma tabs_nonneg (t : tensor) : tall (fun q => 0 <= q) (tabs t).
Proof.
  unfold tabs. apply (tall_tmap (fun _ => True)); [|apply tall_True].
  intros x _. apply Qabs_nonneg.
Qed.

Lemma sum_dim1_nonneg (t l1 : tensor) :
  tall (fun q => 0 <= q) t -> sum_dim1 t = Ok l1 -> tall (fun q => 0 <= q) l1.
Proof.
  destruct t; simpl; intros Ht H; try discriminate; injection H as <-; simpl.
  - apply Forall_map. eapply Forall_impl; [|exact Ht]. intros. now apply sumQ_nonneg.
  - apply Forall_map. eapply Forall_impl; [|exact Ht]. intros rows Hrows. cbn beta.
    apply Forall_map. eapply Forall_impl; [|apply transpose_nonneg; exact Hrows].
    intros. now apply sumQ_nonneg.
Qed.

Lemma insert_sorted_Forall (P : Q -> Prop) (q : Q) (l : list Q) :
  P q -> Forall P l -> Forall P (insert_sorted q l).
Proof.
  intros Hq. induction 1 as [|x l Hx Hl IH]; simpl; [now constructor|].
  destruct (Qle_bool q x); repeat constructor; auto.
Qed.

Lemma sort_Forall (P : Q -> Prop) (l : list Q) : Forall P l -> Forall P (sort l).
Proof.
  unfold sort. induction 1; simpl; [constructor|]. now apply insert_sorted_Forall.
Qed.

Lemma median_nonneg (l : list Q) (q : Q) :
  Forall (fun q => 0 <= q) l -> median l = Ok q -> 0 <= q.
Proof.
  intros Hl H. unfold median in H. destruct l; [discriminate|]. injection H as <-.
  apply sort_Forall in Hl.
  match goal with
  | |- 0 <= nth ?k ?s 0 => destruct (nth_in_or_default k s 0) as [Hin|Hd]
  end; [|rewrite Hd; apply Qle_refl].
  rewrite Forall_forall in Hl. now apply Hl.
Qed.

Lemma mapM_Forall {A B : Type} (F : A -> result B) (P : A -> Prop) (Q' : B -> Prop)
  (l : list A) (r : list B) :
  (forall x y, P x -> F x = Ok y -> Q' y) ->
  Forall P l -> mapM F l = Ok r -> Forall Q' r.
Proof.
  intros H Hl. revert r. induction Hl as [|x l Hx _ IH]; intros r Hr; simpl in Hr.
  - injection Hr as <-. constructor.
  - inv_bind Hr. inv_bind Hr. injection Hr as <-. constructor; eauto.
Qed.

Lemma median_dim1_nonneg (t l1 : tensor) :
  tall (fun q => 0 <= q) t -> median_dim1 (PyT t) = Ok l1 ->
  tall (fun q => 0 <= q) l1.
Proof.
  destruct t; simpl; intros Ht H; try discriminate; inv_bind H;
    injection H as <-; simpl.
  - eapply mapM_Forall; [|exact Ht|exact Ha]. intros. eapply median_nonneg; eauto.
  - eapply mapM_Forall; [|exact Ht|exact Ha]. intros rows r Hrows Hr. cbn beta in *.
    destruct rows; [discriminate|].
    eapply mapM_Forall; [|apply transpose_nonneg; exact Hrows|exact Hr].
    intros. eapply median_nonneg; eauto.
Qed.

(** [x - c <= x + c] entry by entry for [c] without negative entries. *)
Lemma pysub_pyadd_ordered (x : pyval) (c lo hi : tensor) :
  tall (fun q => 0 <= q) c ->
  pysub_t x c = Ok lo -> pyadd_t x c = Ok hi -> trel Qle lo hi.
Proof.
  intros Hc Hlo Hhi. destruct x as [|a]; simpl in *.
  - injection Hlo as <-. injection Hhi as <-.
    apply (tmap_rel Qle (fun q => 0 <= q)); [|exact Hc]. intros q Hq. lra.
  - unfold tsub, tadd in *.
    eapply (tbop_rel Qminus Qplus eq (fun b b' => b = b' /\ 0 <= b) Qle);
      [| | |exact Hlo|exact Hhi].
    + intros p p' b b' <- [<- Hb]. lra.
    + apply (trel_diag eq (fun _ => True)); [reflexivity | apply tall_True].
    + apply (trel_diag _ (fun q => 0 <= q)); [auto | exact Hc].
Qed.

Lemma tscale_nonneg (eps : Q) (t : tensor) :
  0 <= eps -> tall (fun q => 0 <= q) t -> tall (fun q => 0 <= q) (tscale eps t).
Proof.
  intros He. unfold tscale. apply tall_tmap. intros x Hx.
  now apply Qmult_le_0_compat.
Qed.

Lemma pyle_refl (v : pyval) : pyle v v.
Proof.
  destruct v; simpl; [exact I|].
  apply (trel_diag Qle (fun _ => True)); [intros; apply Qle_refl | apply tall_True].
Qed.

Lemma DualLinear_fval_equal (o : DualLinear.t) (nu_prev : option pyval) (f : fret) :
  DualLinear.fval o None nu_prev = Ok f -> exists b, f = Bounds b b.
Proof.
  unfold DualLinear.fval. destruct (DualLinear.bias o).
  - intros H. inv_bind H. injection H as <-. eauto.
  - intros H. injection H as <-. eauto.
Qed.

Lemma DualDense_fval_equal (o : DualDense.t) (nu_prev : option pyval)
  (lo hi : pyval) :
  DualDense.fval o None nu_prev = Ok (Bounds lo hi) -> lo = hi.
Proof.
  unfold DualDense.fval. intros H. inv_bind H.
  assert (Hall : Forall (fun f => exists b, f = Bounds b b) a).
  { eapply (mapM_Forall _ (fun _ : subop => True));
      [|apply Forall_forall; intros ? _; exact I|exact Ha].
    intros s f _ Hf. destruct s.
    - exact (DualLinear_fval_equal o0 nu_prev f Hf).
    - exact (DualLinear_fval_equal o0 nu_prev f Hf).
    - simpl in Hf. injection Hf as <-. eauto. }
  destruct a as [|f0 a']; [discriminate|].
  inv_bind H. inv_bind H. inv_bind H. injection H as <- <-.
  assert (Heq : map fst a = map snd a).
  { clear - Hall Ha0. revert a Ha0.
    induction Hall as [|f fs [b ->] _ IH]; intros lu Hlu; simpl in Hlu.
    - injection Hlu as <-. reflexivity.
    - inv_bind Hlu. injection Hlu as <-. simpl. f_equal. now apply IH. }
  rewrite Heq in Ha1. congruence.
Qed.

(** The bounds an operator returns without a direction are never inverted:
    the lower bound is at most the upper bound in every entry.  This holds
    for every operator class but the exact [DualReLU] with unstable
    activations, for a ball of radius at least zero. *)
Theorem bounds_never_inverted (op : operator) (lo hi : pyval) :
  match op with
  | OpInfBall o => 0 <= InfBall.epsilon o
  | OpInfBallProj o => 0 <= InfBallProj.epsilon o
  | OpReLU o => DualReLU.I_empty o = true
  | _ => True
  end ->
  fval op None None = Ok (Bounds lo hi) ->
  pyle lo hi.
Proof.
  intros Hop H. destruct op; cbn [fval] in H.
  - (* InfBall *)
    unfold InfBall.fval in H. repeat inv_bind H. injection H as <- <-. simpl.
    eapply pysub_pyadd_ordered; [|eassumption|eassumption].
    apply tscale_nonneg; [exact Hop|].
    eapply sum_dim1_nonneg; [apply tabs_nonneg | eassumption].
  - (* InfBallProj *)
    unfold InfBallProj.fval in H. repeat inv_bind H. injection H as <- <-. simpl.
    eapply pysub_pyadd_ordered; [|eassumption|eassumption].
    apply tscale_nonneg; [exact Hop|].
    eapply median_dim1_nonneg; [apply tabs_nonneg | eassumption].
  - apply DualLinear_fval_equal in H as [b Hb]. injection Hb as -> ->.
    apply pyle_refl.
  - apply DualLinear_fval_equal in H as [b Hb]. injection Hb as -> ->.
    apply pyle_refl.
  - simpl in H. injection H as <- <-. exact I.
  - unfold DualReLU.fval in H. rewrite Hop in H. injection H as <- <-. exact I.
  - (* DualReLUProj *)
    unfold DualReLUProj.fval in H.
    destruct (DualReLUProj.I_empty o); [injection H as <- <-; exact I|].
    repeat inv_bind H. injection H as <- <-. simpl.
    pose proof (median_dim1_nonneg _ _ (tabs_nonneg a0) Ha1) as Hn.
    apply (tmap_mono Qle Qle (fun q => q / 2)).
    { intros x y Hxy. unfold Qdiv. apply Qmult_le_compat_r; [exact Hxy|].
      unfold Qle. simpl. lia. }
    assert (Hneg : trel Qle (tneg a1) a1).
    { unfold tneg. apply (tmap_rel_l Qle (fun q => 0 <= q)); [|exact Hn].
      intros x Hx. lra. }
    destruct a2 as [|no]; simpl in Ha3, Ha4.
    + injection Ha3 as <-. injection Ha4 as <-.
      apply (tmap_mono Qle Qle (fun q => q - 0)); [|exact Hneg].
      intros x y Hxy. lra.
    + unfold tsub in *.
      eapply (tbop_rel Qminus Qminus Qle eq Qle); [| | |exact Ha3|exact Ha4].
      * intros p p' b b' Hp <-. lra.
      * exact Hneg.
      * apply (trel_diag eq (fun _ => True)); [reflexivity | apply tall_True].
  - apply DualDense_fval_equal in H. subst. apply pyle_refl.
  - unfold DualBatchNorm2d.fval in H. inv_bind H. injection H as <- <-.
    apply pyle_refl.
  - simpl in H. injection H as <- <-. exact I.
Qed.

Lemma bounds_never_inverted_witness :
  exists lo hi,
    fval (OpReLUProj Example.relu_proj) None None = Ok (Bounds lo hi) /\
    pyle lo hi.
Proof.
  destruct (fval (OpReLUProj Example.relu_proj) None None) as [[lo hi|v]|] eqn:H;
    try (vm_compute in H; discriminate).
  exists lo, hi. split; [reflexivity|].
  exact (bounds_never_inverted (OpReLUProj Example.relu_proj) lo hi I H).
Defined.


(** ** The bounds of the exact ReLU operator *)

Lemma Forall2_diag_Forall {A : Type} (P : A -> Prop) (l : list A) :
  Forall2 (fun x _ => P x) l l -> Forall P l.
Proof.
  induction l as [|a l IH]; intros H; [constructor|].
  inversion H; subst. constructor; auto.
Qed.

Lemma bzip_Forall {A B C : Type} (F : A -> B -> result C) (PA : A -> Prop)
  (PB : B -> Prop) (PC : C -> Prop) (xs : list A) (ys : list B) (r : list C) :
  (forall x y c, PA x -> PB y -> F x y = Ok c -> PC c) ->
  Forall PA xs -> Forall PB ys -> bzip F xs ys = Ok r -> Forall PC r.
Proof.
  intros H Hx Hy Hr. apply Forall2_diag_Forall.
  eapply (bzip_rel F F (fun x _ => PA x) (fun y _ => PB y) (fun c _ => PC c));
    [| | |exact Hr|exact Hr].
  - intros x x' y y' a b Hpx Hpy Ha _. eauto.
  - eapply Forall2_diag; [|exact Hx]. auto.
  - eapply Forall2_diag; [|exact Hy]. auto.
Qed.

Lemma bop2_Forall (f : Q -> Q -> Q) (PA PB PC : Q -> Prop) (u v r : list vec) :
  (forall x y, PA x -> PB y -> PC (f x y)) ->
  Forall (Forall PA) u -> Forall (Forall PB) v ->
  bop2 f u v = Ok r -> Forall (Forall PC) r.
Proof.
  intros H. unfold bop2.
  apply (bzip_Forall _ (Forall PA) (Forall PB) (Forall PC)). intros x y c Hx Hy.
  unfold bop1. apply (bzip_Forall _ PA PB PC); [|exact Hx|exact Hy].
  intros a b c0 Ha Hb Hc. injection Hc as <-. auto.
Qed.

Lemma dot_nonpos (u : vec) :
  forall v : vec,
    Forall (fun q => q <= 0) u -> Forall (fun q => 0 <= q) v -> dot u v <= 0.
Proof.
  induction u as [|a u IH]; intros [|b v] Hu Hv; simpl; try apply Qle_refl.
  inversion Hu; subst. inversion Hv; subst.
  pose proof (IH v H2 H4) as Hrest.
  assert (Hp : 0 <= (- a) * b) by (apply Qmult_le_0_compat; lra).
  setoid_replace (a * b) with (- (- a * b)) by ring. lra.
Qed.

Lemma transpose_Forall (P : Q -> Prop) (rows : list vec) :
  P 0 -> Forall (Forall P) rows -> Forall (Forall P) (transpose rows).
Proof.
  intros H0 H. unfold transpose. apply Forall_map. apply Forall_forall. intros i _.
  apply Forall_map. eapply Forall_impl; [|exact H]. intros row Hrow. cbn beta.
  destruct (nth_in_or_default i row 0) as [Hin| ->]; [|exact H0].
  rewrite Forall_forall in Hrow. now apply Hrow.
Qed.

Lemma mm_nonpos (a Ic r : list vec) :
  Forall (Forall (fun q => q <= 0)) a ->
  Forall (Forall (fun q => 0 <= q)) Ic ->
  mm a Ic = Ok r ->
  Forall (Forall (fun q => q <= 0)) r /\
  length r = length a /\
  Forall (fun row => length row = features Ic) r.
Proof.
  intros Ha HIc Hr. unfold mm in Hr. split; [|split].
  - eapply (mapM_Forall _ (Forall (fun q => q <= 0))); [|exact Ha|exact Hr].
    intros row y Hrow Hy. cbn beta in Hy.
    destruct (length row =? length Ic)%nat; [|discriminate]. injection Hy as <-.
    apply Forall_map. eapply Forall_impl;
      [|apply (transpose_Forall (fun q => 0 <= q)); [apply Qle_refl | exact HIc]].
    intros col Hcol. now apply dot_nonpos.
  - now apply mapM_length in Hr.
  - eapply (mapM_Forall _ (fun _ => True));
      [|apply Forall_forall; intros ? _; exact I|exact Hr].
    intros row y _ Hy. cbn beta in Hy.
    destruct (length row =? length Ic)%nat; [|discriminate]. injection Hy as <-.
    unfold transpose. now rewrite !length_map, length_seq.
Qed.

Lemma transpose_same_shape (m m' : list vec) (k : nat) :
  length m = length m' ->
  Forall (fun row => length row = k) m ->
  Forall (fun row => length row = k) m' ->
  same_shape (transpose m) (transpose m').
Proof.
  intros Hl Hm Hm'. unfold same_shape, transpose.
  assert (Hf : features m = features m').
  { unfold features. destruct m as [|r m], m' as [|r' m']; try discriminate;
      [reflexivity|]. simpl. apply Forall_inv in Hm, Hm'. congruence. }
  rewrite Hf. generalize (seq 0 (features m')). intros l.
  induction l; simpl; constructor; auto. now rewrite !length_map.
Qed.

Lemma signs_ordered (X Y : list vec) :
  same_shape X Y ->
  Forall (Forall (fun q => q <= 0)) X ->
  Forall (Forall (fun q => 0 <= q)) Y ->
  Forall2 (Forall2 Qle) X Y.
Proof.
  unfold same_shape. induction 1 as [|x y X Y Hxy _ IH]; intros HX HY;
    constructor.
  - apply Forall_inv in HX, HY. clear - Hxy HX HY. revert y Hxy HY.
    induction HX as [|a x Ha _ IHx]; intros [|b y] Hxy HY; simpl in *;
      try discriminate; constructor.
    + apply Forall_inv in HY. lra.
    + apply IHx; [lia | now apply Forall_inv_tail in HY].
  - apply IH; [now apply Forall_inv_tail in HX | now apply Forall_inv_tail in HY].
Qed.

Lemma Forall2_firstn {A B : Type} (R : A -> B -> Prop) (n : nat) (l : list A)
  (l' : list B) : Forall2 R l l' -> Forall2 R (firstn n l) (firstn n l').
Proof.
  intros H. revert n. induction H; intros [|n]; simpl; constructor; auto.
Qed.

Lemma Forall2_skipn {A B : Type} (R : A -> B -> Prop) (n : nat) (l : list A)
  (l' : list B) : Forall2 R l l' -> Forall2 R (skipn n l) (skipn n l').
Proof.
  intros H. revert n. induction H; intros [|n]; simpl; auto.
Qed.

Lemma chunks_rel {A B : Type} (R : A -> B -> Prop) (k n : nat) :
  forall (l : list A) (l' : list B),
    Forall2 R l l' -> Forall2 (Forall2 R) (chunks k n l) (chunks k n l').
Proof.
  induction n as [|n IH]; intros l l' H; simpl; constructor.
  - now apply Forall2_firstn.
  - apply IH. now apply Forall2_skipn.
Qed.

Lemma Forall2_concat {A B : Type} (R : A -> B -> Prop) (m : list (list A))
  (m' : list (list B)) :
  Forall2 (Forall2 R) m m' -> Forall2 R (concat m) (concat m').
Proof. induction 1; simpl; [constructor|]. now apply Forall2_app. Qed.

Lemma view_like_rel (R : Q -> Q -> Prop) (lt : tensor) (m m' : list vec) :
  Forall2 (Forall2 R) m m' -> trel R (view_like lt m) (view_like lt m').
Proof.
  intros H. destruct lt; simpl.
  - now apply Forall2_concat.
  - exact H.
  - induction H; simpl; constructor; auto. now apply chunks_rel.
Qed.

Lemma Forall_firstn_skipn {A : Type} (P : A -> Prop) (n : nat) (l : list A) :
  Forall P l -> Forall P (firstn n l) /\ Forall P (skipn n l).
Proof.
  intros H. revert n. induction H as [|a l Ha Hl IH]; intros [|n]; simpl;
    repeat constructor; auto; apply IH.
Qed.

Lemma chunks_Forall {A : Type} (P : A -> Prop) (k n : nat) :
  forall l : list A, Forall P l -> Forall (Forall P) (chunks k n l).
Proof.
  induction n as [|n IH]; intros l H; simpl; constructor.
  - now apply Forall_firstn_skipn.
  - apply IH. now apply Forall_firstn_skipn.
Qed.

Lemma concat_Forall {A : Type} (P : A -> Prop) (m : list (list A)) :
  Forall (Forall P) m -> Forall P (concat m).
Proof. induction 1; simpl; [constructor|]. apply Forall_app. now split. Qed.

Lemma view_like_tall (P : Q -> Prop) (lt : tensor) (m : list vec) :
  Forall (Forall P) m -> tall P (view_like lt m).
Proof.
  intros H. destruct lt; simpl.
  - now apply concat_Forall.
  - exact H.
  - apply Forall_map. eapply Forall_impl; [|exact H]. intros row Hrow.
    now apply chunks_Forall.
Qed.

Lemma select_row_Forall (P : Q -> Prop) (v : vec) :
  forall (m : list bool) (r : vec),
    select_row v m = Ok r ->
    (forall f, nth_error m f = Some true ->
               exists z, nth_error v f = Some z /\ P z) ->
    Forall P r.
Proof.
  induction v as [|q v IH]; intros [|b m] r Hr H; simpl in Hr; try discriminate.
  - injection Hr as <-. constructor.
  - inv_bind Hr. injection Hr as <-.
    assert (Hall : Forall P a)
      by (apply (IH m); [exact Ha | intros f Hf; exact (H (S f) Hf)]).
    destruct b; [|exact Hall]. constructor; [|exact Hall].
    destruct (H 0%nat eq_refl) as [z [Hz HP]]. now injection Hz as <-.
Qed.

Lemma masked_select_Forall (P : Q -> Prop) (t : list vec) :
  forall (I : mask) (r : vec),
    masked_select t I = Ok r ->
    (forall b f, at2 I b f = Some true ->
                 exists z, at2 t b f = Some z /\ P z) ->
    Forall P r.
Proof.
  induction t as [|v t IH]; intros [|m I] r Hr H; simpl in Hr; try discriminate.
  - injection Hr as <-. constructor.
  - inv_bind Hr. inv_bind Hr. injection Hr as <-. apply Forall_app. split.
    + eapply select_row_Forall; [exact Ha|]. intros f Hf. exact (H 0%nat f Hf).
    + eapply IH; [exact Ha0|]. intros b f Hf. exact (H (S b) f Hf).
Qed.

Lemma one_hot_nonneg (n j : nat) (q : Q) :
  0 <= q -> Forall (fun x => 0 <= x) (one_hot n j q).
Proof.
  intros Hq. unfold one_hot. apply Forall_map. apply Forall_forall. intros i _.
  destruct (i =? j)%nat; [exact Hq | apply Qle_refl].
Qed.

Lemma DualReLU_init_fields (I : mask) (d zl : list vec) (o : DualReLU.t) :
  DualReLU.init I d zl = Ok o ->
  DualReLU.I o = I /\ DualReLU.zl o = zl /\
  Forall (Forall (fun q => 0 <= q)) (DualReLU.I_collapse o).
Proof.
  unfold DualReLU.init. destruct d as [|d0 d']; [discriminate|].
  destruct (0 <? mask_sum I)%nat.
  - intros H. inv_bind H. inv_bind H. inv_bind H. inv_bind H. injection H as <-.
    simpl. repeat split.
    eapply (mapM_Forall _ (fun _ => True));
      [|apply Forall_forall; intros ? _; exact Logic.I|exact Ha2].
    intros bf row _ Hrow. cbn beta in Hrow.
    destruct (fst bf <? length zl)%nat; [|discriminate]. injection Hrow as <-.
    apply one_hot_nonneg. unfold Qle. simpl. lia.
  - intros H. injection H as <-. simpl. repeat split. constructor.
Qed.

Lemma invoke_all_DualReLU_fields (E : torch) (cs : list call) :
  forall (o : DualReLU.t) (op' : operator),
    invoke_all E (OpReLU o) cs = Ok op' ->
    exists o',
      op' = OpReLU o' /\
      DualReLU.I_empty o' = DualReLU.I_empty o /\
      DualReLU.I o' = DualReLU.I o /\
      DualReLU.zl o' = DualReLU.zl o /\
      DualReLU.I_collapse o' = DualReLU.I_collapse o.
Proof.
  induction cs as [|c cs IH]; intros o op' H; simpl in H.
  - injection H as <-. exists o. auto.
  - inv_bind H. destruct a as [op1 ret].
    assert (H1 : exists o1, op1 = OpReLU o1 /\
                   DualReLU.I_empty o1 = DualReLU.I_empty o /\
                   DualReLU.I o1 = DualReLU.I o /\
                   DualReLU.zl o1 = DualReLU.zl o /\
                   DualReLU.I_collapse o1 = DualReLU.I_collapse o).
    { destruct c; cbn [invoke] in Ha.
      - inv_bind Ha. injection Ha as <- _. cbn [apply] in Ha0. inv_bind Ha0.
        injection Ha0 as <-. exists a0. split; [reflexivity|].
        unfold DualReLU.apply in Ha. destruct (DualReLU.I_empty o) eqn:He.
        + injection Ha as <-. auto.
        + inv_bind Ha. injection Ha as <-. simpl. auto.
      - inv_bind Ha. destruct a as [s f]. injection Ha as <- _.
        rewrite call_fval_eq in Ha0. inv_bind Ha0. injection Ha0 as <- _.
        exists o. auto.
      - inv_bind Ha. destruct a as [s v]. injection Ha as <- _.
        rewrite call_affine_eq in Ha0. inv_bind Ha0. injection Ha0 as <- _.
        exists o. auto.
      - inv_bind Ha. destruct a as [s v]. injection Ha as <- _.
        rewrite call_affine_transpose_eq in Ha0. inv_bind Ha0. injection Ha0 as <- _.
        exists o. auto. }
    destruct H1 as (o1 & -> & He & HI & Hz & Hc).
    destruct (IH o1 op' H) as (o' & -> & He' & HI' & Hz' & Hc').
    exists o'. split; [reflexivity|]. repeat split; congruence.
Qed.

Lemma bzip_l_length {A B C : Type} (F : A -> B -> result C) (x : A)
  (ys : list B) (r : list C) :
  bzip F [x] ys = Ok r -> length r = length ys.
Proof. rewrite bzip_broadcast_l. apply mapM_length. Qed.

(** The bounds [DualReLU.fval] returns from signed data. *)
Lemma DualReLU_fval_signed (o : DualReLU.t) (nu : option pyval) (lo hi : pyval) :
  Forall (Forall (fun q => 0 <= q)) (DualReLU.I_collapse o) ->
  (forall b f, at2 (DualReLU.I o) b f = Some true ->
               exists z, at2 (DualReLU.zl o) b f = Some z /\ z <= 0) ->
  DualReLU.fval o nu None = Ok (Bounds lo hi) ->
  pyall (fun q => q <= 0) lo /\ pyall (fun q => 0 <= q) hi /\ pyle lo hi.
Proof.
  intros HIc Hneg H. unfold DualReLU.fval in H.
  destruct (DualReLU.I_empty o).
  { injection H as <- <-. simpl. auto. }
  apply bind_Ok in H as [last [_ H]]. apply bind_Ok in H as [lt [_ H]].
  apply bind_Ok in H as [zlI [HzlI H]]. apply bind_Ok in H as [a [Ha H]].
  apply bind_Ok in H as [zl' [Hzl' H]]. apply bind_Ok in H as [b [Hb H]].
  apply bind_Ok in H as [zu' [Hzu' H]]. injection H as <- <-.
  pose proof (masked_select_Forall (fun q => q <= 0) _ _ _ HzlI Hneg) as Hz.
  set (nuT := transpose (flatten_rows lt)) in *.
  assert (Hclamp : forall M : list vec,
             Forall (Forall (fun q => 0 <= q)) (map (map clamp_min0) M)).
  { intros M. apply Forall_map. apply Forall_forall. intros row _.
    apply Forall_map. apply Forall_forall. intros q _. apply clamp_min0_nonneg. }
  assert (Hprod : forall x y : Q, x <= 0 -> 0 <= y -> x * y <= 0).
  { intros x y Hx Hy.
    assert (Hp : 0 <= (- x) * y) by (apply Qmult_le_0_compat; lra).
    setoid_replace (x * y) with (- (- x * y)) by ring. lra. }
  pose proof (bop2_Forall Qmult _ _ (fun q => q <= 0) _ _ _ Hprod
                (Forall_cons _ Hz (Forall_nil _)) (Hclamp _) Ha) as Hale.
  pose proof (bop2_Forall Qmult _ _ (fun q => q <= 0) _ _ _ Hprod
                (Forall_cons _ Hz (Forall_nil _)) (Hclamp _) Hb) as Hble.
  destruct (mm_nonpos _ _ _ Hale HIc Hzl') as (Hl1 & Hl2 & Hl3).
  destruct (mm_nonpos _ _ _ Hble HIc Hzu') as (Hu1 & Hu2 & Hu3).
  assert (Hlen : length zl' = length zu').
  { unfold bop2 in Ha, Hb. apply bzip_l_length in Ha, Hb.
    rewrite Hl2, Hu2, Ha, Hb. now rewrite !length_map. }
  assert (HloT : Forall (Forall (fun q => q <= 0)) (transpose zl'))
    by (apply transpose_Forall; [apply Qle_refl | exact Hl1]).
  assert (HhiT : Forall (Forall (fun q => 0 <= q)) (map (map Qopp) (transpose zu'))).
  { apply Forall_map.
    eapply Forall_impl; [|apply (transpose_Forall (fun q => q <= 0));
                           [apply Qle_refl | exact Hu1]].
    intros row Hrow. cbn beta. apply Forall_map.
    eapply Forall_impl; [|exact Hrow]. intros q Hq. cbn beta in *. lra. }
  assert (Hshape : same_shape (transpose zl') (map (map Qopp) (transpose zu'))).
  { pose proof (transpose_same_shape zl' zu' _ Hlen Hl3 Hu3) as Hs.
    unfold same_shape in *. clear - Hs.
    induction Hs; simpl; constructor; auto. now rewrite length_map. }
  simpl. split; [now apply view_like_tall|]. split; [now apply view_like_tall|].
  apply view_like_rel. now apply signs_ordered.
Qed.

(** The bounds of the exact ReLU operator have their signs.  For the mask
    and slope that the construction loop derives from the bounds [zl] and
    [zu], the operator [DualReLU(I, d, zl)] returns, after any sequence of
    method calls and whatever its certificate holds, a lower bound without
    positive entries and an upper bound without negative entries. *)
Theorem DualReLU_bounds_signed (E : torch) (zl zu : list vec) (I : mask)
  (d : list vec) (o : DualReLU.t) (cs : list call) (op' : operator)
  (nu : option pyval) (lo hi : pyval) :
  same_shape zl zu ->
  relu_region zl zu = Ok (I, d) ->
  DualReLU.init I d zl = Ok o ->
  invoke_all E (OpReLU o) cs = Ok op' ->
  fval op' nu None = Ok (Bounds lo hi) ->
  pyall (fun q => q <= 0) lo /\ pyall (fun q => 0 <= q) hi /\ pyle lo hi.
Proof.
  intros Hzu Hreg Hinit Hcs Hf.
  rewrite (relu_region_pointwise zl zu Hzu) in Hreg. injection Hreg as <- <-.
  destruct (DualReLU_init_fields _ _ _ _ Hinit) as (HI & Hz & HIc).
  destruct (invoke_all_DualReLU_fields E cs o op' Hcs)
    as (o' & -> & _ & HI' & Hz' & HIc').
  cbn [fval] in Hf. eapply DualReLU_fval_signed; [| |exact Hf].
  - now rewrite HIc'.
  - rewrite HI', Hz', HI, Hz. intros b f Hbf. unfold at2 in *.
    destruct (nth_error (zip_with (zip_with unstable) zl zu) b) as [ib|] eqn:Hib;
      [|discriminate].
    apply nth_error_zip_with_inv in Hib as (zb & ub & Hzb & Hub & ->).
    apply nth_error_zip_with_inv in Hbf as (l & u & Hl & Hu & Hun).
    rewrite Hzb. exists l. split; [exact Hl|]. symmetry in Hun.
    apply unstable_iff in Hun as [_ Hlt]. pose proof tol_pos. lra.
Qed.

Lemma DualReLU_bounds_signed_witness :
  exists o op' lo hi,
    DualReLU.init [[true; false; false]]
      [[0 + 1 / (1 - -1); 1; 0]] [[-1; 1 # 2; -3]] = Ok o /\
    invoke_all Example.E (OpReLU o)
      [CallApply (OpLinear {| DualLinear.layer_ :=
                                Linear 3 2 [[1; -1; 1]; [0; 2; -1]] None;
                              DualLinear.bias := None |})] = Ok op' /\
    fval op' None None = Ok (Bounds lo hi) /\
    pyle lo hi.
Proof.
  destruct (DualReLU.init [[true; false; false]]
              [[0 + 1 / (1 - -1); 1; 0]] [[-1; 1 # 2; -3]]) as [o|] eqn:H;
    [|vm_compute in H; discriminate].
  destruct (invoke_all Example.E (OpReLU o)
      [CallApply (OpLinear {| DualLinear.layer_ :=
                                Linear 3 2 [[1; -1; 1]; [0; 2; -1]] None;
                              DualLinear.bias := None |})]) as [op'|] eqn:Hcs.
  2:{ unfold DualReLU.init in H. vm_compute in H. injection H as <-.
      vm_compute in Hcs. discriminate. }
  destruct (fval op' None None) as [[lo hi|v]|] eqn:Hf.
  2,3: unfold DualReLU.init in H; vm_compute in H; injection H as <-;
       vm_compute in Hcs; injection Hcs as <-; vm_compute in Hf; discriminate.
  exists o, op', lo, hi.
  split; [reflexivity|]. split; [exact Hcs|]. split; [exact Hf|].
  exact (proj2 (proj2 (DualReLU_bounds_signed Example.E [[-1; 1 # 2; -3]]
                         [[1; 2; -2]] [[true; false; false]]
                         [[0 + 1 / (1 - -1); 1; 0]] o _ op' None lo hi
                         ltac:(repeat constructor) eq_refl H Hcs Hf))).
Defined.


(** ** A sample without robust error is certified *)

Lemma argmax_from_spec (row : vec) :
  forall (i best : nat) (bestv : Q) (pre : vec),
    length pre = i -> (best < i)%nat -> nth best pre 0 = bestv ->
    Forall (fun q => q <= bestv) pre ->
    (argmax_from i best bestv row < i + length row)%nat /\
    Forall (fun q => q <= nth (argmax_from i best bestv row) (pre ++ row) 0)
           (pre ++ row).
Proof.
  induction row as [|q row IH]; intros i best bestv pre Hlen Hbest Hv Hall.
  - simpl. split; [lia|]. rewrite app_nil_r, Hv. exact Hall.
  - cbn [argmax_from]. replace (pre ++ q :: row) with ((pre ++ [q]) ++ row)
      by (now rewrite <- app_assoc).
    replace (i + length (q :: row))%nat with (S i + length row)%nat by (simpl; lia).
    destruct (Qlt_bool bestv q) eqn:Hlt.
    + apply Qlt_bool_iff in Hlt.
      apply IH.
      * rewrite length_app. simpl. lia.
      * lia.
      * rewrite app_nth2 by lia. now rewrite Hlen, Nat.sub_diag.
      * apply Forall_app. split.
        -- eapply Forall_impl; [|exact Hall]. intros a Ha. cbn beta in Ha. lra.
        -- constructor; [apply Qle_refl | constructor].
    + assert (Hle : q <= bestv).
      { destruct (Qlt_le_dec bestv q) as [Hc|Hc]; [|exact Hc].
        apply Qlt_bool_iff in Hc. congruence. }
      apply IH.
      * rewrite length_app. simpl. lia.
      * lia.
      * rewrite app_nth1 by lia. exact Hv.
      * apply Forall_app. split; [exact Hall|]. constructor; [exact Hle | constructor].
Qed.

Lemma argmax_spec (row : vec) (i : nat) :
  argmax row = Ok i ->
  (i < length row)%nat /\ Forall (fun q => q <= nth i row 0) row.
Proof.
  destruct row as [|q row]; [discriminate|]. intros H. injection H as <-.
  destruct (argmax_from_spec row 1 0 q [q] eq_refl ltac:(lia) eq_refl
              ltac:(constructor; [apply Qle_refl | constructor])) as [H1 H2].
  split; [simpl; lia | exact H2].
Qed.

Lemma dot_zero_l (u : vec) :
  forall w : vec, Forall (fun q => q == 0) u -> dot u w == 0.
Proof.
  induction u as [|a u IH]; intros [|b w] H; simpl; try reflexivity.
  inversion H; subst. rewrite IH by assumption. rewrite H2. ring.
Qed.

Lemma sumQ_abs_zero (u : vec) :
  Forall (fun q => q == 0) u -> sumQ (map Qabs u) == 0.
Proof.
  induction 1 as [|a u Ha _ IH]; simpl; [reflexivity|].
  rewrite IH, Ha. reflexivity.
Qed.

Lemma back_zero (net : list layer) (v : vec) :
  Forall (fun q => q == 0) v ->
  Forall (fun q => q == 0) (back net v) /\ bias_term net v == 0.
Proof.
  intros Hv. induction net as [|l net [IH1 IH2]]; simpl.
  - split; [exact Hv | reflexivity].
  - destruct l; try (split; assumption). split.
    + apply Forall_map. apply Forall_forall. intros col _. now apply dot_zero_l.
    + rewrite IH2. destruct bias as [bv|]; [rewrite (dot_zero_l _ bv IH1)|]; ring.
Qed.

Lemma Forall2_length_transfer {A B : Type} (m : nat) (c : list (list A))
  (r : list (list B)) :
  Forall2 (fun cb rb => length rb = length cb) c r ->
  Forall (fun cb => length cb = m) c -> Forall (fun rb => length rb = m) r.
Proof.
  induction 1 as [|cb rb c r Hcr _ IH]; intros Hc; constructor.
  - apply Forall_inv in Hc. congruence.
  - apply IH. now apply Forall_inv_tail in Hc.
Qed.

Lemma zip_minus_self (u : vec) : Forall (fun q => q == 0) (zip_with Qminus u u).
Proof. induction u; simpl; constructor; auto. ring. Qed.

(** What [RobustBounds.forward] returns on an affine network. *)
Lemma RobustBounds_forward_affine (E : torch) (net : list layer) (eps : Q)
  (kw : DualNetBounds.kwargs) (n : nat) (X : list vec) (y : list Z)
  (w w' : world) (dual : DualNetBounds.t) :
  net <> [] ->
  affine_wf n net ->
  full_bias_flat E ->
  Forall (fun x => length x = n) X ->
  length y = length X ->
  Forall (fun z => (0 <= z < Z.of_nat (out_dim n net))%Z) y ->
  0 <= eps ->
  DualNetBounds.init E net X eps kw w = Ok (dual, w') ->
  exists f,
    RobustBounds.forward E
      {| RobustBounds.net := net; RobustBounds.epsilon := eps;
         RobustBounds.kwargs := kw |} (out_dim n net) X y w =
      Ok (PyT (T2 f), w') /\
    length f = length X /\
    Forall (fun row => length row = out_dim n net) f /\
    forall b x z,
      nth_error X b = Some x -> nth_error y b = Some z ->
      (exists q, at2 f b (Z.to_nat z) = Some q /\ q == 0) /\
      forall j, (j < out_dim n net)%nat ->
        exists q,
          at2 f b j = Some q /\
          forall x',
            Forall2 (fun a a' => Qabs (a' - a) <= eps) x x' ->
            nth j (net_output net x') 0
            - nth (Z.to_nat z) (net_output net x') 0 <= q.
Proof.
  intros Hne Hwf HE HX HyX Hy Heps Hinit.
  set (m := out_dim n net) in *.
  pose (c := map (fun z =>
                    map (fun e => zip_with Qminus (one_hot m (Z.to_nat z) 1) e)
                        (eye m)) y).
  assert (Hc : Forall (Forall (fun cj : vec => length cj = m)) c).
  { unfold c. apply Forall_map. apply Forall_forall. intros z _.
    apply Forall_map. eapply Forall_impl; [|apply eye_rows].
    intros e He. cbn beta. rewrite zip_with_length; now rewrite one_hot_length. }
  assert (Hcb : Forall (fun cb : list vec => length cb = m) c).
  { unfold c. apply Forall_map. apply Forall_forall. intros z _. cbn beta.
    now rewrite length_map, eye_length. }
  assert (HcX : length c = length X) by (unfold c; now rewrite length_map).
  destruct (g_value_affine_bound E net n X eps kw w w' dual c Hne Hwf HE HX HcX
              Hc Heps Hinit) as [r [Hg [Hshape Hr]]].
  exists (map (map Qopp) r). split; [|split; [|split]].
  - unfold RobustBounds.forward.
    cbn [RobustBounds.net RobustBounds.epsilon RobustBounds.kwargs].
    rewrite Hinit. cbn [bind]. fold m. rewrite (objective_value m y Hy).
    cbn [bind]. fold c. unfold DualNetBounds.g_value in Hg.
    destruct (DualNetBounds.g E dual c) as [[dual' v]|]; [|discriminate].
    cbn [bind] in *. injection Hg as ->. reflexivity.
  - rewrite length_map.
    exact (eq_trans (eq_sym (Forall2_length_eq _ _ _ Hshape)) HcX).
  - apply Forall_map.
    eapply Forall_impl; [|exact (Forall2_length_transfer m c r Hshape Hcb)].
    intros rb Hrb. cbn beta. now rewrite length_map.
  - intros b x z Hx Hz.
    assert (Hzr : (Z.to_nat z < m)%nat).
    { rewrite Forall_forall in Hy. apply nth_error_In in Hz. apply Hy in Hz. lia. }
    assert (Hcj : forall j, (j < m)%nat ->
                    at2 c b j =
                    Some (zip_with Qminus (one_hot m (Z.to_nat z) 1) (one_hot m j 1))).
    { intros j Hj. unfold at2, c. rewrite (map_nth_error _ _ _ Hz).
      now rewrite (map_nth_error _ _ _ (nth_error_eye m j Hj)). }
    split.
    + destruct (Hr b _ x _ Hx (Hcj _ Hzr)) as [q0 [Hq0 [Hform _]]].
      exists (- q0). split; [now apply at2_map_map|].
      assert (H0 : Forall (fun q => q == 0)
                     (map Qopp (zip_with Qminus (one_hot m (Z.to_nat z) 1)
                                         (one_hot m (Z.to_nat z) 1)))).
      { apply Forall_map. eapply Forall_impl; [|apply zip_minus_self].
        intros q Hq. cbn beta in *. rewrite Hq. reflexivity. }
      destruct (back_zero net _ H0) as [Hb0 Hbt].
      rewrite Hform, (dot_zero_l _ x Hb0), (sumQ_abs_zero _ Hb0), Hbt. ring.
    + intros j Hj.
      destruct (Hr b j x _ Hx (Hcj j Hj)) as [q0 [Hq0 [_ Hsound]]].
      exists (- q0). split; [now apply at2_map_map|].
      intros x' Hball. specialize (Hsound x' Hball).
      assert (Hx' : length x' = n).
      { apply Forall2_length_eq in Hball.
        rewrite Forall_forall in HX. rewrite <- Hball. apply HX.
        eapply nth_error_In; eauto. }
      pose proof (net_output_length net n x' Hwf Hx') as Hout. fold m in Hout.
      rewrite dot_zip_minus_l in Hsound by (now rewrite !one_hot_length).
      rewrite !dot_one_hot in Hsound by (auto; lia). lra.
Qed.

Lemma argmax_nonempty (row : vec) :
  row <> [] -> argmax row = Ok (argmax_from 1 0 (hd 0 row) (tl row)).
Proof. destruct row; [contradiction | reflexivity]. Qed.

(** A sample without robust error is certified.  For a non-empty network
    of well-formed affine layers and labels in range, [robust_loss] computes
    one error flag per sample, and when the flag of the sample [x] with
    label [z] is zero, no [x'] within [epsilon] of [x] in every coordinate
    has an output above the output for [z]. *)
Theorem certified_prediction (E : torch) (net : list layer) (eps : Q)
  (kw : DualNetBounds.kwargs) (n : nat) (X : list vec) (y : list Z)
  (w w' : world) (dual : DualNetBounds.t) :
  net <> [] ->
  affine_wf n net ->
  full_bias_flat E ->
  Forall (fun x => length x = n) X ->
  length y = length X ->
  Forall (fun z => (0 <= z < Z.of_nat (out_dim n net))%Z) y ->
  0 <= eps ->
  DualNetBounds.init E net X eps kw w = Ok (dual, w') ->
  exists err,
    robust_loss_err E net eps kw (out_dim n net) X y w = Ok (T1 err, w') /\
    length err = length X /\
    forall b x z,
      nth_error X b = Some x -> nth_error y b = Some z ->
      nth_error err b = Some 0 ->
      forall x',
        Forall2 (fun a a' => Qabs (a' - a) <= eps) x x' ->
        forall j, (j < out_dim n net)%nat ->
          nth j (net_output net x') 0 <= nth (Z.to_nat z) (net_output net x') 0.
Proof.
  intros Hne Hwf HE HX HyX Hy Heps Hinit.
  destruct (RobustBounds_forward_affine E net eps kw n X y w w' dual Hne Hwf HE
              HX HyX Hy Heps Hinit) as (f & Hfwd & Hlen & Hrows & Hf).
  set (m := out_dim n net) in *.
  set (G := fun row : vec => argmax_from 1 0 (hd 0 row) (tl row)).
  assert (Hidx : mapM argmax f = Ok (map G f)).
  { apply mapM_pure. apply Forall_forall. intros row Hin.
    apply argmax_nonempty. intros ->.
    rewrite Forall_forall in Hrows. pose proof (Hrows _ Hin) as Hr0.
    simpl in Hr0.
    destruct f as [|r0 f']; [destruct Hin|].
    destruct X as [|x0 X']; [discriminate|].
    destruct y as [|z0 y']; [discriminate|].
    apply Forall_inv in Hy. lia. }
  set (ne := fun a b : Q => if Qeq_bool a b then 0 else 1).
  exists (zip_with ne (map index_value (map G f)) (map inject_Z y)).
  split; [|split].
  - unfold robust_loss_err. rewrite Hfwd.
    cbn [bind as_tensor max_dim1_indices]. rewrite Hidx. cbn [bind].
    unfold tne. cbn [tbop].
    rewrite bop1_same_length by (rewrite !length_map; congruence).
    reflexivity.
  - rewrite zip_with_length; rewrite !length_map; congruence.
  - intros b x z Hx Hz Herr x' Hball j Hj.
    apply nth_error_zip_with_inv in Herr as (a & zq & Ha & Hzq & Hne0).
    rewrite (map_nth_error _ _ _ Hz) in Hzq. injection Hzq as <-.
    rewrite map_map, nth_error_map in Ha.
    destruct (nth_error f b) as [row|] eqn:Hrow; [|discriminate].
    simpl in Ha. injection Ha as <-.
    unfold ne in Hne0.
    destruct (Qeq_bool (index_value (G row)) (inject_Z z)) eqn:Heq;
      [|discriminate].
    apply Qeq_bool_iff in Heq. unfold index_value, Qeq in Heq. simpl in Heq.
    assert (Hi : G row = Z.to_nat z) by lia.
    assert (Harg : argmax row = Ok (G row)).
    { apply argmax_nonempty. intros ->.
      rewrite Forall_forall in Hrows. apply nth_error_In in Hrow.
      apply Hrows in Hrow. simpl in Hrow. fold m in Hj. lia. }
    destruct (argmax_spec row _ Harg) as [_ Hmax]. rewrite Hi in Hmax.
    destruct (Hf b x z Hx Hz) as [[q0 [Hq0 Hzero]] Hall].
    destruct (Hall j Hj) as [qj [Hqj Hsound]].
    specialize (Hsound x' Hball).
    unfold at2 in Hq0, Hqj. unfold vec in *. rewrite Hrow in Hq0, Hqj.
    rewrite Forall_forall in Hmax.
    pose proof (Hmax qj (nth_error_In _ _ Hqj)) as Hle.
    rewrite (nth_error_nth _ _ 0 Hq0) in Hle. lra.
Qed.

Lemma certified_prediction_witness :
  exists err w',
    robust_loss_err Example.E Example.affine_net Example.epsilon Example.kw 2
      Example.X [1%Z] Example.w0 = Ok (T1 err, w') /\
    length err = length Example.X.
Proof.
  destruct (DualNetBounds.init Example.E Example.affine_net Example.X
              Example.epsilon Example.kw Example.w0) as [[dual w']|] eqn:H;
    [|vm_compute in H; discriminate].
  destruct (certified_prediction Example.E Example.affine_net Example.epsilon
              Example.kw 4 Example.X [1%Z] Example.w0 w' dual)
    as [err [He [Hl _]]].
  - discriminate.
  - simpl. repeat split; repeat constructor.
  - intros i o W bv n. exists (T2 [bv]). split; [reflexivity|]. simpl.
    apply app_nil_r.
  - repeat constructor.
  - reflexivity.
  - repeat constructor; simpl; lia.
  - unfold Example.epsilon, Qle. simpl. lia.
  - exact H.
  - exists err, w'. split; assumption.
Defined.


(** ** Batch normalization as an affine map *)

Lemma nth_flat_map_repeat (v : vec) (hw c i : nat) :
  (c < length v)%nat -> (i < hw)%nat ->
  nth (c * hw + i) (flat_map (fun q => repeat q hw) v) 0 = nth c v 0.
Proof.
  revert c. induction v as [|q v IH]; intros c Hc Hi; simpl in *; [lia|].
  destruct c as [|c].
  - simpl. rewrite app_nth1 by (rewrite repeat_length; lia).
    rewrite (nth_indep _ 0 q) by (rewrite repeat_length; lia).
    apply nth_repeat.
  - rewrite app_nth2 by (rewrite repeat_length; simpl; lia).
    rewrite repeat_length.
    replace (S c * hw + i - hw)%nat with (c * hw + i)%nat by (simpl; lia).
    apply IH; lia.
Qed.

Lemma length_flat_map_repeat (v : vec) (hw : nat) :
  length (flat_map (fun q => repeat q hw) v) = (length v * hw)%nat.
Proof.
  induction v as [|q v IH]; simpl; auto.
  now rewrite length_app, repeat_length, IH.
Qed.

Lemma nth_zip_with_Q (f : Q -> Q -> Q) (a b : vec) (k : nat) :
  (k < length a)%nat -> (k < length b)%nat ->
  nth k (zip_with f a b) 0 = f (nth k a 0) (nth k b 0).
Proof.
  revert b k. induction a as [|x a IH]; intros [|y b] [|k] Ha Hb;
    simpl in *; try lia; auto.
  apply IH; lia.
Qed.

Lemma nth_map_Q (f : Q -> Q) (a : vec) (k : nat) :
  (k < length a)%nat -> nth k (map f a) 0 = f (nth k a 0).
Proof.
  intros H. rewrite (nth_indep _ 0 (f 0)) by (now rewrite length_map).
  apply map_nth.
Qed.

Lemma expand_channels_ok (v : vec) (c hw : nat) :
  length v = c -> (0 < c)%nat ->
  expand_channels v (c * hw) = Ok (flat_map (fun q => repeat q hw) v).
Proof.
  intros Hv Hc. unfold expand_channels. rewrite Hv.
  replace (c =? 0)%nat with false by (symmetry; apply Nat.eqb_neq; lia).
  rewrite (Nat.mul_comm c hw), Nat.Div0.mod_mul, Nat.eqb_refl.
  rewrite Nat.div_mul by lia. reflexivity.
Qed.

Lemma scale_channels_ok (D x : vec) (hw : nat) :
  (0 < length D)%nat -> length x = (length D * hw)%nat ->
  scale_channels D x =
  Ok (zip_with Qmult (flat_map (fun q => repeat q hw) D) x).
Proof.
  intros HD Hx. unfold scale_channels.
  rewrite Hx, (expand_channels_ok D (length D) hw eq_refl HD). cbn [bind].
  apply zipM_pure.
Qed.

Lemma dot_scale_swap (De : vec) :
  forall x y : vec,
    dot (zip_with Qmult De x) y == dot x (zip_with Qmult De y).
Proof.
  induction De as [|a De IH]; intros [|b x] [|c y]; simpl; try reflexivity.
  rewrite IH. ring.
Qed.

(** The batch-normalization operator is its own adjoint.  [affine] scales
    every channel of a feature block by [D], and [affine_transpose] is the
    same call: for two feature blocks [x], [y] of one length, the scaled
    [x] paired with [y] is [x] paired with the scaled [y]. *)
Theorem DualBatchNorm2d_self_adjoint (self : DualBatchNorm2d.t)
  (x y u v : vec) :
  length x = length y ->
  DualBatchNorm2d.affine self [PyT (T1 x)] = Ok (PyT (T1 u)) ->
  DualBatchNorm2d.affine_transpose self [PyT (T1 y)] = Ok (PyT (T1 v)) ->
  dot u y == dot x v.
Proof.
  intros Hxy Hu Hv.
  unfold DualBatchNorm2d.affine_transpose, DualBatchNorm2d.affine in *.
  cbn [py_last rev app bind] in Hu, Hv.
  unfold scale_channels in Hu, Hv. rewrite <- Hxy in Hv.
  destruct (expand_channels (DualBatchNorm2d.D self) (length x)) as [De|];
    [|discriminate].
  cbn [bind] in Hu, Hv. rewrite zipM_pure in Hu, Hv. cbn [bind] in Hu, Hv.
  injection Hu as <-. injection Hv as <-. apply dot_scale_swap.
Qed.

Lemma DualBatchNorm2d_self_adjoint_witness :
  dot [2; 4; 9] [1; 1; 1] == dot [1; 2; 3] [2; 2; 3].
Proof.
  apply (DualBatchNorm2d_self_adjoint
           {| DualBatchNorm2d.D := [2; 2; 3]; DualBatchNorm2d.ds := [] |}
           [1; 2; 3] [1; 1; 1]); reflexivity.
Defined.

(** The batch-normalization operator is the normalization.  For a layer
    with [C > 0] channels whose statistics, weight and bias have [C] entries
    and whose denominators [sqrt(var + eps)] are not zero, the constructor
    succeeds on feature blocks of [C * hw] entries, and [affine(x) + ds[0]]
    is, at position [i] of channel [c],
    [weight[c] * (x - mu[c]) / sqrt(var[c] + eps) + bias[c]], with the batch
    statistics in training mode and the running statistics otherwise. *)
Theorem DualBatchNorm2d_normalizes (E : torch) (training : bool)
  (rm rv weight bias mu var : vec) (eps : Q) (minibatch : list vec)
  (hw : nat) (x : vec) :
  (if training then channel_mean_var E minibatch else (rm, rv)) = (mu, var) ->
  (0 < length weight)%nat ->
  length bias = length weight ->
  length mu = length weight ->
  length var = length weight ->
  Forall (fun v => ~ torch_sqrt E (v + eps) == 0) var ->
  length x = (length weight * hw)%nat ->
  exists self s d0,
    DualBatchNorm2d.init E (BatchNorm2d training rm rv eps weight bias)
      minibatch (length weight * hw) = Ok self /\
    DualBatchNorm2d.ds self = [PyT (T1 d0)] /\
    DualBatchNorm2d.affine self [PyT (T1 x)] = Ok (PyT (T1 s)) /\
    length s = length x /\ length d0 = length x /\
    forall c i, (c < length weight)%nat -> (i < hw)%nat ->
      nth (c * hw + i) s 0 + nth (c * hw + i) d0 0 ==
      nth c weight 0
      * ((nth (c * hw + i) x 0 - nth c mu 0)
         / torch_sqrt E (nth c var 0 + eps))
      + nth c bias 0.
Proof.
  intros Hmv HC Hb Hmu Hvar Hnz Hx.
  set (denom := map (fun v => torch_sqrt E (v + eps)) var).
  set (D := zip_with Qdiv weight denom).
  set (shift := zip_with Qminus bias
                  (zip_with Qmult weight (zip_with Qdiv mu denom))).
  assert (Hden : length denom = length weight)
    by (unfold denom; now rewrite length_map).
  assert (HD : length D = length weight)
    by (unfold D; now rewrite zip_with_length).
  assert (Hq : length (zip_with Qdiv mu denom) = length weight)
    by (rewrite zip_with_length; congruence).
  assert (Hwq : length (zip_with Qmult weight (zip_with Qdiv mu denom))
                = length weight)
    by (rewrite zip_with_length; congruence).
  assert (Hs : length shift = length weight)
    by (unfold shift; rewrite zip_with_length; congruence).
  exists {| DualBatchNorm2d.D := D;
            DualBatchNorm2d.ds :=
              [PyT (T1 (flat_map (fun q => repeat q hw) shift))] |},
    (zip_with Qmult (flat_map (fun q => repeat q hw) D) x),
    (flat_map (fun q => repeat q hw) shift).
  split; [|split; [reflexivity|split; [|split; [|split]]]].
  - unfold DualBatchNorm2d.init. rewrite Hmv. fold denom.
    rewrite (bop1_same_length Qdiv weight denom) by congruence. cbn [bind].
    rewrite (bop1_same_length Qdiv mu denom) by congruence. cbn [bind].
    rewrite (bop1_same_length Qmult weight) by congruence. cbn [bind].
    rewrite (bop1_same_length Qminus bias) by congruence. cbn [bind].
    fold shift. rewrite (expand_channels_ok shift _ hw Hs HC). reflexivity.
  - unfold DualBatchNorm2d.affine. cbn [py_last rev app bind DualBatchNorm2d.D].
    rewrite (scale_channels_ok D x hw) by (rewrite HD; assumption).
    reflexivity.
  - rewrite zip_with_length; rewrite length_flat_map_repeat, HD; congruence.
  - rewrite length_flat_map_repeat, Hs. congruence.
  - intros c i Hc Hi.
    assert (Hk : (c * hw + i < length weight * hw)%nat) by nia.
    rewrite nth_zip_with_Q
      by (rewrite ?length_flat_map_repeat, ?HD; congruence || lia).
    rewrite !nth_flat_map_repeat by (rewrite ?HD, ?Hs; assumption).
    unfold D, shift.
    rewrite !nth_zip_with_Q by (rewrite ?Hq, ?Hwq; congruence || lia).
    unfold denom. rewrite nth_map_Q by lia.
    assert (Hn : ~ torch_sqrt E (nth c var 0 + eps) == 0).
    { rewrite Forall_forall in Hnz. apply Hnz. apply nth_In. lia. }
    field. exact Hn.
Qed.

Lemma DualBatchNorm2d_normalizes_witness :
  exists self s d0,
    DualBatchNorm2d.init Example.E
      (BatchNorm2d false [1; 2] [3; 4] 1 [2; 3] [0; 1]) [] 4 = Ok self /\
    DualBatchNorm2d.ds self = [PyT (T1 d0)] /\
    DualBatchNorm2d.affine self [PyT (T1 [1; 2; 3; 4])] = Ok (PyT (T1 s)).
Proof.
  destruct (DualBatchNorm2d_normalizes Example.E false [1; 2] [3; 4] [2; 3]
              [0; 1] [1; 2] [3; 4] 1 [] 2 [1; 2; 3; 4])
    as (self & s & d0 & H1 & H2 & H3 & _).
  - reflexivity.
  - simpl. lia.
  - reflexivity.
  - reflexivity.
  - reflexivity.
  - repeat constructor; vm_compute; discriminate.
  - reflexivity.
  - exists self, s, d0. repeat split; assumption.
Defined.


(** ** The seed of the randomized ReLU operator *)

Lemma fill_row_spec (E : torch) (m : list bool) :
  forall p,
    snd (fill_row E m p) = (p + length (filter (fun b : bool => b) m))%nat /\
    supported_on m (fst (fill_row E m p)).
Proof.
  unfold supported_on.
  induction m as [|[|] m IH]; intros p; simpl.
  - split; [lia|constructor].
  - specialize (IH (S p)). destruct (fill_row E m (S p)) as [r p'].
    simpl in *. destruct IH as [-> IH]. split; [lia|].
    constructor; [discriminate|exact IH].
  - specialize (IH p). destruct (fill_row E m p) as [r p'].
    simpl in *. destruct IH as [-> IH]. split; [lia|].
    constructor; [reflexivity|exact IH].
Qed.

Lemma fill_rows_spec (E : torch) (m : list bool) (k : nat) :
  forall p,
    snd (fill_rows E m k p)
    = (p + k * length (filter (fun b : bool => b) m))%nat /\
    length (fst (fill_rows E m k p)) = k /\
    Forall (supported_on m) (fst (fill_rows E m k p)).
Proof.
  induction k as [|k IH]; intros p; simpl.
  - repeat split; [lia|constructor].
  - destruct (fill_row_spec E m p) as [Hp Hr].
    destruct (fill_row E m p) as [r p']. simpl in Hp, Hr.
    specialize (IH p'). destruct (fill_rows E m k p') as [rs p''].
    simpl in *. destruct IH as (-> & Hl & Hrs). subst p'.
    repeat split; [lia|lia|constructor; assumption].
Qed.

Lemma fill_batches_spec (E : torch) (I : mask) (k : nat) :
  forall p,
    snd (fill_batches E I k p) = (p + k * mask_sum I)%nat /\
    Forall2 (fun m rows => length rows = k /\ Forall (supported_on m) rows)
            I (fst (fill_batches E I k p)).
Proof.
  induction I as [|m I IH]; intros p; simpl.
  - split; [unfold mask_sum; simpl; lia|constructor].
  - destruct (fill_rows_spec E m k p) as (Hp & Hl & Hr).
    destruct (fill_rows E m k p) as [r p']. simpl in Hp, Hl, Hr.
    specialize (IH p'). destruct (fill_batches E I k p') as [rs p''].
    simpl in *. destruct IH as (-> & Hrs). subst p'.
    rewrite mask_sum_cons. split; [lia|]. constructor; auto.
Qed.

Lemma supported_on_scale (m : list bool) (z row : vec) :
  length z = length m -> supported_on m row ->
  supported_on m (zip_with Qmult z row).
Proof.
  unfold supported_on. intros Hz H. revert z Hz.
  induction H as [|b q m row Hb _ IH]; intros [|a z] Hz; simpl in *;
    try discriminate; constructor.
  - intros Hf. rewrite (Hb Hf). ring.
  - apply IH. lia.
Qed.

Lemma scale_rows_value (z : vec) (rows : list vec) :
  Forall (fun row => length row = length z) rows ->
  bop2 Qmult [z] rows = Ok (map (zip_with Qmult z) rows).
Proof.
  intros H. unfold bop2. rewrite bzip_broadcast_l. apply mapM_pure.
  eapply Forall_impl; [|exact H].
  intros row Hr. apply bop1_same_length. congruence.
Qed.

Lemma scale_batches_support (k : nat) (I : mask) (zs : list vec) :
  same_shape I zs ->
  forall nu,
    Forall2 (fun m rows => length rows = k /\ Forall (supported_on m) rows)
            I nu ->
    exists r,
      bop3 Qmult (unsqueeze1 zs) nu = Ok r /\
      Forall2 (fun m rows => length rows = k /\ Forall (supported_on m) rows)
              I r.
Proof.
  intros Hs nu Hnu.
  exists (zip_with (fun z rows => map (zip_with Qmult z) rows) zs nu).
  split.
  - unfold bop3, unsqueeze1.
    rewrite bzip_same_length
      by (rewrite length_map;
          exact (eq_trans (eq_sym (Forall2_length_eq _ _ _ Hs))
                          (Forall2_length_eq _ _ _ Hnu))).
    revert nu Hnu. induction Hs as [|m z I zs Hmz _ IH]; intros nu Hnu;
      inversion Hnu as [|? rows ? nu' [Hl Hr] Hnu']; subst; simpl; auto.
    rewrite scale_rows_value.
    + cbn [bind]. now rewrite (IH nu' Hnu').
    + eapply Forall_impl; [|exact Hr].
      intros row Hrow. rewrite <- Hmz. symmetry.
      exact (Forall2_length_eq _ _ _ Hrow).
  - revert nu Hnu. induction Hs as [|m z I zs Hmz _ IH]; intros nu Hnu;
      inversion Hnu as [|? rows ? nu' [Hl Hr] Hnu']; subst; simpl;
      constructor; auto.
    split; [now rewrite length_map|].
    apply Forall_map. eapply Forall_impl; [|exact Hr].
    intros row Hrow. apply supported_on_scale; auto.
Qed.

(** The seed of the randomized ReLU operator.  For a mask [I] with at least
    one set entry, [k >= 0], and [d], [zl] of the shape of [I] with rows of
    one length, the constructor succeeds without a warning, draws exactly
    [I.sum() * k] samples of the stream, keeps [k] random rows per sample
    in [nus[0]], each zero wherever the mask is not set, and sets
    [nu_ones[0]] to [d * zl * I] entry by entry. *)
Theorem DualReLUProj_init_seed (E : torch) (I : mask) (d zl : list vec)
  (k : Z) (w : world) (n : nat) :
  (0 < mask_sum I)%nat ->
  (0 <= k)%Z ->
  same_shape I zl ->
  same_shape I d ->
  Forall (fun row => length row = n) d ->
  exists a ones,
    DualReLUProj.init E I d zl k w =
      Ok ({| DualReLUProj.d := d; DualReLUProj.I := I; DualReLUProj.zl := zl;
             DualReLUProj.I_empty := false;
             DualReLUProj.nus := [PyT (T3 a)];
             DualReLUProj.nu_ones := [PyT (T2 ones)] |},
          {| rng_pos := (rng_pos w + Z.to_nat k * mask_sum I)%nat;
             warnings := warnings w |}) /\
    Forall2 (fun m rows =>
               length rows = Z.to_nat k /\ Forall (supported_on m) rows) I a /\
    forall b p m z q,
      at2 I b p = Some m -> at2 zl b p = Some z -> at2 d b p = Some q ->
      at2 ones b p = Some (q * (z * (if m then 1 else 0))).
Proof.
  intros Hsum Hk Hzl Hd Hn.
  destruct (fill_batches_spec E I (Z.to_nat k) (rng_pos w)) as [Hp Hnu].
  destruct (fill_batches E I (Z.to_nat k) (rng_pos w)) as [nu p] eqn:Hfill.
  simpl in Hp, Hnu.
  destruct (scale_batches_support _ I zl Hzl nu Hnu) as (nu1 & H1 & Hnu1).
  destruct (scale_batches_support _ I d Hd nu1 Hnu1) as (a & H2 & Ha).
  assert (HzI : same_shape zl (mask_to_float I)).
  { unfold mask_to_float. clear - Hzl.
    induction Hzl; simpl; constructor; auto. now rewrite length_map. }
  assert (HdI : same_shape d (zip_with (zip_with Qmult) zl (mask_to_float I))).
  { unfold mask_to_float. clear - Hzl Hd. revert d Hd.
    induction Hzl as [|m z I zl Hmz _ IH]; intros d Hd;
      inversion Hd; subst; simpl; constructor.
    - rewrite zip_with_length by (rewrite length_map; congruence).
      congruence.
    - apply IH. assumption. }
  exists a, (zip_with (zip_with Qmult) d
               (zip_with (zip_with Qmult) zl (mask_to_float I))).
  split; [|split; [exact Ha|]].
  - unfold DualReLUProj.init.
    replace (mask_sum I =? 0)%nat with false
      by (symmetry; apply Nat.eqb_neq; lia).
    replace (k <? 0)%Z with false by (symmetry; apply Z.ltb_ge; lia).
    replace (forallb (fun row : list bool => (length row =? features d)%nat) I)
      with true.
    2:{ symmetry. apply forallb_forall. intros row Hin. apply Nat.eqb_eq.
        destruct Hd as [|m d0 I' d' Hmd Hd']; [destruct Hin|].
        unfold features. simpl.
        apply Forall_inv in Hn as Hd0.
        destruct Hin as [<-|Hin]; [congruence|].
        apply Forall_inv_tail in Hn. clear - Hd' Hn Hin Hd0.
        induction Hd' as [|m' d1 I' d' Hmd' _ IH]; [destruct Hin|].
        destruct Hin as [<-|Hin].
        - apply Forall_inv in Hn. congruence.
        - apply IH; auto. now apply Forall_inv_tail in Hn. }
    cbn [negb]. rewrite Hfill, H1. cbn [bind].
    rewrite (bop2_same_shape Qmult zl _ HzI). cbn [bind].
    rewrite H2. cbn [bind].
    rewrite (bop2_same_shape Qmult d _ HdI). cbn [bind].
    rewrite Hp. reflexivity.
  - intros b p0 m z q Hm Hz Hq.
    apply at2_zip_with; [exact Hq|].
    apply (at2_zip_with Qmult); [exact Hz|].
    unfold mask_to_float.
    exact (at2_map_map (fun b0 : bool => if b0 then 1 else 0) I b p0 m Hm).
Qed.

Lemma DualReLUProj_init_seed_witness :
  exists a ones w',
    DualReLUProj.init Example.E [[true; false]] [[1 # 2; 0]] [[-1; -2]] 2
      Example.w0 =
      Ok ({| DualReLUProj.d := [[1 # 2; 0]];
             DualReLUProj.I := [[true; false]];
             DualReLUProj.zl := [[-1; -2]];
             DualReLUProj.I_empty := false;
             DualReLUProj.nus := [PyT (T3 a)];
             DualReLUProj.nu_ones := [PyT (T2 ones)] |}, w').
Proof.
  destruct (DualReLUProj_init_seed Example.E [[true; false]] [[1 # 2; 0]]
              [[-1; -2]] 2 Example.w0 2) as (a & ones & H & _).
  - vm_compute. lia.
  - lia.
  - repeat constructor.
  - repeat constructor.
  - repeat constructor.
  - exists a, ones. eexists. exact H.
Defined.


(** ** The exact L1 term of the head of the chain (C5) *)

(** [InfBall.fval] with a direction, entry by entry. *)
Lemma exact_ball_direction_value (o : InfBall.t) (X : list vec) (eps : Q)
  (nu : list (list vec)) (nu_prev : option pyval) :
  exact_ball X eps (OpInfBall o) ->
  Forall2 (fun nb xb => Forall (fun row : vec => length row = length xb) nb) nu X ->
  exists r,
    fval (OpInfBall o) (Some (PyT (T3 nu))) nu_prev = Ok (Contrib (PyT (T2 r))) /\
    forall b j x v,
      nth_error X b = Some x -> at2 nu b j = Some v ->
      exists q,
        at2 r b j = Some q /\
        q == - dot v x - eps * sumQ (map Qabs v).
Proof.
  intros (Heps & Hx & _) Hshape.
  destruct o as [e nu_x nu_1]. cbn [InfBall.epsilon InfBall.nu_x] in *. subst e.
  destruct nu_x as [|x0 rest]; [discriminate|]. injection Hx as ->.
  eexists. split.
  - cbn [fval InfBall.fval InfBall.epsilon InfBall.nu_x].
    now apply InfBall_fval_direction_value.
  - intros b j x v Hxb Hv. eexists. split; [|reflexivity].
    apply (at2_zip_with_map
             (fun (xb : vec) (row : vec) =>
                - dot row xb - eps * sumQ (map Qabs row))); eassumption.
Qed.

(** [InfBall.fval] without a direction when the certificate has one batch
    element per sample. *)
Lemma InfBall_fval_bounds_batch (o : InfBall.t) (nu_prev : option pyval)
  (t : list (list vec)) (x : list vec) :
  py_last (InfBall.nu_1 o) = Ok (PyT (T3 t)) ->
  py_last (InfBall.nu_x o) = Ok (PyT (T2 x)) ->
  Forall2 (fun (xr : vec) rows => length xr = features rows) x t ->
  InfBall.fval o None nu_prev =
  Ok (Bounds
        (PyT (T2 (zip_with (fun xr rows =>
                              zip_with (fun a n => a - InfBall.epsilon o * n) xr
                                       (l1_columns rows)) x t)))
        (PyT (T2 (zip_with (fun xr rows =>
                              zip_with (fun a n => a + InfBall.epsilon o * n) xr
                                       (l1_columns rows)) x t)))).
Proof.
  intros Hnu Hx Hshape. unfold InfBall.fval.
  rewrite Hnu. cbn [bind as_tensor tabs tmap sum_dim1]. rewrite Hx. cbn [bind].
  rewrite map_map.
  unfold pysub_t, pyadd_t, tsub, tadd, tbop, tscale, tmap.
  unfold bop2. rewrite !bzip_same_length
    by (rewrite !length_map; exact (Forall2_length_eq _ _ _ Hshape)).
  rewrite (zipM_Forall2 _ (zip_with Qminus)).
  2:{ rewrite map_map. clear - Hshape.
      induction Hshape as [|xr rows x t Hl _ IH]; simpl; constructor; auto.
      apply bop1_same_length.
      rewrite length_map. fold (l1_columns rows).
      now rewrite l1_columns_length. }
  cbn [bind].
  rewrite (zipM_Forall2 _ (zip_with Qplus)).
  2:{ rewrite map_map. clear - Hshape.
      induction Hshape as [|xr rows x t Hl _ IH]; simpl; constructor; auto.
      apply bop1_same_length.
      rewrite length_map. fold (l1_columns rows).
      now rewrite l1_columns_length. }
  cbn [bind]. rewrite !map_map.
  assert (Heq : forall (op op' : Q -> Q -> Q),
             (forall a n, op' a n = op a (InfBall.epsilon o * n)) ->
             zip_with (zip_with op) x
               (map (fun rows : list vec =>
                       map (Qmult (InfBall.epsilon o))
                           (map sumQ (transpose (map (map Qabs) rows)))) t) =
             zip_with (fun xr rows => zip_with op' xr (l1_columns rows)) x t).
  { intros op op' Hop. clear - Hop. revert t.
    induction x as [|xr x IH]; intros [|rows t]; simpl; auto.
    rewrite IH. f_equal. fold (l1_columns rows).
    rewrite zip_with_swap, zip_with_map_l, zip_with_swap.
    clear - Hop. revert xr.
    induction (l1_columns rows) as [|n l IHl]; intros [|a xr]; simpl; auto.
    now rewrite Hop, IHl. }
  pose proof (Heq Qminus (fun a n => a - InfBall.epsilon o * n)
                (fun _ _ => eq_refl)) as Hlo.
  pose proof (Heq Qplus (fun a n => a + InfBall.epsilon o * n)
                (fun _ _ => eq_refl)) as Hhi.
  unfold vec in *. rewrite Hlo, Hhi. reflexivity.
Qed.

Lemma batch_row_single {A : Type} (a : A) (b : nat) : batch_row [a] b = Some a.
Proof. reflexivity. Qed.

Lemma batch_row_many {A : Type} (t : list A) (b : nat) :
  length t <> 1%nat -> batch_row t b = nth_error t b.
Proof.
  intros H. unfold batch_row.
  now replace (length t =? 1)%nat with false by (symmetry; apply Nat.eqb_neq; lia).
Qed.

(** [InfBall.fval] without a direction, entry by entry: the L1 term of an
    entry is the sum of the absolute values of the column of the
    certificate. *)
Lemma InfBall_fval_l1_exact (o : InfBall.t) (nu_prev : option pyval)
  (t : list (list vec)) (xs : list vec) :
  py_last (InfBall.nu_1 o) = Ok (PyT (T3 t)) ->
  py_last (InfBall.nu_x o) = Ok (PyT (T2 xs)) ->
  (length t = 1 \/ length t = length xs)%nat ->
  (forall b xr rows,
      nth_error xs b = Some xr -> batch_row t b = Some rows ->
      length xr = features rows) ->
  exists lo hi,
    InfBall.fval o None nu_prev = Ok (Bounds (PyT (T2 lo)) (PyT (T2 hi))) /\
    forall b f a rows,
      at2 xs b f = Some a -> batch_row t b = Some rows ->
      exists l h,
        at2 lo b f = Some l /\ at2 hi b f = Some h /\
        l == a - InfBall.epsilon o
                 * sumQ (map (fun row => Qabs (nth f row 0)) rows) /\
        h == a + InfBall.epsilon o
                 * sumQ (map (fun row => Qabs (nth f row 0)) rows).
Proof.
  intros Hnu Hx Hlen Hshape.
  destruct (Nat.eq_dec (length t) 1) as [H1|H1].
  - destruct t as [|rows [|r2 t]]; try discriminate. clear Hlen H1.
    assert (Hall : Forall (fun xr => length xr = features rows) xs).
    { apply Forall_forall. intros xr Hin.
      destruct (In_nth_error _ _ Hin) as [b Hb].
      exact (Hshape b xr rows Hb (batch_row_single rows b)). }
    eexists _, _. split.
    + exact (InfBall_fval_bounds o nu_prev rows xs Hnu Hx Hall).
    + intros b f a rows' Ha Hr. rewrite batch_row_single in Hr.
      injection Hr as <-.
      destruct (at2_lt _ _ _ _ Ha) as [_ [row [Hrow Hlt]]].
      assert (Hf : (f < features rows)%nat).
      { rewrite Forall_forall in Hall. apply nth_error_In in Hrow.
        rewrite <- (Hall _ Hrow). exact Hlt. }
      eexists _, _. split; [|split; [|split]].
      * apply (at2_map_zip_with (fun a n => a - InfBall.epsilon o * n));
          [exact Ha | exact (l1_columns_nth rows f Hf)].
      * apply (at2_map_zip_with (fun a n => a + InfBall.epsilon o * n));
          [exact Ha | exact (l1_columns_nth rows f Hf)].
      * reflexivity.
      * reflexivity.
  - destruct Hlen as [Hlen|Hlen]; [contradiction|].
    assert (Hall : Forall2 (fun (xr : vec) rows => length xr = features rows) xs t).
    { clear - Hshape Hlen H1.
      assert (Hs : forall b xr rows,
                 nth_error xs b = Some xr -> nth_error t b = Some rows ->
                 length xr = features rows).
      { intros b xr rows Hb Hr. apply (Hshape b xr rows Hb).
        now rewrite batch_row_many. }
      clear Hshape H1. revert t Hlen Hs.
      induction xs as [|xr xs IH]; intros [|rows t] Hlen Hs;
        try discriminate; constructor.
      - exact (Hs 0%nat xr rows eq_refl eq_refl).
      - apply IH; [simpl in Hlen; lia|].
        intros b xr' rows' Hb Hr. exact (Hs (S b) xr' rows' Hb Hr). }
    eexists _, _. split.
    + exact (InfBall_fval_bounds_batch o nu_prev t xs Hnu Hx Hall).
    + intros b f a rows Ha Hr. rewrite batch_row_many in Hr by assumption.
      destruct (at2_lt _ _ _ _ Ha) as [_ [row [Hrow Hlt]]].
      destruct (Forall2_nth_error _ _ _ _ _ Hall Hrow) as [rows' [Hr' Hl]].
      pose proof (eq_trans (eq_sym Hr') Hr) as Heq. injection Heq as ->.
      assert (Hf : (f < features rows)%nat) by (rewrite <- Hl; exact Hlt).
      unfold at2 in Ha |- *. rewrite Hrow in Ha.
      rewrite !(nth_error_zip_with _ _ _ _ _ _ Hrow Hr).
      eexists _, _. split; [|split; [|split]].
      * exact (nth_error_zip_with (fun a n => a - InfBall.epsilon o * n) _ _ _ _ _
                 Ha (l1_columns_nth rows f Hf)).
      * exact (nth_error_zip_with (fun a n => a + InfBall.epsilon o * n) _ _ _ _ _
                 Ha (l1_columns_nth rows f Hf)).
      * reflexivity.
      * reflexivity.
Qed.

(** C5: whatever keyword arguments and sample stream are supplied, a chain
    that [DualNetBounds] builds starts with the exact [InfBall]
    representative of the ball around [X], whose histories start from [X]
    and the identity basis, and neither the chain nor the last layer holds an
    [InfBallProj].  The L1 terms of this head are exact sums of absolute
    values.  With a direction, a row [v] paired with its sample [x]
    contributes [- v.x - epsilon * sum_i |v_i|].  Without a direction, the
    bounds of an entry are the entry of the last element of [nu_x] minus and
    plus [epsilon] times the sum of the absolute values of its column in the
    last element of [nu_1]. *)
Theorem chain_starts_with_exact_InfBall (E : torch) (net : list layer)
  (X : list vec) (eps : Q) (kw : DualNetBounds.kwargs) (w w' : world)
  (self : DualNetBounds.t) :
  DualNetBounds.init E net X eps kw w = Ok (self, w') ->
  (exists ball rest,
      DualNetBounds.dual_net self = OpInfBall ball :: rest /\
      InfBall.epsilon ball = eps /\
      hd_error (InfBall.nu_x ball) = Some (PyT (T2 X)) /\
      hd_error (InfBall.nu_1 ball) = Some (PyT (T3 [eye (features X)])) /\
      (forall nu nu_prev,
          Forall2 (fun nb xb => Forall (fun row : vec => length row = length xb) nb)
                  nu X ->
          exists r,
            fval (OpInfBall ball) (Some (PyT (T3 nu))) nu_prev =
              Ok (Contrib (PyT (T2 r))) /\
            forall b j x v,
              nth_error X b = Some x -> at2 nu b j = Some v ->
              exists q,
                at2 r b j = Some q /\
                q == - dot v x - eps * sumQ (map Qabs v)) /\
      (forall nu_prev t xs,
          py_last (InfBall.nu_1 ball) = Ok (PyT (T3 t)) ->
          py_last (InfBall.nu_x ball) = Ok (PyT (T2 xs)) ->
          (length t = 1 \/ length t = length xs)%nat ->
          (forall b xr rows,
              nth_error xs b = Some xr -> batch_row t b = Some rows ->
              length xr = features rows) ->
          exists lo hi,
            fval (OpInfBall ball) None nu_prev =
              Ok (Bounds (PyT (T2 lo)) (PyT (T2 hi))) /\
            forall b f a rows,
              at2 xs b f = Some a -> batch_row t b = Some rows ->
              exists l h,
                at2 lo b f = Some l /\ at2 hi b f = Some h /\
                l == a - eps * sumQ (map (fun row => Qabs (nth f row 0)) rows) /\
                h == a + eps * sumQ (map (fun row => Qabs (nth f row 0)) rows))) /\
  Forall (fun op => is_InfBallProj op = false) (DualNetBounds.dual_net self) /\
  (forall l, DualNetBounds.last_layer self = Some l -> is_InfBallProj l = false).
Proof.
  intros H. unfold DualNetBounds.init in H.
  inv_bind H. inv_bind H. inv_bind H.
  assert (Hc : exact_chain X eps [OpInfBall a0]).
  { unfold InfBall.init in Ha0. destruct X as [|x0 X']; [discriminate|].
    injection Ha0 as <-. split; [simpl; auto | repeat constructor]. }
  destruct (init_loop_exact_chain _ _ X eps _ _ _ _ _ _ _ _ _ _ H Hc)
    as [[Hhd Hall] Hlast]; [discriminate|].
  repeat split; auto.
  destruct (DualNetBounds.dual_net self) as [|first rest]; [contradiction|].
  destruct first; simpl in Hhd; try contradiction.
  exists o, rest. destruct Hhd as (He & Hx & H1).
  split; [reflexivity|]. split; [exact He|]. split; [exact Hx|].
  split; [exact H1|]. split.
  - intros nu nu_prev Hshape.
    apply (exact_ball_direction_value o X eps nu nu_prev); [|exact Hshape].
    simpl. auto.
  - intros nu_prev t xs Hn1 Hnx Hlen Hshape. rewrite <- He.
    exact (InfBall_fval_l1_exact o nu_prev t xs Hn1 Hnx Hlen Hshape).
Qed.

Lemma chain_starts_with_exact_InfBall_witness :
  exists self w',
    DualNetBounds.init Example.E Example.net Example.X Example.epsilon
      Example.kw Example.w0 = Ok (self, w') /\
    (exists ball rest,
        DualNetBounds.dual_net self = OpInfBall ball :: rest /\
        InfBall.epsilon ball = Example.epsilon) /\
    Forall (fun op => is_InfBallProj op = false) (DualNetBounds.dual_net self).
Proof.
  destruct (DualNetBounds.init Example.E Example.net Example.X Example.epsilon
              Example.kw Example.w0) as [[self w']|] eqn:Hinit;
    [|vm_compute in Hinit; discriminate].
  exists self, w'. split; [reflexivity|].
  destruct (chain_starts_with_exact_InfBall _ _ _ _ _ _ _ _ Hinit)
    as [(ball & rest & Hd & He & _) [Hall _]].
  split; [exists ball, rest; auto | exact Hall].
Defined.


(** ** Construction without samples does not depend on the sample stream *)

Lemma relu_dual_layer_any_world (E : torch) (kw : DualNetBounds.kwargs)
  (dn : list operator) (w w1 : world) (op : operator) :
  DualNetBounds.l1_proj kw = None \/ DualNetBounds.l1_type kw <> "median"%string ->
  DualNetBounds.relu_dual_layer E kw dn w = Ok (op, w1) ->
  forall w2, DualNetBounds.relu_dual_layer E kw dn w2 = Ok (op, w2).
Proof.
  intros Hkw H w2. unfold DualNetBounds.relu_dual_layer in *.
  repeat match goal with
         | H : bind ?r _ = Ok _ |- _ =>
             destruct r; cbn [bind] in H |- *; [|discriminate]
         end.
  destruct (DualNetBounds.l1_proj kw) as [k|].
  - destruct Hkw as [Hkw|Hkw]; [discriminate|].
    apply String.eqb_neq in Hkw. rewrite Hkw in *. cbn [andb] in *.
    destruct (DualReLU.init _ _ _); cbn [bind] in *; [|discriminate].
    now injection H as <- _.
  - destruct (DualReLU.init _ _ _); cbn [bind] in *; [|discriminate].
    now injection H as <- _.
Qed.

Lemma make_dual_layer_any_world (E : torch) (kw : DualNetBounds.kwargs)
  (zs : list (list vec)) (dense_t : option (list layer))
  (i in_f out_f : nat) (layer : layer) (dn dn1 : list operator)
  (w w1 : world) (dl : operator) :
  DualNetBounds.l1_proj kw = None \/ DualNetBounds.l1_type kw <> "median"%string ->
  DualNetBounds.make_dual_layer E kw zs dense_t i in_f out_f layer dn w =
    Ok (dl, dn1, w1) ->
  forall w2,
    DualNetBounds.make_dual_layer E kw zs dense_t i in_f out_f layer dn w2 =
      Ok (dl, dn1, w2).
Proof.
  intros Hkw H w2. unfold DualNetBounds.make_dual_layer in *.
  destruct layer.
  - destruct (DualLinear.init _ _ _); cbn [bind] in *; [|discriminate].
    now injection H as <- <- _.
  - destruct (DualConv2d.init _ _ _); cbn [bind] in *; [|discriminate].
    now injection H as <- <- _.
  - destruct (DualNetBounds.relu_dual_layer E kw dn w) as [[o w3]|] eqn:Hr;
      cbn [bind] in H; [|discriminate].
    injection H as <- <- _.
    now rewrite (relu_dual_layer_any_world E kw dn w w3 o Hkw Hr w2).
  - destruct (is_Flatten _); [|discriminate]. now injection H as <- <- _.
  - destruct (is_Flatten _); [now injection H as <- <- _|].
    destruct dense_t as [ts|]; [|discriminate].
    destruct (nth_error ts i) as [lt|]; [|discriminate].
    destruct (is_Dense lt); [|discriminate].
    destruct (DualDense_init _ _ _ _ _) as [[o net']|]; cbn [bind] in *;
      [|discriminate].
    now injection H as <- <- _.
  - destruct (is_Flatten _); [now injection H as <- <- _|].
    destruct (nth_error zs i); [|discriminate].
    destruct (DualBatchNorm2d.init _ _ _ _); cbn [bind] in *; [|discriminate].
    now injection H as <- <- _.
  - destruct (is_Flatten _); [|discriminate]. now injection H as <- <- _.
Qed.

Lemma init_loop_any_world (E : torch) (kw : DualNetBounds.kwargs)
  (zs : list (list vec)) (dense_t : option (list layer)) (len_net : nat)
  (todo : list (nat * nat * layer)) :
  DualNetBounds.l1_proj kw = None \/ DualNetBounds.l1_type kw <> "median"%string ->
  forall i dn last w self w1,
    DualNetBounds.init_loop E kw zs dense_t len_net i todo dn last w =
      Ok (self, w1) ->
    forall w2,
      DualNetBounds.init_loop E kw zs dense_t len_net i todo dn last w2 =
        Ok (self, w2).
Proof.
  intros Hkw.
  induction todo as [|[[in_f out_f] layer] todo IH]; simpl;
    intros i dn last w self w1 H w2.
  - now injection H as <- _.
  - destruct (DualNetBounds.make_dual_layer E kw zs dense_t i in_f out_f layer
                dn w) as [[[dl dn1] w3]|] eqn:Hm; cbn [bind] in H;
      [|discriminate].
    rewrite (make_dual_layer_any_world _ _ _ _ _ _ _ _ _ _ _ _ _ Hkw Hm w2).
    cbn [bind].
    destruct (i <? len_net - 1)%nat.
    + destruct (mapM _ dn1) as [dn2|]; cbn [bind] in *; [|discriminate].
      eapply IH; eauto.
    + eapply IH; eauto.
Qed.

Lemma init_any_world (E : torch) (net : list layer) (X : list vec) (eps : Q)
  (kw : DualNetBounds.kwargs) (w w1 : world) (self : DualNetBounds.t) :
  DualNetBounds.l1_proj kw = None \/ DualNetBounds.l1_type kw <> "median"%string ->
  DualNetBounds.init E net X eps kw w = Ok (self, w1) ->
  forall w2, DualNetBounds.init E net X eps kw w2 = Ok (self, w2).
Proof.
  intros Hkw H w2. unfold DualNetBounds.init in *.
  destruct (DualNetBounds.forward_pass E net [X]); cbn [bind] in *;
    [|discriminate].
  destruct (InfBall.init X eps); cbn [bind] in *; [|discriminate].
  destruct (if existsb is_Dense net then _ else _); cbn [bind] in *;
    [|discriminate].
  eapply init_loop_any_world; eauto.
Qed.

(** C8: an evaluation of [g] that returns leaves the chain as it found it:
    every operator of [dual_net] and [last_layer] is the object the method
    bodies were run on, attribute by attribute.  Evaluating a sequence of
    objectives on one chain therefore gives what evaluating every objective
    on this chain gives, errors included.  These are the values of a chain
    built afresh from the same state of the sample stream, and, when the
    construction draws no sample (no [l1_proj], or an [l1_type] other than
    ["median"]), of a chain built afresh in any state. *)
Theorem g_leaves_chain_unchanged (E : torch) (net : list layer) (X : list vec)
  (eps : Q) (kw : DualNetBounds.kwargs) (w w' : world) (self : DualNetBounds.t) :
  DualNetBounds.init E net X eps kw w = Ok (self, w') ->
  (forall c self1 v, DualNetBounds.g E self c = Ok (self1, v) -> self1 = self) /\
  (forall cs,
      DualNetBounds.g_all E self cs =
      (vs <- mapM (DualNetBounds.g_value E self) cs ;; Ok (self, vs))) /\
  (forall cs,
      DualNetBounds.g_all E self cs =
      (vs <- mapM (fun c =>
                     fresh <- DualNetBounds.init E net X eps kw w ;;
                     DualNetBounds.g_value E (fst fresh) c) cs ;;
       Ok (self, vs))) /\
  (DualNetBounds.l1_proj kw = None \/
   DualNetBounds.l1_type kw <> "median"%string ->
   forall w2 cs,
     DualNetBounds.g_all E self cs =
     (vs <- mapM (fun c =>
                    fresh <- DualNetBounds.init E net X eps kw w2 ;;
                    DualNetBounds.g_value E (fst fresh) c) cs ;;
      Ok (self, vs))).
Proof.
  intros Hinit. split; [|split; [|split]].
  - intros c self1 v. apply g_same.
  - intros cs. apply g_all_same.
  - intros cs. rewrite g_all_same. rewrite Hinit. reflexivity.
  - intros Hkw w2 cs. rewrite g_all_same.
    rewrite (init_any_world E net X eps kw w w' self Hkw Hinit w2).
    reflexivity.
Qed.

Lemma g_leaves_chain_unchanged_witness :
  exists self w',
    DualNetBounds.init Example.E Example.net Example.X Example.epsilon
      Example.kw Example.w0 = Ok (self, w') /\
    DualNetBounds.g_all Example.E self [Example.c; Example.c] =
    (vs <- mapM (DualNetBounds.g_value Example.E self) [Example.c; Example.c] ;;
     Ok (self, vs)).
Proof.
  destruct (DualNetBounds.init Example.E Example.net Example.X Example.epsilon
              Example.kw Example.w0) as [[self w']|] eqn:Hinit;
    [|vm_compute in Hinit; discriminate].
  exists self, w'. split; [reflexivity|].
  apply (g_leaves_chain_unchanged _ _ _ _ _ _ _ _ Hinit).
Defined.

(** C8 as stated fails for a chain with randomized relaxations: a chain
    built afresh draws new samples.  On the network of [RandomExample], the
    chain built first and the chain built after it, in the state of the
    sample stream the first construction leaves, give different bounds for
    the same objective. *)
Lemma fresh_chain_draws_new_samples :
  exists self w1 fresh w2 q1 q2,
    DualNetBounds.init Example.E RandomExample.net RandomExample.X 1
      RandomExample.kw Example.w0 = Ok (self, w1) /\
    DualNetBounds.init Example.E RandomExample.net RandomExample.X 1
      RandomExample.kw w1 = Ok (fresh, w2) /\
    DualNetBounds.g_all Example.E self [RandomExample.c] =
      Ok (self, [PyT (T2 [[q1]])]) /\
    DualNetBounds.g_value Example.E fresh RandomExample.c =
      Ok (PyT (T2 [[q2]])) /\
    ~ q1 == q2.
Proof.
  do 6 eexists.
  split; [vm_compute; reflexivity|].
  split; [vm_compute; reflexivity|].
  split; [vm_compute; reflexivity|].
  split; [vm_compute; reflexivity|].
  intros H. vm_compute in H. discriminate.
Qed.
